(** * bmpsss: (k, n) threshold image sharing over GF(251)

    A shallow embedding of [src/src/bmpsss.c] and of the helper [mod] of
    [src/src/util.c], followed by the properties established about them.

    Conventions of the embedding.
    - C integers are mathematical integers ([Z]) with the wrap-around of
      their type written out where the code computes in that type.
    - [uint8_t] buffers ([imgpixels], [palette]) are [list Z]; cells are
      read with [!!!] and written with [<[i:=v]>].  A write past the end of
      a buffer, undefined in C, leaves the list unchanged.
    - [double] values are [spec_float] at binary64 (precision 53, emax 1024)
      with the IEEE operations of [SpecFloat].
    - the C library generator ([srand], [rand], [RAND_MAX]) is not part of
      the repository; it is an interface, [LibcRand]. *)

From Stdlib Require Import ZArith Lia Bool SpecFloat Morphisms Setoid.
From stdpp Require Import base tactics option list numbers strings.

Local Open Scope Z_scope.

(** ** C arithmetic *)

(** Conversions to the fixed-width integer types. *)
Definition to_uint8 (z : Z) : Z := z mod 256.
Definition to_uint16 (z : Z) : Z := z mod 65536.
Definition to_uint32 (z : Z) : Z := z mod 4294967296.
Definition to_int32 (z : Z) : Z := (z + 2147483648) mod 4294967296 - 2147483648.

(** Arithmetic of type [int].  Overflow of a signed operation is undefined
    in C; the embedding gives it the two's complement result. *)
Definition int_mul (a b : Z) : Z := to_int32 (a * b).
Definition int_sub (a b : Z) : Z := to_int32 (a - b).
Definition int_add (a b : Z) : Z := to_int32 (a + b).

(** [a % b] of C truncates towards zero. *)
Definition int_rem (a b : Z) : Z := Z.rem a b.

(** ** Doubles *)

Definition double : Type := spec_float.

Definition d_prec : Z := 53.
Definition d_emax : Z := 1024.

(** Conversion of an integer to [double], rounding to nearest even. *)
Definition double_of_Z (z : Z) : double := binary_normalize d_prec d_emax z 0 false.

Definition d_add : double -> double -> double := SFadd d_prec d_emax.
Definition d_mul : double -> double -> double := SFmul d_prec d_emax.
Definition d_div : double -> double -> double := SFdiv d_prec d_emax.
Definition d_sqrt : double -> double := SFsqrt d_prec d_emax.

(** Truncation towards zero of a finite double; [None] for NaN and the
    infinities. *)
Definition trunc_double (d : double) : option Z :=
  match d with
  | S754_zero _ => Some 0
  | S754_finite s m e =>
      let v := if 0 <=? e then Z.pos m * 2 ^ e else Z.pos m / 2 ^ (- e) in
      Some (if s then - v else v)
  | _ => None
  end.

(** Conversion of a double to a signed integer type of [bits] bits, which
    is undefined in C when the truncated value does not fit. *)
Definition signed_of_double (bits : Z) (d : double) : option Z :=
  match trunc_double d with
  | Some v => if (- 2 ^ (bits - 1) <=? v) && (v <? 2 ^ (bits - 1)) then Some v else None
  | None => None
  end.

(** [(long) d], with 0 standing for the undefined cases. *)
Definition long_of_double (d : double) : Z := default 0 (signed_of_double 64 d).

(** [floor] of libm. *)
Definition d_floor (d : double) : double :=
  match d with
  | S754_finite s m e =>
      if 0 <=? e then d
      else double_of_Z ((if s then Z.neg m else Z.pos m) / 2 ^ (- e))
  | _ => d
  end.

(** [pow] of libm on integer arguments.

    Modelled from the spec: libm is not part of the repository; [pow] is
    taken to return the correctly rounded power, which is the exact power
    whenever that is a double. *)
Definition d_pow (x : Z) (i : Z) : double := double_of_Z (x ^ i).

(** ** util.c *)

(** [int mod(int a, int b)]: the remainder brought into [0, b). *)
Definition c_mod (a b : Z) : Z :=
  let m := int_rem a b in
  if m <? 0 then int_add m b else m.

(** ** Constants and the inverse table *)

Definition BMP_HEADER_SIZE : Z := 14.
Definition DIB_HEADER_SIZE : Z := 40.
Definition PALETTE_SIZE : Z := 1024.
Definition PIXEL_ARRAY_OFFSET : Z := BMP_HEADER_SIZE + DIB_HEADER_SIZE + PALETTE_SIZE.
Definition BITS_PER_PIXEL : Z := 8.
Definition PRIME : Z := 251.
Definition DEFAULT_SEED : Z := 691.
Definition UINT16_MAX : Z := 65535.

Definition RIGHTMOST_BIT_ON (x : Z) : Z := to_uint8 (Z.lor x 1).
Definition RIGHTMOST_BIT_OFF (x : Z) : Z := to_uint8 (Z.land x 254).

(** [static const uint8_t modinv[PRIME]]. *)
Definition modinv : list Z :=
  [ 0; 1; 126; 84; 63; 201; 42; 36; 157; 28; 226; 137; 21; 58; 18; 67; 204;
    192; 14; 185; 113; 12; 194; 131; 136; 241; 29; 93; 9; 26; 159; 81; 102;
    213; 96; 208; 7; 95; 218; 103; 182; 49; 6; 216; 97; 106; 191; 235; 68; 41;
    246; 64; 140; 90; 172; 178; 130; 229; 13; 234; 205; 107; 166; 4; 51; 112;
    232; 15; 48; 211; 104; 99; 129; 196; 173; 164; 109; 163; 177; 197; 91; 31;
    150; 124; 3; 189; 108; 176; 174; 110; 53; 80; 221; 27; 243; 37; 34; 44;
    146; 71; 123; 169; 32; 39; 70; 153; 45; 61; 86; 76; 89; 199; 65; 20; 240;
    227; 132; 118; 117; 135; 228; 195; 179; 100; 83; 249; 2; 168; 151; 72; 56;
    23; 116; 134; 133; 119; 24; 11; 231; 186; 52; 162; 175; 165; 190; 206; 98;
    181; 212; 219; 82; 128; 180; 105; 207; 217; 214; 8; 224; 30; 171; 198; 141;
    77; 75; 143; 62; 248; 127; 101; 220; 160; 54; 74; 88; 142; 87; 78; 55; 122;
    152; 147; 40; 203; 236; 19; 139; 200; 247; 85; 144; 46; 17; 238; 22; 121;
    73; 79; 161; 111; 187; 5; 210; 183; 16; 60; 145; 154; 35; 245; 202; 69;
    148; 33; 156; 244; 43; 155; 38; 149; 170; 92; 225; 242; 158; 222; 10; 115;
    120; 57; 239; 138; 66; 237; 59; 47; 184; 233; 193; 230; 114; 25; 223; 94;
    215; 209; 50; 188; 167; 125; 250 ].

(** [modinv[a]]; a read outside the table, undefined in C, gives 0. *)
Definition modinv_at (a : Z) : Z :=
  if (0 <=? a) && (a <? PRIME) then modinv !!! Z.to_nat a else 0.

(** ** The C library generator *)

(** [srand] installs a generator state, [rand] draws from it.  The state is
    global in C and is threaded explicitly here. *)
Class LibcRand : Type := {
  RAND_MAX : Z;
  rand_state : Type;
  srand : Z -> rand_state;
  rand : rand_state -> Z * rand_state
}.

(** What the C standard guarantees of [rand], with [RAND_MAX + 1] a power
    of two as in the usual C libraries (2^15 or 2^31). *)
Class LibcRandOk (L : LibcRand) : Prop := {
  RAND_MAX_pow2 : exists b, 15 <= b <= 31 /\ RAND_MAX + 1 = 2 ^ b;
  rand_range : forall st, 0 <= fst (rand st) <= RAND_MAX
}.

(** Modelled from the spec: section 4.2 names "the classic rand()", the
    linear congruential generator of the C standard, which is not part of
    the repository. *)
Definition classic_rand : LibcRand := {|
  RAND_MAX := 32767;
  rand_state := Z;
  srand := fun seed => seed;
  rand := fun next =>
    let next' := to_uint32 (next * 1103515245 + 12345) in
    ((next' / 65536) mod 32768, next')
|}.

Section Prng.
Context {L : LibcRand}.

(** [long randint(long max)]: a number in [0, max]. *)
Definition randint (st : rand_state) (max : Z) : Z * rand_state :=
  let '(r, st') := rand st in
  let normalizedrand := d_div (double_of_Z r) (d_add (double_of_Z RAND_MAX) (double_of_Z 1)) in
  (long_of_double (d_mul normalizedrand (double_of_Z (max + 1))), st').

(** [swap(&p[s], &p[t])]. *)
Definition swap (p : list Z) (s t : nat) : list Z :=
  let temp := p !!! s in
  <[t := temp]> (<[s := p !!! t]> p).

(** The loop of [permutepixels], for [imgsize >= 1]: [i] runs from
    [imgsize - 1] down to 2. *)
Definition permute_loop (st : rand_state) (p : list Z) (imgsize : nat) : rand_state * list Z :=
  fold_left
    (fun '(st, p) i =>
       let '(j, st') := randint st (Z.of_nat i) in
       (st', swap p (Z.to_nat j) i))
    (rev (seq 2 (imgsize - 2))) (st, p).

(** The first loop of [unpermutepixels], for [imgsize >= 1]:
    [permseq[i] = randint(i)] for [i] from [imgsize - 1] down to 1.
    [permseq] comes from [xmalloc]; its cell 0 is never written or read. *)
Definition draw_permseq (st : rand_state) (imgsize : nat) : rand_state * list Z :=
  fold_left
    (fun '(st, permseq) i =>
       let '(j, st') := randint st (Z.of_nat i) in
       (st', <[i := j]> permseq))
    (rev (seq 1 (imgsize - 1))) (st, replicate imgsize 0).

(** The second loop of [unpermutepixels]: [i] runs from 1 up to
    [imgsize - 2]. *)
Definition unpermute_loop (permseq : list Z) (p : list Z) (imgsize : nat) : list Z :=
  fold_left
    (fun p i => let j := permseq !!! i in swap p (Z.to_nat j) i)
    (seq 1 (imgsize - 2)) p.
End Prng.

(** ** Bitmaps *)

Record BMPheader : Type := {
  bmp_id : Z * Z;      (* magic number *)
  bmp_size : Z;        (* size of the BMP file in bytes *)
  bmp_unused1 : Z;     (* key (seed) *)
  bmp_unused2 : Z;     (* shadow number *)
  bmp_offset : Z       (* starting address of the pixel array *)
}.

Record DIBheader : Type := {
  dib_size : Z;
  dib_width : Z;
  dib_height : Z;
  dib_nplanes : Z;
  dib_depth : Z;
  dib_compression : Z;
  dib_pixelarraysize : Z;
  dib_hres : Z;
  dib_vres : Z;
  dib_ncolors : Z;
  dib_nimpcolors : Z
}.

Record Bitmap : Type := {
  bmpheader : BMPheader;
  dibheader : DIBheader;
  palette : list Z;
  imgpixels : list Z
}.

Definition set_imgpixels (bp : Bitmap) (px : list Z) : Bitmap :=
  {| bmpheader := bmpheader bp; dibheader := dibheader bp;
     palette := palette bp; imgpixels := px |}.

Definition set_unused (bp : Bitmap) (u1 u2 : Z) : Bitmap :=
  {| bmpheader :=
       {| bmp_id := bmp_id (bmpheader bp); bmp_size := bmp_size (bmpheader bp);
          bmp_unused1 := u1; bmp_unused2 := u2;
          bmp_offset := bmp_offset (bmpheader bp) |};
     dibheader := dibheader bp; palette := palette bp; imgpixels := imgpixels bp |}.

(** [calculatepixelarraysize]: rows are padded to a multiple of four bytes;
    the arithmetic is that of [uint32_t]. *)
Definition calculatepixelarraysize (width height : Z) : Z :=
  to_uint32 (to_uint32 (to_uint32 (to_uint32 (BITS_PER_PIXEL * width) + 31) / 32 * 4) * to_uint32 height).

Definition bmpimagesize (bp : Bitmap) : Z :=
  let sz := bmp_size (bmpheader bp) in
  if 0 <? sz then to_uint32 (bmp_size (bmpheader bp) - bmp_offset (bmpheader bp))
  else dib_pixelarraysize (dibheader bp).

(** [initpalette]: the 256 grey levels, four bytes each. *)
Definition initpalette : list Z :=
  flat_map (fun i => [Z.of_nat i; Z.of_nat i; Z.of_nat i; 0]) (seq 0 256).

(** [newbitmaphelper].  The pixel array comes from [xmalloc] and holds
    indeterminate bytes; the embedding starts it at zero. *)
Definition newbitmaphelper (width height seed shadnum pixelarraysize : Z) : Bitmap :=
  {| bmpheader :=
       {| bmp_id := (66, 77);
          bmp_size := to_uint32 (PIXEL_ARRAY_OFFSET + pixelarraysize);
          bmp_unused1 := seed;
          bmp_unused2 := shadnum;
          bmp_offset := PIXEL_ARRAY_OFFSET |};
     dibheader :=
       {| dib_size := DIB_HEADER_SIZE;
          dib_width := width;
          dib_height := height;
          dib_nplanes := 1;
          dib_depth := BITS_PER_PIXEL;
          dib_compression := 0;
          dib_pixelarraysize := pixelarraysize;
          dib_hres := 0;
          dib_vres := 0;
          dib_ncolors := 0;
          dib_nimpcolors := 0 |};
     palette := initpalette;
     imgpixels := replicate (Z.to_nat pixelarraysize) 0 |}.

Definition newbitmap (width height seed : Z) : Bitmap :=
  let pixelarraysize := calculatepixelarraysize width height in
  newbitmaphelper width height seed 0 pixelarraysize.

Definition newshadow (width height seed shadownumber : Z) : Bitmap :=
  newbitmaphelper width height seed shadownumber (to_uint32 (width * height)).

(** [truncategrayscale]: every pixel above 250 becomes 250. *)
Definition truncategrayscale (bp : Bitmap) : Bitmap :=
  let imgsize := bmpimagesize bp in
  set_imgpixels bp
    (fold_left
       (fun px i => if 250 <? px !!! i then <[i := 250]> px else px)
       (seq 0 (Z.to_nat imgsize)) (imgpixels bp)).

Section PrngBitmap.
Context {L : LibcRand}.

Definition permutepixels (bp : Bitmap) (seed : Z) : Bitmap :=
  let imgsize := bmpimagesize bp in
  set_imgpixels bp (snd (permute_loop (srand seed) (imgpixels bp) (Z.to_nat imgsize))).

Definition unpermutepixels (bp : Bitmap) (seed : Z) : Bitmap :=
  let imgsize := Z.to_nat (bmpimagesize bp) in
  let permseq := snd (draw_permseq (srand seed) imgsize) in
  set_imgpixels bp (unpermute_loop permseq (imgpixels bp) imgsize).
End PrngBitmap.


(** ** Shadow formation *)

(** The loop of [findclosestpair]: [y] counts down while [y > 2].  [fuel]
    bounds the number of iterations; [Z.to_nat y] is always enough. *)
Fixpoint findclosestpair_loop (fuel : nat) (x y width height : Z) : Z * Z :=
  match fuel with
  | O => (width, height)
  | S fuel' =>
      if 2 <? y then
        if x mod y =? 0 then (y, to_int32 (x / y))
        else findclosestpair_loop fuel' x (y - 1) width height
      else (width, height)
  end.

(** [findclosestpair(x, &width, &height)].  The two out-parameters are
    passed in and returned: the result holds what [*width] and [*height]
    contain after the call. *)
Definition findclosestpair (x width height : Z) : Z * Z :=
  let y := to_uint32 (default 0 (trunc_double (d_floor (d_sqrt (double_of_Z x))))) in
  findclosestpair_loop (Z.to_nat y) x y width height.

(** [generatepixel(coeff, degree, value)].  [ret] is an [intmax_t]; each
    [ret += coeff[i] * pow(value, i)] is computed in [double] and converted
    back, which is undefined ([None]) when the sum leaves the range of
    [intmax_t]. *)
Definition generatepixel (coeff : list Z) (degree value : Z) : option Z :=
  ret ← fold_left
          (fun ret i =>
             r ← ret;
             signed_of_double 64
               (d_add (double_of_Z r)
                      (d_mul (double_of_Z (coeff !!! i)) (d_pow value (Z.of_nat i)))))
          (seq 0 (Z.to_nat degree + 1)) (Some 0);
  Some (to_uint8 (int_rem ret PRIME)).

#[global] Instance Bitmap_inhabited : Inhabited Bitmap :=
  populate (newbitmaphelper 0 0 0 0 0).

(** [shadows[i]->imgpixels[j] = v]. *)
Definition set_shadow_pixel (shadows : list Bitmap) (i j : nat) (v : Z) : list Bitmap :=
  let sp := shadows !!! i in
  <[i := set_imgpixels sp (<[j := v]> (imgpixels sp))]> shadows.

(** [formshadows(bp, k, n, seed)].  [width0] and [height0] are the values the
    uninitialised locals [width] and [height] hold before
    [findclosestpair] is called. *)
Definition formshadows (bp : Bitmap) (k n seed : Z) (width0 height0 : Z) : option (list Bitmap) :=
  let pixelarraysize := bmpimagesize bp in
  let '(width, height) := findclosestpair (pixelarraysize / k) width0 height0 in
  let shadows :=
    map (fun i => newshadow width height seed (to_uint16 (Z.of_nat i + 1)))
        (seq 0 (Z.to_nat n)) in
  fold_left
    (fun acc j =>
       let coeff := drop (j * Z.to_nat k) (imgpixels bp) in
       fold_left
         (fun acc i =>
            shadows ← acc;
            v ← generatepixel coeff (to_uint16 (k - 1)) (to_uint16 (Z.of_nat i + 1));
            Some (set_shadow_pixel shadows i j v))
         (seq 0 (Z.to_nat n)) acc)
    (seq 0 (Z.to_nat ((pixelarraysize + k - 1) / k))) (Some shadows).

(** ** The solver *)

(** [int **mat]: [k] rows of [k + 1] cells. *)
Abbreviation matrix := (list (list Z)).

Definition mget (mat : matrix) (i t : nat) : Z := (mat !!! i) !!! t.

Definition mset (mat : matrix) (i t : nat) (v : Z) : matrix :=
  <[i := <[t := v]> (mat !!! i)]> mat.

(** Innermost loop of the first phase: [t] from [j] to [k]. *)
Definition eliminate_row (a : Z) (j i k : nat) (mat : matrix) : matrix :=
  fold_left
    (fun mat t =>
       let temp := int_sub (mget mat i t) (int_rem (int_mul (mget mat (i - 1) t) a) PRIME) in
       mset mat i t (c_mod temp PRIME))
    (seq j (k + 1 - j)) mat.

(** Middle loop of the first phase: [i] from [k - 1] down to [j + 1]. *)
Definition eliminate_column (j k : nat) (mat : matrix) : matrix :=
  fold_left
    (fun mat i =>
       let a := int_mul (mget mat i j) (modinv_at (mget mat (i - 1) j)) in
       eliminate_row a j i k mat)
    (rev (seq (j + 1) (k - 1 - j))) mat.

(** First phase, "take matrix to echelon form": [j] from 0 to [k - 2]. *)
Definition echelon (k : nat) (mat : matrix) : matrix :=
  fold_left (fun mat j => eliminate_column j k mat) (seq 0 (k - 1)) mat.

(** Inner loop of the second phase: [t] from [i - 1] down to 0. *)
Definition clear_above (i k : nat) (mat : matrix) : matrix :=
  fold_left
    (fun mat t =>
       let temp := int_sub (mget mat t k) (int_rem (int_mul (mget mat i k) (mget mat t i)) PRIME) in
       mset (mset mat t k (c_mod temp PRIME)) t i 0)
    (rev (seq 0 i)) mat.

(** One iteration of the second phase. *)
Definition reduce_row (i k : nat) (mat : matrix) : matrix :=
  let mat1 := mset mat i k (int_rem (int_mul (mget mat i k) (modinv_at (mget mat i i))) PRIME) in
  let mat2 := mset mat1 i i (int_rem (int_mul (mget mat1 i i) (modinv_at (mget mat1 i i))) PRIME) in
  clear_above i k mat2.

(** Second phase, "take matrix to reduced row echelon form": [i] from
    [k - 1] down to 1. *)
Definition reduce (k : nat) (mat : matrix) : matrix :=
  fold_left (fun mat i => reduce_row i k mat) (rev (seq 1 (k - 1))) mat.

(** [findcoefficients(mat, k)], for [k >= 1]. *)
Definition findcoefficients (mat : matrix) (k : nat) : matrix :=
  reduce k (echelon k mat).

(** The row that [revealsecret] builds for shadow [sp] and pixel [i]:
    [1, x, x*x, ...] computed by repeated multiplication in [int], then the
    shadow's pixel. *)
Definition vandermonde_row (sp : Bitmap) (k i : nat) : list Z :=
  let x := bmp_unused2 (bmpheader sp) in
  1 :: fst (fold_left
              (fun '(row, value) _ => (row ++ [value], int_mul value x))
              (seq 1 (k - 1)) ([], x))
    ++ [imgpixels sp !!! i].

(** [revealsecret(shadows, width, height, k)]. *)
Definition revealsecret (shadows : list Bitmap) (width height : Z) (k : nat) : Bitmap :=
  let first := shadows !!! 0%nat in
  let pixels := dib_pixelarraysize (dibheader first) in
  let bmp := newbitmap width height (bmp_unused1 (bmpheader first)) in
  set_imgpixels bmp
    (fold_left
       (fun px i =>
          let mat := map (fun j => vandermonde_row (shadows !!! j) k i) (seq 0 k) in
          let mat := findcoefficients mat k in
          fold_left
            (fun px j => <[j := to_uint8 (mget mat (j mod k)%nat k)]> px)
            (seq (i * k) k) px)
       (seq 0 (Z.to_nat pixels)) (imgpixels bmp)).

(** ** Steganography *)

(** The inner loop of [hideshadow] for shadow byte number [i]. *)
Definition hide_byte (i : nat) (byte : Z) (px : list Z) : list Z :=
  snd (fold_left
         (fun '(byte, px) j =>
            (to_uint8 (Z.shiftl byte 1),
             if Z.land byte 128 =? 0
             then <[j := RIGHTMOST_BIT_OFF (px !!! j)]> px
             else <[j := RIGHTMOST_BIT_ON (px !!! j)]> px))
         (seq (i * 8) 8) (byte, px)).

(** The outer loop of [hideshadow], over the first [pixels] bytes [spx] of
    the shadow. *)
Definition hide_loop (spx : list Z) (pixels : nat) (px : list Z) : list Z :=
  fold_left (fun px i => hide_byte i (spx !!! i) px) (seq 0 pixels) px.

(** [hideshadow(bp, shadow)]: the carrier as it is written to
    [shadow<N>.bmp]. *)
Definition hideshadow (bp shadow : Bitmap) : Bitmap :=
  let pixels := bmpimagesize shadow in
  let bp := set_unused bp (bmp_unused1 (bmpheader shadow)) (bmp_unused2 (bmpheader shadow)) in
  set_imgpixels bp (hide_loop (imgpixels shadow) (Z.to_nat pixels) (imgpixels bp)).

(** The inner loop of [retrieveshadow] for shadow byte number [i]. *)
Definition retrieve_byte (i : nat) (px : list Z) : Z :=
  fst (fold_left
         (fun '(byte, mask) j =>
            (if Z.land (px !!! j) 1 =? 0 then byte else Z.lor byte mask,
             Z.shiftr mask 1))
         (seq (i * 8) 8) (0, 128)).

(** [retrieveshadow(bp, width, height, k)]. *)
Definition retrieveshadow (bp : Bitmap) (width height k : Z) : Bitmap :=
  let key := bmp_unused1 (bmpheader bp) in
  let shadownumber := bmp_unused2 (bmpheader bp) in
  let '(width, height) :=
    findclosestpair (calculatepixelarraysize width height / k) width height in
  let shadow := newshadow width height key shadownumber in
  let shadowpixels := dib_pixelarraysize (dibheader shadow) in
  set_imgpixels shadow
    (fold_left
       (fun spx i => <[i := retrieve_byte i (imgpixels bp)]> spx)
       (seq 0 (Z.to_nat shadowpixels)) (imgpixels shadow)).

(** ** Command line *)

(** What [main] has collected once the argument loop is over. *)
Record options : Type := {
  dflag : bool; rflag : bool; kflag : bool; wflag : bool; hflag : bool;
  nflag : bool; secretflag : bool;
  opt_seed : Z; opt_k : Z; opt_n : Z; opt_width : Z; opt_height : Z
}.

Inductive fatal : Type :=
  | Usage              (* usage() *)
  | OutOfRange         (* a number that does not fit its variable *)
  | BadDimensions      (* "specify a positive width and height ..." *)
  | BadThreshold       (* "k and n must be: 2 <= k <= n" *)
  | BothModes.         (* "can't use -d and -r flags simultaneously" *)

Inductive action : Type :=
  | Distribute (k n seed : Z)
  | Recover (width height k : Z).

(** The branches [-k] and [-n] of the argument loop, on the number [l] that
    [xstrtol] returned: stored in a [uint16_t] unless above [UINT16_MAX]. *)
Definition parse_uint16 (l : Z) : fatal + Z :=
  if l <=? UINT16_MAX then inr (to_uint16 l) else inl OutOfRange.

(** The checks of [main] after the argument loop; [nfiles] is what
    [countfiles(dir)] returns. *)
Definition main_checks (o : options) (nfiles : Z) : fatal + action :=
  if negb (dflag o || rflag o) || negb (secretflag o) || negb (kflag o) then inl Usage
  else if (rflag o && negb (wflag o && hflag o)) || (opt_width o =? 0) || (opt_height o =? 0)
  then inl BadDimensions
  else
    let n := if nflag o then opt_n o else to_uint16 nfiles in
    let k := opt_k o in
    if (n <? k) || (k <? 2) || (n <? 2) then inl BadThreshold
    else if dflag o && rflag o then inl BothModes
    else if dflag o then inr (Distribute k n (opt_seed o))
    else inr (Recover (opt_width o) (opt_height o) k).


(** ** Reference definitions used in the statements *)

(** The value the specification assigns to [evaluate(coeff, x)]: the sum of
    [coeff[i] * x^i], reduced modulo 251. *)
Definition evaluate_spec (coeff : list Z) (x : Z) : Z :=
  fold_right (fun '(i, c) acc => c * x ^ Z.of_nat i + acc) 0
             (imap (fun i c => (i, c)) coeff) mod PRIME.

(** A [-d] command line with the given [-k] and [-n] that passes the flag
    and dimension checks. *)
Definition distribute_options (k n : Z) : options :=
  {| dflag := true; rflag := false; kflag := true; wflag := true; hflag := true;
     nflag := true; secretflag := true;
     opt_seed := DEFAULT_SEED; opt_k := k; opt_n := n; opt_width := 1; opt_height := 1 |}.

(** Row [j] of the matrix of section 4.5: the powers of [x_j] reduced modulo
    251, then [y_j]. *)
Definition vandermonde_matrix (k : nat) (xs ys : list Z) : matrix :=
  (fun j => ((fun t => (xs !!! j) ^ Z.of_nat t mod PRIME) <$> seq 0 k) ++ [ys !!! j])
    <$> seq 0 k.

(** Finite sums. *)
Fixpoint zsum (n : nat) (f : nat -> Z) : Z :=
  match n with
  | O => 0
  | S n' => zsum n' f + f n'
  end.

(** A value of type [uint8_t]. *)
Definition is_byte (v : Z) : Prop := 0 <= v < 256.

(** Bit [t] of a byte, counting from the most significant one. *)
Definition msb_bit (byte : Z) (t : nat) : bool := Z.testbit byte (7 - Z.of_nat t).

(** The least significant bit of a carrier byte. *)
Definition lsb (v : Z) : bool := negb (Z.land v 1 =? 0).

(** A carrier byte with its least significant bit set to [b]. *)
Definition lsb_set (v : Z) (b : bool) : Z :=
  if b then RIGHTMOST_BIT_ON v else RIGHTMOST_BIT_OFF v.

(** The byte made of eight bits, the most significant first. *)
Definition assemble (bits : nat -> bool) : Z :=
  fst (fold_left
         (fun '(byte, mask) t => (if bits t then Z.lor byte mask else byte, Z.shiftr mask 1))
         (seq 0 8) (0, 128)).

(** ** Concrete inputs *)

(** A 4 by 1 bitmap. *)
Definition px4 : Bitmap := set_imgpixels (newbitmap 4 1 0) [10; 20; 30; 40].

(** A 12 by 3 secret, every pixel 200. *)
Definition secret36 : Bitmap := set_imgpixels (newbitmap 12 3 0) (replicate 36 200).

(** Shadows are formed from the truncated secret, as [distributeimage] does
    (the uninitialised locals of [formshadows] start at 0), and the shadows
    at positions [order] of the array, in that order, are handed to
    [revealsecret], as [recoverimage] does with the files it finds: the
    recovered pixels. *)
Definition distribute_then_recover (secret : Bitmap) (k n seed : Z) (order : list nat)
    (width height : Z) : option (list Z) :=
  shadows ← formshadows (truncategrayscale secret) k n seed 0 0;
  Some (imgpixels (revealsecret ((fun i => shadows !!! i) <$> order) width height (Z.to_nat k))).

(** A 3 by 3 shadow and a carrier of 72 bytes. *)
Definition shadow9 : Bitmap :=
  set_imgpixels (newshadow 3 3 DEFAULT_SEED 1) [0; 1; 127; 128; 180; 200; 250; 254; 255].
Definition carrier72 : Bitmap :=
  set_imgpixels (newbitmap 72 1 0) (map Z.of_nat (seq 100 72)).

(** A shadow of 10 bytes, the size [P/k] of the shadows of an 8 by 5 secret
    with [k = 4], and a carrier of 320 bytes. *)
Definition shadow10 : Bitmap :=
  set_imgpixels (newshadow 5 2 DEFAULT_SEED 1) [0; 1; 127; 128; 180; 200; 250; 254; 255; 77].
Definition carrier320 : Bitmap :=
  set_imgpixels (newbitmap 320 1 0) (map (fun i => Z.of_nat (i mod 256)) (seq 0 320)).

(** ** The solver, seen as a transformation of functions

    A matrix is read through [mget] as a function from row and column to
    [Z]; [pass] and [red] are what one round of each phase of
    [findcoefficients] does to that function when every cell holds a value
    of [0, 250]. *)

(** Congruence modulo 251. *)
Definition eqp (a b : Z) : Prop := a mod PRIME = b mod PRIME.

Infix "==p" := eqp (at level 70, no associativity).

(** The complete homogeneous symmetric polynomial of degree [d] in the
    variables [l]. *)
Fixpoint hom (l : list Z) : nat -> Z :=
  match l with
  | [] => fun d => match d with O => 1 | S _ => 0 end
  | v :: rest =>
      fix hom_v (d : nat) : Z :=
        match d with
        | O => 1
        | S d' => v * hom_v d' + hom rest (S d')
        end
  end.

(** [(x i - x (i-1)) * ... * (x i - x (i-c))]. *)
Fixpoint Pdiff (x : nat -> Z) (c i : nat) : Z :=
  match c with
  | O => 1
  | S c' => Pdiff x c' i * (x i - x (i - S c')%nat)
  end.

(** The sample points [x (i-c), ..., x i]. *)
Definition window (x : nat -> Z) (c i : nat) : list Z := map x (seq (i - c) (S c)).

(** Cell [t] of row [i] after [c] rounds of the first phase, up to
    congruence. *)
Definition Hf (x : nat -> Z) (c i t : nat) : Z :=
  if (t <? c)%nat then 0 else Pdiff x c i * hom (window x c i) (t - c).

(** A [k] by [k + 1] matrix. *)
Definition wf (k : nat) (mat : matrix) : Prop :=
  length mat = k /\ forall i, (i < k)%nat -> length (mat !!! i) = S k.

(** Every cell is a field element. *)
Definition bounded (k : nat) (F : nat -> nat -> Z) : Prop :=
  forall i t, (i < k)%nat -> (t <= k)%nat -> 0 <= F i t <= 250.

(** Row [i] of the system is satisfied by the coefficients [a]. *)
Definition sat (k : nat) (F : nat -> nat -> Z) (a : nat -> Z) (i : nat) : Prop :=
  zsum k (fun t => F i t * a t) ==p F i k.

Definition same_solutions (k : nat) (F G : nat -> nat -> Z) : Prop :=
  forall a, (forall i, (i < k)%nat -> sat k F a i) <-> (forall i, (i < k)%nat -> sat k G a i).

(** Round [j] of the first phase. *)
Definition pass (k j : nat) (F : nat -> nat -> Z) : nat -> nat -> Z :=
  fun i t =>
    if (j <? i)%nat && (i <? k)%nat && (j <=? t)%nat && (t <=? k)%nat
    then (F i t - (F (i - 1)%nat t * (F i j * modinv_at (F (i - 1)%nat j))) mod PRIME) mod PRIME
    else F i t.

(** Iteration [i] of the second phase. *)
Definition red (k i : nat) (F : nat -> nat -> Z) : nat -> nat -> Z :=
  fun r t =>
    let d := F i i in
    let v := (F i k * modinv_at d) mod PRIME in
    if (r =? i)%nat then
      if (t =? k)%nat then v
      else if (t =? i)%nat then (d * modinv_at d) mod PRIME
      else F r t
    else if (r <? i)%nat then
      if (t =? k)%nat then (F r k - (v * F r i) mod PRIME) mod PRIME
      else if (t =? i)%nat then 0
      else F r t
    else F r t.

(** The invariant of the first phase before round [j]. *)
Definition InvE (k : nat) (x : nat -> Z) (j : nat) (F : nat -> nat -> Z) : Prop :=
  bounded k F /\
  forall i t, (i < k)%nat -> (t < k)%nat -> F i t ==p Hf x (Nat.min i j) i t.

(** The invariant of the second phase once the rows below [i] are done. *)
Definition InvR (k i : nat) (F : nat -> nat -> Z) : Prop :=
  bounded k F /\
  (forall r t, (r < k)%nat -> (t < r)%nat -> F r t = 0) /\
  (forall r, (r < k)%nat -> 1 <= F r r) /\
  (forall r t, (r < k)%nat -> (t < k)%nat -> (i < t)%nat -> r <> t -> F r t = 0) /\
  (forall r, (i < r)%nat -> (r < k)%nat -> F r r = 1) /\
  F 0%nat 0%nat = 1.

(** ** util.c: byte order *)

(** [uint16swap]: [*x = *x >> 8 | *x << 8], computed in [int] and stored
    in a [uint16_t]. *)
Definition uint16swap (x : Z) : Z :=
  to_uint16 (Z.lor (Z.shiftr x 8) (Z.shiftl x 8)).

(** [uint32swap]: the four masks are [unsigned long] constants; the result
    is stored in a [uint32_t]. *)
Definition uint32swap (x : Z) : Z :=
  to_uint32
    (Z.lor (Z.lor (Z.lor (Z.shiftl (Z.land x 0x000000FF) 24)
                         (Z.shiftl (Z.land x 0x0000FF00) 8))
                  (Z.shiftr (Z.land x 0x00FF0000) 8))
           (Z.shiftr (Z.land x 0xFF000000) 24)).

(** [int32swap], on an [int32_t].  [0xFF00FF00] is an [unsigned int], so
    the first line is computed in that type and converted back; [>>] on a
    negative [int] is the arithmetic shift; a left shift that overflows,
    undefined in C, is given its two's complement result. *)
Definition int32swap (x : Z) : Z :=
  let x1 :=
    to_int32 (Z.lor (Z.land (to_uint32 (to_int32 (Z.shiftl x 8))) 0xFF00FF00)
                    (Z.land (Z.shiftr x 8) 0x00FF00FF)) in
  Z.lor (to_int32 (Z.shiftl x1 16)) (Z.land (Z.shiftr x1 16) 0xFFFF).

(** ** Object representation *)

(** The [n] bytes of [v], least significant first, and the value of a
    sequence of bytes read that way. *)
Definition le_bytes (n : nat) (v : Z) : list Z :=
  map (fun i => (v / 2 ^ (8 * Z.of_nat i)) mod 256) (seq 0 n).

Definition le_value (bs : list Z) : Z :=
  fold_right (fun b acc => b + 256 * acc) 0 bs.

Section Host.
(** The byte order of the machine the program runs on. *)
Variable big_endian : bool.

(** The bytes an unsigned integer of [n] bytes occupies in memory, which is
    what [fwrite] writes and [fread] fills. *)
Definition store (n : nat) (v : Z) : list Z :=
  if big_endian then rev (le_bytes n v) else le_bytes n v.

Definition load (bs : list Z) : Z :=
  le_value (if big_endian then rev bs else bs).

(** [isbigendian]: the first byte of an [int] holding 1 is not 1. *)
Definition isbigendian : bool :=
  let value := 1 in
  negb (store 4 value !!! 0%nat =? 1).

End Host.

(** ** Streams

    The C library is not part of the repository.  A [FILE] opened for
    reading is the content of the file and the position indicator; a
    [FILE] opened with ["w"] is the list of the bytes written so far.  The
    device never fails: [fread] falls short only at the end of the file, and
    [fwrite] writes all it is given. *)

(** The ways a run ends early: the messages of [die], and the division of
    an integer by zero, which C leaves undefined. *)
Inductive failure : Type :=
  | fopen_error          (* "fopen: couldn't open %s" *)
  | fread_error          (* "fread: error" *)
  | fwrite_error         (* "fwrite: error in writing or end of file." *)
  | fseek_error          (* "fseek: error" *)
  | opendir_error        (* "xopendir: error opening %s" *)
  | snprintf_error       (* "xsnprintf: snprintf buffer too small" *)
  | not_enough_bmps      (* "not enough valid bmps for a (%d,%d) threshold scheme in dir %s" *)
  | division_by_zero.    (* [x / 0]: undefined behaviour *)

(** A computation on a state [S] that may end in [die]. *)
Definition prog (S A : Type) : Type := S -> failure + A * S.

Definition ret {S A : Type} (a : A) : prog S A := fun s => inr (a, s).

Definition bind {S A B : Type} (m : prog S A) (f : A -> prog S B) : prog S B :=
  fun s => match m s with
           | inl e => inl e
           | inr (a, s') => f a s'
           end.

Notation "'let!' x ':=' m 'in' k" := (bind m (fun x => k))
  (at level 10, x name, m at level 100, k at level 200).

Record FILE : Type := { f_data : list Z; f_pos : Z }.

(** [ftell(fp)]. *)
Definition ftell : prog FILE Z := fun fp => inr (f_pos fp, fp).

(** [xfseek(fp, offset, SEEK_SET)]: [fseek] refuses a negative offset. *)
Definition xfseek (offset : Z) : prog FILE unit := fun fp =>
  if offset <? 0 then inl fseek_error
  else inr (tt, {| f_data := f_data fp; f_pos := offset |}).

(** [xfread(ptr, size, nmemb, fp)]: [fread] stores the bytes it finds, up
    to [size * nmemb], and returns the number of complete elements;
    [xfread] dies when that number is below 1.  The result is the bytes
    stored at [ptr]. *)
Definition xfread (size nmemb : Z) : prog FILE (list Z) := fun fp =>
  let got := take (Z.to_nat (size * nmemb)) (drop (Z.to_nat (f_pos fp)) (f_data fp)) in
  let elements := if size =? 0 then 0 else Z.of_nat (length got) / size in
  if elements <? 1 then inl fread_error
  else inr (got, {| f_data := f_data fp; f_pos := f_pos fp + Z.of_nat (length got) |}).

(** [xfwrite(ptr, size, nmemb, fp)] on the bytes [buf] that [ptr] points
    to: [fwrite] returns [nmemb], or 0 when [size] is 0; [xfwrite] dies
    when that is not [nmemb]. *)
Definition xfwrite (buf : list Z) (size nmemb : Z) : prog (list Z) unit := fun out =>
  let written := if size =? 0 then 0 else nmemb in
  if written =? nmemb then inr (tt, out ++ take (Z.to_nat (size * nmemb)) buf)
  else inl fwrite_error.

Section HostIO.
Variable big_endian : bool.

Definition changeheaderendianness (h : BMPheader) : BMPheader :=
  {| bmp_id := bmp_id h;
     bmp_size := uint32swap (bmp_size h);
     bmp_unused1 := uint16swap (bmp_unused1 h);
     bmp_unused2 := uint16swap (bmp_unused2 h);
     bmp_offset := uint32swap (bmp_offset h) |}.

Definition changedibendianness (h : DIBheader) : DIBheader :=
  {| dib_size := uint32swap (dib_size h);
     dib_width := uint32swap (dib_width h);
     dib_height := int32swap (dib_height h);
     dib_nplanes := uint16swap (dib_nplanes h);
     dib_depth := uint16swap (dib_depth h);
     dib_compression := uint32swap (dib_compression h);
     dib_pixelarraysize := uint32swap (dib_pixelarraysize h);
     dib_hres := uint32swap (dib_hres h);
     dib_vres := uint32swap (dib_vres h);
     dib_ncolors := uint32swap (dib_ncolors h);
     dib_nimpcolors := uint32swap (dib_nimpcolors h) |}.

(** [xfread(&field, sizeof(field), 1, fp)] for an unsigned field of
    [size] bytes, and for the [int32_t] field. *)
Definition read_unsigned (size : Z) : prog FILE Z :=
  let! bytes := xfread size 1 in ret (load big_endian bytes).

Definition read_int32 : prog FILE Z :=
  let! bytes := xfread 4 1 in ret (to_int32 (load big_endian bytes)).

(** [xfwrite(&field, sizeof(field), 1, fp)]. *)
Definition write_unsigned (size : nat) (v : Z) : prog (list Z) unit :=
  xfwrite (store big_endian size v) (Z.of_nat size) 1.

Definition write_int32 (v : Z) : prog (list Z) unit :=
  xfwrite (store big_endian 4 (to_uint32 v)) 4 1.

(** [readbmpheader(bp, fp)]: the header it leaves in [bp->bmpheader]. *)
Definition readbmpheader : prog FILE BMPheader :=
  let! id := xfread 2 1 in
  let! size := read_unsigned 4 in
  let! unused1 := read_unsigned 2 in
  let! unused2 := read_unsigned 2 in
  let! offset := read_unsigned 4 in
  let h := {| bmp_id := (id !!! 0%nat, id !!! 1%nat); bmp_size := size;
              bmp_unused1 := unused1; bmp_unused2 := unused2; bmp_offset := offset |} in
  ret (if isbigendian big_endian then changeheaderendianness h else h).

Definition writebmpheader (bp : Bitmap) : prog (list Z) unit :=
  let h := bmpheader bp in
  let h := if isbigendian big_endian then changeheaderendianness h else h in
  let! _ := xfwrite [fst (bmp_id h); snd (bmp_id h)] 2 1 in
  let! _ := write_unsigned 4 (bmp_size h) in
  let! _ := write_unsigned 2 (bmp_unused1 h) in
  let! _ := write_unsigned 2 (bmp_unused2 h) in
  write_unsigned 4 (bmp_offset h).

(** [readdibheader(bp, fp)]: the header it leaves in [bp->dibheader]. *)
Definition readdibheader : prog FILE DIBheader :=
  let! size := read_unsigned 4 in
  let! width := read_unsigned 4 in
  let! height := read_int32 in
  let! nplanes := read_unsigned 2 in
  let! depth := read_unsigned 2 in
  let! compression := read_unsigned 4 in
  let! pixelarraysize := read_unsigned 4 in
  let! hres := read_unsigned 4 in
  let! vres := read_unsigned 4 in
  let! ncolors := read_unsigned 4 in
  let! nimpcolors := read_unsigned 4 in
  let h := {| dib_size := size; dib_width := width; dib_height := height;
              dib_nplanes := nplanes; dib_depth := depth;
              dib_compression := compression; dib_pixelarraysize := pixelarraysize;
              dib_hres := hres; dib_vres := vres; dib_ncolors := ncolors;
              dib_nimpcolors := nimpcolors |} in
  ret (if isbigendian big_endian then changedibendianness h else h).

Definition writedibheader (bp : Bitmap) : prog (list Z) unit :=
  let h := dibheader bp in
  let h := if isbigendian big_endian then changedibendianness h else h in
  let! _ := write_unsigned 4 (dib_size h) in
  let! _ := write_unsigned 4 (dib_width h) in
  let! _ := write_int32 (dib_height h) in
  let! _ := write_unsigned 2 (dib_nplanes h) in
  let! _ := write_unsigned 2 (dib_depth h) in
  let! _ := write_unsigned 4 (dib_compression h) in
  let! _ := write_unsigned 4 (dib_pixelarraysize h) in
  let! _ := write_unsigned 4 (dib_hres h) in
  let! _ := write_unsigned 4 (dib_vres h) in
  let! _ := write_unsigned 4 (dib_ncolors h) in
  write_unsigned 4 (dib_nimpcolors h).

(** [bmpfromfile], once [xfopen] has given the stream.  The pixel array
    comes from [xmalloc]; what [fread] does not fill is indeterminate and
    starts at zero in the embedding. *)
Definition bmpfromstream : prog FILE Bitmap :=
  let! bh := readbmpheader in
  let! dh := readdibheader in
  let! pal := xfread PALETTE_SIZE 1 in
  let bp := {| bmpheader := bh; dibheader := dh; palette := pal; imgpixels := [] |} in
  let imagesize := bmpimagesize bp in
  let! px := xfread 1 imagesize in
  ret (set_imgpixels bp (px ++ replicate (Z.to_nat imagesize - length px) 0)).

(** [bmpfromfile(filename)], for a file that holds [data], or cannot be
    opened. *)
Definition bmpfromfile (file : option (list Z)) : failure + Bitmap :=
  match file with
  | None => inl fopen_error
  | Some data =>
      match bmpfromstream {| f_data := data; f_pos := 0 |} with
      | inl e => inl e
      | inr (bp, _) => inr bp
      end
  end.

(** [bmptofile(bp, filename)]: the content of the file it leaves. *)
Definition bmptofile (bp : Bitmap) : failure + list Z :=
  let write :=
    let! _ := writebmpheader bp in
    let! _ := writedibheader bp in
    let! _ := xfwrite (palette bp) PALETTE_SIZE 1 in
    xfwrite (imgpixels bp) (bmpimagesize bp) 1 in
  match write [] with
  | inl e => inl e
  | inr (_, out) => inr out
  end.

(** [get32bitsfromheader(fp, offset)]: the four bytes at [offset] as the
    host reads them; the position is put back. *)
Definition get32bitsfromheader (offset : Z) : prog FILE Z :=
  let! pos := ftell in
  let! _ := xfseek offset in
  let! value := read_unsigned 4 in
  let! _ := xfseek pos in
  ret value.

Definition UNUSED2_OFFSET : Z := 8.
Definition WIDTH_OFFSET : Z := 18.
Definition HEIGHT_OFFSET : Z := 22.

Definition bmpfilewidth : prog FILE Z := get32bitsfromheader WIDTH_OFFSET.
Definition bmpfileheight : prog FILE Z := get32bitsfromheader HEIGHT_OFFSET.

(** [isvalidbmpsize(fp, k, secretsize)]; the division is one of
    [uint32_t], made before the file is read, and undefined for [k = 0]. *)
Definition isvalidbmpsize (k secretsize : Z) : prog FILE bool :=
  if k =? 0 then fun _ => inl division_by_zero
  else
    let shadowsize := to_uint32 (secretsize * 8) / k in
    let! w := bmpfilewidth in
    let! h := bmpfileheight in
    let imgsize := to_uint32 (w * h) in
    ret (shadowsize <=? imgsize).

(** [kdivisiblesize(fp, k)]; [pixels] and [aux] are [int]s, and the
    division, made once the two numbers are read, is undefined for
    [k = 0]. *)
Definition kdivisiblesize (k : Z) : prog FILE bool :=
  let! w := bmpfilewidth in
  let! h := bmpfileheight in
  let pixels := to_int32 (to_uint32 (w * h)) in
  if k =? 0 then fun _ => inl division_by_zero
  else
    let aux := Z.quot pixels k in
    ret (pixels =? int_mul aux k).

(** [isbmp(fp)]: the file starts with "BM". *)
Definition isbmp : prog FILE bool :=
  let! pos := ftell in
  let! _ := xfseek 0 in
  let! magicnumber := xfread 2 1 in
  let! _ := xfseek pos in
  ret ((magicnumber !!! 0%nat =? 66) && (magicnumber !!! 1%nat =? 77)).

(** [isvalidshadow(fp, k, secretsize)]; [&&] evaluates its right operand
    only when the left one holds. *)
Definition isvalidshadow (k secretsize : Z) : prog FILE bool :=
  let! pos := ftell in
  let! _ := xfseek UNUSED2_OFFSET in
  let! shadownumber := read_unsigned 2 in
  let! _ := xfseek pos in
  if shadownumber =? 0 then ret false
  else
    let! b := isbmp in
    if b then isvalidbmpsize k secretsize else ret false.

(** [isvalidbmp(fp, k, ignoredparameter)]. *)
Definition isvalidbmp (k ignoredparameter : Z) : prog FILE bool :=
  let! b := isbmp in
  if b then kdivisiblesize k else ret false.

End HostIO.

(** ** Directories *)

(** What [readdir] returns for an entry: its name and its type. *)
Record dirent : Type := { d_name : string; d_type : Z }.

(** [DT_REG] of [<dirent.h>]: a regular file. *)
Definition DT_REG : Z := 8.

(** [countfiles(dirname)]: [dir] is the sequence of entries that [readdir]
    returns, or [None] when the directory cannot be opened. *)
Definition countfiles (dir : option (list dirent)) : failure + Z :=
  match dir with
  | None => inl opendir_error
  | Some entries =>
      inr (fold_left
             (fun filecount d => if d_type d =? DT_REG then int_add filecount 1 else filecount)
             entries 0)
  end.

Section Directory.
(** [PATH_MAX] and [NAME_MAX] of [<limits.h>]. *)
Variables PATH_MAX NAME_MAX : Z.
(** The files that [fopen] can open for reading, with their content. *)
Variable fopen : string -> option (list Z).

Definition DIR_MAX : Z := PATH_MAX - NAME_MAX.

(** The conversion [%.*s] of [printf]: at most [precision] characters of
    [s], all of them when [precision] is negative. *)
Definition printf_s (precision : Z) (s : string) : string :=
  if precision <? 0 then s else String.substring 0 (Z.to_nat precision) s.

(** [xsnprintf(filepath, PATH_MAX, "%.*s/%.*s", DIR_MAX, dir, NAME_MAX, d->d_name)]:
    the string left in [filepath]; [xsnprintf] dies when it does not fit. *)
Definition format_filepath (dir name : string) : failure + string :=
  let s := String.append (printf_s DIR_MAX dir)
             (String.append "/" (printf_s NAME_MAX name)) in
  let len := Z.of_nat (String.length s) in
  if PATH_MAX <=? len then inl snprintf_error else inr s.

(** The body of the loop of [getvalidfilenames] for a regular file: the
    path is formatted, the file opened and checked; the result is the path
    when [isvalid] accepts the file. *)
Definition check_file (isvalid : prog FILE bool) (dir : string) (d : dirent)
    : failure + option string :=
  match format_filepath dir (d_name d) with
  | inl e => inl e
  | inr filepath =>
      match fopen filepath with
      | None => inl fopen_error
      | Some data =>
          match isvalid {| f_data := data; f_pos := 0 |} with
          | inl e => inl e
          | inr (true, _) => inr (Some filepath)
          | inr (false, _) => inr None
          end
      end
  end.

(** The loop of [getvalidfilenames] over the entries that [readdir] still
    has to return; [i] names have been stored in [filenames]. *)
Fixpoint getvalidfilenames_loop (isvalid : prog FILE bool) (dir : string) (n : Z)
    (entries : list dirent) (i : Z) (filenames : list string)
    : failure + Z * list string :=
  match entries with
  | [] => inr (i, filenames)
  | d :: entries' =>
      if i <? n then
        if d_type d =? DT_REG then
          match check_file isvalid dir d with
          | inl e => inl e
          | inr (Some filepath) =>
              getvalidfilenames_loop isvalid dir n entries' (i + 1) (filenames ++ [filepath])
          | inr None => getvalidfilenames_loop isvalid dir n entries' i filenames
          end
        else getvalidfilenames_loop isvalid dir n entries' i filenames
      else inr (i, filenames)
  end.

(** [getvalidfilenames(dir, k, n, isvalid, size)], with [isvalid] already
    applied to [k] and [size]; [listing] is the sequence of entries of
    [dir], or [None] when it cannot be opened. *)
Definition getvalidfilenames (listing : option (list dirent)) (dir : string) (n : Z)
    (isvalid : prog FILE bool) : failure + list string :=
  match listing with
  | None => inl opendir_error
  | Some entries =>
      match getvalidfilenames_loop isvalid dir n entries 0 [] with
      | inl e => inl e
      | inr (i, filenames) => if i <? n then inl not_enough_bmps else inr filenames
      end
  end.

Definition getbmpfilenames (big_endian : bool) (listing : option (list dirent))
    (dir : string) (k n size : Z) : failure + list string :=
  getvalidfilenames listing dir n (isvalidbmp big_endian k size).

Definition getshadowfilenames (big_endian : bool) (listing : option (list dirent))
    (dir : string) (k size : Z) : failure + list string :=
  getvalidfilenames listing dir k (isvalidshadow big_endian k size).

End Directory.

(** ** Reference definitions for files *)

(** Byte [i] of an integer, counting from the least significant one. *)
Definition byte_at (x : Z) (i : Z) : Z := (x / 2 ^ (8 * i)) mod 256.

(** The fields hold values of their C types. *)
Definition valid_bmpheader (h : BMPheader) : Prop :=
  is_byte (fst (bmp_id h)) /\ is_byte (snd (bmp_id h)) /\
  0 <= bmp_size h < 2 ^ 32 /\ 0 <= bmp_unused1 h < 2 ^ 16 /\
  0 <= bmp_unused2 h < 2 ^ 16 /\ 0 <= bmp_offset h < 2 ^ 32.

Definition valid_dibheader (h : DIBheader) : Prop :=
  0 <= dib_size h < 2 ^ 32 /\ 0 <= dib_width h < 2 ^ 32 /\
  - 2 ^ 31 <= dib_height h < 2 ^ 31 /\
  0 <= dib_nplanes h < 2 ^ 16 /\ 0 <= dib_depth h < 2 ^ 16 /\
  0 <= dib_compression h < 2 ^ 32 /\ 0 <= dib_pixelarraysize h < 2 ^ 32 /\
  0 <= dib_hres h < 2 ^ 32 /\ 0 <= dib_vres h < 2 ^ 32 /\
  0 <= dib_ncolors h < 2 ^ 32 /\ 0 <= dib_nimpcolors h < 2 ^ 32.

(** A bitmap as [bmpfromfile] and [newbitmaphelper] build it: the palette
    has its 1024 bytes and the pixel array the size that [bmpimagesize]
    gives. *)
Definition valid_bitmap (bp : Bitmap) : Prop :=
  valid_bmpheader (bmpheader bp) /\ valid_dibheader (dibheader bp) /\
  length (palette bp) = 1024%nat /\ Forall is_byte (palette bp) /\
  Forall is_byte (imgpixels bp) /\
  Z.of_nat (length (imgpixels bp)) = bmpimagesize bp.

(** The BMP file format: every field least significant byte first. *)
Definition bmpheader_bytes (h : BMPheader) : list Z :=
  [fst (bmp_id h); snd (bmp_id h)] ++ le_bytes 4 (bmp_size h)
  ++ le_bytes 2 (bmp_unused1 h) ++ le_bytes 2 (bmp_unused2 h)
  ++ le_bytes 4 (bmp_offset h).

Definition dibheader_bytes (h : DIBheader) : list Z :=
  le_bytes 4 (dib_size h) ++ le_bytes 4 (dib_width h)
  ++ le_bytes 4 (to_uint32 (dib_height h))
  ++ le_bytes 2 (dib_nplanes h) ++ le_bytes 2 (dib_depth h)
  ++ le_bytes 4 (dib_compression h) ++ le_bytes 4 (dib_pixelarraysize h)
  ++ le_bytes 4 (dib_hres h) ++ le_bytes 4 (dib_vres h)
  ++ le_bytes 4 (dib_ncolors h) ++ le_bytes 4 (dib_nimpcolors h).

Definition bitmap_bytes (bp : Bitmap) : list Z :=
  bmpheader_bytes (bmpheader bp) ++ dibheader_bytes (dibheader bp)
  ++ palette bp ++ imgpixels bp.

(** A stream positioned after [pre], with [post] still to read. *)
Definition at_pos (pre post : list Z) : FILE :=
  {| f_data := pre ++ post; f_pos := Z.of_nat (length pre) |}.

(** The [size] bytes of a file at [offset] as a number, least significant
    byte first. *)
Definition le_field (data : list Z) (offset size : nat) : Z :=
  le_value (take size (drop offset data)).

(** What the bytes of a file say when they are read as a bitmap file,
    whatever they are: the two headers, the 1024 bytes of palette from
    offset 54, and from offset 1078 as many pixel bytes as the headers
    announce; where the file ends before that, the rest of the array is
    what [bmpfromstream] leaves there. *)
Definition decoded_bmpheader (data : list Z) : BMPheader :=
  {| bmp_id := (data !!! 0%nat, data !!! 1%nat);
     bmp_size := le_field data 2 4;
     bmp_unused1 := le_field data 6 2;
     bmp_unused2 := le_field data 8 2;
     bmp_offset := le_field data 10 4 |}.

Definition decoded_dibheader (data : list Z) : DIBheader :=
  {| dib_size := le_field data 14 4;
     dib_width := le_field data 18 4;
     dib_height := to_int32 (le_field data 22 4);
     dib_nplanes := le_field data 26 2;
     dib_depth := le_field data 28 2;
     dib_compression := le_field data 30 4;
     dib_pixelarraysize := le_field data 34 4;
     dib_hres := le_field data 38 4;
     dib_vres := le_field data 42 4;
     dib_ncolors := le_field data 46 4;
     dib_nimpcolors := le_field data 50 4 |}.

Definition decoded_bitmap (data : list Z) : Bitmap :=
  let bp := {| bmpheader := decoded_bmpheader data; dibheader := decoded_dibheader data;
               palette := take 1024 (drop 54 data); imgpixels := [] |} in
  let imagesize := Z.to_nat (bmpimagesize bp) in
  let px := take imagesize (drop 1078 data) in
  set_imgpixels bp (px ++ replicate (imagesize - length px) 0).

(** The first two bytes of a file are "BM". *)
Definition file_magic (data : list Z) : bool :=
  (data !!! 0%nat =? 66) && (data !!! 1%nat =? 77).

(** The [size] bytes of a file at [offset], as the host reads them into an
    unsigned variable. *)
Definition file_field (big_endian : bool) (data : list Z) (offset size : nat) : Z :=
  load big_endian (take size (drop offset data)).

(** The regular files of a directory that [isvalid] accepts, in the order
    of [readdir], when every regular file can be opened and checked. *)
Definition valid_files (PATH_MAX NAME_MAX : Z) (fopen : string -> option (list Z))
    (isvalid : prog FILE bool) (dir : string) (entries : list dirent)
    : option (list string) :=
  foldr
    (fun d acc =>
       rest ← acc;
       if d_type d =? DT_REG then
         match check_file PATH_MAX NAME_MAX fopen isvalid dir d with
         | inl _ => None
         | inr (Some filepath) => Some (filepath :: rest)
         | inr None => Some rest
         end
       else Some rest)
    (Some []) entries.

(** The file of [shadow9] with its magic number wiped and all but two of
    its nine pixel bytes cut off. *)
Definition damaged_file : list Z := [0; 0] ++ drop 2 (take 1080 (bitmap_bytes shadow9)).

(** A directory with one carrier and one subdirectory, and its files. *)
Definition demo_entries : list dirent :=
  [ {| d_name := "sub"; d_type := 4 |}; {| d_name := "a.bmp"; d_type := DT_REG |} ].

Definition demo_fopen (path : string) : option (list Z) :=
  if String.eqb path "pics/a.bmp" then Some (bitmap_bytes shadow9) else None.

(** ** The matrix of [revealsecret]

    [revealsecret] hands [findcoefficients] the powers of the shadow
    numbers as it computed them, not reduced modulo 251. *)

(** Row [j] holds [1, x_j, x_j^2, ..., x_j^(k-1)] and [y_j]. *)
Definition power_matrix (k : nat) (xs ys : list Z) : matrix :=
  (fun j => ((fun t => (xs !!! j) ^ Z.of_nat t) <$> seq 0 k) ++ [ys !!! j])
    <$> seq 0 k.

(** Every cell lies in [0, B]. *)
Definition wide (k : nat) (B : Z) (F : nat -> nat -> Z) : Prop :=
  forall i t, (i < k)%nat -> (t <= k)%nat -> 0 <= F i t <= B.

(** What iteration [i] of the second phase does to row 0, given the value
    [v] it has just stored in [mat[i][k]]. *)
Definition update_row0 (k : nat) (v : Z) (i : nat) (r : list Z) : list Z :=
  let temp := int_sub (r !!! k) (int_rem (int_mul v (r !!! i)) PRIME) in
  <[i := 0]> (<[k := c_mod temp PRIME]> r).

(** Two versions of row 0, one with cells up to [B], that agree modulo 251
    and have the same last cell. *)
Definition row_related (k : nat) (B : Z) (r r' : list Z) : Prop :=
  length r = S k /\ length r' = S k /\
  r !!! k = r' !!! k /\ 0 <= r !!! k <= 250 /\
  forall t, (t < k)%nat ->
    0 <= r !!! t <= B /\ 0 <= r' !!! t <= B /\ r !!! t ==p r' !!! t.

(** ** Sharing, as section 4 of the scheme describes it *)

(** The value at [x] of the polynomial whose coefficients are the pixels
    [j*k, ..., j*k + k - 1] of the secret. *)
Definition section_value (px : list Z) (k j : nat) (x : Z) : Z :=
  zsum k (fun t => px !!! (j * k + t)%nat * x ^ Z.of_nat t) mod PRIME.

(** Shadow number [i + 1] of a secret with [len] sections. *)
Definition section_shadow (px : list Z) (k : nat) (width height seed : Z) (len i : nat) : Bitmap :=
  set_imgpixels (newshadow width height seed (Z.of_nat i + 1))
    ((fun j => section_value px k j (Z.of_nat i + 1)) <$> seq 0 len).

(** The shadows while [formshadows] fills them: shadow [i] is [base i]
    with a pixel array of [len] bytes, and pixel [j] holds [val i j] once
    it was written. *)
Definition partly_formed (base : nat -> Bitmap) (val : nat -> nat -> Z) (n len : nat)
    (written : nat -> nat -> bool) (shadows : list Bitmap) : Prop :=
  length shadows = n /\
  forall i, (i < n)%nat ->
    exists px, shadows !!! i = set_imgpixels (base i) px /\ length px = len /\
      forall j, (j < len)%nat -> written i j = true -> px !!! j = val i j.


(** * Properties *)

(** ** The field GF(251) *)

Lemma modinv_table_check :
  forallb (fun n => let a := Z.of_nat n in
                    ((a * modinv_at a) mod PRIME =? 1)
                    && (1 <=? modinv_at a) && (modinv_at a <=? 250))
          (seq 1 250) = true.
Proof. vm_compute. reflexivity. Qed.

Lemma modinv_at_spec (a : Z) :
  1 <= a <= 250 ->
  (a * modinv_at a) mod PRIME = 1 /\ 1 <= modinv_at a <= 250.
Proof.
  intros Ha.
  pose proof modinv_table_check as Hall.
  rewrite forallb_forall in Hall.
  specialize (Hall (Z.to_nat a)).
  rewrite Z2Nat.id in Hall by lia.
  assert (Hin : In (Z.to_nat a) (seq 1 250)) by (apply in_seq; lia).
  apply Hall in Hin.
  apply andb_prop in Hin as [Hin H3].
  apply andb_prop in Hin as [H1 H2].
  lia.
Qed.

(** C4: [modinv] has 251 entries, [modinv[0] = 0], and [modinv[a]] is the
    inverse of [a] modulo 251 for every [a] in [1, 250]; [modinv[126] = 2],
    [modinv[84] = 3], [modinv[250] = 250]. *)
Theorem modinv_is_inverse_table :
  length modinv = 251%nat /\
  modinv_at 0 = 0 /\
  (forall a, 1 <= a <= 250 -> (a * modinv_at a) mod 251 = 1) /\
  modinv_at 126 = 2 /\ modinv_at 84 = 3 /\ modinv_at 250 = 250.
Proof.
  split; [reflexivity|].
  split; [reflexivity|].
  split; [|repeat split; reflexivity].
  intros a Ha. apply modinv_at_spec. exact Ha.
Qed.

Lemma modinv_is_inverse_table_witness : (7 * modinv_at 7) mod 251 = 1.
Proof.
  apply (proj1 (proj2 (proj2 modinv_is_inverse_table)) 7). lia.
Defined.

(** ** Polynomial evaluation *)


(** C3: [generatepixel] is meant to return the polynomial value modulo 251.
    It does so on the four evaluations of the two-pixel blocks [10, 20] and
    [30, 40], but the sum is accumulated through [double]: with seven
    coefficients and [value = 250] the last addition, [1 + 250^7], is
    rounded to [250^7], and the function returns 250 where the polynomial
    value is 0; with nine coefficients [250^8] exceeds the range of
    [intmax_t] and the conversion of the sum is undefined. *)
Theorem generatepixel_rounds_the_sum :
  generatepixel [10; 20] 1 1 = Some 30 /\
  generatepixel [30; 40] 1 1 = Some 70 /\
  generatepixel [10; 20] 1 2 = Some 50 /\
  generatepixel [30; 40] 1 2 = Some 110 /\
  generatepixel [1; 0; 0; 0; 0; 0; 250] 6 250 = Some 250 /\
  evaluate_spec [1; 0; 0; 0; 0; 0; 250] 250 = 0 /\
  generatepixel [0; 0; 0; 0; 0; 0; 0; 0; 1] 8 250 = None /\
  evaluate_spec [0; 0; 0; 0; 0; 0; 0; 0; 1] 250 = 1.
Proof. vm_compute. repeat split; reflexivity. Qed.

(** ** Shadow dimensions *)

(** C8: [findclosestpair] is meant to write the most square factorisation
    of [x].  Its loop stops at [y > 2]: for [x = 10] (largest divisor below
    the square root: 2) and for the prime [x = 7] nothing is written, and
    [*width], [*height] keep whatever they held; for [x = 12] the pair
    (3, 4) is written. *)
Theorem findclosestpair_skips_small_divisors (width height : Z) :
  findclosestpair 10 width height = (width, height) /\
  findclosestpair 7 width height = (width, height) /\
  findclosestpair 12 width height = (3, 4).
Proof. repeat split; reflexivity. Qed.

(** ** Command line checks *)





(** ** Binary64 arithmetic of [randint] *)

Lemma digits2_pos_bounds (p : positive) :
  2 ^ (Z.pos (digits2_pos p) - 1) <= Z.pos p < 2 ^ Z.pos (digits2_pos p).
Proof.
  induction p as [p IH|p IH|]; cbn [digits2_pos].
  - rewrite Pos2Z.inj_succ. replace (Z.succ (Z.pos (digits2_pos p)) - 1) with (Z.pos (digits2_pos p)) by lia.
    rewrite Z.pow_succ_r by lia.
    replace (Z.pos (digits2_pos p)) with (Z.succ (Z.pos (digits2_pos p) - 1)) at 1 by lia.
    rewrite Z.pow_succ_r by lia. lia.
  - rewrite Pos2Z.inj_succ. replace (Z.succ (Z.pos (digits2_pos p)) - 1) with (Z.pos (digits2_pos p)) by lia.
    rewrite Z.pow_succ_r by lia.
    replace (Z.pos (digits2_pos p)) with (Z.succ (Z.pos (digits2_pos p) - 1)) at 1 by lia.
    rewrite Z.pow_succ_r by lia. lia.
  - cbn. lia.
Qed.

Lemma digits2_pos_unique (p : positive) (d : Z) :
  2 ^ (d - 1) <= Z.pos p < 2 ^ d -> Z.pos (digits2_pos p) = d.
Proof.
  intros [Hlo Hhi]. pose proof (digits2_pos_bounds p) as [Blo Bhi].
  assert (0 < d).
  { destruct (Z.ltb_spec 0 d) as [|Hd]; [lia|].
    destruct (Z.eq_dec d 0) as [->|Hne]; [cbn in Hhi; lia|].
    rewrite Z.pow_neg_r in Hhi by lia. lia. }
  destruct (Z.lt_trichotomy (Z.pos (digits2_pos p)) d) as [H1|[H1|H1]]; [|exact H1|].
  - assert (2 ^ Z.pos (digits2_pos p) <= 2 ^ (d - 1)) by (apply Z.pow_le_mono_r; lia). lia.
  - assert (2 ^ d <= 2 ^ (Z.pos (digits2_pos p) - 1)) by (apply Z.pow_le_mono_r; lia). lia.
Qed.

Lemma shr_1_m (mrs : shr_record) :
  0 <= shr_m mrs -> shr_m (shr_1 mrs) = shr_m mrs / 2.
Proof.
  destruct mrs as [m r s]. cbn [shr_m]. intros Hm.
  destruct m as [|[p|p|]|p]; cbn [shr_1 shr_m]; try lia.
  - reflexivity.
  - apply Z.div_unique with 1; lia.
  - apply Z.div_unique with 0; lia.
  - reflexivity.
Qed.

Lemma iter_pos_shr_m (n : positive) (mrs : shr_record) :
  0 <= shr_m mrs -> shr_m (SpecFloat.iter_pos shr_1 n mrs) = shr_m mrs / 2 ^ Z.pos n.
Proof.
  revert mrs. induction n as [n IH|n IH|]; intros mrs Hm; cbn [SpecFloat.iter_pos].
  - assert (H1 : 0 <= shr_m (shr_1 mrs)) by (rewrite shr_1_m by lia; apply Z.div_pos; lia).
    assert (H2 : 0 <= shr_m (SpecFloat.iter_pos shr_1 n (shr_1 mrs))) by (rewrite IH by lia; apply Z.div_pos; lia).
    rewrite IH, IH, shr_1_m by lia.
    rewrite !Z.div_div by lia. f_equal.
    rewrite Pos2Z.inj_xI.
    replace (2 * Z.pos n + 1) with (1 + Z.pos n + Z.pos n) by lia.
    rewrite !Z.pow_add_r, Z.pow_1_r by lia. lia.
  - assert (H2 : 0 <= shr_m (SpecFloat.iter_pos shr_1 n mrs)) by (rewrite IH by lia; apply Z.div_pos; lia).
    rewrite IH, IH by lia. rewrite Z.div_div by lia. f_equal.
    change (Z.pos n~0) with (2 * Z.pos n).
    replace (2 * Z.pos n) with (Z.pos n + Z.pos n) by lia.
    rewrite Z.pow_add_r by lia. lia.
  - rewrite shr_1_m by lia. reflexivity.
Qed.

Lemma round_nearest_even_bounds (mx : Z) (lx : location) :
  mx <= round_nearest_even mx lx <= mx + 1.
Proof.
  destruct lx as [|[| |]]; cbn [round_nearest_even]; try lia.
  destruct (Z.even mx); lia.
Qed.

Lemma shr_record_of_loc_m (m : Z) (l : location) : shr_m (shr_record_of_loc m l) = m.
Proof. destruct l as [|[| |]]; reflexivity. Qed.

(** shr: the mantissa is divided by 2^max(n,0), the exponent grows by max(n,0) *)
Lemma shr_spec (mrs : shr_record) (e n : Z) :
  0 <= shr_m mrs ->
  shr_m (fst (shr mrs e n)) = shr_m mrs / 2 ^ Z.max 0 n /\
  snd (shr mrs e n) = e + Z.max 0 n.
Proof.
  intros Hm. destruct n as [|n|n]; cbn [shr fst snd].
  - rewrite Z.div_1_r. lia.
  - rewrite iter_pos_shr_m by lia. rewrite Z.max_r by lia. lia.
  - rewrite Z.max_l by lia. rewrite Z.div_1_r. lia.
Qed.

Lemma binary_round_aux_bound (sx : bool) (mx : positive) (ex : Z) (lx : location)
      (s : bool) (m : positive) (e : Z) :
  binary_round_aux d_prec d_emax sx (Z.pos mx) ex lx = S754_finite s m e ->
  exists n,
    Z.max 0 (fexp d_prec d_emax (Zdigits2 (Z.pos mx) + ex) - ex) <= n /\
    e = ex + n /\
    Z.pos m * 2 ^ n <= Z.pos mx + 2 ^ Z.max 0 (fexp d_prec d_emax (Zdigits2 (Z.pos mx) + ex) - ex) /\
    s = sx.
Proof.
  unfold binary_round_aux, shr_fexp.
  set (n1 := fexp d_prec d_emax (Zdigits2 (Z.pos mx) + ex) - ex).
  pose proof (shr_spec (shr_record_of_loc (Z.pos mx) lx) ex n1) as [Hm1 He1];
    [rewrite shr_record_of_loc_m; lia|].
  destruct (shr (shr_record_of_loc (Z.pos mx) lx) ex n1) as [mrs' e'].
  cbn [fst snd] in Hm1, He1. rewrite shr_record_of_loc_m in Hm1.
  set (m1 := round_nearest_even (shr_m mrs') (loc_of_shr_record mrs')).
  pose proof (round_nearest_even_bounds (shr_m mrs') (loc_of_shr_record mrs')) as Hr.
  fold m1 in Hr.
  set (n2 := fexp d_prec d_emax (Zdigits2 m1 + e') - e').
  assert (Hdiv : 0 <= Z.pos mx / 2 ^ Z.max 0 n1) by (apply Z.div_pos; lia).
  pose proof (shr_spec (shr_record_of_loc m1 loc_Exact) e' n2) as [Hm2 He2];
    [rewrite shr_record_of_loc_m; lia|].
  destruct (shr (shr_record_of_loc m1 loc_Exact) e' n2) as [mrs'' e''].
  cbn [fst snd] in Hm2, He2. rewrite shr_record_of_loc_m in Hm2.
  destruct (shr_m mrs'') as [|m0|m0] eqn:Em; try discriminate.
  destruct (e'' <=? d_emax - d_prec); try discriminate.
  intros [= -> -> ->].
  exists (Z.max 0 n1 + Z.max 0 n2).
  split; [lia|]. split; [lia|]. split; [|reflexivity].
  rewrite Z.pow_add_r by lia.
  assert (P1 : 0 < 2 ^ Z.max 0 n1) by (apply Z.pow_pos_nonneg; lia).
  assert (P2 : 0 < 2 ^ Z.max 0 n2) by (apply Z.pow_pos_nonneg; lia).
  pose proof (Z.mul_div_le m1 (2 ^ Z.max 0 n2) P2) as D2.
  pose proof (Z.mul_div_le (Z.pos mx) (2 ^ Z.max 0 n1) P1) as D1.
  rewrite <- Hm2 in D2. rewrite <- Hm1 in D1.
  nia.
Qed.

Lemma binary_round_aux_exact (sx : bool) (m : positive) (e : Z) :
  Z.pos (digits2_pos m) = 53 -> -1074 <= e <= 971 ->
  binary_round_aux d_prec d_emax sx (Z.pos m) e loc_Exact = S754_finite sx m e.
Proof.
  intros Hd He. unfold binary_round_aux, shr_fexp.
  cbn [Zdigits2 shr_record_of_loc]. rewrite Hd.
  assert (E : fexp d_prec d_emax (53 + e) - e = 0).
  { unfold fexp, emin, d_prec, d_emax. lia. }
  rewrite E. cbn [shr shr_m loc_of_shr_record round_nearest_even Zdigits2 shr_record_of_loc].
  rewrite Hd, E. cbn [shr shr_m].
  destruct (Z.leb_spec e (d_emax - d_prec)) as [|H]; [reflexivity|].
  unfold d_emax, d_prec in H. lia.
Qed.

Lemma binary_round_aux_exact_2 (sx : bool) (m : positive) (e : Z) :
  Z.pos (digits2_pos m) = 53 -> -1074 <= e <= 970 ->
  binary_round_aux d_prec d_emax sx (Z.pos m~0) e loc_Exact = S754_finite sx m (e + 1).
Proof.
  intros Hd He. unfold binary_round_aux, shr_fexp.
  cbn [Zdigits2 shr_record_of_loc digits2_pos]. rewrite Pos2Z.inj_succ, Hd.
  assert (E : fexp d_prec d_emax (Z.succ 53 + e) - e = 1).
  { unfold fexp, emin, d_prec, d_emax. lia. }
  rewrite E. cbn [shr SpecFloat.iter_pos shr_1 shr_m loc_of_shr_record round_nearest_even Zdigits2 shr_record_of_loc orb].
  rewrite Hd.
  assert (E' : fexp d_prec d_emax (53 + (e + 1)) - (e + 1) = 0).
  { unfold fexp, emin, d_prec, d_emax. lia. }
  rewrite E'. cbn [shr shr_m].
  destruct (Z.leb_spec (e + 1) (d_emax - d_prec)) as [|H]; [reflexivity|].
  unfold d_emax, d_prec in H. lia.
Qed.

Lemma pos_iter_xO (p k : positive) :
  Z.pos (Pos.iter xO p k) = Z.pos p * 2 ^ Z.pos k.
Proof.
  induction k as [|k IH] using Pos.peano_ind.
  - cbn [Pos.iter]. rewrite Z.pow_1_r. lia.
  - rewrite Pos.iter_succ, Pos2Z.inj_xO, IH, Pos2Z.inj_succ, Z.pow_succ_r by lia. lia.
Qed.

(** The double of a positive integer below 2^53: mantissa of 53 digits,
    value preserved. *)
Lemma double_of_Z_pos (z : Z) :
  0 < z < 2 ^ 53 ->
  exists m e, double_of_Z z = S754_finite false m e /\
              -52 <= e <= 0 /\ Z.pos m = z * 2 ^ (- e) /\
              Z.pos (digits2_pos m) = 53.
Proof.
  intros Hz. destruct z as [|p|p]; try lia.
  unfold double_of_Z, binary_normalize, binary_round.
  pose proof (digits2_pos_bounds p) as [Blo Bhi].
  set (d := Z.pos (digits2_pos p)) in *.
  assert (Hd : 1 <= d <= 53).
  { split; [unfold d; lia|].
    destruct (Z.leb_spec d 53) as [|Hgt]; [lia|].
    assert (2 ^ 53 <= 2 ^ (d - 1)) by (apply Z.pow_le_mono_r; lia). lia. }
  assert (E : fexp d_prec d_emax (d + 0) = d - 53).
  { unfold fexp, emin, d_prec, d_emax. lia. }
  rewrite E. unfold shl_align.
  destruct (d - 53 - 0) as [|k|k] eqn:Ek; try lia.
  - exists p, 0. rewrite binary_round_aux_exact by (fold d; lia).
    repeat split; try lia; fold d; lia.
  - assert (Hm : Z.pos (Pos.iter xO p k) = Z.pos p * 2 ^ Z.pos k) by apply pos_iter_xO.
    assert (Hdig : Z.pos (digits2_pos (Pos.iter xO p k)) = 53).
    { apply digits2_pos_unique. rewrite Hm.
      replace 53 with (d + Z.pos k) by lia.
      replace (d + Z.pos k - 1) with ((d - 1) + Z.pos k) by lia.
      rewrite !Z.pow_add_r by lia.
      assert (0 < 2 ^ Z.pos k) by (apply Z.pow_pos_nonneg; lia). nia. }
    exists (Pos.iter xO p k), (d - 53).
    rewrite binary_round_aux_exact by (try exact Hdig; lia).
    repeat split; try lia; try exact Hdig.
    rewrite Hm. f_equal. f_equal. lia.
Qed.

Lemma d_add_rand_max (b : Z) :
  15 <= b <= 31 ->
  d_add (double_of_Z (2 ^ b - 1)) (double_of_Z 1) = S754_finite false 4503599627370496 (b - 52).
Proof.
  intros Hb.
  assert (H : b = 15 \/ b = 16 \/ b = 17 \/ b = 18 \/ b = 19 \/ b = 20 \/ b = 21 \/
              b = 22 \/ b = 23 \/ b = 24 \/ b = 25 \/ b = 26 \/ b = 27 \/ b = 28 \/
              b = 29 \/ b = 30 \/ b = 31) by lia.
  repeat (destruct H as [->|H]; [vm_compute; reflexivity|]).
  subst b. vm_compute. reflexivity.
Qed.

Lemma div_eucl_shift53 (m : positive) :
  Z.div_eucl (Z.shiftl (Z.pos m) 53) 4503599627370496 = (Z.pos m~0, 0).
Proof.
  rewrite Z.shiftl_mul_pow2 by lia.
  assert (Hq : Z.pos m * 2 ^ 53 / 4503599627370496 = Z.pos m~0).
  { symmetry. apply Z.div_unique with 0; [lia|].
    change (2 ^ 53) with (2 * 4503599627370496). lia. }
  assert (Hr : (Z.pos m * 2 ^ 53) mod 4503599627370496 = 0).
  { symmetry. apply Z.mod_unique with (Z.pos m~0); [lia|].
    change (2 ^ 53) with (2 * 4503599627370496). lia. }
  unfold Z.div, Z.modulo in Hq, Hr.
  destruct (Z.div_eucl (Z.pos m * 2 ^ 53) 4503599627370496) as [q r].
  subst. reflexivity.
Qed.

Lemma d_div_pow2 (m1 : positive) (e1 eD : Z) :
  Z.pos (digits2_pos m1) = 53 -> -500 <= e1 - eD <= 500 ->
  d_div (S754_finite false m1 e1) (S754_finite false 4503599627370496 eD)
  = S754_finite false m1 (e1 - eD - 52).
Proof.
  intros Hd He. unfold d_div, SFdiv, SFdiv_core_binary.
  cbn [Zdigits2 xorb]. rewrite Hd.
  change (Z.pos (digits2_pos 4503599627370496)) with 53.
  assert (E : Z.min (fexp d_prec d_emax (53 + e1 - (53 + eD))) (e1 - eD) = e1 - eD - 53).
  { unfold fexp, emin, d_prec, d_emax. lia. }
  rewrite E.
  replace (e1 - eD - (e1 - eD - 53)) with 53 by lia.
  cbv iota. rewrite div_eucl_shift53. cbv iota beta.
  change (new_location 4503599627370496 0) with loc_Exact.
  rewrite binary_round_aux_exact_2 by (try exact Hd; lia).
  f_equal. lia.
Qed.

Lemma d_mul_zero_l (s : bool) (z : Z) :
  0 < z < 2 ^ 53 -> d_mul (S754_zero s) (double_of_Z z) = S754_zero s.
Proof.
  intros Hz. destruct (double_of_Z_pos z Hz) as (m & e & -> & _).
  cbn. destruct s; reflexivity.
Qed.

Lemma randint_range {L : LibcRand} {HL : LibcRandOk L} (st : rand_state) (max : Z) :
  0 <= max < 2 ^ 32 -> 0 <= fst (randint st max) <= max.
Proof.
  intros Hmax. unfold randint.
  pose proof (rand_range st) as Hr.
  destruct (rand st) as [r st']. cbn [fst] in *.
  destruct RAND_MAX_pow2 as (b & Hb & HR).
  replace RAND_MAX with (2 ^ b - 1) in * by lia.
  rewrite d_add_rand_max by lia.
  assert (Hpb : 2 ^ 15 <= 2 ^ b <= 2 ^ 31) by (split; apply Z.pow_le_mono_r; lia).
  assert (HM : 0 < max + 1 < 2 ^ 53) by lia.
  destruct (Z.eq_dec r 0) as [->|Hr0].
  { change (double_of_Z 0) with (S754_zero false).
    change (d_div (S754_zero false) (S754_finite false 4503599627370496 (b - 52)))
      with (S754_zero false).
    rewrite d_mul_zero_l by exact HM. change (long_of_double (S754_zero false)) with 0. lia. }
  destruct (double_of_Z_pos r) as (m1 & e1 & -> & He1 & Hm1 & Hd1); [lia|].
  rewrite d_div_pow2 by (try exact Hd1; lia).
  destruct (double_of_Z_pos (max + 1) HM) as (mM & eM & -> & HeM & HmM & HdM).
  unfold d_mul, SFmul. cbn [xorb].
  change (Z.pos (m1 * mM)) with (Z.pos m1 * Z.pos mM).
  destruct (binary_round_aux d_prec d_emax false (Z.pos m1 * Z.pos mM) (e1 - (b - 52) - 52 + eM) loc_Exact)
    as [s|s| |s m e] eqn:Eres;
    [change (long_of_double (S754_zero s)) with 0; lia
    |change (long_of_double (S754_infinity s)) with 0; lia
    |change (long_of_double S754_nan) with 0; lia|].
  change (Z.pos m1 * Z.pos mM) with (Z.pos (m1 * mM)) in Eres.
  apply binary_round_aux_bound in Eres as (n & Hn1 & He & Hbound & ->).
  (* digits *)
  pose proof (digits2_pos_bounds m1) as B1. rewrite Hd1 in B1.
  pose proof (digits2_pos_bounds mM) as BM. rewrite HdM in BM.
  pose proof (digits2_pos_bounds (m1 * mM)) as BP.
  cbn [Zdigits2] in Hn1, Hbound.
  set (dg := Z.pos (digits2_pos (m1 * mM))) in *.
  assert (Hdg : 1 <= dg <= 106).
  { split; [unfold dg; lia|].
    destruct (Z.leb_spec dg 106) as [|Hgt]; [lia|].
    assert (2 ^ 106 <= 2 ^ (dg - 1)) by (apply Z.pow_le_mono_r; lia).
    rewrite Pos2Z.inj_mul in BP.
    assert (Z.pos m1 * Z.pos mM < 2 ^ 53 * 2 ^ 53) by (apply Z.mul_lt_mono_nonneg; lia).
    change (2 ^ 106) with (2 ^ 53 * 2 ^ 53) in *. lia. }
  set (ex := e1 - (b - 52) - 52 + eM) in *.
  set (n1 := Z.max 0 (fexp d_prec d_emax (dg + ex) - ex)) in *.
  assert (Hn1b : 0 <= n1 <= 53).
  { unfold n1, fexp, emin, d_prec, d_emax, ex. lia. }
  assert (Hp1 : 2 ^ n1 <= 2 ^ 53) by (apply Z.pow_le_mono_r; lia).
  (* the exact product is below (max + 1) * 2^(-ex) by more than 2^53 *)
  assert (Hex : - ex = (- e1) + b + (- eM)) by (unfold ex; lia).
  assert (Hlt : Z.pos m * 2 ^ n < (max + 1) * 2 ^ (- ex)).
  { rewrite Hex, !Z.pow_add_r by lia.
    rewrite Pos2Z.inj_mul in Hbound.
    assert (Q1 : 0 < 2 ^ (- e1)) by (apply Z.pow_pos_nonneg; lia).
    assert (Q2 : 2 <= 2 ^ (- e1)).
    { change 2 with (2 ^ 1) at 1. apply Z.pow_le_mono_r; [lia|].
      destruct (Z.leb_spec 1 (- e1)) as [|Hc]; [lia|].
      assert (e1 = 0) by lia. subst e1. cbn in Hm1. lia. }
    set (X := 2 ^ (- e1)) in *. set (Y := 2 ^ (- eM)) in *. set (B := 2 ^ b) in *.
    change (2 ^ 53 - 1) with 9007199254740991 in *.
    change (2 ^ 53) with 9007199254740992 in *.
    change (2 ^ (53 - 1)) with 4503599627370496 in *.
    change (2 ^ 31) with 2147483648 in Hpb.
    assert (Q3 : 4 <= X).
    { destruct (Z.ltb_spec X 4) as [Hlt|]; [exfalso|lia].
      assert (r * X <= r * 3) by (apply Z.mul_le_mono_nonneg_l; lia). lia. }
    assert (Z.pos m1 * Z.pos mM + 9007199254740992 < (r + 1) * X * Z.pos mM).
    { assert (4 * Z.pos mM <= X * Z.pos mM) by (apply Z.mul_le_mono_nonneg_r; lia).
      replace ((r + 1) * X * Z.pos mM) with (Z.pos m1 * Z.pos mM + X * Z.pos mM)
        by (rewrite Hm1; ring).
      lia. }
    assert ((r + 1) * X * Z.pos mM <= B * X * Z.pos mM).
    { rewrite <- !Z.mul_assoc. apply Z.mul_le_mono_nonneg_r; [|lia].
      apply Z.mul_nonneg_nonneg; lia. }
    assert ((max + 1) * (X * B * Y) = B * X * Z.pos mM) by (rewrite HmM; ring).
    lia. }
  unfold long_of_double, signed_of_double, trunc_double.
  assert (Hv : 0 <= (if 0 <=? e then Z.pos m * 2 ^ e else Z.pos m / 2 ^ (- e)) <= max).
  { destruct (Z.leb_spec 0 e) as [He0|He0].
    - assert (Hn : n = e + (- ex)) by lia.
      rewrite Hn, Z.pow_add_r in Hlt by lia.
      assert (0 < 2 ^ (- ex)) by (apply Z.pow_pos_nonneg; lia).
      assert (0 < 2 ^ e) by (apply Z.pow_pos_nonneg; lia).
      split; [apply Z.mul_nonneg_nonneg; lia|].
      assert (Z.pos m * 2 ^ e < max + 1); [|lia].
      apply (Z.mul_lt_mono_pos_r (2 ^ (- ex))); [lia|].
      rewrite <- Z.mul_assoc. exact Hlt.
    - assert (Hn : - ex = n + (- e)) by lia.
      rewrite Hn, Z.pow_add_r in Hlt by lia.
      assert (0 < 2 ^ n) by (apply Z.pow_pos_nonneg; lia).
      assert (0 < 2 ^ (- e)) by (apply Z.pow_pos_nonneg; lia).
      split; [apply Z.div_pos; lia|].
      assert (Z.pos m / 2 ^ (- e) < max + 1); [|lia].
      apply Z.div_lt_upper_bound; [lia|].
      apply (Z.mul_lt_mono_pos_r (2 ^ n)); [lia|].
      replace (2 ^ (- e) * (max + 1) * 2 ^ n) with ((max + 1) * (2 ^ n * 2 ^ (- e))) by ring.
      exact Hlt. }
  cbv beta iota zeta.
  set (v := if 0 <=? e then Z.pos m * 2 ^ e else Z.pos m / 2 ^ (- e)) in *.
  destruct ((- 2 ^ (64 - 1) <=? v) && (v <? 2 ^ (64 - 1))); cbn [default]; unfold id; lia.
Qed.

(** ** The pixel permutation *)

#[global] Instance classic_rand_ok : LibcRandOk classic_rand.
Proof.
  split.
  - exists 15. split; [lia|reflexivity].
  - intros st. cbn.
    pose proof (Z.mod_pos_bound (to_uint32 (st * 1103515245 + 12345) / 65536) 32768).
    lia.
Qed.

Lemma swap_length (p : list Z) (s t : nat) : length (swap p s t) = length p.
Proof. unfold swap. rewrite !length_insert. reflexivity. Qed.

Lemma swap_lookup_ne (p : list Z) (s t i : nat) :
  i <> s -> i <> t -> swap p s t !!! i = p !!! i.
Proof.
  intros Hs Ht. unfold swap.
  rewrite !list_lookup_total_insert_ne by congruence. reflexivity.
Qed.

Lemma swap_lookup_target (p : list Z) (s t : nat) :
  (t < length p)%nat -> swap p s t !!! t = p !!! s.
Proof.
  intros Ht. unfold swap.
  rewrite list_lookup_total_insert_eq by (rewrite length_insert; exact Ht). reflexivity.
Qed.

Lemma elem_of_rev_seq (k a n : nat) : k ∈ rev (seq a n) <-> (a <= k < a + n)%nat.
Proof. rewrite list_elem_of_In, <- in_rev, in_seq. reflexivity. Qed.

Section PrngProofs.
Context {L : LibcRand} {HL : LibcRandOk L}.

Lemma draw_fold_range (l : list nat) (st : rand_state) (ps : list Z) :
  (forall i, i ∈ l -> Z.of_nat i < 2 ^ 32) ->
  let res := fold_left
               (fun '(st, permseq) i =>
                  let '(j, st') := randint st (Z.of_nat i) in (st', <[i := j]> permseq))
               l (st, ps) in
  length (snd res) = length ps /\
  forall i, (i ∈ l -> (i < length ps)%nat -> 0 <= snd res !!! i <= Z.of_nat i) /\
            (i ∉ l -> snd res !!! i = ps !!! i).
Proof.
  revert st ps. induction l as [|i0 l IH]; intros st ps Hl; cbn [fold_left].
  - split; [reflexivity|]. intros i. split; [intros Hi; inversion Hi|reflexivity].
  - pose proof (randint_range st (Z.of_nat i0)) as Hr.
    destruct (randint st (Z.of_nat i0)) as [j st1]. cbn [fst] in Hr.
    assert (Hi0 : Z.of_nat i0 < 2 ^ 32) by (apply Hl; left).
    specialize (Hr ltac:(lia)).
    specialize (IH st1 (<[i0 := j]> ps) ltac:(intros i Hi; apply Hl; right; exact Hi)).
    cbn zeta in IH. destruct IH as [IHlen IH]. rewrite length_insert in IHlen.
    split; [exact IHlen|].
    intros i. destruct (IH i) as [IHin IHout]. rewrite length_insert in IHin.
    destruct (decide (i ∈ l)) as [Hin|Hnin].
    + split; [intros _ Hlen; apply IHin; assumption|].
      intros Hni. exfalso. apply Hni. right. exact Hin.
    + rewrite IHout by exact Hnin.
      destruct (decide (i = i0)) as [->|Hne].
      * split; [intros _ Hlen|intros Hni; exfalso; apply Hni; left].
        rewrite list_lookup_total_insert_eq by exact Hlen. exact Hr.
      * rewrite list_lookup_total_insert_ne by congruence.
        split; [|reflexivity].
        intros Hi. apply elem_of_cons in Hi as [Hi|Hi]; contradiction.
Qed.

Lemma draw_permseq_range (st : rand_state) (imgsize i : nat) :
  Z.of_nat imgsize <= 2 ^ 32 -> (1 <= i < imgsize)%nat ->
  0 <= snd (draw_permseq st imgsize) !!! i <= Z.of_nat i.
Proof.
  intros HN Hi. unfold draw_permseq.
  pose proof (draw_fold_range (rev (seq 1 (imgsize - 1))) st (replicate imgsize 0)) as H.
  cbn zeta in H. destruct H as [_ H].
  - intros k Hk. apply elem_of_rev_seq in Hk. lia.
  - apply (H i).
    + apply elem_of_rev_seq. lia.
    + rewrite length_replicate. lia.
Qed.

Lemma unpermute_loop_frame (l : list nat) (permseq p : list Z) (n : nat) :
  (forall i, i ∈ l -> (i < n)%nat /\ 0 <= permseq !!! i <= Z.of_nat i) ->
  let p' := fold_left (fun p i => let j := permseq !!! i in swap p (Z.to_nat j) i) l p in
  length p' = length p /\ p' !!! n = p !!! n.
Proof.
  revert p. induction l as [|i0 l IH]; intros p Hl; cbn [fold_left].
  - split; reflexivity.
  - destruct (Hl i0 ltac:(left)) as [Hi0 Hj].
    specialize (IH (swap p (Z.to_nat (permseq !!! i0)) i0)
                   ltac:(intros i Hi; apply Hl; right; exact Hi)).
    cbn zeta in *. destruct IH as [IHlen IHn].
    rewrite swap_length in IHlen. rewrite swap_lookup_ne in IHn by lia.
    split; assumption.
Qed.

Lemma permute_loop_frame (l : list nat) (st : rand_state) (p : list Z) (n : nat) :
  (forall i, i ∈ l -> (i < n)%nat /\ Z.of_nat i < 2 ^ 32) ->
  let res := fold_left
               (fun '(st, p) i =>
                  let '(j, st') := randint st (Z.of_nat i) in (st', swap p (Z.to_nat j) i))
               l (st, p) in
  length (snd res) = length p /\ snd res !!! n = p !!! n.
Proof.
  revert st p. induction l as [|i0 l IH]; intros st p Hl; cbn [fold_left].
  - split; reflexivity.
  - destruct (Hl i0 ltac:(left)) as [Hi0 Hb].
    pose proof (randint_range st (Z.of_nat i0) ltac:(lia)) as Hr.
    destruct (randint st (Z.of_nat i0)) as [j st1]. cbn [fst] in Hr.
    specialize (IH st1 (swap p (Z.to_nat j) i0)
                   ltac:(intros i Hi; apply Hl; right; exact Hi)).
    cbn zeta in *. destruct IH as [IHlen IHn].
    rewrite swap_length in IHlen. rewrite swap_lookup_ne in IHn by lia.
    split; assumption.
Qed.
End PrngProofs.

Section PrngTheorems.
Context {L : LibcRand} {HL : LibcRandOk L}.

Lemma unpermute_loop_last (st : rand_state) (p : list Z) (imgsize : nat) :
  (3 <= imgsize)%nat -> Z.of_nat imgsize <= 2 ^ 32 ->
  unpermute_loop (snd (draw_permseq st imgsize)) p imgsize !!! (imgsize - 1)%nat
  = p !!! (imgsize - 1)%nat.
Proof.
  intros HN Hb. unfold unpermute_loop.
  apply (unpermute_loop_frame (seq 1 (imgsize - 2)) _ p (imgsize - 1)).
  intros i Hi. apply elem_of_seq in Hi.
  split; [lia|]. apply draw_permseq_range; lia.
Qed.

Lemma permute_loop_last (st : rand_state) (p : list Z) (imgsize : nat) :
  (3 <= imgsize)%nat -> Z.of_nat imgsize <= 2 ^ 32 -> length p = imgsize ->
  snd (permute_loop st p imgsize) !!! (imgsize - 1)%nat
  = p !!! Z.to_nat (fst (randint st (Z.of_nat (imgsize - 1)))).
Proof.
  intros HN Hb Hlen. unfold permute_loop.
  replace (imgsize - 2)%nat with (S (imgsize - 3)) by lia.
  rewrite seq_S, rev_unit. cbn [fold_left].
  replace (2 + (imgsize - 3))%nat with (imgsize - 1)%nat by lia.
  destruct (randint st (Z.of_nat (imgsize - 1))) as [j st1]. cbn [fst].
  pose proof (permute_loop_frame (rev (seq 2 (imgsize - 3))) st1
                                 (swap p (Z.to_nat j) (imgsize - 1)) (imgsize - 1)) as H.
  cbn zeta in H. destruct H as [_ H].
  - intros i Hi. apply elem_of_rev_seq in Hi. lia.
  - rewrite H. apply swap_lookup_target. lia.
Qed.

(** C10: for a buffer of [imgsize >= 3] bytes and any seed,
    [unpermutepixels] leaves the last byte where it is: the swap loop visits
    [i = 1 .. imgsize - 2] only, and every target [permseq[i]] it swaps with
    lies in [0, i], below [imgsize - 1]. *)
Theorem unpermutepixels_keeps_last_pixel (bp : Bitmap) (seed : Z) :
  let imgsize := Z.to_nat (bmpimagesize bp) in
  let permseq := snd (draw_permseq (srand seed) imgsize) in
  (3 <= imgsize)%nat -> bmpimagesize bp <= 2 ^ 32 ->
  (forall i, (1 <= i <= imgsize - 2)%nat ->
             0 <= permseq !!! i <= Z.of_nat i /\ (i < imgsize - 1)%nat) /\
  imgpixels (unpermutepixels bp seed) !!! (imgsize - 1)%nat
  = imgpixels bp !!! (imgsize - 1)%nat.
Proof.
  intros imgsize permseq HN Hb. split.
  - intros i Hi. split; [|lia]. apply draw_permseq_range; lia.
  - unfold unpermutepixels. cbn [imgpixels set_imgpixels].
    apply unpermute_loop_last; lia.
Qed.

(** C5: [unpermutepixels] is meant to undo [permutepixels].  It never
    replays the first swap of [permutepixels], the one on the last byte:
    whenever the first draw [j = randint(imgsize - 1)] selects a byte that
    differs from the last one, the last byte of
    [unpermutepixels (permutepixels bp seed) seed] is [bp]'s byte [j], and
    the bitmap is not restored. *)
Theorem unpermutepixels_misses_last_swap (bp : Bitmap) (seed : Z) :
  let imgsize := Z.to_nat (bmpimagesize bp) in
  let j := Z.to_nat (fst (randint (srand seed) (Z.of_nat (imgsize - 1)))) in
  (3 <= imgsize)%nat -> bmpimagesize bp <= 2 ^ 32 ->
  length (imgpixels bp) = imgsize ->
  imgpixels bp !!! j <> imgpixels bp !!! (imgsize - 1)%nat ->
  imgpixels (unpermutepixels (permutepixels bp seed) seed) !!! (imgsize - 1)%nat
  = imgpixels bp !!! j /\
  unpermutepixels (permutepixels bp seed) seed <> bp.
Proof.
  intros imgsize j HN Hb Hlen Hne.
  assert (E : imgpixels (unpermutepixels (permutepixels bp seed) seed) !!! (imgsize - 1)%nat
              = imgpixels bp !!! j).
  { unfold unpermutepixels.
    change (bmpimagesize (permutepixels bp seed)) with (bmpimagesize bp).
    cbn [imgpixels set_imgpixels]. fold imgsize.
    rewrite unpermute_loop_last by lia.
    unfold permutepixels. cbn [imgpixels set_imgpixels]. fold imgsize.
    apply permute_loop_last; lia. }
  split; [exact E|].
  intros Heq. rewrite Heq in E. congruence.
Qed.
End PrngTheorems.

Lemma unpermutepixels_keeps_last_pixel_witness :
  imgpixels (@unpermutepixels classic_rand px4 DEFAULT_SEED) !!! 3%nat = 40.
Proof.
  apply (@unpermutepixels_keeps_last_pixel classic_rand classic_rand_ok px4 DEFAULT_SEED);
    vm_compute; [lia|discriminate].
Defined.

Lemma unpermutepixels_misses_last_swap_witness :
  @unpermutepixels classic_rand (@permutepixels classic_rand px4 DEFAULT_SEED) DEFAULT_SEED <> px4.
Proof.
  apply (@unpermutepixels_misses_last_swap classic_rand classic_rand_ok px4 DEFAULT_SEED);
    vm_compute; try lia; try discriminate; try reflexivity.
Defined.

(** X1: [randint] keeps the promise of its comment, "returns num in [0, max]":
    for [max] below [2^32] the rounding of the product in [double] never
    reaches [max + 1]. *)
Theorem randint_in_range {L : LibcRand} {HL : LibcRandOk L} (st : rand_state) (max : Z) :
  0 <= max < 2 ^ 32 -> 0 <= fst (randint st max) <= max.
Proof. apply randint_range. Qed.

Lemma randint_in_range_witness : 0 <= fst (@randint classic_rand DEFAULT_SEED 9) <= 9.
Proof.
  apply (@randint_in_range classic_rand classic_rand_ok DEFAULT_SEED 9). lia.
Defined.

(** ** Steganography *)

(** Case analysis on every [decide] of the goal, closed by arithmetic. *)
Ltac decide_cases :=
  repeat (destruct (decide _) as [?|?]); try reflexivity; exfalso; lia.


Lemma byte_cases (P : Z -> Prop) :
  (forall n, (n < 256)%nat -> P (Z.of_nat n)) -> forall v, is_byte v -> P v.
Proof.
  intros H v Hv. rewrite <- (Z2Nat.id v) by (unfold is_byte in Hv; lia).
  apply H. unfold is_byte in Hv. lia.
Qed.

Lemma hide_test_check :
  forallb (fun n =>
     forallb (fun t =>
        Bool.eqb (Z.land (to_uint8 (Z.of_nat n * 2 ^ Z.of_nat t)) 128 =? 0)
                 (negb (msb_bit (Z.of_nat n) t)))
       (seq 0 8))
    (seq 0 256) = true.
Proof. vm_compute. reflexivity. Qed.

Lemma hide_test (byte : Z) (t : nat) :
  is_byte byte -> (t < 8)%nat ->
  (Z.land (to_uint8 (byte * 2 ^ Z.of_nat t)) 128 =? 0) = negb (msb_bit byte t).
Proof.
  intros Hb Ht. revert byte Hb. apply byte_cases. intros n Hn.
  pose proof hide_test_check as H. rewrite forallb_forall in H.
  specialize (H n ltac:(apply in_seq; lia)). rewrite forallb_forall in H.
  specialize (H t ltac:(apply in_seq; lia)). apply eqb_prop in H. exact H.
Qed.

Lemma shift_step (byte : Z) (t : nat) :
  to_uint8 (Z.shiftl (to_uint8 (byte * 2 ^ Z.of_nat t)) 1) = to_uint8 (byte * 2 ^ Z.of_nat (S t)).
Proof.
  unfold to_uint8. rewrite Z.shiftl_mul_pow2 by lia. rewrite Z.pow_1_r.
  rewrite Z.mul_mod_idemp_l by lia. f_equal.
  rewrite Nat2Z.inj_succ, Z.pow_succ_r by lia. ring.
Qed.

Lemma hide_byte_fold (t base : nat) (byte : Z) (px : list Z) :
  (t <= 8)%nat -> is_byte byte -> (base + t <= length px)%nat ->
  let res := fold_left
      (fun '(byte, px) j =>
         (to_uint8 (Z.shiftl byte 1),
          if Z.land byte 128 =? 0
          then <[j := RIGHTMOST_BIT_OFF (px !!! j)]> px
          else <[j := RIGHTMOST_BIT_ON (px !!! j)]> px))
      (seq base t) (byte, px) in
  fst res = to_uint8 (byte * 2 ^ Z.of_nat t) /\
  length (snd res) = length px /\
  forall j, snd res !!! j =
            if decide (base <= j < base + t)%nat
            then lsb_set (px !!! j) (msb_bit byte (j - base))
            else px !!! j.
Proof.
  intros Ht Hb Hlen. induction t as [|t IH].
  - cbn. split; [|split; [reflexivity|]].
    + unfold to_uint8, is_byte in *. rewrite Z.mul_1_r, Z.mod_small by lia. reflexivity.
    + intros j. destruct (decide _); [lia|reflexivity].
  - rewrite seq_S, fold_left_app. cbn [fold_left].
    specialize (IH ltac:(lia) ltac:(lia)). cbn zeta in IH.
    destruct (fold_left _ (seq base t) (byte, px)) as [byte' px'].
    cbn [fst snd] in *. destruct IH as (-> & IHlen & IHpx).
    rewrite hide_test by (try exact Hb; lia).
    split; [apply shift_step|].
    assert (Hcur : px' !!! (base + t)%nat = px !!! (base + t)%nat).
    { rewrite IHpx. destruct (decide _); [lia|reflexivity]. }
    split.
    + destruct (negb _); rewrite length_insert; exact IHlen.
    + intros j.
      assert (E : (if negb (msb_bit byte t)
                   then <[(base + t)%nat := RIGHTMOST_BIT_OFF (px' !!! (base + t)%nat)]> px'
                   else <[(base + t)%nat := RIGHTMOST_BIT_ON (px' !!! (base + t)%nat)]> px')
                  = <[(base + t)%nat := lsb_set (px !!! (base + t)%nat) (msb_bit byte t)]> px').
      { rewrite Hcur. unfold lsb_set. destruct (msb_bit byte t); reflexivity. }
      rewrite E. destruct (decide (j = base + t)%nat) as [->|Hne].
      * rewrite list_lookup_total_insert_eq by lia.
        destruct (decide _); [|lia]. do 2 f_equal. lia.
      * rewrite list_lookup_total_insert_ne by congruence. rewrite IHpx.
        repeat destruct (decide _); try lia; reflexivity.
Qed.

Lemma hide_byte_spec (i : nat) (byte : Z) (px : list Z) :
  is_byte byte -> (i * 8 + 8 <= length px)%nat ->
  length (hide_byte i byte px) = length px /\
  forall j, hide_byte i byte px !!! j =
            if decide (i * 8 <= j < i * 8 + 8)%nat
            then lsb_set (px !!! j) (msb_bit byte (j - i * 8))
            else px !!! j.
Proof.
  intros Hb Hlen. unfold hide_byte.
  pose proof (hide_byte_fold 8 (i * 8) byte px ltac:(lia) Hb Hlen) as H.
  cbn zeta in H. destruct H as (_ & H1 & H2). split; assumption.
Qed.

Lemma hide_loop_spec (spx : list Z) (pixels : nat) (px : list Z) :
  (forall i, (i < pixels)%nat -> is_byte (spx !!! i)) ->
  (8 * pixels <= length px)%nat ->
  length (hide_loop spx pixels px) = length px /\
  forall j, hide_loop spx pixels px !!! j =
            if decide (j < 8 * pixels)%nat
            then lsb_set (px !!! j) (msb_bit (spx !!! (j / 8)%nat) (j mod 8))
            else px !!! j.
Proof.
  intros Hb Hlen. unfold hide_loop. induction pixels as [|n IH].
  - cbn. split; [reflexivity|]. intros j. destruct (decide _); [lia|reflexivity].
  - rewrite seq_S, fold_left_app. cbn [fold_left]. cbn [Nat.add].
    specialize (IH ltac:(intros; apply Hb; lia) ltac:(lia)).
    destruct IH as [IHlen IHpx].
    set (px' := fold_left (fun px i => hide_byte i (spx !!! i) px) (seq 0 n) px) in *.
    destruct (hide_byte_spec n (spx !!! n) px') as [H1 H2];
      [apply Hb; lia|lia|].
    split; [lia|].
    intros j. rewrite H2, IHpx.
    destruct (decide (n * 8 <= j < n * 8 + 8)%nat) as [Hj|Hj].
    + destruct (decide (j < 8 * n)%nat); [lia|].
      destruct (decide (j < 8 * S n)%nat); [|lia].
      assert (j / 8 = n)%nat as -> by (symmetry; apply Nat.div_unique with (j - n * 8)%nat; lia).
      assert (j mod 8 = j - n * 8)%nat as -> by (symmetry; apply Nat.mod_unique with n; lia).
      reflexivity.
    + repeat destruct (decide _); try lia; reflexivity.
Qed.

Lemma retrieve_fold_shift (px : list Z) (base n start : nat) (acc : Z * Z) :
  fold_left
    (fun '(byte, mask) j =>
       (if Z.land (px !!! j) 1 =? 0 then byte else Z.lor byte mask, Z.shiftr mask 1))
    (seq (base + start) n) acc
  = fold_left
      (fun '(byte, mask) t =>
         (if lsb (px !!! (base + t)%nat) then Z.lor byte mask else byte, Z.shiftr mask 1))
      (seq start n) acc.
Proof.
  revert start acc. induction n as [|n IH]; intros start acc; [reflexivity|].
  cbn [seq fold_left]. rewrite <- Nat.add_succ_r, IH. f_equal.
  destruct acc as [byte mask]. unfold lsb.
  destruct (Z.land (px !!! (base + start)%nat) 1 =? 0); reflexivity.
Qed.

Lemma retrieve_byte_assemble (i : nat) (px : list Z) :
  retrieve_byte i px = assemble (fun t => lsb (px !!! (i * 8 + t)%nat)).
Proof.
  unfold retrieve_byte, assemble.
  rewrite <- (Nat.add_0_r (i * 8)) at 1. rewrite retrieve_fold_shift. reflexivity.
Qed.

Lemma assemble_ext (f g : nat -> bool) :
  (forall t, (t < 8)%nat -> f t = g t) -> assemble f = assemble g.
Proof.
  intros H. unfold assemble. cbn [seq fold_left].
  rewrite !H by lia. reflexivity.
Qed.

Lemma assemble_check :
  forallb (fun n => assemble (msb_bit (Z.of_nat n)) =? Z.of_nat n) (seq 0 256) = true.
Proof. vm_compute. reflexivity. Qed.

Lemma assemble_msb_bits (byte : Z) : is_byte byte -> assemble (msb_bit byte) = byte.
Proof.
  revert byte. apply byte_cases. intros n Hn.
  pose proof assemble_check as H. rewrite forallb_forall in H.
  specialize (H n ltac:(apply in_seq; lia)). lia.
Qed.

Lemma land_1_mod2 (x : Z) : Z.land x 1 = x mod 2.
Proof. change 1 with (Z.ones 1). rewrite Z.land_ones by lia. reflexivity. Qed.

Lemma lsb_lsb_set (v : Z) (b : bool) : lsb (lsb_set v b) = b.
Proof.
  unfold lsb, lsb_set, RIGHTMOST_BIT_ON, RIGHTMOST_BIT_OFF, to_uint8.
  rewrite land_1_mod2.
  assert (Hdiv : forall x, (x mod 256) mod 2 = x mod 2).
  { intros x. apply Z.mod_mod_divide. exists 128. lia. }
  destruct b; rewrite Hdiv, Zmod_odd, <- Z.bit0_odd.
  - rewrite Z.lor_spec, orb_true_r. reflexivity.
  - rewrite Z.land_spec, andb_false_r. reflexivity.
Qed.

Lemma retrieve_loop_spec (cpx : list Z) (n : nat) (spx : list Z) :
  (n <= length spx)%nat ->
  let res := fold_left (fun spx i => <[i := retrieve_byte i cpx]> spx) (seq 0 n) spx in
  length res = length spx /\
  forall i, res !!! i = if decide (i < n)%nat then retrieve_byte i cpx else spx !!! i.
Proof.
  intros Hn. induction n as [|n IH].
  - cbn. split; [reflexivity|]. intros i. destruct (decide _); [lia|reflexivity].
  - rewrite seq_S, fold_left_app. cbn [fold_left Nat.add].
    specialize (IH ltac:(lia)). cbn zeta in IH. destruct IH as [IHlen IHpx].
    split; [rewrite length_insert; exact IHlen|].
    intros i. destruct (decide (i = n)) as [->|Hne].
    + rewrite list_lookup_total_insert_eq by lia. destruct (decide _); [reflexivity|lia].
    + rewrite list_lookup_total_insert_ne by congruence. rewrite IHpx.
      repeat destruct (decide _); try lia; reflexivity.
Qed.

Lemma retrieve_hidden_byte (spx cpx : list Z) (pixels i : nat) :
  (forall i, (i < pixels)%nat -> is_byte (spx !!! i)) ->
  (8 * pixels <= length cpx)%nat -> (i < pixels)%nat ->
  retrieve_byte i (hide_loop spx pixels cpx) = spx !!! i.
Proof.
  intros Hb Hlen Hi.
  destruct (hide_loop_spec spx pixels cpx Hb Hlen) as [_ Hpx].
  rewrite retrieve_byte_assemble.
  rewrite <- (assemble_msb_bits (spx !!! i)) by (apply Hb; exact Hi).
  apply assemble_ext. intros t Ht. rewrite Hpx.
  destruct (decide _); [|lia].
  rewrite lsb_lsb_set.
  assert ((i * 8 + t) / 8 = i)%nat as -> by (symmetry; apply Nat.div_unique with t; lia).
  assert ((i * 8 + t) mod 8 = t)%nat as -> by (symmetry; apply Nat.mod_unique with i; lia).
  reflexivity.
Qed.

Lemma lsb_set_check :
  forallb (fun n =>
     forallb (fun b =>
        let v := Z.of_nat n in
        ((Z.lxor (lsb_set v b) v =? 0) || (Z.lxor (lsb_set v b) v =? 1))
        && (Z.shiftr (lsb_set v b) 1 =? Z.shiftr v 1)
        && (0 <=? lsb_set v b) && (lsb_set v b <? 256))
       [true; false])
    (seq 0 256) = true.
Proof. vm_compute. reflexivity. Qed.

Lemma lsb_set_spec (v : Z) (b : bool) :
  is_byte v ->
  (Z.lxor (lsb_set v b) v = 0 \/ Z.lxor (lsb_set v b) v = 1) /\
  Z.shiftr (lsb_set v b) 1 = Z.shiftr v 1 /\ is_byte (lsb_set v b).
Proof.
  revert v. apply byte_cases. intros n Hn.
  pose proof lsb_set_check as H. rewrite forallb_forall in H.
  specialize (H n ltac:(apply in_seq; lia)). rewrite forallb_forall in H.
  specialize (H b ltac:(destruct b; cbn; auto)). cbn zeta in H.
  apply andb_prop in H as [H H4]. apply andb_prop in H as [H H3].
  apply andb_prop in H as [H1 H2]. apply orb_prop in H1.
  unfold is_byte. lia.
Qed.

(** X24: when [retrieveshadow] finds the size of the shadow, that is when
    [k > 0] and the pair [(w, h)] that its call of [findclosestpair] leaves
    has [w * h = pixels], it reads back from the carrier written by
    [hideshadow] exactly the bytes of the shadow, eight carrier bytes per
    shadow byte, most significant bit first (for a shadow of [pixels]
    bytes and a carrier of at least [8 * pixels] bytes). *)
Theorem retrieveshadow_inverts_hideshadow (bp shadow : Bitmap) (width height k : Z) (w h : Z) :
  let pixels := bmpimagesize shadow in
  0 < k ->
  length (imgpixels shadow) = Z.to_nat pixels ->
  Forall is_byte (imgpixels shadow) ->
  8 * pixels <= Z.of_nat (length (imgpixels bp)) ->
  findclosestpair (calculatepixelarraysize width height / k) width height = (w, h) ->
  to_uint32 (w * h) = pixels ->
  imgpixels (retrieveshadow (hideshadow bp shadow) width height k) = imgpixels shadow.
Proof.
  intros pixels _ Hlen Hbytes Hcar Hpair Hwh.
  unfold retrieveshadow. rewrite Hpair.
  cbn [newshadow newbitmaphelper dibheader dib_pixelarraysize imgpixels set_imgpixels].
  rewrite Hwh.
  change (imgpixels (hideshadow bp shadow))
    with (hide_loop (imgpixels shadow) (Z.to_nat pixels) (imgpixels bp)).
  assert (Hb : forall i, (i < Z.to_nat pixels)%nat -> is_byte (imgpixels shadow !!! i)).
  { intros i Hi. rewrite Forall_lookup in Hbytes. apply (Hbytes i).
    apply list_lookup_lookup_total_lt. lia. }
  assert (Hc : (8 * Z.to_nat pixels <= length (imgpixels bp))%nat) by lia.
  pose proof (retrieve_loop_spec (hide_loop (imgpixels shadow) (Z.to_nat pixels) (imgpixels bp))
                (Z.to_nat pixels) (replicate (Z.to_nat pixels) 0)) as H.
  cbn zeta in H. destruct H as [Hl Hpx]; [rewrite length_replicate; lia|].
  rewrite length_replicate in Hl.
  apply (list_eq_same_length _ _ (Z.to_nat pixels)); [exact Hlen|exact Hl|].
  intros i x y Hi Hx Hy.
  apply list_lookup_total_correct in Hx, Hy. subst x y.
  rewrite Hpx. destruct (decide _); [|lia].
  apply retrieve_hidden_byte; assumption.
Qed.

(** C6: [retrieveshadow] is meant to read back the bytes of the shadow that
    [hideshadow] embedded.  It is not given the size of the shadow: it
    computes it from the dimensions of the secret with [findclosestpair],
    which writes nothing when the size has no divisor above 2 up to its
    square root.  For the shadow of 10 bytes of an 8 by 5 secret with
    [k = 4], hidden in a carrier of 320 bytes, [findclosestpair(10)] leaves
    8 and 5 in place and 40 bytes are retrieved: the 10 bytes of the
    shadow, then 30 bytes made of the low bits of the rest of the carrier.
    The bit layout is as claimed: the byte 0b10110100 embedded into eight
    zero bytes gives [1, 0, 1, 1, 0, 1, 0, 0], and the shadow of 9 bytes of
    a 12 by 3 secret comes back as it was. *)
Theorem retrieveshadow_reads_the_size_of_the_secret :
  bmpimagesize shadow10 = 10 /\
  length (imgpixels shadow10) = 10%nat /\
  length (imgpixels carrier320) = 320%nat /\
  calculatepixelarraysize 8 5 / 4 = 10 /\
  findclosestpair 10 8 5 = (8, 5) /\
  length (imgpixels (retrieveshadow (hideshadow carrier320 shadow10) 8 5 4)) = 40%nat /\
  take 10 (imgpixels (retrieveshadow (hideshadow carrier320 shadow10) 8 5 4))
  = imgpixels shadow10 /\
  imgpixels (retrieveshadow (hideshadow carrier320 shadow10) 8 5 4) <> imgpixels shadow10 /\
  imgpixels (hideshadow (set_imgpixels (newbitmap 8 1 0) (replicate 8 0))
                        (set_imgpixels (newshadow 1 1 0 1) [180]))
  = [1; 0; 1; 1; 0; 1; 0; 0] /\
  imgpixels (retrieveshadow (hideshadow carrier72 shadow9) 12 3 4) = imgpixels shadow9.
Proof.
  vm_compute. repeat split; try reflexivity. discriminate.
Qed.

(** C7: [hideshadow] changes at most the least significant bit of a
    carrier byte: the exclusive or of the new and the old byte is 0 or 1,
    the seven upper bits are the same, and the bytes from index
    [8 * pixels] on are untouched; the carrier keeps its length. *)
Theorem hideshadow_touches_only_lsb (bp shadow : Bitmap) (i : nat) :
  let pixels := bmpimagesize shadow in
  let out := imgpixels (hideshadow bp shadow) in
  Forall is_byte (imgpixels shadow) ->
  Forall is_byte (imgpixels bp) ->
  (Z.to_nat pixels <= length (imgpixels shadow))%nat ->
  8 * pixels <= Z.of_nat (length (imgpixels bp)) ->
  (i < length (imgpixels bp))%nat ->
  length out = length (imgpixels bp) /\
  (Z.lxor (out !!! i) (imgpixels bp !!! i) = 0 \/ Z.lxor (out !!! i) (imgpixels bp !!! i) = 1) /\
  Z.shiftr (out !!! i) 1 = Z.shiftr (imgpixels bp !!! i) 1 /\
  (8 * pixels <= Z.of_nat i -> out !!! i = imgpixels bp !!! i).
Proof.
  intros pixels out Hsb Hcb Hslen Hcar Hi.
  assert (Hb : forall i, (i < Z.to_nat pixels)%nat -> is_byte (imgpixels shadow !!! i)).
  { intros i' Hi'. rewrite Forall_lookup in Hsb. apply (Hsb i').
    apply list_lookup_lookup_total_lt. lia. }
  assert (Hc : (8 * Z.to_nat pixels <= length (imgpixels bp))%nat) by lia.
  destruct (hide_loop_spec (imgpixels shadow) (Z.to_nat pixels) (imgpixels bp) Hb Hc) as [Hl Hpx].
  change out with (hide_loop (imgpixels shadow) (Z.to_nat pixels) (imgpixels bp)).
  assert (Hv : is_byte (imgpixels bp !!! i)).
  { rewrite Forall_lookup in Hcb. apply (Hcb i). apply list_lookup_lookup_total_lt. exact Hi. }
  split; [exact Hl|]. rewrite Hpx.
  destruct (decide (i < 8 * Z.to_nat pixels)%nat) as [Hlt|Hge].
  - destruct (lsb_set_spec (imgpixels bp !!! i)
                (msb_bit (imgpixels shadow !!! (i / 8)%nat) (i mod 8)) Hv) as (H1 & H2 & _).
    split; [exact H1|]. split; [exact H2|]. lia.
  - rewrite Z.lxor_nilpotent. auto.
Qed.

Lemma retrieveshadow_inverts_hideshadow_witness :
  imgpixels (retrieveshadow (hideshadow carrier72 shadow9) 12 3 4) = imgpixels shadow9.
Proof.
  apply (retrieveshadow_inverts_hideshadow carrier72 shadow9 12 3 4 3 3).
  - lia.
  - reflexivity.
  - unfold is_byte. repeat constructor; lia.
  - vm_compute. discriminate.
  - reflexivity.
  - reflexivity.
Defined.

Lemma carrier72_bytes : Forall is_byte (imgpixels carrier72).
Proof. unfold is_byte. apply (bool_decide_unpack _). vm_compute. exact I. Qed.

Lemma hideshadow_touches_only_lsb_witness :
  Z.shiftr (imgpixels (hideshadow carrier72 shadow9) !!! 5%nat) 1
  = Z.shiftr (imgpixels carrier72 !!! 5%nat) 1.
Proof.
  apply (hideshadow_touches_only_lsb carrier72 shadow9 5).
  - unfold is_byte. repeat constructor; lia.
  - exact carrier72_bytes.
  - vm_compute. lia.
  - vm_compute. discriminate.
  - vm_compute. lia.
Defined.

(** ** Arithmetic modulo 251 *)

#[global] Instance eqp_equiv : Equivalence eqp.
Proof.
  split.
  - intros a. reflexivity.
  - intros a b H. unfold eqp in *. congruence.
  - intros a b c H1 H2. unfold eqp in *. congruence.
Qed.

#[global] Instance eqp_add : Proper (eqp ==> eqp ==> eqp) Z.add.
Proof.
  intros a a' Ha b b' Hb. unfold eqp in *.
  rewrite (Z.add_mod a b), (Z.add_mod a' b'), Ha, Hb by (unfold PRIME; lia). reflexivity.
Qed.

#[global] Instance eqp_mul : Proper (eqp ==> eqp ==> eqp) Z.mul.
Proof.
  intros a a' Ha b b' Hb. unfold eqp in *.
  rewrite (Z.mul_mod a b), (Z.mul_mod a' b'), Ha, Hb by (unfold PRIME; lia). reflexivity.
Qed.

#[global] Instance eqp_opp : Proper (eqp ==> eqp) Z.opp.
Proof.
  intros a a' Ha. replace (- a) with (-1 * a) by lia. replace (- a') with (-1 * a') by lia.
  rewrite Ha. reflexivity.
Qed.

#[global] Instance eqp_sub : Proper (eqp ==> eqp ==> eqp) Z.sub.
Proof.
  intros a a' Ha b b' Hb. unfold Z.sub. rewrite Ha, Hb. reflexivity.
Qed.

Lemma eqp_mod (a : Z) : a mod PRIME ==p a.
Proof. unfold eqp. apply Z.mod_mod. unfold PRIME. lia. Qed.

Lemma eqp_eq (a b : Z) : a = b -> a ==p b.
Proof. intros ->. reflexivity. Qed.

Lemma eqp_small (a b : Z) : 0 <= a <= 250 -> 0 <= b <= 250 -> a ==p b -> a = b.
Proof.
  unfold eqp, PRIME. intros Ha Hb H.
  rewrite !Z.mod_small in H by lia. exact H.
Qed.

Lemma eqp_inverse (a : Z) : ~ a ==p 0 -> a * modinv_at (a mod PRIME) ==p 1.
Proof.
  intros Ha.
  assert (Hr : 1 <= a mod PRIME <= 250).
  { pose proof (Z.mod_pos_bound a PRIME ltac:(unfold PRIME; lia)) as Hb.
    unfold eqp in Ha. change (0 mod PRIME) with 0 in Ha. unfold PRIME in *. lia. }
  destruct (modinv_at_spec (a mod PRIME) Hr) as [Hinv _].
  rewrite <- (eqp_mod a) at 1. unfold eqp. rewrite Hinv. reflexivity.
Qed.

Lemma eqp_integral (a b : Z) : a * b ==p 0 -> ~ a ==p 0 -> b ==p 0.
Proof.
  intros Hab Ha.
  assert (H : modinv_at (a mod PRIME) * (a * b) ==p 0) by (rewrite Hab; apply eqp_eq; ring).
  replace (modinv_at (a mod PRIME) * (a * b)) with ((a * modinv_at (a mod PRIME)) * b) in H by ring.
  rewrite (eqp_inverse a Ha) in H. rewrite Z.mul_1_l in H. exact H.
Qed.

Lemma zsum_ext (n : nat) (f g : nat -> Z) :
  (forall t, (t < n)%nat -> f t = g t) -> zsum n f = zsum n g.
Proof.
  induction n as [|n IH]; intros H; cbn [zsum]; [reflexivity|].
  rewrite IH, H by (try lia; intros; apply H; lia). reflexivity.
Qed.

Lemma zsum_eqp (n : nat) (f g : nat -> Z) :
  (forall t, (t < n)%nat -> f t ==p g t) -> zsum n f ==p zsum n g.
Proof.
  induction n as [|n IH]; intros H; cbn [zsum]; [reflexivity|].
  rewrite IH, H by (try lia; intros; apply H; lia). reflexivity.
Qed.

Lemma zsum_add (n : nat) (f g : nat -> Z) :
  zsum n (fun t => f t + g t) = zsum n f + zsum n g.
Proof. induction n as [|n IH]; cbn [zsum]; lia. Qed.

Lemma zsum_scale (n : nat) (c : Z) (f : nat -> Z) :
  zsum n (fun t => c * f t) = c * zsum n f.
Proof. induction n as [|n IH]; cbn [zsum]; [lia|]. rewrite IH. ring. Qed.

Lemma zsum_zero (n : nat) (f : nat -> Z) :
  (forall t, (t < n)%nat -> f t = 0) -> zsum n f = 0.
Proof.
  induction n as [|n IH]; intros H; cbn [zsum]; [reflexivity|].
  rewrite IH, H by (try lia; intros; apply H; lia). reflexivity.
Qed.

(** A sum with a single term. *)
Lemma zsum_single (n i : nat) (f : nat -> Z) :
  (i < n)%nat -> (forall t, (t < n)%nat -> t <> i -> f t = 0) -> zsum n f = f i.
Proof.
  induction n as [|n IH]; intros Hi H; [lia|]. cbn [zsum].
  destruct (decide (i = n)) as [->|Hne].
  - rewrite zsum_zero by (intros; apply H; lia). lia.
  - rewrite IH by (try lia; intros; apply H; lia). rewrite (H n) by lia. lia.
Qed.

(** ** Complete homogeneous polynomials *)

Lemma hom_0 (l : list Z) : hom l 0 = 1.
Proof. destruct l; reflexivity. Qed.

Lemma hom_cons (v : Z) (l : list Z) (d : nat) :
  hom (v :: l) (S d) = v * hom (v :: l) d + hom l (S d).
Proof. reflexivity. Qed.

Lemma hom_nil_S (d : nat) : hom [] (S d) = 0.
Proof. reflexivity. Qed.

Lemma hom_single (v : Z) (d : nat) : hom [v] d = v ^ Z.of_nat d.
Proof.
  induction d as [|d IH]; [reflexivity|].
  rewrite hom_cons, IH, hom_nil_S, Nat2Z.inj_succ, Z.pow_succ_r by lia. lia.
Qed.

Lemma hom_snoc (l : list Z) (b : Z) (d : nat) :
  hom (l ++ [b]) (S d) = b * hom (l ++ [b]) d + hom l (S d).
Proof.
  revert d. induction l as [|v l IH]; intros d.
  - cbn [app]. rewrite hom_cons, !hom_nil_S. lia.
  - cbn [app]. induction d as [|d IHd].
    + rewrite !hom_cons, !hom_0, IH, !hom_0. ring.
    + pose proof (hom_cons v (l ++ [b]) (S d)) as E1.
      pose proof (IH (S d)) as E2.
      pose proof (hom_cons v l (S d)) as E3.
      pose proof (hom_cons v (l ++ [b]) d) as E5.
      rewrite E1, E2, E3.
      transitivity (v * (b * hom (v :: l ++ [b]) d + hom (v :: l) (S d))
                    + (b * hom (l ++ [b]) (S d) + hom l (S (S d)))).
      { rewrite <- IHd. reflexivity. }
      rewrite E5. ring.
Qed.

(** The divided-difference identity behind the elimination. *)
Lemma hom_difference (a b : Z) (l : list Z) (d : nat) :
  hom (l ++ [b]) (S d) - hom (a :: l) (S d) = (b - a) * hom (a :: l ++ [b]) d.
Proof.
  pose proof (hom_cons a (l ++ [b]) d) as H1.
  pose proof (hom_snoc (a :: l) b d) as H2. cbn [app] in H2.
  lia.
Qed.

(** ** The first phase of the solver *)

Section EliminationModel.
Variable k : nat.
Variable x : nat -> Z.

Hypothesis x_distinct :
  forall i i', (i < k)%nat -> (i' < k)%nat -> i <> i' -> ~ x i - x i' ==p 0.

Lemma Pdiff_nonzero (c i : nat) : (c <= i)%nat -> (i < k)%nat -> ~ Pdiff x c i ==p 0.
Proof.
  intros Hc Hi. induction c as [|c IH]; cbn [Pdiff].
  - intros H. unfold eqp in H. vm_compute in H. discriminate.
  - intros H. apply eqp_integral in H; [|apply IH; lia].
    revert H. apply x_distinct; lia.
Qed.

Lemma window_cons (c i : nat) :
  (S c <= i)%nat -> window x (S c) i = x (i - S c)%nat :: window x c i.
Proof.
  intros H. unfold window. cbn [seq map].
  replace (S (i - S c)) with (i - c)%nat by lia. reflexivity.
Qed.

Lemma window_snoc (c i : nat) :
  (c <= i)%nat -> window x c i = map x (seq (i - c) c) ++ [x i].
Proof.
  intros H. unfold window. rewrite seq_S, map_app. cbn [map].
  replace (i - c + c)%nat with i by lia. reflexivity.
Qed.

Lemma window_pred (c i : nat) :
  (S c <= i)%nat -> window x c (i - 1) = x (i - S c)%nat :: map x (seq (i - c) c).
Proof.
  intros H. unfold window. cbn [seq map].
  replace (i - 1 - c)%nat with (i - S c)%nat by lia.
  replace (S (i - S c)) with (i - c)%nat by lia. reflexivity.
Qed.

Lemma window_difference (c i d : nat) :
  (S c <= i)%nat ->
  hom (window x c i) (S d) - hom (window x c (i - 1)) (S d)
  = (x i - x (i - S c)%nat) * hom (window x (S c) i) d.
Proof.
  intros H. rewrite window_cons, window_snoc, window_pred by lia.
  apply hom_difference.
Qed.

(** The effect of one elimination on the closed form. *)
Lemma Hf_step (j i t : nat) (inv : Z) :
  (j < i)%nat -> Pdiff x j (i - 1) * inv ==p 1 ->
  Hf x j i t - Hf x j (i - 1) t * (Pdiff x j i * inv) ==p Hf x (S j) i t.
Proof.
  intros Hji Hinv. unfold Hf.
  destruct (Nat.ltb_spec t j) as [Htj|Htj].
  - destruct (Nat.ltb_spec t (S j)); [|lia]. apply eqp_eq. ring.
  - destruct (Nat.ltb_spec t (S j)) as [Ht|Ht].
    + assert (t = j) by lia. subst t. rewrite Nat.sub_diag, !hom_0.
      transitivity (Pdiff x j i - Pdiff x j i * (Pdiff x j (i - 1) * inv)); [apply eqp_eq; ring|].
      rewrite Hinv. apply eqp_eq. ring.
    + replace (t - j)%nat with (S (t - S j)) by lia.
      transitivity (Pdiff x j i * hom (window x j i) (S (t - S j))
                    - hom (window x j (i - 1)) (S (t - S j)) * Pdiff x j i * (Pdiff x j (i - 1) * inv));
        [apply eqp_eq; ring|].
      rewrite Hinv. cbn [Pdiff]. apply eqp_eq.
      transitivity (Pdiff x j i * ((x i - x (i - S j)%nat) * hom (window x (S j) i) (t - S j)));
        [|ring].
      rewrite <- window_difference by lia. ring.
Qed.

Lemma InvE_pivot (j : nat) (F : nat -> nat -> Z) (i : nat) :
  InvE k x j F -> (j <= i)%nat -> (i < k)%nat ->
  F i j ==p Pdiff x j i /\ 1 <= F i j <= 250 /\ Pdiff x j i * modinv_at (F i j) ==p 1.
Proof.
  intros [Hb Hform] Hji Hi.
  assert (E : F i j ==p Pdiff x j i).
  { rewrite (Hform i j) by lia. rewrite Nat.min_r by lia. unfold Hf.
    rewrite Nat.ltb_irrefl, Nat.sub_diag, hom_0. apply eqp_eq. ring. }
  assert (Hnz : ~ F i j ==p 0).
  { rewrite E. apply Pdiff_nonzero; lia. }
  assert (Hr : 1 <= F i j <= 250).
  { pose proof (Hb i j ltac:(lia) ltac:(lia)) as B.
    destruct (Z.eq_dec (F i j) 0) as [E0|]; [|lia].
    exfalso. apply Hnz. rewrite E0. reflexivity. }
  split; [exact E|]. split; [exact Hr|].
  rewrite <- E. destruct (modinv_at_spec (F i j) Hr) as [Hinv _].
  unfold eqp. rewrite Hinv. reflexivity.
Qed.

Lemma pass_inv (j : nat) (F F' : nat -> nat -> Z) :
  (forall i t, F' i t = pass k j F i t) ->
  InvE k x j F -> InvE k x (S j) F'.
Proof.
  intros HF' HI. pose proof HI as [Hb Hform]. split.
  - intros i t Hi Ht. rewrite HF'. unfold pass.
    destruct (_ && _); [|apply Hb; lia].
    pose proof (Z.mod_pos_bound
                  (F i t - (F (i - 1)%nat t * (F i j * modinv_at (F (i - 1)%nat j))) mod PRIME)
                  PRIME ltac:(unfold PRIME; lia)) as B.
    unfold PRIME in *. lia.
  - intros i t Hi Ht. rewrite HF'. unfold pass.
    destruct (Nat.ltb_spec j i) as [Hji|Hji]; cbn [andb].
    + destruct (Nat.ltb_spec i k) as [_|]; [|lia]. cbn [andb].
      destruct (Nat.leb_spec t k) as [_|]; [|lia].
      rewrite andb_true_r. rewrite (Nat.min_r i (S j)) by lia.
      destruct (Nat.leb_spec j t) as [Hjt|Hjt].
      * rewrite !eqp_mod.
        destruct (InvE_pivot j F (i - 1) HI ltac:(lia) ltac:(lia)) as (_ & _ & Hinv).
        destruct (InvE_pivot j F i HI ltac:(lia) ltac:(lia)) as (Epiv & _ & _).
        rewrite (Hform i t), (Hform (i - 1)%nat t), Epiv by lia.
        rewrite !Nat.min_r by lia.
        apply Hf_step; [lia|exact Hinv].
      * rewrite (Hform i t) by lia. rewrite Nat.min_r by lia. unfold Hf.
        destruct (Nat.ltb_spec t j); [|lia].
        destruct (Nat.ltb_spec t (S j)); [|lia]. reflexivity.
    + rewrite (Hform i t) by lia. rewrite !Nat.min_l by lia. reflexivity.
Qed.

(** Above the pivot row, a round subtracts a multiple of the row before,
    in every column. *)
Lemma pass_row_operation (j : nat) (F F' : nat -> nat -> Z) (i t : nat) :
  (forall i t, F' i t = pass k j F i t) -> InvE k x j F ->
  (j < i)%nat -> (i < k)%nat -> (t <= k)%nat ->
  F' i t ==p F i t - (F i j * modinv_at (F (i - 1)%nat j)) * F (i - 1)%nat t.
Proof.
  intros HF' [Hb Hform] Hji Hi Ht. rewrite HF'. unfold pass.
  destruct (Nat.ltb_spec j i) as [_|]; [|lia].
  destruct (Nat.ltb_spec i k) as [_|]; [|lia].
  destruct (Nat.leb_spec t k) as [_|]; [|lia]. cbn [andb]. rewrite andb_true_r.
  destruct (Nat.leb_spec j t) as [Hjt|Hjt].
  - rewrite !eqp_mod. apply eqp_eq. ring.
  - assert (E : F (i - 1)%nat t ==p 0).
    { rewrite (Hform (i - 1)%nat t) by lia. rewrite Nat.min_r by lia. unfold Hf.
      destruct (Nat.ltb_spec t j); [reflexivity|lia]. }
    rewrite E. apply eqp_eq. ring.
Qed.

Lemma pass_sat (j : nat) (F F' : nat -> nat -> Z) (a : nat -> Z) :
  (forall i t, F' i t = pass k j F i t) -> InvE k x j F ->
  (forall i, (i < k)%nat -> sat k F a i) <-> (forall i, (i < k)%nat -> sat k F' a i).
Proof.
  intros HF' HI.
  assert (Hlow : forall i t, (i <= j)%nat -> F' i t = F i t).
  { intros i t Hi. rewrite HF'. unfold pass.
    destruct (Nat.ltb_spec j i); [lia|reflexivity]. }
  assert (Hrow : forall i, (j < i)%nat -> (i < k)%nat ->
            zsum k (fun t => F' i t * a t)
            ==p zsum k (fun t => F i t * a t)
                - (F i j * modinv_at (F (i - 1)%nat j)) * zsum k (fun t => F (i - 1)%nat t * a t)).
  { intros i Hji Hi. rewrite <- zsum_scale.
    replace (zsum k (fun t => F i t * a t)
             - zsum k (fun t => F i j * modinv_at (F (i - 1)%nat j) * (F (i - 1)%nat t * a t)))
      with (zsum k (fun t => F i t * a t
             + (- (F i j * modinv_at (F (i - 1)%nat j))) * (F (i - 1)%nat t * a t))).
    2:{ rewrite zsum_add, zsum_scale, zsum_scale. ring. }
    apply zsum_eqp. intros t Ht.
    rewrite (pass_row_operation j F F' i t HF' HI) by lia. apply eqp_eq. ring. }
  split.
  - intros Hs i Hi. unfold sat.
    destruct (Nat.ltb_spec j i) as [Hji|Hji].
    + rewrite Hrow by lia. rewrite (pass_row_operation j F F' i k HF' HI) by lia.
      pose proof (Hs i Hi) as H1. pose proof (Hs (i - 1)%nat ltac:(lia)) as H2.
      unfold sat in H1, H2. rewrite H1, H2. reflexivity.
    + rewrite (Hlow i k Hji). rewrite (zsum_ext k _ (fun t => F i t * a t)).
      * apply Hs. exact Hi.
      * intros t _. rewrite Hlow by lia. reflexivity.
  - intros Hs i. induction i as [|i IH]; intros Hi.
    + unfold sat. specialize (Hs 0%nat Hi). unfold sat in Hs.
      rewrite (Hlow 0%nat k ltac:(lia)) in Hs.
      rewrite (zsum_ext k _ (fun t => F 0%nat t * a t)) in Hs; [exact Hs|].
      intros t _. rewrite Hlow by lia. reflexivity.
    + destruct (Nat.ltb_spec j (S i)) as [Hji|Hji].
      * specialize (IH ltac:(lia)). pose proof (Hs (S i) Hi) as H. unfold sat in *.
        rewrite Hrow in H by lia.
        rewrite (pass_row_operation j F F' (S i) k HF' HI) in H by lia.
        replace (S i - 1)%nat with i in H by lia. rewrite IH in H.
        set (S1 := zsum k (fun t => F (S i) t * a t)) in *.
        set (c := F (S i) j * modinv_at (F i j) * F i k) in *.
        transitivity ((S1 - c) + c); [apply eqp_eq; ring|].
        rewrite H. apply eqp_eq. ring.
      * specialize (Hs (S i) Hi). unfold sat in *.
        rewrite (Hlow (S i) k ltac:(lia)) in Hs.
        rewrite (zsum_ext k _ (fun t => F (S i) t * a t)) in Hs; [exact Hs|].
        intros t _. rewrite Hlow by lia. reflexivity.
Qed.

End EliminationModel.

(** ** The second phase of the solver *)

Section ReductionModel.
Variable k : nat.

Lemma mod_range (z : Z) : 0 <= z mod PRIME <= 250.
Proof. pose proof (Z.mod_pos_bound z PRIME ltac:(unfold PRIME; lia)). unfold PRIME in *. lia. Qed.

Lemma pivot_unit (d : Z) : 1 <= d <= 250 -> (d * modinv_at d) mod PRIME = 1.
Proof. intros Hd. apply modinv_at_spec. exact Hd. Qed.

Lemma red_inv (i : nat) (F F' : nat -> nat -> Z) :
  (forall r t, F' r t = red k i F r t) ->
  (1 <= i)%nat -> (i < k)%nat -> InvR k i F -> InvR k (i - 1) F'.
Proof.
  intros HF' Hi1 Hik (Hb & Hlow & Hdiag & Hclr & Hone & H00).
  assert (Hd : 1 <= F i i <= 250).
  { pose proof (Hb i i ltac:(lia) ltac:(lia)). pose proof (Hdiag i Hik). lia. }
  repeat split.
  - rewrite HF'. unfold red. cbv zeta.
    repeat (destruct (_ =? _)%nat || destruct (_ <? _)%nat);
      try apply mod_range; try lia; apply Hb; lia.
  - rewrite HF'. unfold red. cbv zeta.
    repeat (destruct (_ =? _)%nat || destruct (_ <? _)%nat);
      try apply mod_range; try lia; apply Hb; lia.
  - intros r t Hr Ht. rewrite HF'. unfold red. cbv zeta.
    destruct (Nat.eqb_spec t k); [lia|].
    destruct (Nat.eqb_spec r i); [destruct (Nat.eqb_spec t i); [lia|apply Hlow; lia]|].
    destruct (Nat.ltb_spec r i); [|apply Hlow; lia].
    destruct (Nat.eqb_spec t i); [reflexivity|apply Hlow; lia].
  - intros r Hr. rewrite HF'. unfold red. cbv zeta.
    destruct (Nat.eqb_spec r k); [lia|].
    destruct (Nat.eqb_spec r i) as [->|Hne].
    + rewrite pivot_unit by exact Hd. lia.
    + destruct (Nat.ltb_spec r i); apply Hdiag; lia.
  - intros r t Hr Ht Hit Hrt. rewrite HF'. unfold red. cbv zeta.
    destruct (Nat.eqb_spec t k); [lia|].
    destruct (Nat.eqb_spec r i) as [->|Hne].
    + destruct (Nat.eqb_spec t i); [lia|]. apply Hclr; lia.
    + destruct (Nat.ltb_spec r i).
      * destruct (Nat.eqb_spec t i); [reflexivity|]. apply Hclr; lia.
      * destruct (decide (t = i)) as [->|]; [apply Hlow; lia|apply Hclr; lia].
  - intros r Hir Hr. rewrite HF'. unfold red. cbv zeta.
    destruct (Nat.eqb_spec r k); [lia|].
    destruct (Nat.eqb_spec r i) as [->|Hne].
    + apply pivot_unit. exact Hd.
    + destruct (Nat.ltb_spec r i); [lia|]. apply Hone; lia.
  - rewrite HF'. unfold red. cbv zeta.
    destruct (Nat.eqb_spec 0 i); [lia|].
    destruct (Nat.ltb_spec 0 i); [|lia].
    destruct (Nat.eqb_spec 0 k); [lia|]. exact H00.
Qed.

Lemma zsum_delta (n i : nat) (c : Z) :
  (i < n)%nat -> zsum n (fun t => if (t =? i)%nat then c else 0) = c.
Proof.
  intros Hi. rewrite (zsum_single n i) by
    first [lia | intros t _ Hne; destruct (Nat.eqb_spec t i); [contradiction|reflexivity]].
  rewrite Nat.eqb_refl. reflexivity.
Qed.

(** The pivot row before and after the iteration. *)
Lemma red_pivot_row (i : nat) (F F' : nat -> nat -> Z) (a : nat -> Z) :
  (forall r t, F' r t = red k i F r t) ->
  (1 <= i)%nat -> (i < k)%nat -> InvR k i F ->
  zsum k (fun t => F i t * a t) = F i i * a i /\
  zsum k (fun t => F' i t * a t) = a i /\
  F' i k ==p F i k * modinv_at (F i i) /\
  F i i * modinv_at (F i i) ==p 1.
Proof.
  intros HF' Hi1 Hik (Hb & Hlow & Hdiag & Hclr & Hone & H00).
  assert (Hd : 1 <= F i i <= 250).
  { pose proof (Hb i i ltac:(lia) ltac:(lia)). pose proof (Hdiag i Hik). lia. }
  assert (Hoff : forall t, (t < k)%nat -> t <> i -> F i t = 0).
  { intros t Ht Hne. destruct (Nat.ltb_spec t i); [apply Hlow; lia|apply Hclr; lia]. }
  repeat split.
  - rewrite (zsum_single k i) by first [lia | intros t Ht Hne; rewrite Hoff by lia; lia].
    reflexivity.
  - rewrite (zsum_single k i).
    + rewrite HF'. unfold red. cbv zeta. rewrite Nat.eqb_refl.
      destruct (Nat.eqb_spec i k); [lia|]. rewrite pivot_unit by exact Hd. lia.
    + lia.
    + intros t Ht Hne. rewrite HF'. unfold red. cbv zeta. rewrite Nat.eqb_refl.
      destruct (Nat.eqb_spec t k); [lia|].
      destruct (Nat.eqb_spec t i); [contradiction|]. rewrite Hoff by lia. lia.
  - rewrite HF'. unfold red. cbv zeta. rewrite !Nat.eqb_refl. apply eqp_mod.
  - unfold eqp. rewrite pivot_unit by exact Hd. reflexivity.
Qed.

(** A row above the pivot row before and after the iteration. *)
Lemma red_upper_row (i r : nat) (F F' : nat -> nat -> Z) (a : nat -> Z) :
  (forall r t, F' r t = red k i F r t) ->
  (1 <= i)%nat -> (i < k)%nat -> (r < i)%nat ->
  zsum k (fun t => F' r t * a t) = zsum k (fun t => F r t * a t) - F r i * a i /\
  F' r k ==p F r k - F' i k * F r i.
Proof.
  intros HF' Hi1 Hik Hri. split.
  - transitivity (zsum k (fun t => F r t * a t + (if (t =? i)%nat then - (F r i * a i) else 0))).
    + apply zsum_ext. intros t Ht. rewrite HF'. unfold red. cbv zeta.
      destruct (Nat.eqb_spec r i); [lia|]. destruct (Nat.ltb_spec r i); [|lia].
      destruct (Nat.eqb_spec t k); [lia|].
      destruct (Nat.eqb_spec t i) as [->|]; lia.
    + rewrite zsum_add, zsum_delta by lia. lia.
  - rewrite !HF'. unfold red. cbv zeta. rewrite !Nat.eqb_refl.
    destruct (Nat.eqb_spec r i); [lia|]. destruct (Nat.ltb_spec r i); [|lia].
    rewrite !eqp_mod. reflexivity.
Qed.

Lemma red_lower_row (i r : nat) (F F' : nat -> nat -> Z) (t : nat) :
  (forall r t, F' r t = red k i F r t) -> (i < r)%nat -> F' r t = F r t.
Proof.
  intros HF' Hir. rewrite HF'. unfold red. cbv zeta.
  destruct (Nat.eqb_spec r i); [lia|]. destruct (Nat.ltb_spec r i); [lia|]. reflexivity.
Qed.

Lemma red_sat (i : nat) (F F' : nat -> nat -> Z) (a : nat -> Z) :
  (forall r t, F' r t = red k i F r t) ->
  (1 <= i)%nat -> (i < k)%nat -> InvR k i F ->
  (forall r, (r < k)%nat -> sat k F a r) <-> (forall r, (r < k)%nat -> sat k F' a r).
Proof.
  intros HF' Hi1 Hik HI.
  destruct (red_pivot_row i F F' a HF' Hi1 Hik HI) as (P1 & P2 & P3 & P4).
  assert (Hpiv : sat k F a i <-> sat k F' a i).
  { unfold sat. rewrite P1, P2, P3. split; intros H.
    - transitivity ((F i i * modinv_at (F i i)) * a i).
      + rewrite P4. apply eqp_eq. ring.
      + replace (F i i * modinv_at (F i i) * a i) with (F i i * a i * modinv_at (F i i)) by ring.
        rewrite H. reflexivity.
    - rewrite H. transitivity (F i k * (F i i * modinv_at (F i i))); [apply eqp_eq; ring|].
      rewrite P4. apply eqp_eq. ring. }
  assert (Hrow : forall r, (r < k)%nat -> sat k F' a i -> (sat k F a r <-> sat k F' a r)).
  { intros r Hr Hsi. destruct (lt_eq_lt_dec r i) as [[Hri| ->]|Hri].
    - destruct (red_upper_row i r F F' a HF' Hi1 Hik Hri) as [U1 U2].
      unfold sat in *. rewrite U1, U2. rewrite P2 in Hsi. rewrite <- Hsi.
      split; intros H.
      + rewrite H. apply eqp_eq. ring.
      + transitivity ((zsum k (fun t => F r t * a t) - F r i * a i) + F r i * a i);
          [apply eqp_eq; ring|].
        rewrite H. apply eqp_eq. ring.
    - exact Hpiv.
    - unfold sat. rewrite (red_lower_row i r F F' k HF' Hri).
      rewrite (zsum_ext k (fun t => F' r t * a t) (fun t => F r t * a t)); [reflexivity|].
      intros t _. rewrite (red_lower_row i r F F' t HF' Hri). reflexivity. }
  split; intros Hs r Hr.
  - apply Hrow; [exact Hr| |apply Hs; exact Hr]. apply Hpiv, Hs. exact Hik.
  - apply Hrow; [exact Hr| |apply Hs; exact Hr]. apply Hs. exact Hik.
Qed.

(** When the second phase is over the left part is the identity. *)
Lemma InvR_0_sat (F : nat -> nat -> Z) (a : nat -> Z) (r : nat) :
  InvR k 0 F -> (r < k)%nat -> (sat k F a r <-> a r ==p F r k).
Proof.
  intros (Hb & Hlow & Hdiag & Hclr & Hone & H00) Hr. unfold sat.
  rewrite (zsum_single k r).
  - assert (F r r = 1) as ->.
    { destruct r as [|r]; [exact H00|apply Hone; lia]. }
    rewrite Z.mul_1_l. reflexivity.
  - exact Hr.
  - intros t Ht Hne.
    assert (F r t = 0) as ->; [|lia].
    destruct t as [|t]; [apply Hlow; lia|apply Hclr; lia].
Qed.

End ReductionModel.

(** ** The code computes [pass] and [red] *)

Lemma mget_mset (k : nat) (mat : matrix) (i t : nat) (v : Z) (i' t' : nat) :
  wf k mat -> (i < k)%nat -> (t <= k)%nat ->
  mget (mset mat i t v) i' t' = if decide (i' = i /\ t' = t) then v else mget mat i' t'.
Proof.
  intros [Hlen Hrows] Hi Ht. unfold mget, mset.
  destruct (decide (i' = i)) as [->|Hne].
  - rewrite list_lookup_total_insert_eq by lia.
    destruct (decide (t' = t)) as [->|Hnet].
    + rewrite list_lookup_total_insert_eq by (rewrite Hrows; lia).
      destruct (decide _) as [|n]; [reflexivity|]. exfalso. apply n. split; reflexivity.
    + rewrite list_lookup_total_insert_ne by congruence.
      destruct (decide _) as [[_ ?]|]; [contradiction|reflexivity].
  - rewrite list_lookup_total_insert_ne by congruence.
    destruct (decide _) as [[? _]|]; [contradiction|reflexivity].
Qed.

Lemma wf_mset (k : nat) (mat : matrix) (i t : nat) (v : Z) :
  wf k mat -> wf k (mset mat i t v).
Proof.
  intros [Hlen Hrows]. unfold mset. split; [rewrite length_insert; exact Hlen|].
  intros i' Hi'. destruct (decide (i' = i)) as [->|Hne].
  - rewrite list_lookup_total_insert_eq by lia. rewrite length_insert. apply Hrows. exact Hi'.
  - rewrite list_lookup_total_insert_ne by congruence. apply Hrows. exact Hi'.
Qed.

Lemma to_int32_small (z : Z) : - 2147483648 <= z < 2147483648 -> to_int32 z = z.
Proof. intros H. unfold to_int32. rewrite Z.mod_small by lia. lia. Qed.

Lemma c_mod_spec (z : Z) : -2000000000 <= z <= 2000000000 -> c_mod z PRIME = z mod PRIME.
Proof.
  intros Hz. unfold c_mod, int_rem, int_add, PRIME.
  pose proof (Z.quot_rem' z 251) as E.
  destruct (Z.ltb_spec (Z.rem z 251) 0) as [Hneg|Hpos].
  - assert (Hz0 : z < 0).
    { destruct (Z.ltb_spec z 0); [assumption|].
      pose proof (Z.rem_bound_pos z 251 ltac:(lia) ltac:(lia)). lia. }
    pose proof (Z.rem_bound_pos_neg z 251 ltac:(lia) ltac:(lia)) as B.
    rewrite to_int32_small by lia.
    apply Z.mod_unique with (Z.quot z 251 - 1); lia.
  - destruct (Z.ltb_spec z 0) as [Hz0|Hz0].
    + pose proof (Z.rem_bound_pos_neg z 251 ltac:(lia) ltac:(lia)) as B.
      apply Z.mod_unique with (Z.quot z 251); lia.
    + pose proof (Z.rem_bound_pos z 251 ltac:(lia) ltac:(lia)) as B.
      apply Z.mod_unique with (Z.quot z 251); lia.
Qed.

Lemma int_rem_mul (u w : Z) :
  0 <= u <= 250 -> 0 <= w <= 62500 -> int_rem (int_mul u w) PRIME = (u * w) mod PRIME.
Proof.
  intros Hu Hw. unfold int_rem, int_mul.
  rewrite to_int32_small by nia.
  apply Z.rem_mod_nonneg; [nia|unfold PRIME; lia].
Qed.

Lemma elim_cell (u w a : Z) :
  0 <= u <= 250 -> 0 <= w <= 250 -> 0 <= a <= 62500 ->
  c_mod (int_sub u (int_rem (int_mul w a) PRIME)) PRIME = (u - (w * a) mod PRIME) mod PRIME.
Proof.
  intros Hu Hw Ha. rewrite int_rem_mul by lia.
  pose proof (mod_range (w * a)) as B.
  unfold int_sub. rewrite to_int32_small by lia. apply c_mod_spec. lia.
Qed.

Lemma modinv_at_range (v : Z) : 0 <= modinv_at v <= 250.
Proof.
  unfold modinv_at.
  destruct ((0 <=? v) && (v <? PRIME)) eqn:E; [|lia].
  apply andb_prop in E as [E1 E2]. unfold PRIME in *.
  destruct (Z.eq_dec v 0) as [->|Hne]; [change (modinv !!! Z.to_nat 0) with 0; lia|].
  pose proof (modinv_at_spec v ltac:(lia)) as [_ H]. unfold modinv_at in H.
  destruct ((0 <=? v) && (v <? PRIME)) eqn:E'; [lia|].
  apply andb_false_iff in E'. unfold PRIME in E'. lia.
Qed.

Section FirstPhaseCode.
Variable k : nat.

(** The inner loop of the first phase. *)
Lemma eliminate_row_spec (mat : matrix) (a : Z) (j i : nat) :
  wf k mat -> bounded k (mget mat) ->
  (1 <= i)%nat -> (i < k)%nat -> (j <= k)%nat -> 0 <= a <= 62500 ->
  wf k (eliminate_row a j i k mat) /\
  forall i' t', mget (eliminate_row a j i k mat) i' t' =
    if decide (i' = i /\ (j <= t' <= k)%nat)
    then (mget mat i t' - (mget mat (i - 1) t' * a) mod PRIME) mod PRIME
    else mget mat i' t'.
Proof.
  intros Hwf Hb Hi1 Hik Hjk Ha. unfold eliminate_row.
  assert (G : forall n, (j + n <= S k)%nat ->
    let res := fold_left
      (fun mat t =>
         let temp := int_sub (mget mat i t) (int_rem (int_mul (mget mat (i - 1) t) a) PRIME) in
         mset mat i t (c_mod temp PRIME)) (seq j n) mat in
    wf k res /\
    forall i' t', mget res i' t' =
      if decide (i' = i /\ (j <= t' < j + n)%nat)
      then (mget mat i t' - (mget mat (i - 1) t' * a) mod PRIME) mod PRIME
      else mget mat i' t').
  { induction n as [|n IH]; intros Hn; cbn zeta.
    - cbn [seq fold_left]. split; [exact Hwf|]. intros i' t'.
      destruct (decide _) as [[_ ?]|]; [lia|reflexivity].
    - rewrite seq_S, fold_left_app. cbn [fold_left].
      specialize (IH ltac:(lia)). cbn zeta in IH. destruct IH as [IHwf IHget].
      set (res := fold_left _ (seq j n) mat) in *.
      split; [apply wf_mset; exact IHwf|].
      intros i' t'. rewrite (mget_mset k) by (try exact IHwf; lia).
      rewrite !IHget.
      destruct (decide (i = i /\ (j <= j + n < j + n)%nat)) as [[_ ?]|_]; [lia|].
      destruct (decide (i - 1 = i /\ (j <= j + n < j + n)%nat)%nat) as [[? _]|_]; [lia|].
      rewrite elim_cell by (try apply Hb; lia).
      destruct (decide (i' = i /\ t' = (j + n)%nat)) as [[-> ->]|Hne].
      + destruct (decide _) as [|Hc]; [reflexivity|]. exfalso. apply Hc. lia.
      + decide_cases. }
  specialize (G (k + 1 - j)%nat ltac:(lia)). cbn zeta in G. destruct G as [G1 G2].
  split; [exact G1|]. intros i' t'. rewrite G2.
  decide_cases.
Qed.

(** The middle loop of the first phase computes [pass]. *)
Lemma eliminate_column_spec (mat : matrix) (j : nat) :
  wf k mat -> bounded k (mget mat) -> (j < k)%nat ->
  wf k (eliminate_column j k mat) /\
  forall i t, mget (eliminate_column j k mat) i t = pass k j (mget mat) i t.
Proof.
  intros Hwf Hb Hjk. unfold eliminate_column.
  assert (G : forall n mat, wf k mat -> bounded k (mget mat) -> (j + n < k)%nat ->
    let res := fold_left
      (fun mat i =>
         let a := int_mul (mget mat i j) (modinv_at (mget mat (i - 1) j)) in
         eliminate_row a j i k mat) (rev (seq (j + 1) n)) mat in
    wf k res /\
    forall i t, mget res i t =
      if decide ((j < i <= j + n)%nat /\ (j <= t <= k)%nat)
      then (mget mat i t - (mget mat (i - 1) t
              * (mget mat i j * modinv_at (mget mat (i - 1) j))) mod PRIME) mod PRIME
      else mget mat i t).
  { clear mat Hwf Hb. induction n as [|n IH]; intros mat Hwf Hb Hn; cbn zeta.
    - cbn [seq rev fold_left]. split; [exact Hwf|]. intros i t.
      destruct (decide _) as [[? _]|]; [lia|reflexivity].
    - rewrite seq_S, rev_unit. cbn [fold_left].
      set (i0 := (j + 1 + n)%nat).
      assert (Ha : int_mul (mget mat i0 j) (modinv_at (mget mat (i0 - 1) j))
                   = mget mat i0 j * modinv_at (mget mat (i0 - 1) j)).
      { unfold int_mul. apply to_int32_small.
        pose proof (Hb i0 j ltac:(lia) ltac:(lia)).
        pose proof (modinv_at_range (mget mat (i0 - 1) j)). nia. }
      rewrite Ha.
      destruct (eliminate_row_spec mat (mget mat i0 j * modinv_at (mget mat (i0 - 1) j)) j i0)
        as [Hwf1 Hget1]; try assumption; try lia.
      { pose proof (Hb i0 j ltac:(lia) ltac:(lia)).
        pose proof (modinv_at_range (mget mat (i0 - 1) j)). nia. }
      set (mat1 := eliminate_row _ j i0 k mat) in *.
      assert (Hb1 : bounded k (mget mat1)).
      { intros i t Hi Ht. rewrite Hget1.
        destruct (decide _); [apply mod_range|apply Hb; lia]. }
      specialize (IH mat1 Hwf1 Hb1 ltac:(lia)). cbn zeta in IH. destruct IH as [IHwf IHget].
      split; [exact IHwf|].
      intros i t. rewrite IHget. rewrite !Hget1.
      destruct (decide ((j < i <= j + n)%nat /\ (j <= t <= k)%nat)) as [[Hi Ht]|Hout].
      + destruct (decide (i = i0 /\ _)) as [[? _]|_]; [lia|].
        destruct (decide ((i - 1)%nat = i0 /\ _)) as [[? _]|_]; [lia|].
        destruct (decide (i = i0 /\ _)) as [[? _]|_]; [lia|].
        destruct (decide ((i - 1)%nat = i0 /\ _)) as [[? _]|_]; [lia|].
        destruct (decide _) as [|Hc]; [reflexivity|]. exfalso. apply Hc. lia.
      + destruct (decide (i = i0 /\ (j <= t <= k)%nat)) as [[-> Ht]|Hne].
        * destruct (decide _) as [|Hc]; [reflexivity|]. exfalso. apply Hc. lia.
        * destruct (decide _) as [[? ?]|]; [|reflexivity]. exfalso. lia. }
  destruct (G (k - 1 - j)%nat mat Hwf Hb ltac:(lia)) as [G1 G2].
  split; [exact G1|]. intros i t. rewrite G2. unfold pass.
  destruct (Nat.ltb_spec j i), (Nat.ltb_spec i k), (Nat.leb_spec j t), (Nat.leb_spec t k);
    cbn [andb]; destruct (decide _) as [[? ?]|Hc]; try reflexivity; try lia;
    exfalso; apply Hc; lia.
Qed.

End FirstPhaseCode.

Section SecondPhaseCode.
Variable k : nat.

Lemma clear_above_spec (mat : matrix) (i : nat) :
  wf k mat -> bounded k (mget mat) -> (i < k)%nat ->
  wf k (clear_above i k mat) /\
  forall r t, mget (clear_above i k mat) r t =
    if decide (r < i)%nat then
      if decide (t = k) then (mget mat r k - (mget mat i k * mget mat r i) mod PRIME) mod PRIME
      else if decide (t = i) then 0 else mget mat r t
    else mget mat r t.
Proof.
  intros Hwf Hb Hik. unfold clear_above.
  assert (G : forall n mat, wf k mat -> bounded k (mget mat) -> (n <= i)%nat ->
    let res := fold_left
      (fun mat t =>
         let temp := int_sub (mget mat t k)
                             (int_rem (int_mul (mget mat i k) (mget mat t i)) PRIME) in
         mset (mset mat t k (c_mod temp PRIME)) t i 0) (rev (seq 0 n)) mat in
    wf k res /\
    forall r t, mget res r t =
      if decide (r < n)%nat then
        if decide (t = k) then (mget mat r k - (mget mat i k * mget mat r i) mod PRIME) mod PRIME
        else if decide (t = i) then 0 else mget mat r t
      else mget mat r t).
  { clear mat Hwf Hb. induction n as [|n IH]; intros mat Hwf Hb Hn; cbn zeta.
    - cbn [seq rev fold_left]. split; [exact Hwf|]. intros r t.
      destruct (decide _); [lia|reflexivity].
    - rewrite seq_S, rev_unit. cbn [fold_left Nat.add].
      rewrite elim_cell by (try apply Hb; try lia;
        pose proof (Hb n i ltac:(lia) ltac:(lia)); lia).
      set (val := (mget mat n k - (mget mat i k * mget mat n i) mod PRIME) mod PRIME).
      set (mat1 := mset (mset mat n k val) n i 0).
      assert (Hwf1 : wf k mat1) by (apply wf_mset, wf_mset; exact Hwf).
      assert (Hget1 : forall r t, mget mat1 r t =
                if decide (r = n /\ t = i) then 0
                else if decide (r = n /\ t = k) then val else mget mat r t).
      { intros r t. unfold mat1.
        rewrite (mget_mset k) by (try apply wf_mset; try exact Hwf; lia).
        rewrite (mget_mset k) by (try exact Hwf; lia). reflexivity. }
      assert (Hb1 : bounded k (mget mat1)).
      { intros r t Hr Ht. rewrite Hget1.
        destruct (decide _); [lia|]. destruct (decide _); [apply mod_range|apply Hb; lia]. }
      specialize (IH mat1 Hwf1 Hb1 ltac:(lia)). cbn zeta in IH. destruct IH as [IHwf IHget].
      split; [exact IHwf|].
      intros r t. rewrite IHget. rewrite !Hget1.
      destruct (decide (r < n)%nat) as [Hrn|Hrn].
      + destruct (decide (r < S n)%nat); [|lia].
        decide_cases.
      + destruct (decide (r < S n)%nat) as [Hrs|Hrs].
        * assert (r = n) by lia. subst r.
          decide_cases.
        * decide_cases. }
  apply (G i mat Hwf Hb). lia.
Qed.

(** One iteration of the second phase computes [red]. *)
Lemma reduce_row_spec (mat : matrix) (i : nat) :
  wf k mat -> bounded k (mget mat) -> (i < k)%nat ->
  wf k (reduce_row i k mat) /\
  forall r t, mget (reduce_row i k mat) r t = red k i (mget mat) r t.
Proof.
  intros Hwf Hb Hik. unfold reduce_row. cbv zeta.
  pose proof (modinv_at_range (mget mat i i)) as Hinv.
  rewrite int_rem_mul by (try apply Hb; lia).
  set (v := (mget mat i k * modinv_at (mget mat i i)) mod PRIME).
  set (mat1 := mset mat i k v).
  assert (Hwf1 : wf k mat1) by (apply wf_mset; exact Hwf).
  assert (Hget1 : forall r t, mget mat1 r t =
            if decide (r = i /\ t = k) then v else mget mat r t).
  { intros r t. unfold mat1. rewrite (mget_mset k) by (try exact Hwf; lia). reflexivity. }
  assert (E : mget mat1 i i = mget mat i i).
  { rewrite Hget1. destruct (decide _) as [[_ ?]|]; [lia|reflexivity]. }
  rewrite E. rewrite int_rem_mul by (try apply Hb; lia).
  set (u := (mget mat i i * modinv_at (mget mat i i)) mod PRIME).
  set (mat2 := mset mat1 i i u).
  assert (Hwf2 : wf k mat2) by (apply wf_mset; exact Hwf1).
  assert (Hget2 : forall r t, mget mat2 r t =
            if decide (r = i /\ t = i) then u
            else if decide (r = i /\ t = k) then v else mget mat r t).
  { intros r t. unfold mat2. rewrite (mget_mset k) by (try exact Hwf1; lia).
    rewrite Hget1. reflexivity. }
  assert (Hb2 : bounded k (mget mat2)).
  { intros r t Hr Ht. rewrite Hget2.
    destruct (decide _); [apply mod_range|].
    destruct (decide _); [apply mod_range|apply Hb; lia]. }
  destruct (clear_above_spec mat2 i Hwf2 Hb2 Hik) as [Hwf3 Hget3].
  split; [exact Hwf3|].
  intros r t. rewrite Hget3, !Hget2. unfold red. cbv zeta. fold v. fold u.
  destruct (Nat.eqb_spec r i) as [->|Hri].
  - destruct (decide (i < i)%nat); [lia|].
    destruct (Nat.eqb_spec t k) as [->|Htk].
    + decide_cases.
    + destruct (Nat.eqb_spec t i) as [->|Hti];
        decide_cases.
  - destruct (Nat.ltb_spec r i) as [Hlt|Hge].
    + destruct (decide (r < i)%nat); [|lia].
      destruct (Nat.eqb_spec t k) as [->|Htk].
      * destruct (decide (k = k)); [|lia].
        decide_cases.
      * destruct (decide (t = k)); [lia|].
        destruct (Nat.eqb_spec t i) as [->|Hti].
        -- destruct (decide (i = i)); [reflexivity|lia].
        -- destruct (decide (t = i)); [lia|].
           decide_cases.
    + destruct (decide (r < i)%nat); [lia|].
      decide_cases.
Qed.

End SecondPhaseCode.

(** ** Correctness of [findcoefficients] *)

Section Solver.
Variable k : nat.
Variable x : nat -> Z.
Hypothesis x_distinct :
  forall i i', (i < k)%nat -> (i' < k)%nat -> i <> i' -> ~ x i - x i' ==p 0.

Lemma echelon_spec (mat : matrix) :
  wf k mat -> InvE k x 0 (mget mat) -> (1 <= k)%nat ->
  wf k (echelon k mat) /\ InvE k x (k - 1) (mget (echelon k mat)) /\
  same_solutions k (mget mat) (mget (echelon k mat)).
Proof.
  intros Hwf H0 Hk. unfold echelon.
  assert (G : forall n, (n <= k - 1)%nat ->
    let res := fold_left (fun mat j => eliminate_column j k mat) (seq 0 n) mat in
    wf k res /\ InvE k x n (mget res) /\ same_solutions k (mget mat) (mget res)).
  { induction n as [|n IH]; intros Hn; cbn zeta.
    - cbn [seq fold_left]. split; [exact Hwf|]. split; [exact H0|]. intros a. reflexivity.
    - rewrite seq_S, fold_left_app. cbn [fold_left Nat.add].
      specialize (IH ltac:(lia)). cbn zeta in IH. destruct IH as (IHwf & IHinv & IHsol).
      set (res := fold_left _ (seq 0 n) mat) in *.
      destruct (eliminate_column_spec k res n IHwf (proj1 IHinv) ltac:(lia)) as [Hwf' Hget].
      split; [exact Hwf'|]. split.
      + apply (pass_inv k x x_distinct n (mget res)); assumption.
      + intros a. rewrite (IHsol a).
        apply (pass_sat k x n (mget res)); assumption. }
  apply (G (k - 1)%nat). lia.
Qed.

Lemma reduce_spec (mat : matrix) :
  wf k mat -> InvR k (k - 1) (mget mat) -> (1 <= k)%nat ->
  InvR k 0 (mget (reduce k mat)) /\ same_solutions k (mget mat) (mget (reduce k mat)).
Proof.
  intros Hwf HI Hk. unfold reduce.
  assert (G : forall n mat, (n <= k - 1)%nat -> wf k mat -> InvR k n (mget mat) ->
    let res := fold_left (fun mat i => reduce_row i k mat) (rev (seq 1 n)) mat in
    InvR k 0 (mget res) /\ same_solutions k (mget mat) (mget res)).
  { clear mat Hwf HI. induction n as [|n IH]; intros mat Hn Hwf HI; cbn zeta.
    - cbn [seq rev fold_left]. split; [exact HI|]. intros a. reflexivity.
    - rewrite seq_S, rev_unit. cbn [fold_left].
      destruct (reduce_row_spec k mat (1 + n) Hwf (proj1 HI) ltac:(lia)) as [Hwf' Hget].
      assert (HI' : InvR k n (mget (reduce_row (1 + n) k mat))).
      { replace n with (1 + n - 1)%nat at 1 by lia.
        apply (red_inv k (1 + n) (mget mat)); try assumption; lia. }
      destruct (IH (reduce_row (1 + n) k mat) ltac:(lia) Hwf' HI') as [R1 R2].
      split; [exact R1|].
      intros a. rewrite <- (R2 a).
      apply (red_sat k (1 + n) (mget mat)); try assumption; lia. }
  apply (G (k - 1)%nat mat); [lia|exact Hwf|exact HI].
Qed.

Lemma echelon_to_reduce (F : nat -> nat -> Z) :
  (1 <= k)%nat -> InvE k x (k - 1) F -> InvR k (k - 1) F.
Proof.
  intros Hk [Hb Hform].
  assert (Hrow : forall i t, (i < k)%nat -> (t < k)%nat -> F i t ==p Hf x i i t).
  { intros i t Hi Ht. rewrite (Hform i t Hi Ht). rewrite Nat.min_l by lia. reflexivity. }
  repeat split.
  - apply Hb; assumption.
  - apply Hb; assumption.
  - intros r t Hr Ht. apply eqp_small; [apply Hb; lia|lia|].
    rewrite Hrow by lia. unfold Hf. destruct (Nat.ltb_spec t r); [reflexivity|lia].
  - intros r Hr. pose proof (Hb r r ltac:(lia) ltac:(lia)) as B.
    destruct (Z.eq_dec (F r r) 0) as [E|]; [|lia]. exfalso.
    apply (Pdiff_nonzero k x x_distinct r r); [lia|exact Hr|].
    rewrite <- E, Hrow by lia. unfold Hf.
    rewrite Nat.ltb_irrefl, Nat.sub_diag, hom_0. apply eqp_eq. ring.
  - intros r t Hr Ht Hlt. lia.
  - intros r Hr1 Hr2. lia.
  - apply eqp_small; [apply Hb; lia|lia|].
    rewrite Hrow by lia. unfold Hf. cbn. reflexivity.
Qed.

Lemma findcoefficients_spec (mat : matrix) :
  wf k mat -> InvE k x 0 (mget mat) -> (1 <= k)%nat ->
  let res := findcoefficients mat k in
  (forall i, (i < k)%nat -> 0 <= mget res i k <= 250) /\
  forall a, (forall i, (i < k)%nat -> sat k (mget mat) a i)
            <-> (forall i, (i < k)%nat -> a i ==p mget res i k).
Proof.
  intros Hwf H0 Hk. cbn zeta. unfold findcoefficients.
  destruct (echelon_spec mat Hwf H0 Hk) as (Hwf1 & HE & Hsol1).
  destruct (reduce_spec (echelon k mat) Hwf1 (echelon_to_reduce _ Hk HE) Hk) as [HR Hsol2].
  split.
  - intros i Hi. apply (proj1 HR); lia.
  - intros a. rewrite (Hsol1 a), (Hsol2 a).
    split; intros H i Hi.
    + apply (InvR_0_sat k _ a i HR Hi). apply H. exact Hi.
    + apply (InvR_0_sat k _ a i HR Hi). apply H. exact Hi.
Qed.

End Solver.

Lemma lookup_total_fmap_seq {B : Type} `{!Inhabited B} (f : nat -> B) (n i : nat) :
  (i < n)%nat -> (f <$> seq 0 n) !!! i = f i.
Proof.
  intros Hi. apply list_lookup_total_correct.
  rewrite list_lookup_fmap, lookup_seq_lt by exact Hi. reflexivity.
Qed.

Lemma mget_vandermonde (k : nat) (xs ys : list Z) (i t : nat) :
  (i < k)%nat -> (t <= k)%nat ->
  mget (vandermonde_matrix k xs ys) i t =
    if decide (t = k) then ys !!! i else (xs !!! i) ^ Z.of_nat t mod PRIME.
Proof.
  intros Hi Ht. unfold mget, vandermonde_matrix.
  rewrite lookup_total_fmap_seq by exact Hi.
  destruct (decide (t = k)) as [->|Hne].
  - rewrite lookup_total_app_r by (rewrite length_fmap, length_seq; lia).
    rewrite length_fmap, length_seq, Nat.sub_diag. reflexivity.
  - rewrite lookup_total_app_l by (rewrite length_fmap, length_seq; lia).
    rewrite lookup_total_fmap_seq by lia. reflexivity.
Qed.

Lemma wf_vandermonde (k : nat) (xs ys : list Z) : wf k (vandermonde_matrix k xs ys).
Proof.
  unfold wf, vandermonde_matrix. split; [rewrite length_fmap, length_seq; reflexivity|].
  intros i Hi. rewrite lookup_total_fmap_seq by exact Hi.
  rewrite length_app, length_fmap, length_seq. cbn. lia.
Qed.

(** C2: for [k >= 2] sample points with distinct [x_j] in [1, 250] and
    [y_j] in [0, 250], [findcoefficients] run on the augmented Vandermonde
    matrix leaves in column [k] field elements [a_0 .. a_(k-1)] with
    [y_j = (sum_i a_i * x_j^i) mod 251] for every [j], and they are the only
    field elements with that property. *)
Theorem findcoefficients_solves_vandermonde (k : nat) (xs ys : list Z) :
  (2 <= k)%nat -> length xs = k -> length ys = k ->
  NoDup xs ->
  Forall (fun x => 1 <= x <= 250) xs ->
  Forall (fun y => 0 <= y <= 250) ys ->
  let mat := findcoefficients (vandermonde_matrix k xs ys) k in
  let a := fun i => mget mat i k in
  (forall i, (i < k)%nat -> 0 <= a i <= 250) /\
  (forall j, (j < k)%nat ->
     ys !!! j = zsum k (fun i => a i * (xs !!! j) ^ Z.of_nat i) mod 251) /\
  (forall a' : nat -> Z,
     (forall i, (i < k)%nat -> 0 <= a' i <= 250) ->
     (forall j, (j < k)%nat ->
        ys !!! j = zsum k (fun i => a' i * (xs !!! j) ^ Z.of_nat i) mod 251) ->
     forall i, (i < k)%nat -> a' i = a i).
Proof.
  intros Hk Hlx Hly Hnd Hxs Hys.
  set (x := fun i => xs !!! i).
  assert (Hxr : forall i, (i < k)%nat -> 1 <= x i <= 250).
  { intros i Hi. rewrite Forall_lookup in Hxs. apply (Hxs i).
    apply list_lookup_lookup_total_lt. lia. }
  assert (Hyr : forall i, (i < k)%nat -> 0 <= ys !!! i <= 250).
  { intros i Hi. rewrite Forall_lookup in Hys. apply (Hys i).
    apply list_lookup_lookup_total_lt. lia. }
  assert (Hdist : forall i i', (i < k)%nat -> (i' < k)%nat -> i <> i' -> ~ x i - x i' ==p 0).
  { intros i i' Hi Hi' Hne H.
    assert (x i <> x i').
    { intros E. apply Hne. eapply (NoDup_lookup xs); [exact Hnd| |].
      - apply list_lookup_lookup_total_lt. lia.
      - fold (x i). rewrite E. apply list_lookup_lookup_total_lt. lia. }
    pose proof (Hxr i Hi). pose proof (Hxr i' Hi').
    unfold eqp, PRIME in H. change (0 mod 251) with 0 in H.
    destruct (Z.ltb_spec (x i') (x i)).
    - rewrite Z.mod_small in H by lia. lia.
    - assert (E : (x i - x i') mod 251 = x i - x i' + 251).
      { symmetry. apply Z.mod_unique with (-1); lia. }
      lia. }
  set (M := vandermonde_matrix k xs ys).
  assert (H0 : InvE k x 0 (mget M)).
  { split.
    - intros i t Hi Ht. unfold M. rewrite mget_vandermonde by lia.
      destruct (decide _); [apply Hyr; lia|apply mod_range].
    - intros i t Hi Ht. unfold M. rewrite mget_vandermonde by lia.
      destruct (decide _); [lia|]. rewrite Nat.min_r by lia.
      unfold Hf. cbn [Nat.ltb Nat.leb Pdiff]. unfold window.
      rewrite Nat.sub_0_r. cbn [seq map]. rewrite Nat.sub_0_r, hom_single, eqp_mod.
      apply eqp_eq. unfold x. ring. }
  destruct (findcoefficients_spec k x Hdist M (wf_vandermonde k xs ys) H0 ltac:(lia))
    as [Hrange Hsol].
  assert (Hsat : forall (a : nat -> Z) j, (j < k)%nat ->
            (sat k (mget M) a j <->
             ys !!! j = zsum k (fun i => a i * (xs !!! j) ^ Z.of_nat i) mod 251)).
  { intros a j Hj. unfold sat. unfold M at 2. rewrite mget_vandermonde by lia.
    destruct (decide (k = k)); [|lia].
    assert (E : zsum k (fun t => mget M j t * a t)
                ==p zsum k (fun i => a i * (xs !!! j) ^ Z.of_nat i)).
    { apply zsum_eqp. intros t Ht. unfold M. rewrite mget_vandermonde by lia.
      destruct (decide _); [lia|]. rewrite eqp_mod. apply eqp_eq. ring. }
    rewrite E. unfold eqp. change PRIME with 251.
    rewrite (Z.mod_small (ys !!! j)) by (pose proof (Hyr j Hj); lia).
    split; intros H; congruence. }
  cbn zeta. split; [exact Hrange|]. split.
  - intros j Hj. apply Hsat; [exact Hj|]. revert j Hj.
    apply Hsol. intros i Hi. reflexivity.
  - intros a' Ha' Hy i Hi.
    apply eqp_small; [apply Ha'; exact Hi|apply Hrange; exact Hi|].
    revert i Hi. apply Hsol. intros j Hj. apply Hsat; [exact Hj|]. apply Hy. exact Hj.
Qed.

Lemma findcoefficients_solves_vandermonde_witness :
  [30; 50] !!! 1%nat
  = zsum 2 (fun i => mget (findcoefficients (vandermonde_matrix 2 [1; 2] [30; 50]) 2) i 2
                     * ([1; 2] !!! 1%nat) ^ Z.of_nat i) mod 251.
Proof.
  apply (findcoefficients_solves_vandermonde 2 [1; 2] [30; 50]).
  - lia.
  - reflexivity.
  - reflexivity.
  - apply (bool_decide_unpack _). vm_compute. exact I.
  - repeat constructor; lia.
  - repeat constructor; lia.
  - lia.
Defined.

(** ** Truncation *)

Lemma truncate_loop_spec (n : nat) (px : list Z) :
  let res := fold_left (fun px i => if 250 <? px !!! i then <[i := 250]> px else px)
                       (seq 0 n) px in
  length res = length px /\
  forall i, (i < length px)%nat ->
            res !!! i = if decide (i < n)%nat then Z.min (px !!! i) 250 else px !!! i.
Proof.
  induction n as [|n IH]; cbn zeta.
  - cbn [seq fold_left]. split; [reflexivity|]. intros i _.
    destruct (decide _); [lia|reflexivity].
  - rewrite seq_S, fold_left_app. cbn [fold_left Nat.add].
    cbn zeta in IH. destruct IH as [IHlen IHpx].
    set (res := fold_left _ (seq 0 n) px) in *.
    destruct (Z.ltb_spec 250 (res !!! n)) as [Hgt|Hle].
    + split; [rewrite length_insert; exact IHlen|].
      intros i Hi. destruct (decide (i = n)) as [->|Hne].
      * rewrite list_lookup_total_insert_eq by lia.
        rewrite IHpx in Hgt by lia.
        destruct (decide (n < n)%nat); [lia|]. destruct (decide (n < S n)%nat); lia.
      * rewrite list_lookup_total_insert_ne by congruence. rewrite IHpx by lia.
        decide_cases.
    + split; [exact IHlen|].
      intros i Hi. rewrite IHpx by lia. destruct (decide (i = n)) as [->|Hne].
      * rewrite IHpx in Hle by lia.
        destruct (decide (n < n)%nat); [lia|]. destruct (decide (n < S n)%nat); lia.
      * decide_cases.
Qed.

(** X2: [truncategrayscale] caps every pixel at 250 and changes nothing else:
    pixel [i] becomes the smaller of its value and 250, and the length of
    the pixel array is kept. *)
Theorem truncategrayscale_caps_at_250 (bp : Bitmap) (i : nat) :
  Z.to_nat (bmpimagesize bp) = length (imgpixels bp) ->
  (i < length (imgpixels bp))%nat ->
  length (imgpixels (truncategrayscale bp)) = length (imgpixels bp) /\
  imgpixels (truncategrayscale bp) !!! i = Z.min (imgpixels bp !!! i) 250.
Proof.
  intros Hsize Hi. unfold truncategrayscale. cbn [imgpixels set_imgpixels].
  destruct (truncate_loop_spec (Z.to_nat (bmpimagesize bp)) (imgpixels bp)) as [Hlen Hpx].
  split; [exact Hlen|]. rewrite Hpx by exact Hi.
  destruct (decide _); [reflexivity|lia].
Qed.

Lemma truncategrayscale_caps_at_250_witness :
  imgpixels (truncategrayscale (set_imgpixels px4 [10; 255; 250; 251])) !!! 1%nat
  = Z.min ([10; 255; 250; 251] !!! 1%nat) 250.
Proof.
  apply (truncategrayscale_caps_at_250 (set_imgpixels px4 [10; 255; 250; 251]) 1).
  - reflexivity.
  - cbn. lia.
Defined.

(** ** Round trip *)

(** C1: distribution followed by recovery is meant to return the truncated
    secret.  With [k = 4] and [n = 250] the 36-pixel secret whose pixels are
    all 200 is split into 250 shadows; recovering from shadows 250, 1, 2, 3
    (in that order) multiplies [250^3] by a coefficient in [int], which
    overflows, and every fourth recovered pixel is 72 instead of 200.
    Recovering from shadows 1, 2, 3, 4 returns the secret. *)
Theorem roundtrip_breaks_on_int_overflow :
  imgpixels (truncategrayscale secret36) = replicate 36 200 /\
  distribute_then_recover secret36 4 250 DEFAULT_SEED [249; 0; 1; 2]%nat 12 3
  = Some (concat (replicate 9 [72; 200; 200; 200])) /\
  distribute_then_recover secret36 4 250 DEFAULT_SEED [0; 1; 2; 3]%nat 12 3
  = Some (replicate 36 200).
Proof. vm_compute. repeat split; reflexivity. Qed.

(** ** Byte order *)

Lemma land_byte_mask (x k : Z) :
  0 <= k -> Z.land x (Z.shiftl 255 k) = (x / 2 ^ k) mod 256 * 2 ^ k.
Proof.
  intros Hk. apply Z.bits_inj'. intros n Hn.
  rewrite Z.land_spec. destruct (Z.ltb_spec n k).
  - rewrite Z.shiftl_spec_low, Z.mul_pow2_bits_low by lia. apply andb_false_r.
  - rewrite Z.shiftl_spec, Z.mul_pow2_bits by lia.
    change 256 with (2 ^ 8). change 255 with (Z.ones 8).
    destruct (Z.ltb_spec (n - k) 8).
    + rewrite Z.ones_spec_low, Z.mod_pow2_bits_low, Z.div_pow2_bits by lia.
      rewrite andb_true_r. f_equal. lia.
    + rewrite Z.ones_spec_high, Z.mod_pow2_bits_high by lia. apply andb_false_r.
Qed.

Lemma lor_disjoint (a b k : Z) :
  0 <= k -> 0 <= b < 2 ^ k -> Z.lor (a * 2 ^ k) b = a * 2 ^ k + b.
Proof.
  intros Hk Hb. pose proof (Z.add_lor_land (a * 2 ^ k) b) as E.
  enough (Z.land (a * 2 ^ k) b = 0) by lia.
  apply Z.bits_inj'. intros n Hn.
  rewrite Z.land_spec, Z.bits_0. destruct (Z.ltb_spec n k).
  - rewrite Z.mul_pow2_bits_low by lia. reflexivity.
  - rewrite <- (Z.mod_small b (2 ^ k)) by lia.
    rewrite Z.mod_pow2_bits_high by lia. apply andb_false_r.
Qed.

Lemma byte_at_range (x i : Z) : 0 <= byte_at x i < 256.
Proof. unfold byte_at. apply Z.mod_pos_bound. lia. Qed.

Lemma uint16swap_bytes (x : Z) :
  0 <= x < 65536 -> uint16swap x = byte_at x 0 * 256 + byte_at x 1.
Proof.
  intros Hx. unfold uint16swap, to_uint16, byte_at.
  rewrite Z.shiftr_div_pow2, Z.shiftl_mul_pow2, Z.lor_comm by lia.
  rewrite lor_disjoint by (change (2 ^ 8) with 256; Z.div_mod_to_equations; lia).
  change (2 ^ (8 * 0)) with 1. change (2 ^ (8 * 1)) with 256. change (2 ^ 8) with 256.
  Z.div_mod_to_equations; lia.
Qed.

Lemma uint32swap_bytes (x : Z) :
  uint32swap x
  = byte_at x 0 * 16777216 + byte_at x 1 * 65536 + byte_at x 2 * 256 + byte_at x 3.
Proof.
  unfold uint32swap, to_uint32.
  change 0x000000FF with (Z.shiftl 255 0).
  change 0x0000FF00 with (Z.shiftl 255 8).
  change 0x00FF0000 with (Z.shiftl 255 16).
  change 0xFF000000 with (Z.shiftl 255 24).
  rewrite !land_byte_mask by lia.
  change ((x / 2 ^ 0) mod 256) with (byte_at x 0).
  change ((x / 2 ^ 8) mod 256) with (byte_at x 1).
  change ((x / 2 ^ 16) mod 256) with (byte_at x 2).
  change ((x / 2 ^ 24) mod 256) with (byte_at x 3).
  pose proof (byte_at_range x 0). pose proof (byte_at_range x 1).
  pose proof (byte_at_range x 2). pose proof (byte_at_range x 3).
  generalize dependent (byte_at x 0). generalize dependent (byte_at x 1).
  generalize dependent (byte_at x 2). generalize dependent (byte_at x 3).
  intros b3 H3 b2 H2 b1 H1 b0 H0.
  rewrite !Z.shiftl_mul_pow2, !Z.shiftr_div_pow2 by lia.
  change (2 ^ 0) with 1. change (2 ^ 8) with 256. change (2 ^ 16) with 65536.
  change (2 ^ 24) with 16777216.
  replace (b0 * 1 * 16777216) with (b0 * 2 ^ 24) by lia.
  replace (b1 * 256 * 256) with (b1 * 65536) by lia.
  replace (b2 * 65536 / 256) with (b2 * 256) by (Z.div_mod_to_equations; lia).
  replace (b3 * 16777216 / 16777216) with b3 by (Z.div_mod_to_equations; lia).
  rewrite lor_disjoint by lia.
  replace (b0 * 2 ^ 24 + b1 * 65536) with ((b0 * 256 + b1) * 2 ^ 16) by lia.
  rewrite lor_disjoint by lia.
  replace ((b0 * 256 + b1) * 2 ^ 16 + b2 * 256) with ((b0 * 65536 + b1 * 256 + b2) * 2 ^ 8) by lia.
  rewrite lor_disjoint by lia.
  rewrite Z.mod_small by lia. lia.
Qed.

Lemma to_uint32_to_int32 (z : Z) : to_uint32 (to_int32 z) = to_uint32 z.
Proof. unfold to_uint32, to_int32. Z.div_mod_to_equations; lia. Qed.

Lemma int32swap_bytes (x : Z) :
  int32swap x
  = to_int32 (byte_at x 0 * 16777216 + byte_at x 1 * 65536 + byte_at x 2 * 256 + byte_at x 3).
Proof.
  unfold int32swap. cbv zeta.
  rewrite to_uint32_to_int32.
  change 0xFF00FF00 with (Z.lor (Z.shiftl 255 24) (Z.shiftl 255 8)).
  change 0x00FF00FF with (Z.lor (Z.shiftl 255 16) (Z.shiftl 255 0)).
  change 0xFFFF with (Z.ones 16).
  rewrite !Z.land_lor_distr_r, !land_byte_mask, !Z.land_ones by lia.
  rewrite !Z.shiftl_mul_pow2, !Z.shiftr_div_pow2 by lia.
  assert (E3 : (to_uint32 (x * 2 ^ 8) / 2 ^ 24) mod 256 = byte_at x 2).
  { unfold to_uint32, byte_at. change (2 ^ (8 * 2)) with 65536.
    change (2 ^ 8) with 256. change (2 ^ 24) with 16777216. Z.div_mod_to_equations; lia. }
  assert (E1 : (to_uint32 (x * 2 ^ 8) / 2 ^ 8) mod 256 = byte_at x 0).
  { unfold to_uint32, byte_at. change (2 ^ (8 * 0)) with 1.
    change (2 ^ 8) with 256. Z.div_mod_to_equations; lia. }
  assert (E2 : (x / 2 ^ 8 / 2 ^ 16) mod 256 = byte_at x 3).
  { unfold byte_at. change (2 ^ (8 * 3)) with 16777216.
    change (2 ^ 8) with 256. change (2 ^ 16) with 65536. Z.div_mod_to_equations; lia. }
  assert (E0 : (x / 2 ^ 8 / 2 ^ 0) mod 256 = byte_at x 1).
  { unfold byte_at. change (2 ^ (8 * 1)) with 256.
    change (2 ^ 8) with 256. change (2 ^ 0) with 1. Z.div_mod_to_equations; lia. }
  rewrite E3, E1, E2, E0. clear E3 E1 E2 E0.
  pose proof (byte_at_range x 0). pose proof (byte_at_range x 1).
  pose proof (byte_at_range x 2). pose proof (byte_at_range x 3).
  generalize dependent (byte_at x 0). generalize dependent (byte_at x 1).
  generalize dependent (byte_at x 2). generalize dependent (byte_at x 3).
  intros b3 H3 b2 H2 b1 H1 b0 H0.
  (* gather the two high bytes and the two low bytes *)
  replace (Z.lor (Z.lor (b2 * 2 ^ 24) (b0 * 2 ^ 8)) (Z.lor (b3 * 2 ^ 16) (b1 * 2 ^ 0)))
    with (Z.lor (Z.lor (b2 * 2 ^ 24) (b3 * 2 ^ 16)) (Z.lor (b0 * 2 ^ 8) (b1 * 2 ^ 0))).
  2:{ rewrite <- !Z.lor_assoc. f_equal. rewrite !Z.lor_assoc. f_equal. apply Z.lor_comm. }
  rewrite (lor_disjoint b2) by lia.
  rewrite (lor_disjoint b0) by lia.
  replace (b2 * 2 ^ 24 + b3 * 2 ^ 16) with ((b2 * 256 + b3) * 2 ^ 16) by lia.
  rewrite lor_disjoint by lia.
  set (hi := b2 * 256 + b3). set (lo := b0 * 2 ^ 8 + b1 * 2 ^ 0).
  assert (Hhi : 0 <= hi < 65536) by (unfold hi; lia).
  assert (Hlo : 0 <= lo < 65536) by (unfold lo; lia).
  assert (Ea : to_int32 (to_int32 (hi * 2 ^ 16 + lo) * 2 ^ 16)
               = (lo - (if 32768 <=? lo then 65536 else 0)) * 2 ^ 16).
  { unfold to_int32. destruct (Z.leb_spec 32768 lo); Z.div_mod_to_equations; lia. }
  assert (Eb : (to_int32 (hi * 2 ^ 16 + lo) / 2 ^ 16) mod 2 ^ 16 = hi).
  { unfold to_int32. change (2 ^ 16) with 65536. Z.div_mod_to_equations; lia. }
  rewrite Ea, Eb. rewrite lor_disjoint by lia.
  replace (b0 * 16777216 + b1 * 65536 + b2 * 256 + b3) with (lo * 65536 + hi) by (unfold lo, hi; lia).
  unfold to_int32. destruct (Z.leb_spec 32768 lo); Z.div_mod_to_equations; lia.
Qed.

(** X3: [uint16swap] exchanges the two bytes of a [uint16_t]; applied
    twice it gives the value back. *)
Theorem uint16swap_exchanges_bytes (x : Z) :
  0 <= x < 2 ^ 16 ->
  byte_at (uint16swap x) 0 = byte_at x 1 /\
  byte_at (uint16swap x) 1 = byte_at x 0 /\
  0 <= uint16swap x < 2 ^ 16 /\
  uint16swap (uint16swap x) = x.
Proof.
  intros Hx. change (2 ^ 16) with 65536 in *.
  assert (R : 0 <= uint16swap x < 65536) by (unfold uint16swap, to_uint16; apply Z.mod_pos_bound; lia).
  rewrite (uint16swap_bytes (uint16swap x)) by exact R.
  rewrite (uint16swap_bytes x) in * by exact Hx.
  pose proof (byte_at_range x 0). pose proof (byte_at_range x 1).
  assert (Ex : x = byte_at x 0 + 256 * byte_at x 1).
  { unfold byte_at. change (2 ^ (8 * 0)) with 1. change (2 ^ (8 * 1)) with 256.
    Z.div_mod_to_equations; lia. }
  generalize dependent (byte_at x 0). generalize dependent (byte_at x 1).
  intros b1 H1 b0 R H0 Ex. unfold byte_at.
  change (2 ^ (8 * 0)) with 1. change (2 ^ (8 * 1)) with 256.
  repeat split; try lia; Z.div_mod_to_equations; lia.
Qed.

Lemma uint16swap_exchanges_bytes_witness :
  uint16swap (uint16swap 0x1234) = 0x1234.
Proof. apply (uint16swap_exchanges_bytes 0x1234). lia. Defined.

(** X4: [uint32swap] reverses the four bytes of a [uint32_t]; applied
    twice it gives the value back. *)
Theorem uint32swap_reverses_bytes (x : Z) :
  0 <= x < 2 ^ 32 ->
  (forall i, 0 <= i < 4 -> byte_at (uint32swap x) i = byte_at x (3 - i)) /\
  0 <= uint32swap x < 2 ^ 32 /\
  uint32swap (uint32swap x) = x.
Proof.
  intros Hx. change (2 ^ 32) with 4294967296 in *.
  rewrite (uint32swap_bytes (uint32swap x)), (uint32swap_bytes x).
  pose proof (byte_at_range x 0). pose proof (byte_at_range x 1).
  pose proof (byte_at_range x 2). pose proof (byte_at_range x 3).
  assert (Ex : x = byte_at x 0 + 256 * byte_at x 1 + 65536 * byte_at x 2 + 16777216 * byte_at x 3).
  { unfold byte_at. change (2 ^ (8 * 0)) with 1. change (2 ^ (8 * 1)) with 256.
    change (2 ^ (8 * 2)) with 65536. change (2 ^ (8 * 3)) with 16777216.
    Z.div_mod_to_equations; lia. }
  set (y := byte_at x 0 * 16777216 + byte_at x 1 * 65536 + byte_at x 2 * 256 + byte_at x 3).
  assert (Y0 : byte_at y 0 = byte_at x 3 /\ byte_at y 1 = byte_at x 2 /\
               byte_at y 2 = byte_at x 1 /\ byte_at y 3 = byte_at x 0).
  { unfold y. generalize dependent (byte_at x 0). generalize dependent (byte_at x 1).
    generalize dependent (byte_at x 2). generalize dependent (byte_at x 3).
    intros b3 H3 b2 H2 b1 H1 b0 H0 _. unfold byte_at.
    change (2 ^ (8 * 0)) with 1. change (2 ^ (8 * 1)) with 256.
    change (2 ^ (8 * 2)) with 65536. change (2 ^ (8 * 3)) with 16777216.
    repeat split; Z.div_mod_to_equations; lia. }
  destruct Y0 as (Y0 & Y1 & Y2 & Y3).
  split; [|split].
  - intros i Hi.
    assert (Hc : i = 0 \/ i = 1 \/ i = 2 \/ i = 3) by lia.
    destruct Hc as [-> | [-> | [-> | ->]]]; assumption.
  - unfold y. lia.
  - rewrite Y0, Y1, Y2, Y3. lia.
Qed.

Lemma uint32swap_reverses_bytes_witness :
  uint32swap (uint32swap 0x12345678) = 0x12345678.
Proof. apply (uint32swap_reverses_bytes 0x12345678). lia. Defined.

(** X5: [int32swap] reverses the four bytes of the two's complement
    representation of an [int32_t]; applied twice it gives the value
    back. *)
Theorem int32swap_reverses_bytes (x : Z) :
  - 2 ^ 31 <= x < 2 ^ 31 ->
  (forall i, 0 <= i < 4 -> byte_at (int32swap x) i = byte_at x (3 - i)) /\
  - 2 ^ 31 <= int32swap x < 2 ^ 31 /\
  int32swap (int32swap x) = x.
Proof.
  intros Hx. change (2 ^ 31) with 2147483648 in *.
  rewrite (int32swap_bytes (int32swap x)), (int32swap_bytes x).
  pose proof (byte_at_range x 0). pose proof (byte_at_range x 1).
  pose proof (byte_at_range x 2). pose proof (byte_at_range x 3).
  assert (Ex : x = to_int32 (byte_at x 0 + 256 * byte_at x 1 + 65536 * byte_at x 2
                              + 16777216 * byte_at x 3)).
  { unfold byte_at, to_int32. change (2 ^ (8 * 0)) with 1. change (2 ^ (8 * 1)) with 256.
    change (2 ^ (8 * 2)) with 65536. change (2 ^ (8 * 3)) with 16777216.
    Z.div_mod_to_equations; lia. }
  set (y := to_int32 (byte_at x 0 * 16777216 + byte_at x 1 * 65536 + byte_at x 2 * 256
                      + byte_at x 3)).
  assert (Y0 : byte_at y 0 = byte_at x 3 /\ byte_at y 1 = byte_at x 2 /\
               byte_at y 2 = byte_at x 1 /\ byte_at y 3 = byte_at x 0).
  { unfold y. generalize dependent (byte_at x 0). generalize dependent (byte_at x 1).
    generalize dependent (byte_at x 2). generalize dependent (byte_at x 3).
    intros b3 H3 b2 H2 b1 H1 b0 H0 _. unfold byte_at, to_int32.
    change (2 ^ (8 * 0)) with 1. change (2 ^ (8 * 1)) with 256.
    change (2 ^ (8 * 2)) with 65536. change (2 ^ (8 * 3)) with 16777216.
    repeat split; Z.div_mod_to_equations; lia. }
  destruct Y0 as (Y0 & Y1 & Y2 & Y3).
  split; [|split].
  - intros i Hi.
    assert (Hc : i = 0 \/ i = 1 \/ i = 2 \/ i = 3) by lia.
    destruct Hc as [-> | [-> | [-> | ->]]]; assumption.
  - unfold y, to_int32. Z.div_mod_to_equations; lia.
  - rewrite Y0, Y1, Y2, Y3. rewrite Ex at 5. f_equal. lia.
Qed.

Lemma int32swap_reverses_bytes_witness :
  int32swap (int32swap (-2)) = -2.
Proof. apply (int32swap_reverses_bytes (-2)). lia. Defined.

(** ** Helpers of util.c and bitmap construction *)

Lemma c_mod_floor (a b : Z) : 0 < b <= 2147483647 -> c_mod a b = a mod b.
Proof.
  intros Hb. unfold c_mod, int_rem, int_add. cbv zeta.
  pose proof (Z.mod_pos_bound a b ltac:(lia)) as Hm.
  destruct (Z.ltb_spec (Z.rem a b) 0) as [Hneg|Hpos].
  - assert (Ha : a < 0).
    { destruct (Z.ltb_spec a 0) as [|Ha]; [assumption|].
      pose proof (Z.rem_bound_pos_pos a b (proj1 Hb) Ha). lia. }
    pose proof (Z.rem_bound_pos_neg a b (proj1 Hb) ltac:(lia)) as Hr.
    assert (E : a mod b = Z.rem a b + b).
    { symmetry. apply Z.mod_unique with (Z.quot a b - 1); [lia|].
      pose proof (Z.quot_rem' a b). lia. }
    unfold to_int32. rewrite <- E.
    replace ((a mod b + 2147483648) mod 4294967296) with (a mod b + 2147483648)
      by (symmetry; apply Z.mod_small; lia).
    lia.
  - apply Z.mod_unique with (Z.quot a b).
    + destruct (Z.ltb_spec a 0).
      * pose proof (Z.rem_bound_pos_neg a b (proj1 Hb) ltac:(lia)). lia.
      * pose proof (Z.rem_bound_pos_pos a b (proj1 Hb) ltac:(lia)). lia.
    + pose proof (Z.quot_rem' a b). lia.
Qed.

(** X6: for a positive modulus [b], [mod(a, b)] is the remainder of the
    floored division, a number of [0, b), whatever the sign of [a]; no
    operation of the function overflows. *)
Theorem mod_is_floored_remainder (a b : Z) :
  0 < b <= 2147483647 ->
  c_mod a b = a mod b /\ 0 <= c_mod a b < b.
Proof.
  intros Hb. rewrite c_mod_floor by exact Hb.
  split; [reflexivity|]. apply Z.mod_pos_bound. lia.
Qed.

Lemma mod_is_floored_remainder_witness : c_mod (-1) 10 = (-1) mod 10.
Proof. apply (mod_is_floored_remainder (-1) 10). lia. Defined.

(** X7: [calculatepixelarraysize] pads every row to a multiple of four
    bytes.  For [0 <= width <= 2^29 - 4] (so that [8 * width + 31] fits a
    [uint32_t]), [0 <= height < 2^31] and [4 * ceil(width / 4) * height]
    below [2^32], the result is [4 * ceil(width / 4) * height], at least
    [width * height] and equal to it when [width] is a multiple of four.
    Outside that range the [uint32_t] arithmetic wraps: for width [2^29]
    and height 1 the result is 0. *)
Theorem calculatepixelarraysize_pads_rows (width height : Z) :
  0 <= width <= 2 ^ 29 - 4 -> 0 <= height < 2 ^ 31 ->
  4 * ((width + 3) / 4) * height < 2 ^ 32 ->
  calculatepixelarraysize width height = 4 * ((width + 3) / 4) * height /\
  width * height <= calculatepixelarraysize width height /\
  (width mod 4 = 0 -> calculatepixelarraysize width height = width * height) /\
  calculatepixelarraysize (2 ^ 29) 1 = 0.
Proof.
  intros Hw Hh Hfit. change (2 ^ 29 - 4) with 536870908 in Hw.
  change (2 ^ 31) with 2147483648 in Hh. change (2 ^ 32) with 4294967296 in Hfit.
  assert (E : calculatepixelarraysize width height = 4 * ((width + 3) / 4) * height).
  { unfold calculatepixelarraysize, to_uint32, BITS_PER_PIXEL.
    rewrite (Z.mod_small (8 * width)) by lia.
    rewrite (Z.mod_small (8 * width + 31)) by lia.
    replace ((8 * width + 31) / 32) with ((width + 3) / 4) by (Z.div_mod_to_equations; lia).
    rewrite (Z.mod_small ((width + 3) / 4 * 4)) by (Z.div_mod_to_equations; lia).
    rewrite (Z.mod_small height) by lia.
    assert (0 <= (width + 3) / 4) by (Z.div_mod_to_equations; lia).
    assert (0 <= (width + 3) / 4 * height) by (apply Z.mul_nonneg_nonneg; lia).
    rewrite Z.mod_small by lia. lia. }
  rewrite E. split; [reflexivity|]. split; [|split; [|reflexivity]].
  - assert (width <= 4 * ((width + 3) / 4)) by (Z.div_mod_to_equations; lia). nia.
  - intros Hm. assert (4 * ((width + 3) / 4) = width) by (Z.div_mod_to_equations; lia). nia.
Qed.

Lemma calculatepixelarraysize_pads_rows_witness : calculatepixelarraysize 5 3 = 24.
Proof. apply (calculatepixelarraysize_pads_rows 5 3); vm_compute; intuition congruence. Defined.

Lemma length_initpalette : length initpalette = 1024%nat.
Proof. reflexivity. Qed.

Lemma initpalette_bytes : Forall is_byte initpalette.
Proof. apply (bool_decide_unpack _). vm_compute. exact I. Qed.

(** [bmpimagesize] of what [newbitmaphelper] builds is its last argument. *)
Lemma bmpimagesize_newbitmaphelper (width height seed shadnum pixelarraysize : Z) :
  0 <= pixelarraysize < 2 ^ 32 ->
  bmpimagesize (newbitmaphelper width height seed shadnum pixelarraysize) = pixelarraysize.
Proof.
  intros Hp. change (2 ^ 32) with 4294967296 in Hp.
  unfold bmpimagesize, newbitmaphelper. cbn.
  unfold to_uint32, PIXEL_ARRAY_OFFSET, BMP_HEADER_SIZE, DIB_HEADER_SIZE, PALETTE_SIZE.
  destruct (Z.ltb_spec 0 ((14 + 40 + 1024 + pixelarraysize) mod 4294967296));
    [Z.div_mod_to_equations; lia | reflexivity].
Qed.

(** X8: a bitmap that [newbitmaphelper] builds is consistent, whatever the
    size asked for: [bmpimagesize] is the size of its pixel array (also when
    the file size of the header wraps around), the palette holds the 256
    grey levels in 1024 bytes, and the fields hold values of their types. *)
Theorem newbitmaphelper_is_valid (width height seed shadnum pixelarraysize : Z) :
  0 <= width < 2 ^ 32 -> - 2 ^ 31 <= height < 2 ^ 31 ->
  0 <= seed < 2 ^ 16 -> 0 <= shadnum < 2 ^ 16 -> 0 <= pixelarraysize < 2 ^ 32 ->
  let bmp := newbitmaphelper width height seed shadnum pixelarraysize in
  valid_bitmap bmp /\
  bmpimagesize bmp = pixelarraysize /\
  forall i c, 0 <= i < 256 -> 0 <= c < 4 ->
    palette bmp !!! Z.to_nat (4 * i + c) = if c =? 3 then 0 else i.
Proof.
  intros Hw Hh Hs Hn Hp. cbv zeta.
  split; [|split].
  - unfold valid_bitmap.
    rewrite bmpimagesize_newbitmaphelper by exact Hp.
    unfold newbitmaphelper, valid_bmpheader, valid_dibheader, is_byte. cbn [bmpheader dibheader palette imgpixels
      bmp_id bmp_size bmp_unused1 bmp_unused2 bmp_offset dib_size dib_width dib_height
      dib_nplanes dib_depth dib_compression dib_pixelarraysize dib_hres dib_vres dib_ncolors
      dib_nimpcolors fst snd].
    unfold to_uint32, PIXEL_ARRAY_OFFSET, BMP_HEADER_SIZE, DIB_HEADER_SIZE, PALETTE_SIZE, BITS_PER_PIXEL.
    change (2 ^ 32) with 4294967296 in *. change (2 ^ 16) with 65536 in *.
    change (2 ^ 31) with 2147483648 in *.
    pose proof (Z.mod_pos_bound (14 + 40 + 1024 + pixelarraysize) 4294967296 ltac:(lia)).
    repeat split; try lia.
    + apply initpalette_bytes.
    + apply Forall_replicate. unfold is_byte. lia.
    + rewrite length_replicate. lia.
  - apply bmpimagesize_newbitmaphelper. exact Hp.
  - intros i c Hi Hc. cbn [newbitmaphelper palette].
    assert (G : forallb (fun i => forallb (fun c =>
                  initpalette !!! Z.to_nat (4 * Z.of_nat i + Z.of_nat c)
                  =? (if Z.of_nat c =? 3 then 0 else Z.of_nat i)) (seq 0 4)) (seq 0 256) = true)
      by (vm_compute; reflexivity).
    rewrite forallb_forall in G.
    specialize (G (Z.to_nat i) ltac:(apply in_seq; lia)).
    rewrite forallb_forall in G.
    specialize (G (Z.to_nat c) ltac:(apply in_seq; lia)).
    rewrite !Z2Nat.id in G by lia. apply Z.eqb_eq in G. exact G.
Qed.

Lemma newbitmaphelper_is_valid_witness :
  bmpimagesize (newbitmaphelper 3 3 691 1 9) = 9.
Proof. apply (newbitmaphelper_is_valid 3 3 691 1 9); lia. Defined.

(** ** Reading and writing bitmap files *)

Lemma at_pos_start (data : list Z) : {| f_data := data; f_pos := 0 |} = at_pos [] data.
Proof. reflexivity. Qed.

Lemma xfread_at (size nmemb : Z) (pre bs post : list Z) :
  0 < size -> Z.of_nat (length bs) = size * nmemb -> 1 <= nmemb ->
  xfread size nmemb (at_pos pre (bs ++ post)) = inr (bs, at_pos (pre ++ bs) post).
Proof.
  intros Hs Hl Hn. unfold xfread, at_pos. cbn [f_data f_pos].
  rewrite Nat2Z.id, drop_app_length.
  rewrite <- Hl, Nat2Z.id, take_app_length.
  destruct (Z.eqb_spec size 0) as [|_]; [lia|].
  assert (1 <= Z.of_nat (length bs) / size).
  { rewrite Hl, Z.mul_comm, Z.div_mul by lia. lia. }
  destruct (Z.ltb_spec (Z.of_nat (length bs) / size) 1); [lia|].
  rewrite length_app, Nat2Z.inj_add, <- app_assoc. reflexivity.
Qed.

Lemma xfread_short (size nmemb : Z) (fp : FILE) :
  0 < size -> 0 <= f_pos fp ->
  Z.of_nat (length (f_data fp)) < f_pos fp + size ->
  xfread size nmemb fp = inl fread_error.
Proof.
  intros Hs Hp Hl. unfold xfread.
  destruct (Z.eqb_spec size 0) as [|_]; [reflexivity|].
  set (got := take _ _).
  assert (Hg : Z.of_nat (length got) < size).
  { unfold got. rewrite length_take, length_drop. lia. }
  rewrite Z.div_small by lia. reflexivity.
Qed.

Lemma isbigendian_eq (big : bool) : isbigendian big = big.
Proof. destruct big; reflexivity. Qed.

Lemma le_bytes_2 (v : Z) : le_bytes 2 v = [byte_at v 0; byte_at v 1].
Proof. reflexivity. Qed.

Lemma le_bytes_4 (v : Z) : le_bytes 4 v = [byte_at v 0; byte_at v 1; byte_at v 2; byte_at v 3].
Proof. reflexivity. Qed.

Lemma length_le_bytes (n : nat) (v : Z) : length (le_bytes n v) = n.
Proof. unfold le_bytes. rewrite length_map, length_seq. reflexivity. Qed.

Lemma length_store (big : bool) (n : nat) (v : Z) : length (store big n v) = n.
Proof. unfold store. destruct big; rewrite ?length_rev; apply length_le_bytes. Qed.

Ltac byte_arith :=
  unfold byte_at;
  change (2 ^ (8 * 0)) with 1; change (2 ^ (8 * 1)) with 256;
  change (2 ^ (8 * 2)) with 65536; change (2 ^ (8 * 3)) with 16777216;
  Z.div_mod_to_equations; lia.

(** The host representation of a field prepared by the writers is the
    little-endian one. *)
Lemma store_prepared_16 (big : bool) (v : Z) :
  0 <= v < 2 ^ 16 ->
  store big 2 (if big then uint16swap v else v) = le_bytes 2 v.
Proof.
  intros Hv. change (2 ^ 16) with 65536 in Hv.
  destruct big; [|reflexivity].
  unfold store. rewrite !le_bytes_2. cbn [rev app].
  rewrite uint16swap_bytes by lia.
  pose proof (byte_at_range v 0). pose proof (byte_at_range v 1).
  f_equal; [|f_equal]; generalize dependent (byte_at v 0); generalize dependent (byte_at v 1);
    intros; byte_arith.
Qed.

Lemma store_prepared_32 (big : bool) (v : Z) :
  store big 4 (if big then uint32swap v else v) = le_bytes 4 v.
Proof.
  destruct big; [|reflexivity].
  unfold store. rewrite !le_bytes_4. cbn [rev app].
  rewrite uint32swap_bytes.
  pose proof (byte_at_range v 0). pose proof (byte_at_range v 1).
  pose proof (byte_at_range v 2). pose proof (byte_at_range v 3).
  generalize dependent (byte_at v 0). generalize dependent (byte_at v 1).
  generalize dependent (byte_at v 2). generalize dependent (byte_at v 3).
  intros. repeat f_equal; byte_arith.
Qed.

Lemma byte_at_to_uint32 (v i : Z) : 0 <= i < 4 -> byte_at (to_uint32 v) i = byte_at v i.
Proof.
  intros Hi. assert (Hc : i = 0 \/ i = 1 \/ i = 2 \/ i = 3) by lia.
  unfold to_uint32. destruct Hc as [-> | [-> | [-> | ->]]]; byte_arith.
Qed.

Lemma store_prepared_int32 (big : bool) (v : Z) :
  store big 4 (to_uint32 (if big then int32swap v else v)) = le_bytes 4 (to_uint32 v).
Proof.
  destruct big; [|reflexivity].
  unfold store. rewrite !le_bytes_4. cbn [rev app].
  rewrite !byte_at_to_uint32 by lia.
  rewrite int32swap_bytes.
  pose proof (byte_at_range v 0). pose proof (byte_at_range v 1).
  pose proof (byte_at_range v 2). pose proof (byte_at_range v 3).
  generalize dependent (byte_at v 0). generalize dependent (byte_at v 1).
  generalize dependent (byte_at v 2). generalize dependent (byte_at v 3).
  intros. unfold to_int32. repeat f_equal; byte_arith.
Qed.

(** What the readers make of a little-endian field. *)
Lemma load_prepared_16 (big : bool) (v : Z) :
  0 <= v < 2 ^ 16 ->
  (let r := load big (le_bytes 2 v) in if big then uint16swap r else r) = v.
Proof.
  intros Hv. change (2 ^ 16) with 65536 in Hv. cbv zeta.
  unfold load. rewrite le_bytes_2.
  destruct big; cbn [rev app le_value fold_right].
  - rewrite uint16swap_bytes.
    + pose proof (byte_at_range v 0). pose proof (byte_at_range v 1).
      assert (Ev : v = byte_at v 0 + 256 * byte_at v 1) by byte_arith.
      generalize dependent (byte_at v 0). generalize dependent (byte_at v 1).
      intros. byte_arith.
    + pose proof (byte_at_range v 0). pose proof (byte_at_range v 1). lia.
  - byte_arith.
Qed.

Lemma load_prepared_32 (big : bool) (v : Z) :
  0 <= v < 2 ^ 32 ->
  (let r := load big (le_bytes 4 v) in if big then uint32swap r else r) = v.
Proof.
  intros Hv. change (2 ^ 32) with 4294967296 in Hv. cbv zeta.
  unfold load. rewrite le_bytes_4.
  destruct big; cbn [rev app le_value fold_right].
  - rewrite uint32swap_bytes.
    pose proof (byte_at_range v 0). pose proof (byte_at_range v 1).
    pose proof (byte_at_range v 2). pose proof (byte_at_range v 3).
    assert (Ev : v = byte_at v 0 + 256 * byte_at v 1 + 65536 * byte_at v 2 + 16777216 * byte_at v 3)
      by byte_arith.
    generalize dependent (byte_at v 0). generalize dependent (byte_at v 1).
    generalize dependent (byte_at v 2). generalize dependent (byte_at v 3).
    intros. byte_arith.
  - byte_arith.
Qed.

Lemma byte_at_to_int32 (v i : Z) : 0 <= i < 4 -> byte_at (to_int32 v) i = byte_at v i.
Proof.
  intros Hi. assert (Hc : i = 0 \/ i = 1 \/ i = 2 \/ i = 3) by lia.
  unfold to_int32. destruct Hc as [-> | [-> | [-> | ->]]]; byte_arith.
Qed.

Lemma byte_at_sum (c0 c1 c2 c3 : Z) :
  0 <= c0 < 256 -> 0 <= c1 < 256 -> 0 <= c2 < 256 -> 0 <= c3 < 256 ->
  let s := c0 + 256 * (c1 + 256 * (c2 + 256 * (c3 + 256 * 0))) in
  byte_at s 0 = c0 /\ byte_at s 1 = c1 /\ byte_at s 2 = c2 /\ byte_at s 3 = c3.
Proof. intros. cbv zeta. repeat split; byte_arith. Qed.

Lemma load_prepared_int32 (big : bool) (v : Z) :
  - 2 ^ 31 <= v < 2 ^ 31 ->
  (let r := to_int32 (load big (le_bytes 4 (to_uint32 v))) in
   if big then int32swap r else r) = v.
Proof.
  intros Hv. change (2 ^ 31) with 2147483648 in Hv. cbv zeta.
  unfold load. rewrite le_bytes_4. rewrite !byte_at_to_uint32 by lia.
  pose proof (byte_at_range v 0). pose proof (byte_at_range v 1).
  pose proof (byte_at_range v 2). pose proof (byte_at_range v 3).
  assert (Ev : v = to_int32 (byte_at v 0 + 256 * byte_at v 1 + 65536 * byte_at v 2
                             + 16777216 * byte_at v 3)).
  { unfold to_int32. byte_arith. }
  destruct big; cbn [rev app le_value fold_right].
  - rewrite int32swap_bytes. rewrite !byte_at_to_int32 by lia.
    destruct (byte_at_sum (byte_at v 3) (byte_at v 2) (byte_at v 1) (byte_at v 0))
      as (E0 & E1 & E2 & E3); try assumption.
    rewrite E0, E1, E2, E3. rewrite Ev at 5. f_equal. lia.
  - rewrite Ev at 5. f_equal. lia.
Qed.

Lemma xfwrite_ok (buf : list Z) (size nmemb : Z) (out : list Z) :
  0 < size -> Z.of_nat (length buf) = size * nmemb ->
  xfwrite buf size nmemb out = inr (tt, out ++ buf).
Proof.
  intros Hs Hl. unfold xfwrite.
  destruct (Z.eqb_spec size 0) as [|_]; [lia|].
  rewrite Z.eqb_refl, <- Hl, Nat2Z.id, firstn_all. reflexivity.
Qed.

Lemma write_unsigned_ok (big : bool) (n : nat) (v : Z) (out : list Z) :
  (0 < n)%nat -> write_unsigned big n v out = inr (tt, out ++ store big n v).
Proof.
  intros Hn. unfold write_unsigned. apply xfwrite_ok; [lia|].
  rewrite length_store. lia.
Qed.

Lemma write_int32_ok (big : bool) (v : Z) (out : list Z) :
  write_int32 big v out = inr (tt, out ++ store big 4 (to_uint32 v)).
Proof.
  unfold write_int32. apply xfwrite_ok; [lia|]. rewrite length_store. lia.
Qed.

Lemma read_unsigned_at (big : bool) (size : Z) (pre bs post : list Z) :
  0 < size -> Z.of_nat (length bs) = size ->
  read_unsigned big size (at_pos pre (bs ++ post))
  = inr (load big bs, at_pos (pre ++ bs) post).
Proof.
  intros Hs Hl. unfold read_unsigned, bind.
  rewrite xfread_at by lia. reflexivity.
Qed.

Lemma read_int32_at (big : bool) (pre bs post : list Z) :
  length bs = 4%nat ->
  read_int32 big (at_pos pre (bs ++ post))
  = inr (to_int32 (load big bs), at_pos (pre ++ bs) post).
Proof.
  intros Hl. unfold read_int32, bind.
  rewrite xfread_at by lia. reflexivity.
Qed.

(** The writers leave the little-endian image of the header, on either
    host. *)
Lemma writebmpheader_bytes (big : bool) (bp : Bitmap) (out : list Z) :
  valid_bmpheader (bmpheader bp) ->
  writebmpheader big bp out = inr (tt, out ++ bmpheader_bytes (bmpheader bp)).
Proof.
  intros (Hi0 & Hi1 & Hsz & Hu1 & Hu2 & Hof).
  unfold writebmpheader. cbv zeta. rewrite isbigendian_eq.
  set (h := bmpheader bp) in *.
  set (h' := if big then changeheaderendianness h else h).
  assert (Eid : bmp_id h' = bmp_id h) by (unfold h'; destruct big; reflexivity).
  assert (Esz : store big 4 (bmp_size h') = le_bytes 4 (bmp_size h)).
  { rewrite <- (store_prepared_32 big). unfold h'. destruct big; reflexivity. }
  assert (Eu1 : store big 2 (bmp_unused1 h') = le_bytes 2 (bmp_unused1 h)).
  { rewrite <- (store_prepared_16 big) by exact Hu1. unfold h'. destruct big; reflexivity. }
  assert (Eu2 : store big 2 (bmp_unused2 h') = le_bytes 2 (bmp_unused2 h)).
  { rewrite <- (store_prepared_16 big) by exact Hu2. unfold h'. destruct big; reflexivity. }
  assert (Eof : store big 4 (bmp_offset h') = le_bytes 4 (bmp_offset h)).
  { rewrite <- (store_prepared_32 big). unfold h'. destruct big; reflexivity. }
  unfold bind.
  rewrite xfwrite_ok by (cbn; lia).
  rewrite !write_unsigned_ok by lia.
  rewrite Eid, Esz, Eu1, Eu2, Eof.
  unfold bmpheader_bytes. rewrite <- !app_assoc. reflexivity.
Qed.

Lemma writedibheader_bytes (big : bool) (bp : Bitmap) (out : list Z) :
  valid_dibheader (dibheader bp) ->
  writedibheader big bp out = inr (tt, out ++ dibheader_bytes (dibheader bp)).
Proof.
  intros (H1 & H2 & H3 & H4 & H5 & H6 & H7 & H8 & H9 & H10 & H11).
  unfold writedibheader. cbv zeta. rewrite isbigendian_eq.
  set (h := dibheader bp) in *.
  set (h' := if big then changedibendianness h else h).
  assert (E1 : store big 4 (dib_size h') = le_bytes 4 (dib_size h)).
  { rewrite <- (store_prepared_32 big). unfold h'. destruct big; reflexivity. }
  assert (E2 : store big 4 (dib_width h') = le_bytes 4 (dib_width h)).
  { rewrite <- (store_prepared_32 big). unfold h'. destruct big; reflexivity. }
  assert (E3 : store big 4 (to_uint32 (dib_height h')) = le_bytes 4 (to_uint32 (dib_height h))).
  { rewrite <- (store_prepared_int32 big). unfold h'. destruct big; reflexivity. }
  assert (E4 : store big 2 (dib_nplanes h') = le_bytes 2 (dib_nplanes h)).
  { rewrite <- (store_prepared_16 big) by exact H4. unfold h'. destruct big; reflexivity. }
  assert (E5 : store big 2 (dib_depth h') = le_bytes 2 (dib_depth h)).
  { rewrite <- (store_prepared_16 big) by exact H5. unfold h'. destruct big; reflexivity. }
  assert (E6 : store big 4 (dib_compression h') = le_bytes 4 (dib_compression h)).
  { rewrite <- (store_prepared_32 big). unfold h'. destruct big; reflexivity. }
  assert (E7 : store big 4 (dib_pixelarraysize h') = le_bytes 4 (dib_pixelarraysize h)).
  { rewrite <- (store_prepared_32 big). unfold h'. destruct big; reflexivity. }
  assert (E8 : store big 4 (dib_hres h') = le_bytes 4 (dib_hres h)).
  { rewrite <- (store_prepared_32 big). unfold h'. destruct big; reflexivity. }
  assert (E9 : store big 4 (dib_vres h') = le_bytes 4 (dib_vres h)).
  { rewrite <- (store_prepared_32 big). unfold h'. destruct big; reflexivity. }
  assert (E10 : store big 4 (dib_ncolors h') = le_bytes 4 (dib_ncolors h)).
  { rewrite <- (store_prepared_32 big). unfold h'. destruct big; reflexivity. }
  assert (E11 : store big 4 (dib_nimpcolors h') = le_bytes 4 (dib_nimpcolors h)).
  { rewrite <- (store_prepared_32 big). unfold h'. destruct big; reflexivity. }
  unfold bind.
  rewrite !write_unsigned_ok, write_int32_ok by lia.
  rewrite !write_unsigned_ok by lia.
  rewrite E1, E2, E3, E4, E5, E6, E7, E8, E9, E10, E11.
  unfold dibheader_bytes. rewrite <- !app_assoc. reflexivity.
Qed.

Lemma length_bmpheader_bytes (h : BMPheader) : length (bmpheader_bytes h) = 14%nat.
Proof. reflexivity. Qed.

Lemma length_dibheader_bytes (h : DIBheader) : length (dibheader_bytes h) = 40%nat.
Proof. reflexivity. Qed.

(** The readers recover the header from its little-endian image, on either
    host. *)
Lemma readbmpheader_bytes (big : bool) (h : BMPheader) (pre post : list Z) :
  valid_bmpheader h ->
  readbmpheader big (at_pos pre (bmpheader_bytes h ++ post))
  = inr (h, at_pos (pre ++ bmpheader_bytes h) post).
Proof.
  intros (Hi0 & Hi1 & Hsz & Hu1 & Hu2 & Hof).
  unfold bmpheader_bytes. rewrite <- !app_assoc.
  unfold readbmpheader, bind.
  rewrite xfread_at by (cbn; lia).
  rewrite (read_unsigned_at big 4) by (rewrite ?length_le_bytes; lia).
  rewrite (read_unsigned_at big 2) by (rewrite ?length_le_bytes; lia).
  rewrite (read_unsigned_at big 2) by (rewrite ?length_le_bytes; lia).
  rewrite (read_unsigned_at big 4) by (rewrite ?length_le_bytes; lia).
  unfold ret. rewrite <- !app_assoc. f_equal. f_equal.
  rewrite isbigendian_eq.
  pose proof (load_prepared_32 big (bmp_size h) Hsz) as E1.
  pose proof (load_prepared_16 big (bmp_unused1 h) Hu1) as E2.
  pose proof (load_prepared_16 big (bmp_unused2 h) Hu2) as E3.
  pose proof (load_prepared_32 big (bmp_offset h) Hof) as E4.
  cbv zeta in E1, E2, E3, E4.
  destruct h as [[id0 id1] sz u1 u2 off]. cbn [bmp_id bmp_size bmp_unused1 bmp_unused2 bmp_offset fst snd] in *.
  destruct big; unfold changeheaderendianness;
    cbn [bmp_id bmp_size bmp_unused1 bmp_unused2 bmp_offset];
    rewrite E1, E2, E3, E4; reflexivity.
Qed.

Lemma readdibheader_bytes (big : bool) (h : DIBheader) (pre post : list Z) :
  valid_dibheader h ->
  readdibheader big (at_pos pre (dibheader_bytes h ++ post))
  = inr (h, at_pos (pre ++ dibheader_bytes h) post).
Proof.
  intros (H1 & H2 & H3 & H4 & H5 & H6 & H7 & H8 & H9 & H10 & H11).
  unfold dibheader_bytes. rewrite <- !app_assoc.
  unfold readdibheader, bind.
  rewrite (read_unsigned_at big 4) by (rewrite ?length_le_bytes; lia).
  rewrite (read_unsigned_at big 4) by (rewrite ?length_le_bytes; lia).
  rewrite (read_int32_at big) by (rewrite ?length_le_bytes; lia).
  rewrite (read_unsigned_at big 2) by (rewrite ?length_le_bytes; lia).
  rewrite (read_unsigned_at big 2) by (rewrite ?length_le_bytes; lia).
  rewrite (read_unsigned_at big 4) by (rewrite ?length_le_bytes; lia).
  rewrite (read_unsigned_at big 4) by (rewrite ?length_le_bytes; lia).
  rewrite (read_unsigned_at big 4) by (rewrite ?length_le_bytes; lia).
  rewrite (read_unsigned_at big 4) by (rewrite ?length_le_bytes; lia).
  rewrite (read_unsigned_at big 4) by (rewrite ?length_le_bytes; lia).
  rewrite (read_unsigned_at big 4) by (rewrite ?length_le_bytes; lia).
  unfold ret. rewrite <- !app_assoc. f_equal. f_equal.
  rewrite isbigendian_eq.
  pose proof (load_prepared_32 big _ H1) as E1.
  pose proof (load_prepared_32 big _ H2) as E2.
  pose proof (load_prepared_int32 big _ H3) as E3.
  pose proof (load_prepared_16 big _ H4) as E4.
  pose proof (load_prepared_16 big _ H5) as E5.
  pose proof (load_prepared_32 big _ H6) as E6.
  pose proof (load_prepared_32 big _ H7) as E7.
  pose proof (load_prepared_32 big _ H8) as E8.
  pose proof (load_prepared_32 big _ H9) as E9.
  pose proof (load_prepared_32 big _ H10) as E10.
  pose proof (load_prepared_32 big _ H11) as E11.
  cbv zeta in E1, E2, E3, E4, E5, E6, E7, E8, E9, E10, E11.
  destruct h as [f1 f2 f3 f4 f5 f6 f7 f8 f9 f10 f11]. cbn [dib_size dib_width dib_height dib_nplanes dib_depth dib_compression
    dib_pixelarraysize dib_hres dib_vres dib_ncolors dib_nimpcolors] in *.
  destruct big; unfold changedibendianness;
    cbn [dib_size dib_width dib_height dib_nplanes dib_depth dib_compression
         dib_pixelarraysize dib_hres dib_vres dib_ncolors dib_nimpcolors];
    rewrite E1, E2, E3, E4, E5, E6, E7, E8, E9, E10, E11; reflexivity.
Qed.

(** X9: [bmptofile] writes the same file on a little-endian and on a
    big-endian machine: the two headers with every field least significant
    byte first, the palette, the pixel array.  A bitmap without pixels is
    refused by [xfwrite]. *)
Theorem bmptofile_is_little_endian (big_endian : bool) (bp : Bitmap) :
  valid_bitmap bp ->
  bmptofile big_endian bp
  = if 1 <=? bmpimagesize bp then inr (bitmap_bytes bp) else inl fwrite_error.
Proof.
  intros (Hbh & Hdh & Hpl & Hpb & Hxb & Hsz).
  unfold bmptofile, bind.
  rewrite writebmpheader_bytes by exact Hbh.
  rewrite writedibheader_bytes by exact Hdh.
  rewrite xfwrite_ok by (unfold PALETTE_SIZE; lia).
  destruct (Z.leb_spec 1 (bmpimagesize bp)) as [Hge|Hlt].
  - rewrite xfwrite_ok by lia.
    unfold bitmap_bytes. cbn [app]. rewrite <- !app_assoc. reflexivity.
  - assert (E : bmpimagesize bp = 0) by lia.
    unfold xfwrite. rewrite E. reflexivity.
Qed.

Lemma bmptofile_is_little_endian_witness :
  bmptofile true shadow9
  = if 1 <=? bmpimagesize shadow9 then inr (bitmap_bytes shadow9) else inl fwrite_error.
Proof.
  apply (bmptofile_is_little_endian true shadow9).
  unfold valid_bitmap, valid_bmpheader, valid_dibheader, is_byte.
  repeat split; try (vm_compute; congruence);
    apply (bool_decide_unpack _); vm_compute; exact I.
Defined.

Lemma bmpfromstream_bytes (big : bool) (bp : Bitmap) :
  valid_bitmap bp -> 1 <= bmpimagesize bp ->
  bmpfromstream big (at_pos [] (bitmap_bytes bp)) = inr (bp, at_pos (bitmap_bytes bp) []).
Proof.
  intros (Hbh & Hdh & Hpl & Hpb & Hxb & Hsz) Hge.
  unfold bitmap_bytes, bmpfromstream, bind.
  rewrite readbmpheader_bytes by exact Hbh.
  rewrite readdibheader_bytes by exact Hdh.
  rewrite xfread_at by (unfold PALETTE_SIZE; lia).
  set (bp0 := {| bmpheader := bmpheader bp; dibheader := dibheader bp;
                 palette := palette bp; imgpixels := [] |}).
  assert (E0 : bmpimagesize bp0 = bmpimagesize bp) by reflexivity.
  rewrite E0.
  rewrite <- (app_nil_r (imgpixels bp)) at 1.
  rewrite xfread_at by lia.
  unfold ret. f_equal. f_equal.
  unfold set_imgpixels, bp0. cbn [bmpheader dibheader palette].
  replace (Z.to_nat (bmpimagesize bp) - length (imgpixels bp))%nat with 0%nat by lia.
  cbn [replicate]. rewrite app_nil_r. destruct bp as [bh dh pal px]; reflexivity.
Qed.

(** X10: a file written by [bmptofile] is read back by [bmpfromfile] as
    the bitmap it was written from, also when the two run on machines of
    different byte orders. *)
Theorem bmpfromfile_reads_back_bmptofile (writer_big_endian reader_big_endian : bool)
    (bp : Bitmap) (data : list Z) :
  valid_bitmap bp ->
  bmptofile writer_big_endian bp = inr data ->
  bmpfromfile reader_big_endian (Some data) = inr bp.
Proof.
  intros Hv Hw.
  pose proof Hv as (Hbh & Hdh & Hpl & Hpb & Hxb & Hsz).
  unfold bmptofile, bind in Hw.
  rewrite writebmpheader_bytes in Hw by exact Hbh.
  rewrite writedibheader_bytes in Hw by exact Hdh.
  rewrite xfwrite_ok in Hw by (unfold PALETTE_SIZE; lia).
  destruct (Z.leb_spec 1 (bmpimagesize bp)) as [Hge|Hlt].
  - rewrite xfwrite_ok in Hw by lia.
    assert (E : data = bitmap_bytes bp).
    { unfold bitmap_bytes. rewrite app_nil_l, <- !app_assoc in Hw. congruence. }
    subst data. unfold bmpfromfile. rewrite at_pos_start.
    rewrite bmpfromstream_bytes by assumption. reflexivity.
  - assert (E : bmpimagesize bp = 0) by lia.
    unfold xfwrite in Hw. rewrite E in Hw. discriminate Hw.
Qed.

Lemma bmpfromfile_reads_back_bmptofile_witness :
  bmpfromfile false (Some (bitmap_bytes shadow9)) = inr shadow9.
Proof.
  apply (bmpfromfile_reads_back_bmptofile true false shadow9 (bitmap_bytes shadow9)).
  - unfold valid_bitmap, valid_bmpheader, valid_dibheader, is_byte.
    repeat split; try (vm_compute; congruence);
      apply (bool_decide_unpack _); vm_compute; exact I.
  - vm_compute. reflexivity.
Defined.

(** Reading one element from an arbitrary stream. *)
Lemma xfread_one (size : Z) (fp : FILE) :
  0 < size -> 0 <= f_pos fp ->
  xfread size 1 fp =
    if Z.of_nat (length (f_data fp)) <? f_pos fp + size then inl fread_error
    else inr (take (Z.to_nat size) (drop (Z.to_nat (f_pos fp)) (f_data fp)),
              {| f_data := f_data fp; f_pos := f_pos fp + size |}).
Proof.
  intros Hs Hp. destruct (Z.ltb_spec (Z.of_nat (length (f_data fp))) (f_pos fp + size)) as [Hlt|Hge].
  - apply xfread_short; assumption.
  - unfold xfread. rewrite Z.mul_1_r.
    destruct (Z.eqb_spec size 0) as [|_]; [lia|].
    assert (Hl : length (take (Z.to_nat size) (drop (Z.to_nat (f_pos fp)) (f_data fp)))
                 = Z.to_nat size).
    { rewrite length_take, length_drop. lia. }
    rewrite Hl, Z2Nat.id, Z.div_same by lia. reflexivity.
Qed.

Lemma read_unsigned_one (big : bool) (size : Z) (fp : FILE) :
  0 < size -> 0 <= f_pos fp ->
  read_unsigned big size fp =
    if Z.of_nat (length (f_data fp)) <? f_pos fp + size then inl fread_error
    else inr (load big (take (Z.to_nat size) (drop (Z.to_nat (f_pos fp)) (f_data fp))),
              {| f_data := f_data fp; f_pos := f_pos fp + size |}).
Proof.
  intros Hs Hp. unfold read_unsigned, bind. rewrite xfread_one by assumption.
  destruct (_ <? _); reflexivity.
Qed.

Lemma read_int32_one (big : bool) (fp : FILE) :
  0 <= f_pos fp ->
  read_int32 big fp =
    if Z.of_nat (length (f_data fp)) <? f_pos fp + 4 then inl fread_error
    else inr (to_int32 (load big (take 4 (drop (Z.to_nat (f_pos fp)) (f_data fp)))),
              {| f_data := f_data fp; f_pos := f_pos fp + 4 |}).
Proof.
  intros Hp. unfold read_int32, bind. rewrite xfread_one by lia.
  destruct (_ <? _); reflexivity.
Qed.

Lemma le_value_range (bs : list Z) :
  Forall is_byte bs -> 0 <= le_value bs < 256 ^ Z.of_nat (length bs).
Proof.
  induction 1 as [|b bs Hb _ IH]; [cbn; lia|].
  cbn [le_value fold_right length]. fold (le_value bs).
  rewrite Nat2Z.inj_succ, Z.pow_succ_r by lia. unfold is_byte in Hb. lia.
Qed.

Lemma load_range (big : bool) (bs : list Z) :
  Forall is_byte bs -> 0 <= load big bs < 256 ^ Z.of_nat (length bs).
Proof.
  intros Hb. unfold load. destruct big.
  - rewrite <- length_rev. apply le_value_range. apply Forall_rev. exact Hb.
  - apply le_value_range. exact Hb.
Qed.

Lemma field_bytes (data : list Z) (pos size : nat) :
  Forall is_byte data -> (pos + size <= length data)%nat ->
  Forall is_byte (take size (drop pos data)) /\ length (take size (drop pos data)) = size.
Proof.
  intros Hb Hl. split.
  - apply Forall_take, Forall_drop, Hb.
  - rewrite length_take, length_drop. lia.
Qed.

Lemma load_field_range (big : bool) (data : list Z) (pos size : nat) :
  Forall is_byte data -> (pos + size <= length data)%nat ->
  0 <= load big (take size (drop pos data)) < 256 ^ Z.of_nat size.
Proof.
  intros Hb Hl. destruct (field_bytes data pos size Hb Hl) as [F L].
  pose proof (load_range big _ F) as R. rewrite L in R. exact R.
Qed.

Lemma uint16swap_range (x : Z) : 0 <= uint16swap x < 2 ^ 16.
Proof. unfold uint16swap, to_uint16. apply Z.mod_pos_bound. lia. Qed.

Lemma uint32swap_range (x : Z) : 0 <= uint32swap x < 2 ^ 32.
Proof. unfold uint32swap, to_uint32. apply Z.mod_pos_bound. lia. Qed.

Lemma to_int32_range (x : Z) : - 2 ^ 31 <= to_int32 x < 2 ^ 31.
Proof. unfold to_int32. change (2 ^ 31) with 2147483648. Z.div_mod_to_equations; lia. Qed.

Lemma int32swap_range (x : Z) : - 2 ^ 31 <= int32swap x < 2 ^ 31.
Proof. rewrite int32swap_bytes. apply to_int32_range. Qed.

Ltac read_step :=
  first [ rewrite read_unsigned_one by (cbn [f_pos]; lia)
        | rewrite read_int32_one by (cbn [f_pos]; lia)
        | rewrite xfread_one by (cbn [f_pos]; lia) ];
  cbn [f_pos f_data];
  match goal with
  | |- context [Z.of_nat (length ?d) <? ?p] =>
      destruct (Z.ltb_spec (Z.of_nat (length d)) p);
      [left; split; [lia|reflexivity]|]
  end.

(** [readbmpheader] on any stream: it fails exactly when fewer than 14
    bytes are left. *)
Lemma readbmpheader_any (big : bool) (fp : FILE) :
  0 <= f_pos fp -> Forall is_byte (f_data fp) ->
  (Z.of_nat (length (f_data fp)) < f_pos fp + 14 /\ readbmpheader big fp = inl fread_error)
  \/ (f_pos fp + 14 <= Z.of_nat (length (f_data fp)) /\
      exists h, readbmpheader big fp
                = inr (h, {| f_data := f_data fp; f_pos := f_pos fp + 14 |})
                /\ valid_bmpheader h).
Proof.
  intros Hp Hb. destruct fp as [data pos]. cbn [f_pos f_data] in *.
  unfold readbmpheader, bind.
  do 5 read_step.
  right. split; [lia|]. eexists. split.
  - unfold ret. do 2 f_equal. f_equal. lia.
  - rewrite isbigendian_eq.
    set (p := Z.to_nat pos).
    destruct (field_bytes data p 2 Hb ltac:(lia)) as [Fid Lid].
    assert (Hid0 : is_byte (take 2 (drop p data) !!! 0%nat)).
    { rewrite Forall_lookup in Fid. apply (Fid 0%nat). apply list_lookup_lookup_total_lt. lia. }
    assert (Hid1 : is_byte (take 2 (drop p data) !!! 1%nat)).
    { rewrite Forall_lookup in Fid. apply (Fid 1%nat). apply list_lookup_lookup_total_lt. lia. }
    pose proof (load_field_range big data (Z.to_nat (pos + 2)) 4 Hb ltac:(lia)) as R1.
    pose proof (load_field_range big data (Z.to_nat (pos + 2 + 4)) 2 Hb ltac:(lia)) as R2.
    pose proof (load_field_range big data (Z.to_nat (pos + 2 + 4 + 2)) 2 Hb ltac:(lia)) as R3.
    pose proof (load_field_range big data (Z.to_nat (pos + 2 + 4 + 2 + 2)) 4 Hb ltac:(lia)) as R4.
    change (256 ^ Z.of_nat 4) with (2 ^ 32) in *. change (256 ^ Z.of_nat 2) with (2 ^ 16) in *.
    change (Z.to_nat 2) with 2%nat. change (Z.to_nat 4) with 4%nat.
    destruct big; unfold valid_bmpheader, changeheaderendianness;
      cbn [bmp_id bmp_size bmp_unused1 bmp_unused2 bmp_offset fst snd];
      repeat split; try apply uint16swap_range; try apply uint32swap_range;
      try apply Hid0; try apply Hid1; lia.
Qed.

Lemma readdibheader_any (big : bool) (fp : FILE) :
  0 <= f_pos fp -> Forall is_byte (f_data fp) ->
  (Z.of_nat (length (f_data fp)) < f_pos fp + 40 /\ readdibheader big fp = inl fread_error)
  \/ (f_pos fp + 40 <= Z.of_nat (length (f_data fp)) /\
      exists h, readdibheader big fp
                = inr (h, {| f_data := f_data fp; f_pos := f_pos fp + 40 |})
                /\ valid_dibheader h).
Proof.
  intros Hp Hb. destruct fp as [data pos]. cbn [f_pos f_data] in *.
  unfold readdibheader, bind.
  do 11 read_step.
  right. split; [lia|]. eexists. split.
  - unfold ret. do 2 f_equal. f_equal. lia.
  - rewrite isbigendian_eq.
    pose proof (load_field_range big data (Z.to_nat pos) 4 Hb ltac:(lia)) as R1.
    pose proof (load_field_range big data (Z.to_nat (pos + 4)) 4 Hb ltac:(lia)) as R2.
    pose proof (load_field_range big data (Z.to_nat (pos + 4 + 4 + 4)) 2 Hb ltac:(lia)) as R4.
    pose proof (load_field_range big data (Z.to_nat (pos + 4 + 4 + 4 + 2)) 2 Hb ltac:(lia)) as R5.
    pose proof (load_field_range big data (Z.to_nat (pos + 4 + 4 + 4 + 2 + 2)) 4 Hb ltac:(lia)) as R6.
    pose proof (load_field_range big data (Z.to_nat (pos + 4 + 4 + 4 + 2 + 2 + 4)) 4 Hb ltac:(lia)) as R7.
    pose proof (load_field_range big data (Z.to_nat (pos + 4 + 4 + 4 + 2 + 2 + 4 + 4)) 4 Hb ltac:(lia)) as R8.
    pose proof (load_field_range big data (Z.to_nat (pos + 4 + 4 + 4 + 2 + 2 + 4 + 4 + 4)) 4 Hb ltac:(lia)) as R9.
    pose proof (load_field_range big data (Z.to_nat (pos + 4 + 4 + 4 + 2 + 2 + 4 + 4 + 4 + 4)) 4 Hb ltac:(lia)) as R10.
    pose proof (load_field_range big data (Z.to_nat (pos + 4 + 4 + 4 + 2 + 2 + 4 + 4 + 4 + 4 + 4)) 4 Hb ltac:(lia)) as R11.
    change (256 ^ Z.of_nat 4) with (2 ^ 32) in *. change (256 ^ Z.of_nat 2) with (2 ^ 16) in *.
    change (Z.to_nat 2) with 2%nat. change (Z.to_nat 4) with 4%nat.
    destruct big; unfold valid_dibheader, changedibendianness;
      cbn [dib_size dib_width dib_height dib_nplanes dib_depth dib_compression
           dib_pixelarraysize dib_hres dib_vres dib_ncolors dib_nimpcolors];
      repeat split; try apply uint16swap_range; try apply uint32swap_range;
      try apply int32swap_range; try apply to_int32_range; lia.
Qed.

(** A file of at most 1078 bytes ends the program in [xfread], and a bitmap
    that is returned is consistent; its pixels are the bytes of the file
    from offset 1078 on, as far as the file goes. *)
Lemma bmpfromfile_returns_valid (big_endian : bool) (data : list Z) :
  Forall is_byte data ->
  (Z.of_nat (length data) < 1079 -> bmpfromfile big_endian (Some data) = inl fread_error) /\
  forall bp, bmpfromfile big_endian (Some data) = inr bp ->
    valid_bitmap bp /\ 1 <= bmpimagesize bp /\
    forall i, (i < length data - 1078)%nat -> Z.of_nat i < bmpimagesize bp ->
              imgpixels bp !!! i = data !!! (1078 + i)%nat.
Proof.
  intros Hb. unfold bmpfromfile, bmpfromstream, bind.
  destruct (readbmpheader_any big_endian {| f_data := data; f_pos := 0 |} ltac:(cbn; lia) Hb)
    as [[Hs ->]|[Hl (bh & -> & Hbh)]]; cbn [f_data f_pos] in *.
  { split; [reflexivity|discriminate]. }
  destruct (readdibheader_any big_endian {| f_data := data; f_pos := 0 + 14 |} ltac:(cbn; lia) Hb)
    as [[Hs ->]|[Hl2 (dh & -> & Hdh)]]; cbn [f_data f_pos] in *.
  { split; [reflexivity|discriminate]. }
  rewrite xfread_one by (cbn [f_pos]; unfold PALETTE_SIZE; lia).
  cbn [f_pos f_data]. unfold PALETTE_SIZE.
  destruct (Z.ltb_spec (Z.of_nat (length data)) (0 + 14 + 40 + 1024)) as [Hs|Hl3].
  { split; [reflexivity|discriminate]. }
  set (pal := take (Z.to_nat 1024) (drop (Z.to_nat (0 + 14 + 40)) data)).
  set (bp0 := {| bmpheader := bh; dibheader := dh; palette := pal; imgpixels := [] |}).
  set (imagesize := bmpimagesize bp0).
  assert (Hsize : 0 <= imagesize).
  { unfold imagesize, bmpimagesize, bp0. cbn [bmpheader dibheader].
    destruct (0 <? bmp_size bh).
    - unfold to_uint32. Z.div_mod_to_equations; lia.
    - destruct Hdh as (_ & _ & _ & _ & _ & _ & H & _). lia. }
  unfold xfread. cbn [f_pos f_data]. change (1 =? 0) with false. cbv iota.
  set (px := take (Z.to_nat (1 * imagesize)) (drop (Z.to_nat (0 + 14 + 40 + 1024)) data)).
  assert (Hpx : length px = Nat.min (Z.to_nat imagesize) (length data - 1078)).
  { unfold px. rewrite length_take, length_drop. f_equal; lia. }
  rewrite Z.div_1_r.
  destruct (Z.ltb_spec (Z.of_nat (length px)) 1) as [Hs|Hge].
  { split; [reflexivity|discriminate]. }
  split; [lia|]. intros bp [= <-].
  assert (Epx : bmpimagesize (set_imgpixels bp0 (px ++ replicate (Z.to_nat imagesize - length px) 0))
                = imagesize) by reflexivity.
  split; [|split].
  - unfold valid_bitmap. rewrite Epx.
    cbn [set_imgpixels bp0 bmpheader dibheader palette imgpixels].
    destruct (field_bytes data (Z.to_nat (0 + 14 + 40)) (Z.to_nat 1024) Hb ltac:(lia)) as [Fp Lp].
    refine (conj Hbh (conj Hdh (conj _ (conj _ (conj _ _))))).
    + unfold pal. rewrite Lp. reflexivity.
    + exact Fp.
    + apply Forall_app. split.
      * unfold px. apply Forall_take, Forall_drop, Hb.
      * apply Forall_replicate. unfold is_byte. lia.
    + rewrite length_app, length_replicate. lia.
  - rewrite Epx. lia.
  - intros i Hi Hi2. rewrite Epx in Hi2.
    cbn [set_imgpixels imgpixels].
    rewrite lookup_total_app_l by lia.
    unfold px. rewrite lookup_total_take.
    destruct (decide (i < Z.to_nat (1 * imagesize))%nat); [|lia].
    rewrite lookup_total_drop. reflexivity.
Qed.

Lemma le_bytes_S (n : nat) (v : Z) :
  le_bytes (S n) v = v mod 256 :: le_bytes n (v / 256).
Proof.
  unfold le_bytes. cbn [seq map]. rewrite Z.mul_0_r, Z.pow_0_r, Z.div_1_r. f_equal.
  rewrite <- seq_shift, map_map. apply map_ext. intros i.
  rewrite Nat2Z.inj_succ.
  replace (8 * Z.succ (Z.of_nat i)) with (8 + 8 * Z.of_nat i) by lia.
  rewrite Z.pow_add_r by lia. change (2 ^ 8) with 256.
  rewrite Z.div_div by (try apply Z.pow_pos_nonneg; lia). reflexivity.
Qed.

(** Bytes are the little-endian image of their little-endian value. *)
Lemma le_bytes_le_value (bs : list Z) :
  Forall is_byte bs -> le_bytes (length bs) (le_value bs) = bs.
Proof.
  induction 1 as [|b bs Hb _ IH]; [reflexivity|].
  cbn [length le_value fold_right]. fold (le_value bs).
  rewrite le_bytes_S. unfold is_byte in Hb.
  replace ((b + 256 * le_value bs) mod 256) with b by (Z.div_mod_to_equations; lia).
  replace ((b + 256 * le_value bs) / 256) with (le_value bs) by (Z.div_mod_to_equations; lia).
  rewrite IH. reflexivity.
Qed.

Lemma le_bytes_le_field (data : list Z) (offset size : nat) :
  Forall is_byte data -> (offset + size <= length data)%nat ->
  le_bytes size (le_field data offset size) = take size (drop offset data).
Proof.
  intros Hb Hl. destruct (field_bytes data offset size Hb Hl) as [F L].
  unfold le_field. pose proof (le_bytes_le_value _ F) as H. rewrite L in H. exact H.
Qed.

Lemma le_field_range (data : list Z) (offset size : nat) :
  Forall is_byte data -> (offset + size <= length data)%nat ->
  0 <= le_field data offset size < 256 ^ Z.of_nat size.
Proof.
  intros Hb Hl. destruct (field_bytes data offset size Hb Hl) as [F L].
  unfold le_field. pose proof (le_value_range _ F) as H. rewrite L in H. exact H.
Qed.

Lemma drop_field (data : list Z) (offset size : nat) :
  drop offset data = take size (drop offset data) ++ drop (offset + size) data.
Proof. rewrite <- drop_drop. symmetry. apply take_drop. Qed.

Lemma take_2_lookup (data : list Z) :
  (2 <= length data)%nat -> take 2 data = [data !!! 0%nat; data !!! 1%nat].
Proof.
  intros Hl. destruct data as [|a [|b data]]; cbn in Hl; try lia. reflexivity.
Qed.

Ltac field_range data Hb :=
  match goal with
  | |- _ <= to_int32 _ < _ => apply to_int32_range
  | |- _ <= le_field data ?o ?s < _ =>
      let HR := fresh "HR" in
      pose proof (le_field_range data o s Hb ltac:(lia)) as HR;
      first [change (256 ^ Z.of_nat 4) with (2 ^ 32) in HR
            |change (256 ^ Z.of_nat 2) with (2 ^ 16) in HR];
      exact HR
  end.

Ltac split_ranges :=
  repeat match goal with |- (_ <= _ < _) /\ _ => split end.

Lemma decoded_bmpheader_valid (data : list Z) :
  Forall is_byte data -> (14 <= length data)%nat -> valid_bmpheader (decoded_bmpheader data).
Proof.
  intros Hb Hl. unfold valid_bmpheader, decoded_bmpheader.
  cbn [bmp_id bmp_size bmp_unused1 bmp_unused2 bmp_offset fst snd].
  rewrite Forall_lookup in Hb.
  split; [apply (Hb 0%nat), list_lookup_lookup_total_lt; lia|].
  split; [apply (Hb 1%nat), list_lookup_lookup_total_lt; lia|].
  rewrite <- Forall_lookup in Hb.
  split_ranges; field_range data Hb.
Qed.

Lemma decoded_dibheader_valid (data : list Z) :
  Forall is_byte data -> (54 <= length data)%nat -> valid_dibheader (decoded_dibheader data).
Proof.
  intros Hb Hl. unfold valid_dibheader, decoded_dibheader.
  cbn [dib_size dib_width dib_height dib_nplanes dib_depth dib_compression
       dib_pixelarraysize dib_hres dib_vres dib_ncolors dib_nimpcolors].
  split_ranges; field_range data Hb.
Qed.

Ltac peel offset size :=
  etransitivity; [apply (drop_field _ offset size)|]; cbn [Nat.add]; f_equal.

(** Every file of at least 1078 bytes is the image of the headers and the
    palette it decodes to, followed by the rest. *)
Lemma file_layout (data : list Z) :
  Forall is_byte data -> (1078 <= length data)%nat ->
  data = bmpheader_bytes (decoded_bmpheader data)
         ++ dibheader_bytes (decoded_dibheader data)
         ++ take 1024 (drop 54 data) ++ drop 1078 data.
Proof.
  intros Hb Hl. unfold bmpheader_bytes, dibheader_bytes, decoded_bmpheader, decoded_dibheader.
  cbn [bmp_id bmp_size bmp_unused1 bmp_unused2 bmp_offset fst snd
       dib_size dib_width dib_height dib_nplanes dib_depth dib_compression
       dib_pixelarraysize dib_hres dib_vres dib_ncolors dib_nimpcolors].
  rewrite to_uint32_to_int32.
  assert (R : to_uint32 (le_field data 22 4) = le_field data 22 4).
  { pose proof (le_field_range data 22 4 Hb ltac:(lia)) as H.
    change (256 ^ Z.of_nat 4) with 4294967296 in H.
    unfold to_uint32. apply Z.mod_small. lia. }
  rewrite R.
  rewrite !le_bytes_le_field by (try exact Hb; lia).
  rewrite <- (take_2_lookup data) by lia.
  rewrite <- !app_assoc.
  change data with (drop 0 data) at 1. change (take 2 data) with (take 2 (drop 0 data)).
  peel 0%nat 2%nat. peel 2%nat 4%nat. peel 6%nat 2%nat. peel 8%nat 2%nat. peel 10%nat 4%nat.
  peel 14%nat 4%nat. peel 18%nat 4%nat. peel 22%nat 4%nat. peel 26%nat 2%nat. peel 28%nat 2%nat.
  peel 30%nat 4%nat. peel 34%nat 4%nat. peel 38%nat 4%nat. peel 42%nat 4%nat. peel 46%nat 4%nat.
  peel 50%nat 4%nat.
  apply (drop_field data 54 1024).
Qed.

(** [bmpfromfile] on any file of bytes. *)
Lemma bmpfromfile_decodes (big_endian : bool) (data : list Z) :
  Forall is_byte data ->
  bmpfromfile big_endian (Some data)
  = if (Z.of_nat (length data) <? 1079) || (bmpimagesize (decoded_bitmap data) =? 0)
    then inl fread_error else inr (decoded_bitmap data).
Proof.
  intros Hb.
  destruct (Z.ltb_spec (Z.of_nat (length data)) 1079) as [Hs|Hl].
  { cbn [orb]. apply (bmpfromfile_returns_valid big_endian data Hb). exact Hs. }
  cbn [orb].
  pose proof (decoded_bmpheader_valid data Hb ltac:(lia)) as Vb.
  pose proof (decoded_dibheader_valid data Hb ltac:(lia)) as Vd.
  destruct (field_bytes data 54 1024 Hb ltac:(lia)) as [Fp Lp].
  pose proof (file_layout data Hb ltac:(lia)) as E.
  set (D := decoded_bitmap data).
  set (hb := decoded_bmpheader data) in *. set (hd := decoded_dibheader data) in *.
  set (pal := take 1024 (drop 54 data)) in *. set (rest := drop 1078 data) in *.
  set (bp0 := {| bmpheader := hb; dibheader := hd; palette := pal; imgpixels := [] |}).
  set (imagesize := bmpimagesize bp0).
  assert (ED : D = set_imgpixels bp0
                     (take (Z.to_nat imagesize) rest
                      ++ replicate (Z.to_nat imagesize - length (take (Z.to_nat imagesize) rest)) 0))
    by reflexivity.
  assert (EI : bmpimagesize D = imagesize) by reflexivity.
  assert (Hrest : (1 <= length rest)%nat) by (unfold rest; rewrite length_drop; lia).
  clearbody D rest pal hb hd. subst data.
  unfold bmpfromfile. rewrite at_pos_start.
  unfold bmpfromstream, bind.
  rewrite readbmpheader_bytes by exact Vb.
  rewrite readdibheader_bytes by exact Vd.
  rewrite xfread_at by (unfold PALETTE_SIZE; lia).
  fold bp0. fold imagesize.
  assert (Hsize : 0 <= imagesize).
  { unfold imagesize, bmpimagesize, bp0. cbn [bmpheader dibheader].
    destruct (0 <? bmp_size hb).
    - unfold to_uint32. Z.div_mod_to_equations; lia.
    - destruct Vd as (_ & _ & _ & _ & _ & _ & H & _). lia. }
  unfold xfread, at_pos. cbn [f_pos f_data]. change (1 =? 0) with false. cbv iota.
  rewrite Nat2Z.id, drop_app_length, Z.div_1_r, Z.mul_1_l.
  rewrite EI.
  destruct (Z.eqb_spec imagesize 0) as [E0|Hne].
  - rewrite E0. cbn [Z.to_nat take length Z.of_nat]. reflexivity.
  - assert (Hg : 1 <= Z.of_nat (length (take (Z.to_nat imagesize) rest))).
    { rewrite length_take. lia. }
    destruct (Z.ltb_spec (Z.of_nat (length (take (Z.to_nat imagesize) rest))) 1); [lia|].
    unfold ret. rewrite ED. reflexivity.
Qed.



(** ** The checks on carrier files *)

Lemma get32bitsfromheader_any (big : bool) (offset : Z) (fp : FILE) :
  0 <= offset -> 0 <= f_pos fp ->
  get32bitsfromheader big offset fp =
    if Z.of_nat (length (f_data fp)) <? offset + 4 then inl fread_error
    else inr (file_field big (f_data fp) (Z.to_nat offset) 4, fp).
Proof.
  intros Ho Hp. destruct fp as [data pos]. cbn [f_data f_pos] in *.
  unfold get32bitsfromheader, bind, ftell, xfseek. cbn [f_pos f_data].
  destruct (Z.ltb_spec offset 0) as [|_]; [lia|].
  rewrite read_unsigned_one by (cbn [f_pos]; lia). cbn [f_pos f_data].
  destruct (Z.ltb_spec (Z.of_nat (length data)) (offset + 4)); [reflexivity|].
  destruct (Z.ltb_spec pos 0) as [|_]; [lia|]. reflexivity.
Qed.

Lemma isbmp_any (fp : FILE) :
  0 <= f_pos fp ->
  isbmp fp =
    if Z.of_nat (length (f_data fp)) <? 2 then inl fread_error
    else inr (file_magic (f_data fp), fp).
Proof.
  intros Hp. destruct fp as [data pos]. cbn [f_data f_pos] in *.
  unfold isbmp, bind, ftell, xfseek. cbn [f_pos f_data].
  change (0 <? 0) with false. cbv iota.
  rewrite xfread_one by (cbn [f_pos]; lia). cbn [f_pos f_data].
  destruct (Z.ltb_spec (Z.of_nat (length data)) (0 + 2)) as [Hs|Hl].
  - destruct (Z.ltb_spec (Z.of_nat (length data)) 2); [reflexivity|lia].
  - destruct (Z.ltb_spec (Z.of_nat (length data)) 2); [lia|].
    destruct (Z.ltb_spec pos 0) as [|_]; [lia|].
    unfold ret, file_magic. cbn [drop Z.to_nat].
    rewrite !lookup_total_take by lia. reflexivity.
Qed.

Lemma int_quot_mul_eq (pixels k : Z) :
  - 2 ^ 31 <= pixels < 2 ^ 31 -> 0 < k ->
  (pixels =? int_mul (Z.quot pixels k) k) = (Z.rem pixels k =? 0).
Proof.
  intros Hp Hk. change (2 ^ 31) with 2147483648 in Hp.
  pose proof (Z.quot_rem' pixels k) as E.
  assert (Hq : - 2147483648 <= Z.quot pixels k * k < 2147483648).
  { destruct (Z.ltb_spec pixels 0).
    - pose proof (Z.mul_quot_ge pixels k ltac:(lia) ltac:(lia)). lia.
    - pose proof (Z.mul_quot_le pixels k ltac:(lia) ltac:(lia)).
      pose proof (Z.quot_pos pixels k ltac:(lia) ltac:(lia)).
      assert (0 <= k * Z.quot pixels k) by (apply Z.mul_nonneg_nonneg; lia). lia. }
  unfold int_mul, to_int32.
  replace ((Z.quot pixels k * k + 2147483648) mod 4294967296 - 2147483648)
    with (Z.quot pixels k * k) by (Z.div_mod_to_equations; lia).
  destruct (Z.eqb_spec (Z.rem pixels k) 0); destruct (Z.eqb_spec pixels (Z.quot pixels k * k)); lia.
Qed.



(** X13: [isvalidshadow] on any file, for [k > 0]: it ends the program on a
    file shorter than 10 bytes, and on one shorter than 26 bytes that has a
    non-zero shadow number and starts with "BM"; otherwise it accepts the
    file when the shadow number at offset 8 is not zero, the file starts
    with "BM", and the product of the numbers at offsets 18 and 22 is at
    least [secretsize * 8 / k], both computed in [uint32_t].  The position
    of the stream is left as it was.  (For [k = 0] the division is
    undefined.) *)
Theorem isvalidshadow_characterization (big_endian : bool) (k secretsize : Z) (fp : FILE) :
  0 <= f_pos fp -> 0 < k ->
  let data := f_data fp in
  let shadowsize := to_uint32 (secretsize * 8) / k in
  let imgsize := to_uint32 (file_field big_endian data 18 4
                            * file_field big_endian data 22 4) in
  isvalidshadow big_endian k secretsize fp =
    if Z.of_nat (length data) <? 10 then inl fread_error
    else if file_field big_endian data 8 2 =? 0 then inr (false, fp)
    else if negb (file_magic data) then inr (false, fp)
    else if Z.of_nat (length data) <? 26 then inl fread_error
    else inr (shadowsize <=? imgsize, fp).
Proof.
  intros Hp Hk. cbv zeta. destruct fp as [data pos]. cbn [f_data f_pos] in *.
  unfold isvalidshadow, bind, ftell, xfseek, UNUSED2_OFFSET. cbn [f_pos f_data].
  change (8 <? 0) with false. cbv iota.
  rewrite read_unsigned_one by (cbn [f_pos]; lia). cbn [f_pos f_data].
  destruct (Z.ltb_spec (Z.of_nat (length data)) (8 + 2)) as [H10|H10].
  { destruct (Z.ltb_spec (Z.of_nat (length data)) 10); [reflexivity|lia]. }
  destruct (Z.ltb_spec (Z.of_nat (length data)) 10); [lia|].
  destruct (Z.ltb_spec pos 0) as [|_]; [lia|].
  change (load big_endian (take (Z.to_nat 2) (drop (Z.to_nat 8) data)))
    with (file_field big_endian data 8 2).
  destruct (file_field big_endian data 8 2 =? 0); [reflexivity|].
  rewrite isbmp_any by (cbn [f_pos]; lia). cbn [f_pos f_data].
  destruct (Z.ltb_spec (Z.of_nat (length data)) 2); [lia|].
  destruct (file_magic data); [|reflexivity]. cbn [negb].
  unfold isvalidbmpsize.
  destruct (Z.eqb_spec k 0) as [|_]; [lia|].
  unfold bind, bmpfilewidth, bmpfileheight, WIDTH_OFFSET, HEIGHT_OFFSET.
  rewrite get32bitsfromheader_any by (cbn [f_pos]; lia). cbn [f_pos f_data].
  destruct (Z.ltb_spec (Z.of_nat (length data)) (18 + 4)) as [H22|H22].
  { destruct (Z.ltb_spec (Z.of_nat (length data)) 26); [reflexivity|lia]. }
  rewrite get32bitsfromheader_any by (cbn [f_pos]; lia). cbn [f_pos f_data].
  destruct (Z.ltb_spec (Z.of_nat (length data)) (22 + 4)) as [H26|H26].
  { destruct (Z.ltb_spec (Z.of_nat (length data)) 26); [reflexivity|lia]. }
  destruct (Z.ltb_spec (Z.of_nat (length data)) 26); [lia|]. reflexivity.
Qed.

Lemma isvalidshadow_characterization_witness :
  isvalidshadow false 2 2 {| f_data := bitmap_bytes shadow9; f_pos := 0 |}
  = inr (true, {| f_data := bitmap_bytes shadow9; f_pos := 0 |}).
Proof.
  rewrite (isvalidshadow_characterization false 2 2); [|cbn; lia|lia].
  vm_compute. reflexivity.
Defined.

Lemma load_le_bytes_2 (big : bool) (v : Z) :
  0 <= v < 2 ^ 16 -> load big (le_bytes 2 v) = if big then uint16swap v else v.
Proof.
  intros Hv. change (2 ^ 16) with 65536 in Hv. unfold load. rewrite le_bytes_2.
  destruct big; cbn [rev app le_value fold_right].
  - rewrite uint16swap_bytes by lia. lia.
  - byte_arith.
Qed.

Lemma load_le_bytes_4 (big : bool) (v : Z) :
  0 <= v < 2 ^ 32 -> load big (le_bytes 4 v) = if big then uint32swap v else v.
Proof.
  intros Hv. change (2 ^ 32) with 4294967296 in Hv. unfold load. rewrite le_bytes_4.
  destruct big; cbn [rev app le_value fold_right].
  - rewrite uint32swap_bytes. lia.
  - byte_arith.
Qed.

Lemma file_field_bitmap_bytes (big : bool) (bp : Bitmap) :
  file_field big (bitmap_bytes bp) 8 2 = load big (le_bytes 2 (bmp_unused2 (bmpheader bp))) /\
  file_field big (bitmap_bytes bp) 18 4 = load big (le_bytes 4 (dib_width (dibheader bp))) /\
  file_field big (bitmap_bytes bp) 22 4
    = load big (le_bytes 4 (to_uint32 (dib_height (dibheader bp)))).
Proof. repeat split. Qed.

(** X14: on the file of a bitmap, [bmpfilewidth] and [bmpfileheight] give
    the width and the height of the header on a little-endian machine and
    their byte-swapped values on a big-endian one: unlike [readdibheader],
    they do not correct the byte order.  The stream is left as it was. *)
Theorem bmpfilewidth_is_not_byte_order_corrected (big_endian : bool) (bp : Bitmap) (pos : Z) :
  valid_bitmap bp -> 0 <= pos ->
  let fp := {| f_data := bitmap_bytes bp; f_pos := pos |} in
  let width := dib_width (dibheader bp) in
  let height := to_uint32 (dib_height (dibheader bp)) in
  bmpfilewidth big_endian fp = inr (if big_endian then uint32swap width else width, fp) /\
  bmpfileheight big_endian fp = inr (if big_endian then uint32swap height else height, fp).
Proof.
  intros (Hbh & Hdh & Hpl & Hpb & Hxb & Hsz) Hp. cbv zeta.
  destruct Hdh as (_ & Hw & Hh & _).
  unfold bmpfilewidth, bmpfileheight, WIDTH_OFFSET, HEIGHT_OFFSET.
  rewrite !get32bitsfromheader_any by (cbn [f_pos]; lia). cbn [f_data].
  assert (Hlen : 1078 <= Z.of_nat (length (bitmap_bytes bp))).
  { unfold bitmap_bytes. rewrite !length_app, length_bmpheader_bytes, length_dibheader_bytes. lia. }
  destruct (Z.ltb_spec (Z.of_nat (length (bitmap_bytes bp))) (18 + 4)); [lia|].
  destruct (Z.ltb_spec (Z.of_nat (length (bitmap_bytes bp))) (22 + 4)); [lia|].
  destruct (file_field_bitmap_bytes big_endian bp) as (_ & E1 & E2).
  change (Z.to_nat 18) with 18%nat. change (Z.to_nat 22) with 22%nat.
  rewrite E1, E2, !load_le_bytes_4; [split; reflexivity| |exact Hw].
  unfold to_uint32. change (2 ^ 32) with 4294967296. apply Z.mod_pos_bound. lia.
Qed.

Lemma bmpfilewidth_is_not_byte_order_corrected_witness :
  bmpfilewidth true {| f_data := bitmap_bytes shadow9; f_pos := 0 |}
  = inr (uint32swap 3, {| f_data := bitmap_bytes shadow9; f_pos := 0 |}).
Proof.
  apply (bmpfilewidth_is_not_byte_order_corrected true shadow9 0); [|lia].
  unfold valid_bitmap, valid_bmpheader, valid_dibheader, is_byte.
  repeat split; try (vm_compute; congruence);
    apply (bool_decide_unpack _); vm_compute; exact I.
Defined.

(** ** Directories *)

Section DirectoryFacts.
Variables PATH_MAX NAME_MAX : Z.
Variable fopen : string -> option (list Z).
Variable isvalid : prog FILE bool.
Variable dir : string.
Variable n : Z.

Lemma getvalidfilenames_loop_spec (entries : list dirent) (valid : list string) :
  valid_files PATH_MAX NAME_MAX fopen isvalid dir entries = Some valid ->
  forall i filenames,
    getvalidfilenames_loop PATH_MAX NAME_MAX fopen isvalid dir n entries i filenames
    = inr (i + Z.of_nat (length (take (Z.to_nat (n - i)) valid)),
           filenames ++ take (Z.to_nat (n - i)) valid).
Proof.
  revert valid. induction entries as [|d entries IH]; intros valid Hv i filenames.
  - cbn in Hv. injection Hv as <-. cbn. rewrite take_nil, app_nil_r. cbn. f_equal. f_equal. lia.
  - cbn [valid_files foldr] in Hv. fold (valid_files PATH_MAX NAME_MAX fopen isvalid dir entries) in Hv.
    destruct (valid_files PATH_MAX NAME_MAX fopen isvalid dir entries) as [rest|] eqn:Hrest;
      [|discriminate Hv].
    cbn [mbind option_bind] in Hv. specialize (IH rest eq_refl).
    cbn [getvalidfilenames_loop].
    destruct (Z.ltb_spec i n) as [Hlt|Hge].
    + destruct (d_type d =? DT_REG).
      * destruct (check_file PATH_MAX NAME_MAX fopen isvalid dir d) as [e|[filepath|]];
          [discriminate Hv| |].
        -- injection Hv as <-. rewrite IH.
           replace (Z.to_nat (n - i)) with (S (Z.to_nat (n - (i + 1)))) by lia.
           cbn [take length]. rewrite <- app_assoc. cbn [app]. f_equal. f_equal. lia.
        -- injection Hv as <-. apply IH.
      * injection Hv as <-. apply IH.
    + replace (Z.to_nat (n - i)) with 0%nat by lia.
      rewrite take_0, app_nil_r. cbn. f_equal. f_equal. lia.
Qed.

Lemma length_valid_files (entries : list dirent) (valid : list string) :
  valid_files PATH_MAX NAME_MAX fopen isvalid dir entries = Some valid ->
  Z.of_nat (length valid)
  <= fold_left (fun c d => if d_type d =? DT_REG then c + 1 else c) entries 0.
Proof.
  assert (G : forall entries c, fold_left (fun c d => if d_type d =? DT_REG then c + 1 else c) entries c
              = c + fold_left (fun c d => if d_type d =? DT_REG then c + 1 else c) entries 0).
  { clear. induction entries as [|d entries IH]; intros c; cbn [fold_left]; [lia|].
    rewrite IH, (IH (if d_type d =? DT_REG then 0 + 1 else 0)).
    destruct (d_type d =? DT_REG); lia. }
  revert valid. induction entries as [|d entries IH]; intros valid Hv.
  - cbn in Hv. injection Hv as <-. cbn. lia.
  - cbn [valid_files foldr] in Hv. fold (valid_files PATH_MAX NAME_MAX fopen isvalid dir entries) in Hv.
    destruct (valid_files PATH_MAX NAME_MAX fopen isvalid dir entries) as [rest|] eqn:Hrest;
      [|discriminate Hv].
    cbn [mbind option_bind] in Hv. specialize (IH rest eq_refl).
    cbn [fold_left]. rewrite G.
    destruct (d_type d =? DT_REG).
    + destruct (check_file PATH_MAX NAME_MAX fopen isvalid dir d) as [e|[filepath|]];
        [discriminate Hv| |]; injection Hv as <-; cbn [length]; lia.
    + injection Hv as <-. lia.
Qed.

End DirectoryFacts.

(** X15: when every regular file of the directory can be opened and
    checked, [getvalidfilenames] returns the paths of the first [n] files
    that [isvalid] accepts, in the order of [readdir], and ends the program
    with "not enough valid bmps" when there are fewer than [n]. *)
Theorem getvalidfilenames_takes_first_valid (PATH_MAX NAME_MAX : Z)
    (fopen : string -> option (list Z)) (isvalid : prog FILE bool) (dir : string)
    (entries : list dirent) (valid : list string) (n : Z) :
  valid_files PATH_MAX NAME_MAX fopen isvalid dir entries = Some valid ->
  0 <= n <= UINT16_MAX ->
  getvalidfilenames PATH_MAX NAME_MAX fopen (Some entries) dir n isvalid
  = if n <=? Z.of_nat (length valid) then inr (take (Z.to_nat n) valid)
    else inl not_enough_bmps.
Proof.
  intros Hv Hn. unfold getvalidfilenames.
  rewrite (getvalidfilenames_loop_spec _ _ _ _ _ _ entries valid Hv).
  rewrite Z.sub_0_r, app_nil_l, length_take.
  destruct (Z.leb_spec n (Z.of_nat (length valid))).
  - destruct (Z.ltb_spec (0 + Z.of_nat (Z.to_nat n `min` length valid)) n); [lia|reflexivity].
  - destruct (Z.ltb_spec (0 + Z.of_nat (Z.to_nat n `min` length valid)) n); [reflexivity|lia].
Qed.

Lemma getvalidfilenames_takes_first_valid_witness :
  getvalidfilenames 4096 255 demo_fopen (Some demo_entries) "pics" 1 (isvalidbmp false 3 0)
  = inr ["pics/a.bmp"].
Proof.
  apply (getvalidfilenames_takes_first_valid 4096 255 demo_fopen (isvalidbmp false 3 0)
           "pics" demo_entries ["pics/a.bmp"] 1).
  - vm_compute. reflexivity.
  - unfold UINT16_MAX. lia.
Defined.

(** X16: let every regular file of the directory be one that can be opened
    and checked, let the directory have at most 65535 entries, and let [n]
    be the number of regular files that [countfiles] finds, as [main] sets
    it without [-n].  Then [getvalidfilenames] succeeds only if every
    regular file is accepted by [isvalid], and returns all of them;
    otherwise it ends the program with "not enough valid bmps". *)
Theorem getvalidfilenames_of_countfiles (PATH_MAX NAME_MAX : Z)
    (fopen : string -> option (list Z)) (isvalid : prog FILE bool) (dir : string)
    (entries : list dirent) (valid : list string) (n : Z) :
  valid_files PATH_MAX NAME_MAX fopen isvalid dir entries = Some valid ->
  countfiles (Some entries) = inr n ->
  Z.of_nat (length entries) <= UINT16_MAX ->
  getvalidfilenames PATH_MAX NAME_MAX fopen (Some entries) dir n isvalid
  = if Z.of_nat (length valid) =? n then inr valid else inl not_enough_bmps.
Proof.
  intros Hv Hc Hl. unfold UINT16_MAX in Hl. unfold countfiles in Hc. injection Hc as Hc.
  assert (G : forall es c, 0 <= c -> c + Z.of_nat (length es) <= 65535 ->
            fold_left (fun filecount d => if d_type d =? DT_REG then int_add filecount 1 else filecount) es c
            = fold_left (fun c d => if d_type d =? DT_REG then c + 1 else c) es c
            /\ c <= fold_left (fun c d => if d_type d =? DT_REG then c + 1 else c) es c
                 <= c + Z.of_nat (length es)).
  { clear. induction es as [|d es IH]; intros c Hc Hl; cbn [fold_left length] in *; [lia|].
    assert (E : int_add c 1 = c + 1).
    { unfold int_add, to_int32. Z.div_mod_to_equations; lia. }
    rewrite E. destruct (d_type d =? DT_REG).
    - destruct (IH (c + 1)) as [-> ?]; [lia|lia|]. split; [reflexivity|lia].
    - destruct (IH c) as [-> ?]; [lia|lia|]. split; [reflexivity|lia]. }
  destruct (G entries 0) as [E R]; [lia|lia|]. rewrite E in Hc.
  pose proof (length_valid_files _ _ _ _ _ entries valid Hv) as Hle. rewrite Hc in Hle.
  unfold getvalidfilenames.
  rewrite (getvalidfilenames_loop_spec _ _ _ _ _ _ entries valid Hv).
  rewrite Z.sub_0_r, app_nil_l, length_take.
  destruct (Z.eqb_spec (Z.of_nat (length valid)) n) as [Heq|Hne].
  - destruct (Z.ltb_spec (0 + Z.of_nat (Z.to_nat n `min` length valid)) n); [lia|].
    rewrite take_ge by lia. reflexivity.
  - destruct (Z.ltb_spec (0 + Z.of_nat (Z.to_nat n `min` length valid)) n); [reflexivity|lia].
Qed.

Lemma getvalidfilenames_of_countfiles_witness :
  getvalidfilenames 4096 255 demo_fopen (Some demo_entries) "pics" 1 (isvalidbmp false 3 0)
  = inr ["pics/a.bmp"].
Proof.
  apply (getvalidfilenames_of_countfiles 4096 255 demo_fopen (isvalidbmp false 3 0)
           "pics" demo_entries ["pics/a.bmp"] 1).
  - vm_compute. reflexivity.
  - vm_compute. reflexivity.
  - vm_compute. congruence.
Defined.

(** ** Exact binary64 arithmetic on integers *)

Lemma iter_pos_nat {A : Type} (f : A -> A) (p : positive) (x : A) :
  SpecFloat.iter_pos f p x = Nat.iter (Pos.to_nat p) f x.
Proof.
  revert x. induction p as [p IH|p IH|]; intros x; cbn [SpecFloat.iter_pos].
  - rewrite !IH. rewrite Pos2Nat.inj_xI.
    replace (S (2 * Pos.to_nat p)) with (Pos.to_nat p + (Pos.to_nat p + 1))%nat by lia.
    rewrite !Nat.iter_add. cbn [Nat.iter]. reflexivity.
  - rewrite !IH. rewrite Pos2Nat.inj_xO.
    replace (2 * Pos.to_nat p)%nat with (Pos.to_nat p + Pos.to_nat p)%nat by lia.
    rewrite Nat.iter_add. reflexivity.
  - reflexivity.
Qed.

Lemma shr_1_even (q : positive) :
  shr_1 {| shr_m := Z.pos q~0; shr_r := false; shr_s := false |}
  = {| shr_m := Z.pos q; shr_r := false; shr_s := false |}.
Proof. reflexivity. Qed.

Lemma iter_shr_1_exact (k : nat) (M : Z) :
  0 < M ->
  Nat.iter k shr_1 {| shr_m := M * 2 ^ Z.of_nat k; shr_r := false; shr_s := false |}
  = {| shr_m := M; shr_r := false; shr_s := false |}.
Proof.
  intros HM. induction k as [|k IH].
  - unfold Nat.iter. cbn [nat_rect]. change (Z.of_nat 0) with 0.
    rewrite Z.pow_0_r, Z.mul_1_r. reflexivity.
  - rewrite Nat.iter_succ_r.
    replace (M * 2 ^ Z.of_nat (S k)) with (2 * (M * 2 ^ Z.of_nat k))
      by (rewrite Nat2Z.inj_succ, Z.pow_succ_r by lia; ring).
    assert (HN : 0 < M * 2 ^ Z.of_nat k) by (apply Z.mul_pos_pos; [lia|apply Z.pow_pos_nonneg; lia]).
    destruct (M * 2 ^ Z.of_nat k) as [|q|q] eqn:EN; try lia.
    change (2 * Z.pos q) with (Z.pos q~0). rewrite shr_1_even. exact IH.
Qed.

(** Rounding a mantissa whose low bits are all zero loses nothing. *)
Lemma binary_round_aux_exact_shift (sx : bool) (m : positive) (e n : Z) :
  Z.pos (digits2_pos m) = 53 -> 0 <= n -> -1074 <= e <= 971 ->
  binary_round_aux d_prec d_emax sx (Z.pos m * 2 ^ n) (e - n) loc_Exact = S754_finite sx m e.
Proof.
  intros Hd Hn He.
  destruct (Z.eq_dec n 0) as [->|Hn0].
  { rewrite Z.mul_1_r, Z.sub_0_r. apply binary_round_aux_exact; assumption. }
  assert (HM : 0 < Z.pos m * 2 ^ n) by (apply Z.mul_pos_pos; [lia|apply Z.pow_pos_nonneg; lia]).
  destruct (Z.pos m * 2 ^ n) as [|M|M] eqn:EM; try lia.
  assert (HdM : Z.pos (digits2_pos M) = 53 + n).
  { apply digits2_pos_unique. rewrite <- EM.
    pose proof (digits2_pos_bounds m) as [Blo Bhi]. rewrite Hd in Blo, Bhi.
    replace (53 + n - 1) with (52 + n) by lia. rewrite !Z.pow_add_r by lia.
    assert (0 < 2 ^ n) by (apply Z.pow_pos_nonneg; lia).
    split; [apply Z.mul_le_mono_nonneg_r; lia|apply Z.mul_lt_mono_pos_r; lia]. }
  unfold binary_round_aux, shr_fexp.
  cbn [Zdigits2 shr_record_of_loc]. rewrite HdM.
  assert (E : fexp d_prec d_emax (53 + n + (e - n)) - (e - n) = n).
  { unfold fexp, emin, d_prec, d_emax. lia. }
  rewrite E. destruct n as [|p|p]; try lia.
  cbn [shr]. rewrite iter_pos_nat.
  replace (Z.pos M) with (Z.pos m * 2 ^ Z.of_nat (Pos.to_nat p))
    by (rewrite positive_nat_Z; exact EM).
  rewrite iter_shr_1_exact by lia.
  cbn [shr_m loc_of_shr_record round_nearest_even Zdigits2 shr_record_of_loc].
  rewrite Hd.
  assert (E' : fexp d_prec d_emax (53 + (e - Z.pos p + Z.pos p)) - (e - Z.pos p + Z.pos p) = 0).
  { unfold fexp, emin, d_prec, d_emax. lia. }
  rewrite E'. cbn [shr shr_m].
  replace (e - Z.pos p + Z.pos p) with e by lia.
  destruct (Z.leb_spec e (d_emax - d_prec)) as [|H]; [reflexivity|].
  unfold d_emax, d_prec in H. lia.
Qed.

(** The double of an integer of [1, 2^53) is determined by its value. *)
Lemma double_of_Z_unique (z : Z) (m : positive) (e : Z) :
  0 < z < 2 ^ 53 -> Z.pos (digits2_pos m) = 53 -> e <= 0 -> Z.pos m = z * 2 ^ (- e) ->
  double_of_Z z = S754_finite false m e.
Proof.
  intros Hz Hd He Hm.
  destruct (double_of_Z_pos z Hz) as (m' & e' & -> & He' & Hm' & Hd').
  pose proof (digits2_pos_bounds m) as [Blo Bhi]. rewrite Hd in Blo, Bhi.
  pose proof (digits2_pos_bounds m') as [Blo' Bhi']. rewrite Hd' in Blo', Bhi'.
  change (2 ^ (53 - 1)) with (2 ^ 52) in *.
  assert (Ee : e = e').
  { destruct (Z.lt_trichotomy e e') as [Hlt|[Heq|Hgt]]; [|exact Heq|]; exfalso.
    - (* -e > -e' : m = m' * 2^(e' - e) >= 2 m' *)
      assert (E : Z.pos m = Z.pos m' * 2 ^ (e' - e)).
      { rewrite Hm, Hm'. rewrite <- Z.mul_assoc, <- Z.pow_add_r by lia. f_equal. f_equal. lia. }
      assert (2 ^ 1 <= 2 ^ (e' - e)) by (apply Z.pow_le_mono_r; lia).
      change (2 ^ 1) with 2 in *. change (2 ^ 52) with 4503599627370496 in *.
      change (2 ^ 53) with 9007199254740992 in *. nia.
    - assert (E : Z.pos m' = Z.pos m * 2 ^ (e - e')).
      { rewrite Hm, Hm'. rewrite <- Z.mul_assoc, <- Z.pow_add_r by lia. f_equal. f_equal. lia. }
      assert (2 ^ 1 <= 2 ^ (e - e')) by (apply Z.pow_le_mono_r; lia).
      change (2 ^ 1) with 2 in *. change (2 ^ 52) with 4503599627370496 in *.
      change (2 ^ 53) with 9007199254740992 in *. nia. }
  subst e'. f_equal. apply Pos2Z.inj. lia.
Qed.

Lemma double_of_Z_0 : double_of_Z 0 = S754_zero false.
Proof. reflexivity. Qed.

Lemma pow2_le_mul (a n : Z) : 0 < a -> 0 <= n -> a <= a * 2 ^ n.
Proof.
  intros Ha Hn. assert (1 <= 2 ^ n) by (apply (Z.pow_le_mono_r 2 0 n); lia).
  rewrite <- (Z.mul_1_r a) at 1. apply Z.mul_le_mono_nonneg_l; lia.
Qed.

Lemma mul_pow2_pow2 (x p q r : Z) :
  0 <= p -> 0 <= q -> r = p + q -> x * 2 ^ p * 2 ^ q = x * 2 ^ r.
Proof. intros Hp Hq ->. rewrite Z.pow_add_r by lia. ring. Qed.

(** The product of two doubles that hold integers is exact when it is below
    2^53. *)
Lemma d_mul_exact (a b : Z) :
  0 <= a < 2 ^ 53 -> 0 <= b < 2 ^ 53 -> a * b < 2 ^ 53 ->
  d_mul (double_of_Z a) (double_of_Z b) = double_of_Z (a * b).
Proof.
  intros Ha Hb Hab.
  destruct (Z.eq_dec a 0) as [->|Ha0].
  { rewrite Z.mul_0_l, double_of_Z_0.
    destruct (Z.eq_dec b 0) as [->|Hb0]; [reflexivity|].
    apply d_mul_zero_l. lia. }
  destruct (Z.eq_dec b 0) as [->|Hb0].
  { rewrite Z.mul_0_r, double_of_Z_0.
    destruct (double_of_Z_pos a ltac:(lia)) as (m1 & e1 & -> & _). reflexivity. }
  assert (Hz : 0 < a * b) by (apply Z.mul_pos_pos; lia).
  destruct (double_of_Z_pos a ltac:(lia)) as (m1 & e1 & -> & He1 & Hm1 & Hd1).
  destruct (double_of_Z_pos b ltac:(lia)) as (m2 & e2 & -> & He2 & Hm2 & Hd2).
  destruct (double_of_Z_pos (a * b) ltac:(lia)) as (m & e & -> & He & Hm & Hd).
  unfold d_mul, SFmul. cbn [xorb].
  pose proof (digits2_pos_bounds m1) as [B1lo B1hi]. rewrite Hd1 in B1lo, B1hi.
  pose proof (digits2_pos_bounds m2) as [B2lo B2hi]. rewrite Hd2 in B2lo, B2hi.
  pose proof (digits2_pos_bounds m) as [Blo Bhi]. rewrite Hd in Blo, Bhi.
  change (2 ^ (53 - 1)) with (2 ^ 52) in *.
  assert (Hprod : Z.pos m1 * Z.pos m2 = a * b * 2 ^ (- e1 - e2)).
  { rewrite Hm1, Hm2. replace (- e1 - e2) with (- e1 + - e2) by lia.
    rewrite Z.pow_add_r by lia. ring. }
  assert (Hn : e1 + e2 <= e).
  { destruct (Z.leb_spec (e1 + e2) e) as [|Hlt]; [assumption|exfalso].
    (* then m is at least twice m1 * m2 *)
    assert (E : Z.pos m = Z.pos m1 * Z.pos m2 * 2 ^ (e1 + e2 - e)).
    { rewrite Hprod, Hm. symmetry. apply mul_pow2_pow2; lia. }
    assert (H52 : 2 ^ 52 * 2 ^ 52 <= Z.pos m1 * Z.pos m2) by (apply Z.mul_le_mono_nonneg; lia).
    pose proof (pow2_le_mul (Z.pos m1 * Z.pos m2) (e1 + e2 - e) ltac:(lia) ltac:(lia)).
    change (2 ^ 52) with 4503599627370496 in *. change (2 ^ 53) with 9007199254740992 in *.
    lia. }
  replace (Z.pos (m1 * m2)) with (Z.pos m * 2 ^ (e - (e1 + e2))).
  2:{ rewrite Pos2Z.inj_mul, Hprod, Hm. apply mul_pow2_pow2; lia. }
  replace (e1 + e2) with (e - (e - (e1 + e2))) at 2 by lia.
  apply binary_round_aux_exact_shift; [exact Hd|lia|lia].
Qed.

Lemma shl_align_fst (m : positive) (e ez : Z) :
  ez <= e -> Z.pos (fst (shl_align m e ez)) = Z.pos m * 2 ^ (e - ez).
Proof.
  intros He. unfold shl_align.
  destruct (ez - e) as [|d|d] eqn:Ed; cbn [fst].
  - replace (e - ez) with 0 by lia. lia.
  - lia.
  - rewrite pos_iter_xO. f_equal. f_equal. lia.
Qed.

(** The sum of two doubles that hold integers is exact when it is below
    2^53. *)
Lemma d_add_exact (a b : Z) :
  0 <= a -> 0 <= b -> a + b < 2 ^ 53 ->
  d_add (double_of_Z a) (double_of_Z b) = double_of_Z (a + b).
Proof.
  intros Ha Hb Hab.
  destruct (Z.eq_dec a 0) as [->|Ha0].
  { rewrite Z.add_0_l, double_of_Z_0.
    destruct (Z.eq_dec b 0) as [->|Hb0]; [reflexivity|].
    destruct (double_of_Z_pos b ltac:(lia)) as (m2 & e2 & -> & _). reflexivity. }
  destruct (Z.eq_dec b 0) as [->|Hb0].
  { rewrite Z.add_0_r, double_of_Z_0.
    destruct (double_of_Z_pos a ltac:(lia)) as (m1 & e1 & -> & _). reflexivity. }
  destruct (double_of_Z_pos a ltac:(lia)) as (m1 & e1 & -> & He1 & Hm1 & Hd1).
  destruct (double_of_Z_pos b ltac:(lia)) as (m2 & e2 & -> & He2 & Hm2 & Hd2).
  destruct (double_of_Z_pos (a + b) ltac:(lia)) as (m & e & -> & He & Hm & Hd).
  unfold d_add, SFadd. cbv zeta. cbn [cond_Zopp].
  set (ez := Z.min e1 e2).
  rewrite !shl_align_fst by lia.
  pose proof (digits2_pos_bounds m) as [Blo Bhi]. rewrite Hd in Blo, Bhi.
  change (2 ^ (53 - 1)) with (2 ^ 52) in *.
  assert (Hsum : Z.pos m1 * 2 ^ (e1 - ez) + Z.pos m2 * 2 ^ (e2 - ez) = (a + b) * 2 ^ (- ez)).
  { rewrite Hm1, Hm2.
    rewrite (mul_pow2_pow2 a (- e1) (e1 - ez) (- ez)) by lia.
    rewrite (mul_pow2_pow2 b (- e2) (e2 - ez) (- ez)) by lia. ring. }
  rewrite Hsum.
  assert (Hpos : 0 < (a + b) * 2 ^ (- ez)).
  { apply Z.mul_pos_pos; [lia|apply Z.pow_pos_nonneg; lia]. }
  destruct ((a + b) * 2 ^ (- ez)) as [|M|M] eqn:EM; try lia.
  unfold binary_normalize, binary_round.
  assert (HdM : Z.pos (digits2_pos M) + ez = 53 + e).
  { assert (Z.pos (digits2_pos M) = 53 + e - ez); [|lia].
    apply digits2_pos_unique. rewrite <- EM.
    destruct (Z.leb_spec ez e).
    - replace ((a + b) * 2 ^ (- ez)) with (Z.pos m * 2 ^ (e - ez)).
      2:{ rewrite Hm. apply mul_pow2_pow2; lia. }
      replace (53 + e - ez - 1) with (52 + (e - ez)) by lia.
      replace (53 + e - ez) with (53 + (e - ez)) by lia.
      rewrite !Z.pow_add_r by lia.
      assert (0 < 2 ^ (e - ez)) by (apply Z.pow_pos_nonneg; lia).
      split; [apply Z.mul_le_mono_nonneg_r; lia|apply Z.mul_lt_mono_pos_r; lia].
    - (* ez > e: m = M * 2^(ez - e) *)
      assert (E : Z.pos m = (a + b) * 2 ^ (- ez) * 2 ^ (ez - e)).
      { rewrite Hm. symmetry. apply mul_pow2_pow2; lia. }
      assert (0 < 2 ^ (ez - e)) by (apply Z.pow_pos_nonneg; lia).
      replace (2 ^ 52) with (2 ^ (53 + e - ez - 1) * 2 ^ (ez - e)) in Blo
        by (rewrite <- Z.pow_add_r by lia; f_equal; lia).
      replace (2 ^ 53) with (2 ^ (53 + e - ez) * 2 ^ (ez - e)) in Bhi
        by (rewrite <- Z.pow_add_r by lia; f_equal; lia).
      rewrite E in Blo, Bhi.
      split; [apply Z.mul_le_mono_pos_r in Blo; assumption
             |apply Z.mul_lt_mono_pos_r in Bhi; assumption]. }
  rewrite HdM.
  assert (Ef : fexp d_prec d_emax (53 + e) = e).
  { unfold fexp, emin, d_prec, d_emax. lia. }
  rewrite Ef. unfold shl_align.
  destruct (e - ez) as [|d|d] eqn:Ed.
  - assert (e = ez) by lia. subst e.
    assert (M = m) by (apply Pos2Z.inj; lia). subst M.
    apply binary_round_aux_exact; [exact Hd|lia].
  - replace (Z.pos M) with (Z.pos m * 2 ^ (e - ez)).
    2:{ rewrite <- EM, Hm. apply mul_pow2_pow2; lia. }
    replace ez with (e - (e - ez)) at 2 by lia.
    apply binary_round_aux_exact_shift; [exact Hd|lia|lia].
  - assert (Z.pos (Pos.iter xO M d) = Z.pos m).
    { rewrite pos_iter_xO, <- EM, Hm. apply mul_pow2_pow2; lia. }
    replace (Pos.iter xO M d) with m by (apply Pos2Z.inj; lia).
    apply binary_round_aux_exact; [exact Hd|lia].
Qed.

(** An integer of [0, 2^53) comes back unchanged through [double]. *)
Lemma signed_of_double_of_Z (z : Z) :
  0 <= z < 2 ^ 53 -> signed_of_double 64 (double_of_Z z) = Some z.
Proof.
  intros Hz. destruct (Z.eq_dec z 0) as [->|Hz0]; [reflexivity|].
  destruct (double_of_Z_pos z ltac:(lia)) as (m & e & -> & He & Hm & Hd).
  unfold signed_of_double, trunc_double.
  assert (Ev : (if 0 <=? e then Z.pos m * 2 ^ e else Z.pos m / 2 ^ (- e)) = z).
  { destruct (Z.leb_spec 0 e).
    - assert (e = 0) by lia. subst e. cbn in Hm. rewrite Z.pow_0_r. lia.
    - rewrite Hm. apply Z.div_mul. apply Z.pow_nonzero; lia. }
  rewrite Ev.
  change (2 ^ 53) with 9007199254740992 in Hz.
  change (2 ^ (64 - 1)) with 9223372036854775808.
  destruct (_ <=? z) eqn:E1; [|apply Z.leb_gt in E1; lia].
  destruct (z <? _) eqn:E2; [reflexivity|apply Z.ltb_ge in E2; lia].
Qed.

(** ** Evaluation of the section polynomial *)

Lemma zsum_bound (n : nat) (f : nat -> Z) (b : Z) :
  (forall i, (i < n)%nat -> 0 <= f i <= b) -> 0 <= zsum n f <= Z.of_nat n * b.
Proof.
  induction n as [|n IH]; intros H; cbn [zsum]; [lia|].
  specialize (IH ltac:(intros; apply H; lia)). specialize (H n ltac:(lia)).
  rewrite Nat2Z.inj_succ. lia.
Qed.

Section GeneratePixel.
Variable coeff : list Z.
Variables degree value : Z.
Hypothesis degree_nonneg : 0 <= degree.
Hypothesis value_pos : 1 <= value.
Hypothesis coeff_bytes : forall i, (i <= Z.to_nat degree)%nat -> 0 <= coeff !!! i <= 255.
Hypothesis fits : 255 * (degree + 1) * value ^ degree < 2 ^ 53.

Lemma term_bound (i : nat) :
  (i <= Z.to_nat degree)%nat ->
  0 <= value ^ Z.of_nat i <= value ^ degree /\
  0 <= coeff !!! i * value ^ Z.of_nat i <= 255 * value ^ degree.
Proof.
  intros Hi. pose proof (coeff_bytes i Hi) as Hc.
  assert (H1 : 0 < value ^ Z.of_nat i) by (apply Z.pow_pos_nonneg; lia).
  assert (H2 : value ^ Z.of_nat i <= value ^ degree) by (apply Z.pow_le_mono_r; lia).
  split; [lia|]. split; [apply Z.mul_nonneg_nonneg; lia|].
  apply Z.mul_le_mono_nonneg; lia.
Qed.

Lemma pow_degree_bound : 0 < value ^ degree /\ 255 * value ^ degree < 2 ^ 53.
Proof.
  assert (H1 : 0 < value ^ degree) by (apply Z.pow_pos_nonneg; lia).
  split; [exact H1|].
  assert (255 * value ^ degree * 1 <= 255 * value ^ degree * (degree + 1))
    by (apply Z.mul_le_mono_nonneg_l; lia).
  lia.
Qed.

Lemma generatepixel_loop (n : nat) :
  (n <= Z.to_nat degree + 1)%nat ->
  fold_left
    (fun ret i =>
       r ← ret;
       signed_of_double 64
         (d_add (double_of_Z r)
                (d_mul (double_of_Z (coeff !!! i)) (d_pow value (Z.of_nat i)))))
    (seq 0 n) (Some 0)
  = Some (zsum n (fun i => coeff !!! i * value ^ Z.of_nat i)).
Proof.
  induction n as [|n IH]; intros Hn; [reflexivity|].
  rewrite seq_S, fold_left_app, IH by lia. cbn [fold_left Nat.add mbind option_bind].
  cbn [zsum].
  set (S := zsum n (fun i => coeff !!! i * value ^ Z.of_nat i)).
  assert (HS : 0 <= S <= Z.of_nat n * (255 * value ^ degree)).
  { apply zsum_bound. intros i Hi. apply term_bound. lia. }
  destruct (term_bound n ltac:(lia)) as [Hp Ht].
  pose proof (coeff_bytes n ltac:(lia)) as Hc.
  destruct pow_degree_bound as [Hpd Hpd2].
  assert (Hall : S + coeff !!! n * value ^ Z.of_nat n < 2 ^ 53).
  { assert (Z.of_nat n * (255 * value ^ degree) + 255 * value ^ degree
            <= 255 * (degree + 1) * value ^ degree); [|lia].
    replace (Z.of_nat n * (255 * value ^ degree) + 255 * value ^ degree)
      with (255 * (Z.of_nat n + 1) * value ^ degree) by ring.
    apply Z.mul_le_mono_nonneg_r; lia. }
  unfold d_pow.
  rewrite d_mul_exact by (change (2 ^ 53) with 9007199254740992 in *; lia).
  rewrite d_add_exact by lia.
  apply signed_of_double_of_Z. lia.
Qed.

End GeneratePixel.

(** X17: [generatepixel] evaluates the polynomial exactly, and reduces it
    modulo 251, as long as the sum stays below 2^53, where the [double]
    arithmetic of the loop is exact: for coefficients that are bytes and
    [255 * (degree + 1) * value ^ degree < 2^53].  That covers every
    threshold [k <= 6] with shadow numbers up to 250. *)
Theorem generatepixel_exact_below_2_53 (coeff : list Z) (degree value : Z) :
  0 <= degree -> 1 <= value ->
  (forall i, (i <= Z.to_nat degree)%nat -> 0 <= coeff !!! i <= 255) ->
  255 * (degree + 1) * value ^ degree < 2 ^ 53 ->
  generatepixel coeff degree value
  = Some (zsum (S (Z.to_nat degree)) (fun i => coeff !!! i * value ^ Z.of_nat i) mod 251).
Proof.
  intros Hd Hv Hc Hfit. unfold generatepixel.
  rewrite (generatepixel_loop coeff degree value Hd Hv Hc Hfit (Z.to_nat degree + 1)) by lia.
  cbn [mbind option_bind]. f_equal.
  replace (Z.to_nat degree + 1)%nat with (S (Z.to_nat degree)) by lia.
  set (s := zsum _ _).
  assert (Hs : 0 <= s).
  { apply (zsum_bound _ _ (255 * value ^ degree)).
    intros i Hi. apply (term_bound coeff degree value Hd Hv Hc). lia. }
  unfold int_rem, PRIME, to_uint8. rewrite Z.rem_mod_nonneg by lia.
  apply Z.mod_small. pose proof (Z.mod_pos_bound s 251 ltac:(lia)). lia.
Qed.

Lemma generatepixel_exact_below_2_53_witness :
  generatepixel [255; 255; 255; 255; 255; 255] 5 250
  = Some (zsum 6 (fun i => [255; 255; 255; 255; 255; 255] !!! i * 250 ^ Z.of_nat i) mod 251).
Proof.
  apply (generatepixel_exact_below_2_53 [255; 255; 255; 255; 255; 255] 5 250);
    [lia|lia| |vm_compute; reflexivity].
  intros i Hi. do 6 (destruct i as [|i]; [cbn; lia|]). cbn in Hi. lia.
Defined.

(** ** The dimensions of a shadow *)

(** Rounding a mantissa of 53 digits: it stays, or goes up by one. *)
Lemma binary_round_aux_53 (m : positive) (e : Z) (l : location) :
  Z.pos (digits2_pos m) = 53 -> -1074 <= e <= 970 ->
  binary_round_aux d_prec d_emax false (Z.pos m) e l
  = binary_round_aux d_prec d_emax false (round_nearest_even (Z.pos m) l) e loc_Exact.
Proof.
  intros Hd He.
  assert (E : fexp d_prec d_emax (53 + e) - e = 0).
  { unfold fexp, emin, d_prec, d_emax. lia. }
  assert (Hl : loc_of_shr_record (shr_record_of_loc (Z.pos m) l) = l).
  { destruct l as [|[| |]]; reflexivity. }
  unfold binary_round_aux at 1. unfold shr_fexp at 1.
  cbn [Zdigits2]. rewrite Hd, E. cbn [shr].
  rewrite shr_record_of_loc_m, Hl.
  set (Q := round_nearest_even (Z.pos m) l).
  assert (HQ : Q = Z.pos m \/ Q = Z.pos m + 1).
  { unfold Q. destruct l as [|[| |]]; cbn [round_nearest_even]; try (left; reflexivity);
      [destruct (Z.even (Z.pos m)); [left|right]; reflexivity | right; reflexivity]. }
  pose proof (digits2_pos_bounds m) as [Blo Bhi]. rewrite Hd in Blo, Bhi.
  change (2 ^ (53 - 1)) with 4503599627370496 in Blo.
  change (2 ^ 53) with 9007199254740992 in Bhi.
  destruct (Z.eq_dec Q 9007199254740992) as [E53|N53].
  - (* the carry reaches 2^53 *)
    rewrite E53.
    change 9007199254740992 with (Z.pos 4503599627370496~0).
    rewrite binary_round_aux_exact_2 by (try reflexivity; lia).
    unfold shr_fexp.
    change (Zdigits2 (Z.pos 4503599627370496~0)) with 54.
    assert (E1 : fexp d_prec d_emax (54 + e) - e = 1).
    { unfold fexp, emin, d_prec, d_emax. lia. }
    rewrite E1. cbn [shr SpecFloat.iter_pos shr_record_of_loc shr_1 shr_m].
    destruct (Z.leb_spec (e + 1) (d_emax - d_prec)) as [|H]; [reflexivity|].
    unfold d_emax, d_prec in H. lia.
  - assert (HQp : 0 < Q) by lia.
    destruct Q as [|Qp|Qp] eqn:EQ; try lia.
    assert (HdQ : Z.pos (digits2_pos Qp) = 53).
    { apply digits2_pos_unique. change (2 ^ (53 - 1)) with 4503599627370496.
      change (2 ^ 53) with 9007199254740992. lia. }
    rewrite binary_round_aux_exact by (try exact HdQ; lia).
    unfold shr_fexp. cbn [Zdigits2]. rewrite HdQ, E. cbn [shr shr_record_of_loc shr_m].
    destruct (Z.leb_spec e (d_emax - d_prec)) as [|H]; [reflexivity|].
    unfold d_emax, d_prec in H. lia.
Qed.

(** Scaling by an even power of two commutes with the integer square root,
    and the next integer is not reached by adding one to the scaled
    root. *)
Lemma sqrt_scaled (x t : Z) :
  0 < x < 2 ^ 32 -> 17 <= t ->
  let q := Z.sqrt (x * 2 ^ t * 2 ^ t) in
  q / 2 ^ t = Z.sqrt x /\ (q + 1) / 2 ^ t = Z.sqrt x.
Proof.
  intros Hx Ht. cbv zeta.
  set (T := 2 ^ t). set (s := Z.sqrt x).
  assert (HT : 2 ^ 17 <= T) by (apply Z.pow_le_mono_r; lia).
  change (2 ^ 17) with 131072 in HT. change (2 ^ 32) with 4294967296 in Hx.
  pose proof (Z.sqrt_spec x ltac:(lia)) as Hs. cbv zeta in Hs. fold s in Hs.
  assert (Hs0 : 0 <= s) by apply Z.sqrt_nonneg.
  assert (Hs16 : s < 65536).
  { apply Z.sqrt_lt_square; lia. }
  assert (HxT : 0 <= x * T * T) by (apply Z.mul_nonneg_nonneg; [apply Z.mul_nonneg_nonneg|]; lia).
  set (q := Z.sqrt (x * T * T)).
  pose proof (Z.sqrt_spec (x * T * T) HxT) as Hq. cbv zeta in Hq. fold q in Hq.
  assert (Hq0 : 0 <= q) by apply Z.sqrt_nonneg.
  assert (Hlo : s * T <= q).
  { apply Z.sqrt_le_square; [exact HxT|apply Z.mul_nonneg_nonneg; lia|].
    replace (s * T * (s * T)) with (s * s * (T * T)) by ring.
    replace (x * T * T) with (x * (T * T)) by ring.
    apply Z.mul_le_mono_nonneg_r; [apply Z.mul_nonneg_nonneg; lia|lia]. }
  assert (Hhi : q + 1 < (s + 1) * T).
  { destruct (Z.ltb_spec (q + 1) ((s + 1) * T)) as [|Hge]; [assumption|exfalso].
    (* q >= (s+1) T - 1, so q^2 >= ((s+1) T - 1)^2 > ((s+1)^2 - 1) T^2 >= x T^2 *)
    assert (H1 : ((s + 1) * T - 1) * ((s + 1) * T - 1) <= q * q).
    { apply Z.mul_le_mono_nonneg; nia. }
    assert (H2 : x * T * T <= ((s + 1) * (s + 1) - 1) * (T * T)).
    { replace (x * T * T) with (x * (T * T)) by ring.
      apply Z.mul_le_mono_nonneg_r; [apply Z.mul_nonneg_nonneg; lia|].
      unfold Z.succ in Hs. lia. }
    assert (H3 : 2 * (s + 1) * T <= T * T).
    { replace (2 * (s + 1) * T) with ((2 * (s + 1)) * T) by ring.
      apply Z.mul_le_mono_nonneg_r; lia. }
    nia. }
  split.
  - symmetry. apply Z.div_unique with (q - s * T); lia.
  - symmetry. apply Z.div_unique with (q + 1 - s * T); lia.
Qed.

Lemma trunc_double_of_Z (z : Z) :
  0 <= z < 2 ^ 53 -> trunc_double (double_of_Z z) = Some z.
Proof.
  intros Hz. destruct (Z.eq_dec z 0) as [->|Hz0]; [reflexivity|].
  destruct (double_of_Z_pos z ltac:(lia)) as (m & e & -> & He & Hm & Hd).
  unfold trunc_double. f_equal.
  destruct (Z.leb_spec 0 e).
  - assert (e = 0) by lia. subst e. cbn in Hm. rewrite Z.pow_0_r. lia.
  - rewrite Hm. apply Z.div_mul. apply Z.pow_nonzero; lia.
Qed.

(** The square root of the double of a [uint32_t], rounded to nearest, has
    the integer square root as its integer part. *)
Lemma d_sqrt_uint32 (x : Z) :
  0 < x < 2 ^ 32 ->
  exists m e, d_sqrt (double_of_Z x) = S754_finite false m e /\ e < 0 /\
              Z.pos m / 2 ^ (- e) = Z.sqrt x.
Proof.
  intros Hx.
  destruct (double_of_Z_pos x) as (mx & ex & -> & Hex & Hmx & Hdx).
  { change (2 ^ 32) with 4294967296 in Hx. change (2 ^ 53) with 9007199254740992. lia. }
  pose proof (digits2_pos_bounds mx) as [Blo Bhi]. rewrite Hdx in Blo, Bhi.
  change (2 ^ (53 - 1)) with (2 ^ 52) in Blo.
  assert (Hex2 : ex <= -21).
  { destruct (Z.leb_spec ex (-21)) as [|Hgt]; [assumption|exfalso].
    assert (2 ^ (- ex) <= 2 ^ 20) by (apply Z.pow_le_mono_r; lia).
    assert (x * 2 ^ (- ex) <= x * 2 ^ 20) by (apply Z.mul_le_mono_nonneg_l; lia).
    change (2 ^ 32) with 4294967296 in Hx. change (2 ^ 20) with 1048576 in *.
    change (2 ^ 52) with 4503599627370496 in Blo. lia. }
  unfold d_sqrt, SFsqrt, SFsqrt_core_binary. cbn [Zdigits2]. rewrite Hdx.
  rewrite !Z.div2_div.
  set (t := 26 - ex / 2).
  assert (Ht : 37 <= t <= 52) by (unfold t; Z.div_mod_to_equations; lia).
  assert (Ee : Z.min (fexp d_prec d_emax ((53 + ex + 1) / 2)) (ex / 2) = - t).
  { unfold fexp, emin, d_prec, d_emax, t. Z.div_mod_to_equations; lia. }
  rewrite Ee.
  assert (Hs : 52 <= ex - 2 * - t <= 53) by (unfold t; Z.div_mod_to_equations; lia).
  destruct (ex - 2 * - t) as [|sp|sp] eqn:Es; try lia.
  rewrite Z.shiftl_mul_pow2 by lia.
  assert (Em : Z.pos mx * 2 ^ Z.pos sp = x * 2 ^ t * 2 ^ t).
  { rewrite Hmx. rewrite (mul_pow2_pow2 x (- ex) (Z.pos sp) (t + t)) by lia.
    symmetry. apply mul_pow2_pow2; lia. }
  rewrite Em.
  pose proof (Z.sqrtrem_sqrt (x * 2 ^ t * 2 ^ t)) as Hq.
  assert (Hnn : 0 <= x * 2 ^ t * 2 ^ t).
  { rewrite <- Em. apply Z.mul_nonneg_nonneg; [lia|apply Z.pow_nonneg; lia]. }
  pose proof (Z.sqrt_spec _ Hnn) as Hsq. cbv zeta in Hsq.
  destruct (Z.sqrtrem (x * 2 ^ t * 2 ^ t)) as [q r]. cbn [fst] in Hq. subst q.
  set (q := Z.sqrt (x * 2 ^ t * 2 ^ t)) in *.
  destruct (sqrt_scaled x t Hx ltac:(lia)) as [Hq1 Hq2]. fold q in Hq1, Hq2.
  (* q has 53 digits *)
  assert (Hq53 : 2 ^ 52 <= q < 2 ^ 53).
  { assert (L : 2 ^ 52 * 2 ^ 52 <= x * 2 ^ t * 2 ^ t).
    { rewrite <- Em. apply Z.mul_le_mono_nonneg; try lia.
      apply Z.pow_le_mono_r; lia. }
    assert (U : x * 2 ^ t * 2 ^ t < 2 ^ 53 * 2 ^ 53).
    { rewrite <- Em.
      assert (2 ^ Z.pos sp <= 2 ^ 53) by (apply Z.pow_le_mono_r; lia).
      assert (Z.pos mx * 2 ^ Z.pos sp <= Z.pos mx * 2 ^ 53)
        by (apply Z.mul_le_mono_nonneg_l; lia).
      assert (Z.pos mx * 2 ^ 53 < 2 ^ 53 * 2 ^ 53)
        by (apply Z.mul_lt_mono_pos_r; [apply Z.pow_pos_nonneg; lia|lia]).
      lia. }
    split.
    - apply Z.sqrt_le_square; [exact Hnn|lia|exact L].
    - apply Z.sqrt_lt_square; [exact Hnn|lia|exact U]. }
  assert (Hqp : 0 < q) by (change (2 ^ 52) with 4503599627370496 in Hq53; lia).
  destruct q as [|qp|qp] eqn:Eq; try lia.
  assert (Hdq : Z.pos (digits2_pos qp) = 53).
  { apply digits2_pos_unique. change (2 ^ (53 - 1)) with (2 ^ 52). exact Hq53. }
  rewrite binary_round_aux_53 by (try exact Hdq; lia).
  set (l := if r =? 0 then loc_Exact else loc_Inexact (if r <=? Z.pos qp then Lt else Gt)).
  set (Q := round_nearest_even (Z.pos qp) l).
  assert (HQ : Q = Z.pos qp \/ Q = Z.pos qp + 1).
  { unfold Q, l. destruct (r =? 0); [left; reflexivity|].
    destruct (r <=? Z.pos qp); [left|right]; reflexivity. }
  change (2 ^ 52) with 4503599627370496 in Hq53. change (2 ^ 53) with 9007199254740992 in Hq53.
  destruct (Z.eq_dec Q 9007199254740992) as [E53|N53].
  - rewrite E53. change 9007199254740992 with (Z.pos 4503599627370496~0).
    rewrite binary_round_aux_exact_2 by (try reflexivity; lia).
    exists 4503599627370496%positive, (- t + 1). split; [reflexivity|]. split; [lia|].
    rewrite <- Hq2.
    replace (Z.pos qp + 1) with (2 * 4503599627370496) by lia.
    replace (2 ^ t) with (2 * 2 ^ (- (- t + 1))).
    + rewrite Z.div_mul_cancel_l; [reflexivity|apply Z.pow_nonzero; lia|lia].
    + rewrite <- Z.pow_succ_r by lia. f_equal. lia.
  - assert (HQp : 0 < Q) by lia.
    destruct Q as [|Qp|Qp] eqn:EQ; try lia.
    assert (HdQ : Z.pos (digits2_pos Qp) = 53).
    { apply digits2_pos_unique. change (2 ^ (53 - 1)) with 4503599627370496.
      change (2 ^ 53) with 9007199254740992. lia. }
    rewrite binary_round_aux_exact by (try exact HdQ; lia).
    exists Qp, (- t). split; [reflexivity|]. split; [lia|].
    rewrite Z.opp_involutive.
    destruct HQ as [HQ|HQ]; rewrite HQ; assumption.
Qed.

(** What [findclosestpair] starts its search from: the integer square
    root. *)
Lemma floor_sqrt_uint32 (x : Z) :
  0 <= x < 2 ^ 32 ->
  to_uint32 (default 0 (trunc_double (d_floor (d_sqrt (double_of_Z x))))) = Z.sqrt x.
Proof.
  intros Hx. destruct (Z.eq_dec x 0) as [->|Hx0]; [reflexivity|].
  destruct (d_sqrt_uint32 x ltac:(lia)) as (m & e & -> & He & Hv).
  unfold d_floor. destruct (Z.leb_spec 0 e); [lia|].
  rewrite Hv.
  assert (Hs : 0 <= Z.sqrt x < 65536).
  { split; [apply Z.sqrt_nonneg|]. apply Z.sqrt_lt_square; [lia|lia|].
    change (2 ^ 32) with 4294967296 in Hx. lia. }
  rewrite trunc_double_of_Z by (change (2 ^ 53) with 9007199254740992; lia).
  cbn [default]. unfold to_uint32. apply Z.mod_small. lia.
Qed.

(** The loop of [findclosestpair] stops at the largest divisor of
    [(2, y]], if there is one. *)
Lemma findclosestpair_loop_found (x w0 h0 w : Z) (fuel : nat) (y : Z) :
  (Z.to_nat y <= fuel)%nat -> 2 < w <= y -> x mod w = 0 ->
  (forall d, w < d <= y -> x mod d <> 0) ->
  findclosestpair_loop fuel x y w0 h0 = (w, to_int32 (x / w)).
Proof.
  revert y. induction fuel as [|fuel IH]; intros y Hf Hw Hdiv Hmax; [lia|].
  cbn [findclosestpair_loop].
  destruct (Z.ltb_spec 2 y) as [_|]; [|lia].
  destruct (Z.eq_dec y w) as [->|Hne].
  - rewrite Hdiv. reflexivity.
  - destruct (Z.eqb_spec (x mod y) 0) as [E|_].
    + exfalso. apply (Hmax y); [lia|exact E].
    + apply IH; [lia|lia|exact Hdiv|]. intros d Hd. apply Hmax. lia.
Qed.

Lemma findclosestpair_loop_none (x w0 h0 : Z) (fuel : nat) (y : Z) :
  (forall d, 2 < d <= y -> x mod d <> 0) ->
  findclosestpair_loop fuel x y w0 h0 = (w0, h0).
Proof.
  revert y. induction fuel as [|fuel IH]; intros y Hmax; [reflexivity|].
  cbn [findclosestpair_loop].
  destruct (Z.ltb_spec 2 y) as [Hy|]; [|reflexivity].
  destruct (Z.eqb_spec (x mod y) 0) as [E|_].
  - exfalso. apply (Hmax y); [lia|exact E].
  - apply IH. intros d Hd. apply Hmax. lia.
Qed.

(** X18: [findclosestpair] writes the largest divisor [w] of [x] with
    [2 < w] and [w * w <= x], together with [x / w]; when [x] has no such
    divisor it writes nothing, and [*width] and [*height] keep the values
    they had.  The [double] computation [floor(sqrt(x))] is the integer
    square root for every [uint32_t]. *)
Theorem findclosestpair_largest_divisor_above_2 (x width0 height0 : Z) :
  0 <= x < 2 ^ 32 ->
  (forall w, 2 < w -> w * w <= x -> x mod w = 0 ->
     (forall d, w < d -> d * d <= x -> x mod d <> 0) ->
     findclosestpair x width0 height0 = (w, x / w) /\ w * (x / w) = x) /\
  ((forall d, 2 < d -> d * d <= x -> x mod d <> 0) ->
   findclosestpair x width0 height0 = (width0, height0)).
Proof.
  intros Hx. unfold findclosestpair. cbv zeta.
  rewrite floor_sqrt_uint32 by exact Hx.
  assert (Hsq : forall d, 0 <= d -> (d <= Z.sqrt x <-> d * d <= x)).
  { intros d Hd. symmetry. apply Z.sqrt_le_square; lia. }
  split.
  - intros w Hw Hww Hdiv Hmax.
    rewrite (findclosestpair_loop_found x width0 height0 w).
    + assert (Hq : w * (x / w) = x).
      { pose proof (Z.div_mod x w ltac:(lia)). lia. }
      split; [|exact Hq]. f_equal. unfold to_int32.
      change (2 ^ 32) with 4294967296 in Hx.
      assert (0 <= x / w) by (apply Z.div_pos; lia).
      assert (3 * (x / w) <= w * (x / w)) by (apply Z.mul_le_mono_nonneg_r; lia).
      Z.div_mod_to_equations; lia.
    + lia.
    + split; [lia|]. apply Hsq; lia.
    + exact Hdiv.
    + intros d Hd. apply Hmax; [lia|]. apply Hsq; lia.
  - intros Hmax. apply findclosestpair_loop_none.
    intros d Hd. apply Hmax; [lia|]. apply Hsq; lia.
Qed.

Lemma findclosestpair_largest_divisor_above_2_witness :
  findclosestpair 36 0 0 = (6, 36 / 6) /\ 6 * (36 / 6) = 36.
Proof.
  apply (findclosestpair_largest_divisor_above_2 36 0 0);
    [lia|lia|lia|reflexivity|intros d Hd Hdd; lia].
Defined.

(** ** Permutations *)

Lemma insert_exchange (p : list Z) (t : nat) (a : Z) :
  (t < length p)%nat -> (p !!! t) :: <[t := a]> p ≡ₚ a :: p.
Proof.
  revert t. induction p as [|c p IH]; intros t Ht; cbn [length] in Ht; [lia|].
  destruct t as [|t].
  - cbn. apply perm_swap.
  - cbn [list_insert]. change ((c :: p) !!! S t) with (p !!! t).
    etrans; [apply perm_swap|]. etrans; [|apply perm_swap].
    apply perm_skip. apply IH. lia.
Qed.

Lemma swap_cons_SS (a : Z) (p : list Z) (s t : nat) :
  swap (a :: p) (S s) (S t) = a :: swap p s t.
Proof. reflexivity. Qed.

Lemma swap_permutation (p : list Z) (s t : nat) :
  (s < length p)%nat -> (t < length p)%nat -> swap p s t ≡ₚ p.
Proof.
  revert s t. induction p as [|a p IH]; intros s t Hs Ht; cbn [length] in *; [lia|].
  destruct s as [|s], t as [|t].
  - reflexivity.
  - unfold swap. change ((a :: p) !!! 0%nat) with a.
    change ((a :: p) !!! S t) with (p !!! t).
    cbn [list_insert]. apply insert_exchange. lia.
  - unfold swap. change ((a :: p) !!! 0%nat) with a.
    change ((a :: p) !!! S s) with (p !!! s).
    cbn [list_insert]. apply insert_exchange. lia.
  - rewrite swap_cons_SS. apply perm_skip. apply IH; lia.
Qed.

Section PermutationFacts.
Context {L : LibcRand} {HL : LibcRandOk L}.

Lemma permute_loop_permutation (l : list nat) (st : rand_state) (p : list Z) :
  (forall i, i ∈ l -> (i < length p)%nat /\ Z.of_nat i < 2 ^ 32) ->
  snd (fold_left
         (fun '(st, p) i =>
            let '(j, st') := randint st (Z.of_nat i) in (st', swap p (Z.to_nat j) i))
         l (st, p)) ≡ₚ p.
Proof.
  revert st p. induction l as [|i0 l IH]; intros st p Hl; cbn [fold_left]; [reflexivity|].
  destruct (Hl i0 ltac:(left)) as [Hi0 Hb].
  pose proof (randint_range st (Z.of_nat i0) ltac:(lia)) as Hr.
  destruct (randint st (Z.of_nat i0)) as [j st1]. cbn [fst] in Hr.
  etrans; [apply IH|apply swap_permutation; lia].
  intros i Hi. rewrite swap_length. apply Hl. right. exact Hi.
Qed.

Lemma unpermute_loop_permutation (l : list nat) (permseq p : list Z) :
  (forall i, i ∈ l -> (i < length p)%nat /\ 0 <= permseq !!! i <= Z.of_nat i) ->
  fold_left (fun p i => let j := permseq !!! i in swap p (Z.to_nat j) i) l p ≡ₚ p.
Proof.
  revert p. induction l as [|i0 l IH]; intros p Hl; cbn [fold_left]; [reflexivity|].
  destruct (Hl i0 ltac:(left)) as [Hi0 Hj].
  etrans; [apply IH|apply swap_permutation; lia].
  intros i Hi. rewrite swap_length. apply Hl. right. exact Hi.
Qed.


End PermutationFacts.


(** ** The solver on the matrix of [revealsecret] *)

Lemma elim_cell_one (u w : Z) :
  0 <= u <= 2147483647 -> 0 <= w <= 2147483647 ->
  c_mod (int_sub u (int_rem (int_mul w 1) PRIME)) PRIME = (u - w mod PRIME) mod PRIME.
Proof.
  intros Hu Hw. unfold int_mul, int_rem, int_sub.
  rewrite Z.mul_1_r, (to_int32_small w) by lia.
  rewrite Z.rem_mod_nonneg by (unfold PRIME; lia).
  pose proof (mod_range w) as B.
  rewrite to_int32_small by lia.
  apply c_mod_floor. unfold PRIME. lia.
Qed.

Lemma modinv_at_1 : modinv_at 1 = 1.
Proof. reflexivity. Qed.

Section FirstRound.
Variable k : nat.
Variable B : Z.
Hypothesis B_int : 250 <= B <= 2147483647.

(** The inner loop of the first phase in round 0, where the factor [a] is
    1, on cells that need not be reduced. *)
Lemma eliminate_row_one (mat : matrix) (i : nat) :
  wf k mat -> wide k B (mget mat) -> (1 <= i)%nat -> (i < k)%nat ->
  wf k (eliminate_row 1 0 i k mat) /\
  forall i' t', mget (eliminate_row 1 0 i k mat) i' t' =
    if decide (i' = i /\ (t' <= k)%nat)
    then (mget mat i t' - mget mat (i - 1) t' mod PRIME) mod PRIME
    else mget mat i' t'.
Proof.
  intros Hwf Hb Hi1 Hik. unfold eliminate_row.
  assert (G : forall n, (n <= S k)%nat ->
    let res := fold_left
      (fun mat t =>
         let temp := int_sub (mget mat i t) (int_rem (int_mul (mget mat (i - 1) t) 1) PRIME) in
         mset mat i t (c_mod temp PRIME)) (seq 0 n) mat in
    wf k res /\
    forall i' t', mget res i' t' =
      if decide (i' = i /\ (t' < n)%nat)
      then (mget mat i t' - mget mat (i - 1) t' mod PRIME) mod PRIME
      else mget mat i' t').
  { induction n as [|n IH]; intros Hn; cbn zeta.
    - cbn [seq fold_left]. split; [exact Hwf|]. intros i' t'.
      destruct (decide _) as [[_ ?]|]; [lia|reflexivity].
    - rewrite seq_S, fold_left_app. cbn [fold_left Nat.add].
      specialize (IH ltac:(lia)). cbn zeta in IH. destruct IH as [IHwf IHget].
      set (res := fold_left _ (seq 0 n) mat) in *.
      split; [apply wf_mset; exact IHwf|].
      intros i' t'. rewrite (mget_mset k) by (try exact IHwf; lia).
      rewrite !IHget.
      destruct (decide (i = i /\ (n < n)%nat)) as [[_ ?]|_]; [lia|].
      destruct (decide ((i - 1)%nat = i /\ (n < n)%nat)) as [[? _]|_]; [lia|].
      rewrite elim_cell_one
        by (pose proof (Hb i n ltac:(lia) ltac:(lia));
            pose proof (Hb (i - 1)%nat n ltac:(lia) ltac:(lia)); lia).
      destruct (decide (i' = i /\ t' = n)) as [[-> ->]|Hne].
      + destruct (decide _) as [|Hc]; [reflexivity|]. exfalso. apply Hc. lia.
      + decide_cases. }
  specialize (G (k + 1 - 0)%nat ltac:(lia)). cbn zeta in G. destruct G as [G1 G2].
  split; [exact G1|]. intros i' t'. rewrite G2.
  decide_cases.
Qed.

(** Round 0 of the first phase on a matrix whose first column is all
    ones. *)
Lemma eliminate_column_0_wide (mat : matrix) :
  wf k mat -> wide k B (mget mat) -> (forall i, (i < k)%nat -> mget mat i 0 = 1) ->
  (1 <= k)%nat ->
  wf k (eliminate_column 0 k mat) /\
  forall i t, mget (eliminate_column 0 k mat) i t =
    if decide ((1 <= i < k)%nat /\ (t <= k)%nat)
    then (mget mat i t - mget mat (i - 1) t mod PRIME) mod PRIME
    else mget mat i t.
Proof.
  intros Hwf Hb H1 Hk. unfold eliminate_column.
  assert (G : forall n mat, wf k mat -> wide k B (mget mat) ->
    (forall i, (i <= n)%nat -> mget mat i 0 = 1) -> (n < k)%nat ->
    let res := fold_left
      (fun mat i =>
         let a := int_mul (mget mat i 0) (modinv_at (mget mat (i - 1) 0)) in
         eliminate_row a 0 i k mat) (rev (seq (0 + 1) n)) mat in
    wf k res /\
    forall i t, mget res i t =
      if decide ((1 <= i <= n)%nat /\ (t <= k)%nat)
      then (mget mat i t - mget mat (i - 1) t mod PRIME) mod PRIME
      else mget mat i t).
  { clear mat Hwf Hb H1. induction n as [|n IH]; intros mat Hwf Hb H1 Hn; cbn zeta.
    - cbn [seq rev fold_left]. split; [exact Hwf|]. intros i t.
      destruct (decide _) as [[? _]|]; [lia|reflexivity].
    - rewrite seq_S, rev_unit. cbn [fold_left Nat.add].
      replace (S n - 1)%nat with n by lia.
      set (i0 := S n).
      rewrite (H1 i0 ltac:(lia)), (H1 n ltac:(lia)), modinv_at_1.
      change (int_mul 1 1) with 1.
      destruct (eliminate_row_one mat i0 Hwf Hb ltac:(lia) ltac:(lia)) as [Hwf1 Hget1].
      set (mat1 := eliminate_row 1 0 i0 k mat) in *.
      assert (Hb1 : wide k B (mget mat1)).
      { intros i t Hi Ht. rewrite Hget1.
        destruct (decide _); [|apply Hb; lia].
        pose proof (mod_range (mget mat i0 t - mget mat (i0 - 1) t mod PRIME)). lia. }
      assert (H11 : forall i, (i <= n)%nat -> mget mat1 i 0 = 1).
      { intros i Hi. rewrite Hget1. destruct (decide _) as [[? _]|]; [lia|].
        apply H1. lia. }
      specialize (IH mat1 Hwf1 Hb1 H11 ltac:(lia)). cbn zeta in IH.
      destruct IH as [IHwf IHget].
      split; [exact IHwf|].
      intros i t. rewrite IHget. rewrite !Hget1.
      destruct (decide ((1 <= i <= n)%nat /\ (t <= k)%nat)) as [[Hi Ht]|Hout].
      + destruct (decide (i = i0 /\ _)) as [[? _]|_]; [lia|].
        destruct (decide ((i - 1)%nat = i0 /\ _)) as [[? _]|_]; [lia|].
        destruct (decide _) as [|Hc]; [reflexivity|]. exfalso. apply Hc. lia.
      + destruct (decide (i = i0 /\ (t <= k)%nat)) as [[-> Ht]|Hne].
        * destruct (decide _) as [|Hc]; [reflexivity|]. exfalso. apply Hc. lia.
        * destruct (decide _) as [[? ?]|]; [|reflexivity]. exfalso. lia. }
  destruct (G (k - 1 - 0)%nat mat Hwf Hb ltac:(intros; apply H1; lia) ltac:(lia)) as [G1 G2].
  split; [exact G1|]. intros i t. rewrite G2.
  decide_cases.
Qed.

End FirstRound.

(** Rows other than row 0 neither see nor change row 0. *)
Lemma mget_row0_ne (r : list Z) (X : matrix) (i t : nat) :
  (1 <= i)%nat -> mget (<[0%nat := r]> X) i t = mget X i t.
Proof.
  intros Hi. unfold mget. rewrite list_lookup_total_insert_ne by lia. reflexivity.
Qed.

Lemma mget_row0_eq (r : list Z) (X : matrix) (t : nat) :
  (0 < length X)%nat -> mget (<[0%nat := r]> X) 0 t = r !!! t.
Proof.
  intros Hl. unfold mget. rewrite list_lookup_total_insert_eq by lia. reflexivity.
Qed.

Lemma mset_row0_ne (r : list Z) (X : matrix) (i t : nat) (v : Z) :
  (1 <= i)%nat -> mset (<[0%nat := r]> X) i t v = <[0%nat := r]> (mset X i t v).
Proof.
  intros Hi. unfold mset. rewrite list_lookup_total_insert_ne by lia.
  apply list_insert_insert_ne. lia.
Qed.

Lemma mset_row0_eq (r : list Z) (X : matrix) (t : nat) (v : Z) :
  (0 < length X)%nat -> mset (<[0%nat := r]> X) 0 t v = <[0%nat := <[t := v]> r]> X.
Proof.
  intros Hl. unfold mset. rewrite list_lookup_total_insert_eq by lia.
  apply list_insert_insert_eq.
Qed.

Lemma mset_frame (X : matrix) (i t : nat) (v : Z) (i0 : nat) :
  i <> i0 -> mset X i t v !!! i0 = X !!! i0.
Proof.
  intros Hi. unfold mset. apply list_lookup_total_insert_ne. exact Hi.
Qed.

Lemma row0_insert_id (X : matrix) : <[0%nat := X !!! 0%nat]> X = X.
Proof.
  destruct X as [|r X]; reflexivity.
Qed.

Lemma fold_left_row0 (f : matrix -> nat -> matrix) (P : nat -> Prop) (l : list nat) :
  (forall r X i, P i -> f (<[0%nat := r]> X) i = <[0%nat := r]> (f X i)) ->
  Forall P l ->
  forall r X, fold_left f l (<[0%nat := r]> X) = <[0%nat := r]> (fold_left f l X).
Proof.
  intros Hf. induction 1 as [|i l Hi Hl IH]; intros r X; [reflexivity|].
  cbn [fold_left]. rewrite Hf by exact Hi. apply IH.
Qed.

Lemma fold_left_frame (f : matrix -> nat -> matrix) (P : nat -> Prop) (l : list nat)
    (i0 : nat) :
  (forall X i, P i -> f X i !!! i0 = X !!! i0) ->
  Forall P l ->
  forall X, fold_left f l X !!! i0 = X !!! i0.
Proof.
  intros Hf. induction 1 as [|i l Hi Hl IH]; intros X; [reflexivity|].
  cbn [fold_left]. rewrite IH. apply Hf. exact Hi.
Qed.

Lemma fold_left_wf (k : nat) (f : matrix -> nat -> matrix) (l : list nat) :
  (forall X i, wf k X -> wf k (f X i)) ->
  forall X, wf k X -> wf k (fold_left f l X).
Proof.
  intros Hf. induction l as [|i l IH]; intros X HX; [exact HX|].
  cbn [fold_left]. apply IH, Hf, HX.
Qed.

Lemma wf_row0 (k : nat) (r : list Z) (X : matrix) :
  wf k X -> length r = S k -> wf k (<[0%nat := r]> X).
Proof.
  intros [Hl Hr] Hlen. split; [rewrite length_insert; exact Hl|].
  intros i Hi. destruct (decide (i = 0%nat)) as [->|Hne].
  - rewrite list_lookup_total_insert_eq by lia. exact Hlen.
  - rewrite list_lookup_total_insert_ne by lia. apply Hr. exact Hi.
Qed.

(** Two well-formed matrices with the same cells are the same list. *)
Lemma matrix_ext (k : nat) (X Y : matrix) :
  wf k X -> wf k Y ->
  (forall i t, (i < k)%nat -> (t <= k)%nat -> mget X i t = mget Y i t) -> X = Y.
Proof.
  intros [HlX HrX] [HlY HrY] Hc.
  apply (list_eq_same_length _ _ k); [exact HlY|exact HlX|].
  intros i rx ry Hi Hx Hy.
  apply list_lookup_total_correct in Hx, Hy. subst rx ry.
  apply (list_eq_same_length _ _ (S k)); [apply HrY; exact Hi|apply HrX; exact Hi|].
  intros t a b Ht Ha Hb.
  apply list_lookup_total_correct in Ha, Hb. subst a b.
  apply (Hc i t); lia.
Qed.

Section RowZero.
Variable k : nat.

Lemma wf_eliminate_row (a : Z) (j i : nat) (X : matrix) :
  wf k X -> wf k (eliminate_row a j i k X).
Proof.
  intros HX. unfold eliminate_row. apply fold_left_wf; [|exact HX].
  intros Y t HY. apply wf_mset. exact HY.
Qed.

Lemma wf_eliminate_column (j : nat) (X : matrix) :
  wf k X -> wf k (eliminate_column j k X).
Proof.
  intros HX. unfold eliminate_column. apply fold_left_wf; [|exact HX].
  intros Y i HY. apply wf_eliminate_row. exact HY.
Qed.

Lemma wf_clear_above (i : nat) (X : matrix) :
  wf k X -> wf k (clear_above i k X).
Proof.
  intros HX. unfold clear_above. apply fold_left_wf; [|exact HX].
  intros Y t HY. apply wf_mset, wf_mset. exact HY.
Qed.

Lemma eliminate_row_row0 (a : Z) (j i : nat) (r : list Z) (X : matrix) :
  (2 <= i)%nat ->
  eliminate_row a j i k (<[0%nat := r]> X) = <[0%nat := r]> (eliminate_row a j i k X).
Proof.
  intros Hi. unfold eliminate_row.
  apply (fold_left_row0 _ (fun _ => True)); [|apply Forall_forall; intros; exact I].
  intros r' Y t _. cbv zeta.
  rewrite !mget_row0_ne by lia. apply mset_row0_ne. lia.
Qed.

Lemma eliminate_column_row0 (j : nat) (r : list Z) (X : matrix) :
  (1 <= j)%nat ->
  eliminate_column j k (<[0%nat := r]> X) = <[0%nat := r]> (eliminate_column j k X).
Proof.
  intros Hj. unfold eliminate_column.
  apply (fold_left_row0 _ (fun i => (2 <= i)%nat)).
  - intros r' Y i Hi. cbv zeta. rewrite !mget_row0_ne by lia.
    apply eliminate_row_row0. exact Hi.
  - apply Forall_forall. intros i Hi. apply elem_of_rev_seq in Hi. lia.
Qed.

Lemma eliminate_row_frame (a : Z) (j i : nat) (X : matrix) (i0 : nat) :
  i <> i0 -> eliminate_row a j i k X !!! i0 = X !!! i0.
Proof.
  intros Hi. unfold eliminate_row.
  apply (fold_left_frame _ (fun _ => True)); [|apply Forall_forall; intros; exact I].
  intros Y t _. cbv zeta. apply mset_frame. exact Hi.
Qed.

Lemma eliminate_column_frame (j : nat) (X : matrix) :
  eliminate_column j k X !!! 0%nat = X !!! 0%nat.
Proof.
  unfold eliminate_column.
  apply (fold_left_frame _ (fun i => (1 <= i)%nat)).
  - intros Y i Hi. cbv zeta. apply eliminate_row_frame. lia.
  - apply Forall_forall. intros i Hi. apply elem_of_rev_seq in Hi. lia.
Qed.

Lemma echelon_frame (X : matrix) : echelon k X !!! 0%nat = X !!! 0%nat.
Proof.
  unfold echelon.
  apply (fold_left_frame _ (fun _ => True)); [|apply Forall_forall; intros; exact I].
  intros Y j _. apply eliminate_column_frame.
Qed.

(** The first phase after round 0 leaves row 0 alone. *)
Lemma echelon_after_round0 (X : matrix) :
  (2 <= k)%nat ->
  echelon k X =
    fold_left (fun mat j => eliminate_column j k mat) (seq 1 (k - 2))
              (eliminate_column 0 k X).
Proof.
  intros Hk. unfold echelon.
  replace (k - 1)%nat with (S (k - 2)) by lia. reflexivity.
Qed.

Lemma later_rounds_row0 (r : list Z) (X : matrix) (n : nat) :
  fold_left (fun mat j => eliminate_column j k mat) (seq 1 n) (<[0%nat := r]> X)
  = <[0%nat := r]> (fold_left (fun mat j => eliminate_column j k mat) (seq 1 n) X).
Proof.
  apply (fold_left_row0 _ (fun j => (1 <= j)%nat)).
  - intros r' Y j Hj. apply eliminate_column_row0. exact Hj.
  - apply Forall_forall. intros j Hj. apply elem_of_seq in Hj. lia.
Qed.

(** One iteration of the second phase, seen from row 0: the other rows
    evolve on their own, and row 0 is updated with a multiplier [v] that
    was reduced modulo 251. *)
Lemma reduce_row_row0 (X : matrix) (i : nat) :
  wf k X -> (1 <= i)%nat -> (i < k)%nat ->
  exists (v : Z) (M : matrix),
    - 250 <= v <= 250 /\ wf k M /\
    forall r, reduce_row i k (<[0%nat := r]> X) = <[0%nat := update_row0 k v i r]> M.
Proof.
  intros HX Hi1 Hik.
  set (a := int_rem (int_mul (mget X i k) (modinv_at (mget X i i))) PRIME).
  set (X1 := mset X i k a).
  set (X2 := mset X1 i i (int_rem (int_mul (mget X1 i i) (modinv_at (mget X1 i i))) PRIME)).
  set (step := fun (mat : matrix) (t : nat) =>
         let temp := int_sub (mget mat t k)
                       (int_rem (int_mul (mget mat i k) (mget mat t i)) PRIME) in
         mset (mset mat t k (c_mod temp PRIME)) t i 0).
  set (M := fold_left step (rev (seq 1 (i - 1))) X2).
  assert (HX1 : wf k X1) by (apply wf_mset; exact HX).
  assert (HX2 : wf k X2) by (apply wf_mset; exact HX1).
  assert (HM : wf k M).
  { unfold M. apply fold_left_wf; [|exact HX2].
    intros Y t HY. unfold step. cbv zeta. apply wf_mset, wf_mset. exact HY. }
  assert (Hv : mget M i k = a).
  { unfold mget, M.
    rewrite (fold_left_frame step (fun t => (t < i)%nat)).
    - fold (mget X2 i k). unfold X2.
      rewrite (mget_mset k) by (try exact HX1; lia).
      destruct (decide _) as [[_ ?]|_]; [lia|].
      unfold X1. rewrite (mget_mset k) by (try exact HX; lia).
      destruct (decide _) as [_|Hc]; [reflexivity|]. exfalso. apply Hc. split; reflexivity.
    - intros Y t Ht. unfold step. cbv zeta. rewrite !mset_frame by lia. reflexivity.
    - apply Forall_forall. intros t Ht. apply elem_of_rev_seq in Ht. lia. }
  exists a, M. split; [|split; [exact HM|]].
  - unfold a, int_rem, PRIME.
    pose proof (Z.rem_bound_abs (int_mul (mget X i k) (modinv_at (mget X i i))) 251
                  ltac:(lia)). lia.
  - intros r. unfold reduce_row. cbv zeta.
    rewrite !mget_row0_ne by lia. fold a.
    rewrite (mset_row0_ne r X i k a) by lia. fold X1.
    rewrite !mget_row0_ne by lia.
    rewrite mset_row0_ne by lia. fold X2.
    unfold clear_above. fold step.
    replace (seq 0 i) with (0%nat :: seq 1 (i - 1))
      by (replace i with (S (i - 1)) at 2 by lia; reflexivity).
    cbn [rev]. rewrite fold_left_app. cbn [fold_left].
    rewrite (fold_left_row0 step (fun t => (1 <= t)%nat)).
    + fold M. unfold step at 1. cbv zeta.
      assert (HlM : (0 < length M)%nat) by (destruct HM as [-> _]; lia).
      rewrite !mget_row0_eq by exact HlM.
      rewrite mget_row0_ne by lia. rewrite Hv.
      rewrite mset_row0_eq by exact HlM.
      rewrite mset_row0_eq by exact HlM.
      reflexivity.
    + intros r' Y t Ht. unfold step. cbv zeta.
      rewrite !mget_row0_ne by lia.
      rewrite mset_row0_ne by lia. apply mset_row0_ne. lia.
    + apply Forall_forall. intros t Ht. apply elem_of_rev_seq in Ht. lia.
Qed.

End RowZero.

(** The update of [mat[0][k]] in the second phase when [mat[0][i]] was not
    reduced: no [int] overflows as long as [250 * w] fits. *)
Lemma row0_cell (u v w : Z) :
  0 <= u <= 250 -> - 250 <= v <= 250 -> 0 <= w -> 250 * w <= 2147483647 ->
  c_mod (int_sub u (int_rem (int_mul v w) PRIME)) PRIME = (u - v * w) mod PRIME.
Proof.
  intros Hu Hv Hw Hfit. unfold int_mul.
  assert (Hp : - 2147483647 <= v * w <= 2147483647) by nia.
  rewrite to_int32_small by lia.
  unfold int_rem, int_sub.
  pose proof (Z.rem_bound_abs (v * w) PRIME ltac:(unfold PRIME; lia)) as Hr.
  unfold PRIME in Hr.
  rewrite to_int32_small by (unfold PRIME; lia).
  rewrite c_mod_floor by (unfold PRIME; lia).
  pose proof (Z.quot_rem' (v * w) PRIME) as E.
  replace (u - Z.rem (v * w) PRIME) with (u - v * w + (v * w ÷ PRIME) * PRIME) by lia.
  apply Z.mod_add. unfold PRIME. lia.
Qed.

Lemma sub_mul_eqp (u v w w' : Z) :
  w ==p w' -> (u - v * w) mod PRIME = (u - v * w') mod PRIME.
Proof.
  intros E. unfold eqp in E.
  rewrite (Zminus_mod u (v * w)), (Zmult_mod v w), E, <- Zmult_mod, <- Zminus_mod.
  reflexivity.
Qed.

Section RowZeroArithmetic.
Variable k : nat.
Variable B : Z.
Hypothesis B_fits : 0 <= B /\ 250 * B <= 2147483647.

Lemma update_row0_related (v : Z) (i : nat) (r r' : list Z) :
  - 250 <= v <= 250 -> (i < k)%nat ->
  row_related k B r r' ->
  row_related k B (update_row0 k v i r) (update_row0 k v i r').
Proof.
  intros Hv Hi (L & L' & Ek & Rk & Hc).
  destruct (Hc i Hi) as (Ri & Ri' & Ei).
  unfold update_row0. cbv zeta.
  rewrite row0_cell by lia.
  rewrite <- Ek. rewrite (row0_cell (r !!! k) v (r' !!! i)) by lia.
  rewrite (sub_mul_eqp (r !!! k) v (r !!! i) (r' !!! i) Ei).
  set (c := (r !!! k - v * r' !!! i) mod PRIME).
  assert (Hcr : 0 <= c <= 250) by apply mod_range.
  split; [rewrite !length_insert; exact L|].
  split; [rewrite !length_insert; exact L'|].
  rewrite !(list_lookup_total_insert_ne _ i k) by lia.
  rewrite !list_lookup_total_insert_eq by lia.
  split; [reflexivity|]. split; [exact Hcr|].
  intros t Ht. destruct (decide (t = i)) as [->|Hne].
  - rewrite !list_lookup_total_insert_eq by (rewrite length_insert; lia).
    split; [lia|]. split; [lia|reflexivity].
  - rewrite !(list_lookup_total_insert_ne _ i t) by lia.
    rewrite !(list_lookup_total_insert_ne _ k t) by lia.
    apply Hc. exact Ht.
Qed.

(** The second phase run on two matrices that differ in row 0 only, and
    there only up to congruence. *)
Lemma reduce_fold_related (l : list nat) :
  Forall (fun i => (1 <= i < k)%nat) l ->
  forall (X : matrix) (r r' : list Z),
    wf k X -> row_related k B r r' ->
    exists (Xf : matrix) (rf rf' : list Z),
      fold_left (fun mat i => reduce_row i k mat) l (<[0%nat := r]> X) = <[0%nat := rf]> Xf /\
      fold_left (fun mat i => reduce_row i k mat) l (<[0%nat := r']> X) = <[0%nat := rf']> Xf /\
      wf k Xf /\ row_related k B rf rf'.
Proof.
  induction 1 as [|i l Hi Hl IH]; intros X r r' HX Hr.
  - exists X, r, r'. cbn [fold_left].
    split; [reflexivity|]. split; [reflexivity|]. split; assumption.
  - cbn [fold_left].
    destruct (reduce_row_row0 k X i HX ltac:(lia) ltac:(lia)) as (v & M & Hv & HM & E).
    rewrite !E.
    apply (IH M); [exact HM|].
    apply update_row0_related; [exact Hv|lia|exact Hr].
Qed.

End RowZeroArithmetic.

Lemma mget_power_matrix (k : nat) (xs ys : list Z) (i t : nat) :
  (i < k)%nat -> (t <= k)%nat ->
  mget (power_matrix k xs ys) i t =
    if decide (t = k) then ys !!! i else (xs !!! i) ^ Z.of_nat t.
Proof.
  intros Hi Ht. unfold mget, power_matrix.
  rewrite lookup_total_fmap_seq by exact Hi.
  destruct (decide (t = k)) as [->|Hne].
  - rewrite lookup_total_app_r by (rewrite length_fmap, length_seq; lia).
    rewrite length_fmap, length_seq, Nat.sub_diag. reflexivity.
  - rewrite lookup_total_app_l by (rewrite length_fmap, length_seq; lia).
    rewrite lookup_total_fmap_seq by lia. reflexivity.
Qed.

Lemma wf_power_matrix (k : nat) (xs ys : list Z) : wf k (power_matrix k xs ys).
Proof.
  unfold wf, power_matrix. split; [rewrite length_fmap, length_seq; reflexivity|].
  intros i Hi. rewrite lookup_total_fmap_seq by exact Hi.
  rewrite length_app, length_fmap, length_seq. cbn. lia.
Qed.

Lemma wf_echelon (k : nat) (X : matrix) : wf k X -> wf k (echelon k X).
Proof.
  intros HX. unfold echelon. apply fold_left_wf; [|exact HX].
  intros Y j HY. apply wf_eliminate_column. exact HY.
Qed.

Section Unreduced.
Variable k : nat.
Variables xs ys : list Z.
Variable B : Z.
Hypothesis k_ge_2 : (2 <= k)%nat.
Hypothesis B_fits : 250 <= B /\ 250 * B <= 2147483647.
Hypothesis xs_powers : forall j, (j < k)%nat -> 1 <= xs !!! j /\ (xs !!! j) ^ (Z.of_nat k - 1) <= B.
Hypothesis ys_range : forall j, (j < k)%nat -> 0 <= ys !!! j <= 250.

Lemma power_matrix_wide : wide k B (mget (power_matrix k xs ys)).
Proof.
  intros i t Hi Ht. rewrite mget_power_matrix by lia.
  destruct (decide (t = k)) as [->|Hne].
  - pose proof (ys_range i Hi). lia.
  - destruct (xs_powers i Hi) as [Hx Hp].
    split; [apply Z.pow_nonneg; lia|].
    etransitivity; [|exact Hp]. apply Z.pow_le_mono_r; lia.
Qed.

Lemma vandermonde_bounded : bounded k (mget (vandermonde_matrix k xs ys)).
Proof.
  intros i t Hi Ht. rewrite mget_vandermonde by lia.
  destruct (decide _); [apply ys_range; lia|apply mod_range].
Qed.

(** Round 0 of the first phase gives the same rows on the powers as on
    the reduced powers, and leaves row 0 as it was. *)
Lemma eliminate_column_0_power_matrix :
  eliminate_column 0 k (power_matrix k xs ys)
  = <[0%nat := power_matrix k xs ys !!! 0%nat]>
      (eliminate_column 0 k (vandermonde_matrix k xs ys)).
Proof.
  set (U := power_matrix k xs ys). set (R := vandermonde_matrix k xs ys).
  assert (HU : wf k U) by apply wf_power_matrix.
  assert (HR : wf k R) by apply wf_vandermonde.
  destruct (eliminate_column_0_wide k B ltac:(lia) U HU power_matrix_wide) as [HwU HgU].
  { intros i Hi. unfold U. rewrite mget_power_matrix by lia.
    destruct (decide _); [lia|]. reflexivity. }
  { lia. }
  destruct (eliminate_column_spec k R 0 HR vandermonde_bounded ltac:(lia)) as [HwR HgR].
  apply (matrix_ext k); [exact HwU| |].
  { apply wf_row0; [exact HwR|]. apply HU. lia. }
  intros i t Hi Ht. rewrite HgU.
  destruct (decide (i = 0%nat)) as [->|Hne].
  - destruct (decide _) as [[? _]|_]; [lia|].
    rewrite mget_row0_eq by (destruct HwR as [-> _]; lia). reflexivity.
  - destruct (decide _) as [_|Hc]; [|exfalso; apply Hc; lia].
    rewrite mget_row0_ne by lia. rewrite HgR. unfold pass.
    destruct (Nat.ltb_spec 0 i); [|lia].
    destruct (Nat.ltb_spec i k); [|lia].
    destruct (Nat.leb_spec 0 t); [|lia].
    destruct (Nat.leb_spec t k); [|lia].
    cbn [andb].
    assert (Hone : forall i', (i' < k)%nat -> mget R i' 0 = 1).
    { intros i' Hi'. unfold R. rewrite mget_vandermonde by lia.
      destruct (decide _); [lia|]. reflexivity. }
    rewrite (Hone i) by lia. rewrite (Hone (i - 1)%nat) by lia.
    rewrite modinv_at_1, !Z.mul_1_r.
    unfold U, R. rewrite !mget_power_matrix, !mget_vandermonde by lia.
    destruct (decide (t = k)); [reflexivity|].
    rewrite Z.mod_mod by (unfold PRIME; lia).
    rewrite Zminus_mod_idemp_l. reflexivity.
Qed.

(** [findcoefficients] leaves the same last column whether it is given the
    powers of the sample points or their residues. *)
Lemma findcoefficients_power_matrix (i : nat) :
  (i < k)%nat ->
  mget (findcoefficients (power_matrix k xs ys) k) i k
  = mget (findcoefficients (vandermonde_matrix k xs ys) k) i k.
Proof.
  intros Hi. unfold findcoefficients.
  set (U := power_matrix k xs ys). set (R := vandermonde_matrix k xs ys).
  set (N := echelon k R).
  assert (HN : wf k N) by (apply wf_echelon, wf_vandermonde).
  assert (EU : echelon k U = <[0%nat := U !!! 0%nat]> N).
  { rewrite echelon_after_round0 by exact k_ge_2.
    unfold U. rewrite eliminate_column_0_power_matrix.
    rewrite later_rounds_row0. fold R.
    unfold N. rewrite (echelon_after_round0 k R) by exact k_ge_2. reflexivity. }
  assert (ER : N = <[0%nat := R !!! 0%nat]> N).
  { rewrite <- (echelon_frame k R). fold N. symmetry. apply row0_insert_id. }
  rewrite EU. rewrite ER at 2.
  assert (Hrel : row_related k B (U !!! 0%nat) (R !!! 0%nat)).
  { split; [apply (wf_power_matrix k xs ys); lia|].
    split; [apply (wf_vandermonde k xs ys); lia|].
    fold (mget U 0 k) (mget R 0 k).
    unfold U, R. rewrite mget_power_matrix, mget_vandermonde by lia.
    destruct (decide (k = k)); [|lia].
    split; [reflexivity|]. split; [apply ys_range; lia|].
    intros t Ht.
    fold (mget (power_matrix k xs ys) 0 t) (mget (vandermonde_matrix k xs ys) 0 t).
    rewrite mget_power_matrix, mget_vandermonde by lia.
    destruct (decide (t = k)); [lia|].
    pose proof (power_matrix_wide 0%nat t ltac:(lia) ltac:(lia)) as W.
    rewrite mget_power_matrix in W by lia.
    destruct (decide (t = k)); [lia|].
    split; [exact W|]. split.
    - pose proof (mod_range ((xs !!! 0%nat) ^ Z.of_nat t)). lia.
    - unfold eqp. rewrite Z.mod_mod by (unfold PRIME; lia). reflexivity. }
  unfold reduce.
  destruct (reduce_fold_related k B ltac:(lia) (rev (seq 1 (k - 1)))
              ltac:(apply Forall_forall; intros j Hj; apply elem_of_rev_seq in Hj; lia)
              N _ _ HN Hrel) as (Xf & rf & rf' & E1 & E2 & HXf & Hf).
  rewrite E1, E2.
  destruct (decide (i = 0%nat)) as [->|Hne].
  - rewrite !mget_row0_eq by (destruct HXf as [-> _]; lia).
    apply Hf.
  - rewrite !mget_row0_ne by lia. reflexivity.
Qed.

End Unreduced.

(** Interpolation: if the [y_j] are the values at distinct points [x_j] of
    a polynomial with coefficients in [0, 250], [findcoefficients] run on
    the powers of the [x_j] returns those coefficients. *)
Lemma findcoefficients_recovers (k : nat) (xs ys : list Z) (a : nat -> Z) :
  (2 <= k)%nat ->
  (forall j j', (j < k)%nat -> (j' < k)%nat -> j <> j' -> xs !!! j <> xs !!! j') ->
  (forall j, (j < k)%nat ->
     1 <= xs !!! j <= 250 /\ 250 * (xs !!! j) ^ (Z.of_nat k - 1) <= 2147483647) ->
  (forall t, (t < k)%nat -> 0 <= a t <= 250) ->
  (forall j, (j < k)%nat ->
     ys !!! j = zsum k (fun t => a t * (xs !!! j) ^ Z.of_nat t) mod 251) ->
  forall t, (t < k)%nat -> mget (findcoefficients (power_matrix k xs ys) k) t k = a t.
Proof.
  intros Hk Hnd Hxs Ha Hys t Ht.
  assert (Hyr : forall j, (j < k)%nat -> 0 <= ys !!! j <= 250).
  { intros j Hj. rewrite (Hys j Hj). apply mod_range. }
  rewrite (findcoefficients_power_matrix k xs ys 8589934 Hk ltac:(lia)); try assumption.
  2:{ intros j Hj. destruct (Hxs j Hj). lia. }
  set (x := fun i => xs !!! i).
  assert (Hdist : forall i i', (i < k)%nat -> (i' < k)%nat -> i <> i' -> ~ x i - x i' ==p 0).
  { intros i i' Hi Hi' Hne H.
    pose proof (Hnd i i' Hi Hi' Hne) as Hd. fold (x i) (x i') in Hd.
    pose proof (proj1 (Hxs i Hi)) as R1. pose proof (proj1 (Hxs i' Hi')) as R2.
    fold (x i) in R1. fold (x i') in R2.
    unfold eqp, PRIME in H. change (0 mod 251) with 0 in H.
    destruct (Z.ltb_spec (x i') (x i)).
    - rewrite Z.mod_small in H by lia. lia.
    - assert (E : (x i - x i') mod 251 = x i - x i' + 251).
      { symmetry. apply Z.mod_unique with (-1); lia. }
      lia. }
  set (M := vandermonde_matrix k xs ys).
  assert (H0 : InvE k x 0 (mget M)).
  { split.
    - intros i t' Hi Ht'. unfold M. rewrite mget_vandermonde by lia.
      destruct (decide _); [apply Hyr; lia|apply mod_range].
    - intros i t' Hi Ht'. unfold M. rewrite mget_vandermonde by lia.
      destruct (decide _); [lia|]. rewrite Nat.min_r by lia.
      unfold Hf. cbn [Nat.ltb Nat.leb Pdiff]. unfold window.
      rewrite Nat.sub_0_r. cbn [seq map]. rewrite Nat.sub_0_r, hom_single, eqp_mod.
      apply eqp_eq. unfold x. ring. }
  destruct (findcoefficients_spec k x Hdist M (wf_vandermonde k xs ys) H0 ltac:(lia))
    as [Hrange Hsol].
  symmetry. apply eqp_small; [apply Ha; exact Ht|apply Hrange; exact Ht|].
  revert t Ht. apply Hsol. intros j Hj.
  unfold sat. unfold M at 2. rewrite mget_vandermonde by lia.
  destruct (decide (k = k)); [|lia].
  assert (E : zsum k (fun t => mget M j t * a t)
              ==p zsum k (fun i => a i * (xs !!! j) ^ Z.of_nat i)).
  { apply zsum_eqp. intros t Ht. unfold M. rewrite mget_vandermonde by lia.
    destruct (decide _); [lia|]. rewrite eqp_mod. apply eqp_eq. ring. }
  rewrite E. unfold eqp. change PRIME with 251.
  rewrite (Hys j Hj). rewrite Z.mod_mod by lia. reflexivity.
Qed.

(** ** Sharing *)

(** The call [generatepixel(&imgpixels[j*k], k-1, i+1)] of [formshadows]. *)
Lemma generatepixel_block (px : list Z) (k n : Z) (j i : nat) :
  1 <= k <= 65535 -> 0 <= n <= 65535 ->
  255 * k * n ^ (k - 1) < 2 ^ 53 ->
  Forall (fun p => 0 <= p <= 255) px ->
  (i < Z.to_nat n)%nat ->
  generatepixel (drop (j * Z.to_nat k) px) (to_uint16 (k - 1)) (to_uint16 (Z.of_nat i + 1))
  = Some (section_value px (Z.to_nat k) j (Z.of_nat i + 1)).
Proof.
  intros Hk Hn Hfit Hpx Hi.
  unfold to_uint16. rewrite !Z.mod_small by lia.
  set (coeff := drop (j * Z.to_nat k) px).
  set (value := Z.of_nat i + 1).
  assert (Hc : forall t, (t <= Z.to_nat (k - 1))%nat -> 0 <= coeff !!! t <= 255).
  { intros t _. unfold coeff. rewrite lookup_total_drop.
    destruct (decide (j * Z.to_nat k + t < length px)%nat) as [Hlt|Hge].
    - rewrite Forall_lookup in Hpx. apply (Hpx (j * Z.to_nat k + t)%nat).
      apply list_lookup_lookup_total_lt. exact Hlt.
    - rewrite list_lookup_total_alt, lookup_ge_None_2 by lia. cbn. lia. }
  assert (Hv : 255 * (k - 1 + 1) * value ^ (k - 1) < 2 ^ 53).
  { replace (k - 1 + 1) with k by lia.
    assert (value ^ (k - 1) <= n ^ (k - 1)) by (apply Z.pow_le_mono_l; lia).
    assert (0 <= value ^ (k - 1)) by (apply Z.pow_nonneg; lia).
    assert (255 * k * value ^ (k - 1) <= 255 * k * n ^ (k - 1))
      by (apply Z.mul_le_mono_nonneg_l; lia).
    lia. }
  unfold generatepixel.
  rewrite (generatepixel_loop coeff (k - 1) value ltac:(lia) ltac:(lia) Hc Hv
             (Z.to_nat (k - 1) + 1)) by lia.
  cbn [mbind option_bind]. f_equal.
  replace (Z.to_nat (k - 1) + 1)%nat with (Z.to_nat k) by lia.
  unfold section_value.
  rewrite (zsum_ext _ (fun t => coeff !!! t * value ^ Z.of_nat t)
             (fun t => px !!! (j * Z.to_nat k + t)%nat * value ^ Z.of_nat t))
    by (intros t _; unfold coeff; rewrite lookup_total_drop; reflexivity).
  set (s := zsum _ _).
  assert (Hs : 0 <= s).
  { apply (zsum_bound _ _ (255 * value ^ (k - 1))).
    intros t Ht.
    pose proof (term_bound coeff (k - 1) value ltac:(lia) ltac:(lia) Hc t ltac:(lia)) as [_ Hb].
    unfold coeff in Hb. rewrite lookup_total_drop in Hb. exact Hb. }
  unfold int_rem, PRIME, to_uint8. rewrite Z.rem_mod_nonneg by lia.
  apply Z.mod_small. pose proof (Z.mod_pos_bound s 251 ltac:(lia)). lia.
Qed.

Lemma partly_formed_weaken (base : nat -> Bitmap) (val : nat -> nat -> Z) (n len : nat)
    (w w' : nat -> nat -> bool) (S : list Bitmap) :
  (forall i j, (i < n)%nat -> w' i j = true -> w i j = true) ->
  partly_formed base val n len w S -> partly_formed base val n len w' S.
Proof.
  intros Hw [Hl HS]. split; [exact Hl|].
  intros i Hi. destruct (HS i Hi) as (px & E & Hlen & Hpx).
  exists px. split; [exact E|]. split; [exact Hlen|].
  intros j Hj Hwj. apply Hpx; [exact Hj|]. apply Hw; assumption.
Qed.

Section FormShadows.
Variable base : nat -> Bitmap.
Variable val : nat -> nat -> Z.
Variable gen : nat -> nat -> option Z.
Variables n len : nat.
Hypothesis gen_val : forall j i, (j < len)%nat -> (i < n)%nat -> gen j i = Some (val i j).

(** The inner loop of [formshadows] for section [j]. *)
Lemma formshadows_inner (j : nat) (sh : list Bitmap) (c : nat) :
  (j < len)%nat -> (c <= n)%nat ->
  partly_formed base val n len (fun i j' => (j' <? j)%nat) sh ->
  exists S',
    fold_left
      (fun acc i =>
         shadows ← acc;
         v ← gen j i;
         Some (set_shadow_pixel shadows i j v))
      (seq 0 c) (Some sh) = Some S' /\
    partly_formed base val n len
      (fun i j' => (j' <? j)%nat || ((j' =? j)%nat && (i <? c)%nat)) S'.
Proof.
  intros Hj Hc HS. induction c as [|c IH].
  - exists sh. split; [reflexivity|].
    eapply partly_formed_weaken; [|exact HS].
    intros i j' _ H. rewrite andb_false_r, orb_false_r in H. exact H.
  - destruct (IH ltac:(lia)) as (S1 & E1 & [Hl1 H1]).
    rewrite seq_S, fold_left_app, E1. cbn [fold_left Nat.add mbind option_bind].
    rewrite (gen_val j c Hj ltac:(lia)). cbn [mbind option_bind].
    eexists. split; [reflexivity|].
    unfold set_shadow_pixel. cbv zeta.
    split; [rewrite length_insert; exact Hl1|].
    intros i Hi. destruct (decide (i = c)) as [->|Hne].
    + rewrite list_lookup_total_insert_eq by lia.
      destruct (H1 c Hi) as (px & E & Hlen & Hpx).
      rewrite E. cbn [imgpixels set_imgpixels].
      exists (<[j := val c j]> px).
      split; [reflexivity|]. split; [rewrite length_insert; exact Hlen|].
      intros j' Hj' Hw. rewrite list_lookup_total_insert.
      destruct (decide (j = j' /\ (j < length px)%nat)) as [[<- _]|Hn]; [reflexivity|].
      apply Hpx; [exact Hj'|].
      destruct (Nat.ltb_spec j' j) as [|Hge]; [reflexivity|].
      destruct (Nat.eqb_spec j' j) as [->|]; [exfalso; apply Hn; lia|].
      cbn in Hw. discriminate.
    + rewrite list_lookup_total_insert_ne by lia.
      destruct (H1 i Hi) as (px & E & Hlen & Hpx).
      exists px. split; [exact E|]. split; [exact Hlen|].
      intros j' Hj' Hw. apply Hpx; [exact Hj'|].
      destruct (Nat.ltb_spec j' j) as [|Hge]; [reflexivity|].
      destruct (Nat.eqb_spec j' j) as [->|]; [|cbn in Hw; discriminate].
      cbn [orb andb] in Hw |- *.
      destruct (Nat.ltb_spec i (S c)); [|discriminate].
      destruct (Nat.ltb_spec i c); [reflexivity|lia].
Qed.

(** The outer loop of [formshadows]. *)
Lemma formshadows_outer (sh : list Bitmap) (m : nat) :
  (m <= len)%nat ->
  partly_formed base val n len (fun _ _ => false) sh ->
  exists S',
    fold_left
      (fun acc j =>
         fold_left
           (fun acc i =>
              shadows ← acc;
              v ← gen j i;
              Some (set_shadow_pixel shadows i j v))
           (seq 0 n) acc)
      (seq 0 m) (Some sh) = Some S' /\
    partly_formed base val n len (fun i j' => (j' <? m)%nat) S'.
Proof.
  intros Hm HS. induction m as [|m IH].
  - exists sh. split; [reflexivity|].
    eapply partly_formed_weaken; [|exact HS].
    intros i j' _ H. cbn in H. discriminate.
  - destruct (IH ltac:(lia)) as (S1 & E1 & H1).
    rewrite seq_S, fold_left_app, E1. cbn [fold_left Nat.add].
    destruct (formshadows_inner m S1 n ltac:(lia) ltac:(lia) H1) as (S2 & E2 & H2).
    exists S2. split; [exact E2|].
    eapply partly_formed_weaken; [|exact H2].
    intros i j' Hi H. cbn beta.
    destruct (Nat.ltb_spec j' m) as [|Hge]; [reflexivity|].
    destruct (Nat.eqb_spec j' m) as [->|].
    + destruct (Nat.ltb_spec i n); [reflexivity|lia].
    + destruct (Nat.ltb_spec j' (S m)); [lia|discriminate].
Qed.

End FormShadows.

Lemma div_ceil_exact (P k : Z) : 0 < k -> P mod k = 0 -> (P + k - 1) / k = P / k.
Proof.
  intros Hk Hm. symmetry. apply (Z.div_unique _ _ _ (k - 1)); [lia|].
  pose proof (Z.div_mod P k ltac:(lia)). lia.
Qed.

(** The outcome of [formshadows] when the secret is made of whole sections
    and the dimensions found hold one byte per section. *)
Lemma formshadows_sections (bp : Bitmap) (k n seed width0 height0 width height : Z) :
  1 <= k <= 65535 -> 0 <= n <= 65535 ->
  255 * k * n ^ (k - 1) < 2 ^ 53 ->
  Forall (fun p => 0 <= p <= 255) (imgpixels bp) ->
  bmpimagesize bp mod k = 0 ->
  findclosestpair (bmpimagesize bp / k) width0 height0 = (width, height) ->
  to_uint32 (width * height) = bmpimagesize bp / k ->
  formshadows bp k n seed width0 height0
  = Some (section_shadow (imgpixels bp) (Z.to_nat k) width height seed
            (Z.to_nat (bmpimagesize bp / k)) <$> seq 0 (Z.to_nat n)).
Proof.
  intros Hk Hn Hfit Hpx Hdiv Hpair Hwh.
  unfold formshadows. cbv zeta. rewrite Hpair.
  rewrite div_ceil_exact by (try exact Hdiv; lia).
  set (N := Z.to_nat n). set (len := Z.to_nat (bmpimagesize bp / k)).
  set (base := fun i : nat => newshadow width height seed (Z.of_nat i + 1)).
  set (val := fun i j : nat => section_value (imgpixels bp) (Z.to_nat k) j (Z.of_nat i + 1)).
  set (gen := fun j i : nat =>
         generatepixel (drop (j * Z.to_nat k) (imgpixels bp)) (to_uint16 (k - 1))
           (to_uint16 (Z.of_nat i + 1))).
  set (S0 := map (fun i : nat => newshadow width height seed (to_uint16 (Z.of_nat i + 1)))
               (seq 0 N)).
  assert (H0 : partly_formed base val N len (fun _ _ => false) S0).
  { split; [unfold S0; rewrite length_map, length_seq; reflexivity|].
    intros i Hi. exists (imgpixels (base i)).
    split; [|split].
    - unfold S0. change (map ?f ?l) with (f <$> l).
      rewrite lookup_total_fmap_seq by exact Hi.
      unfold to_uint16. rewrite Z.mod_small by (unfold N in Hi; lia). reflexivity.
    - unfold base, newshadow, newbitmaphelper. cbn [imgpixels].
      rewrite length_replicate, Hwh. reflexivity.
    - intros j _ H. discriminate. }
  assert (Hgen : forall j i, (j < len)%nat -> (i < N)%nat -> gen j i = Some (val i j)).
  { intros j i _ Hi. unfold gen, val. apply (generatepixel_block _ k n); assumption. }
  destruct (formshadows_outer base val gen N len Hgen S0 len ltac:(lia) H0)
    as (S' & E & [Hl HS]).
  unfold gen in E. rewrite E. f_equal.
  apply (list_eq_same_length _ _ N); [rewrite length_fmap, length_seq; reflexivity|exact Hl|].
  intros i a b Hi Ha Hb.
  apply list_lookup_total_correct in Ha, Hb. subst a b.
  rewrite lookup_total_fmap_seq by exact Hi.
  destruct (HS i Hi) as (px & -> & Hlen & Hval).
  unfold section_shadow. fold (base i). f_equal.
  apply (list_eq_same_length _ _ len); [rewrite length_fmap, length_seq; reflexivity|exact Hlen|].
  intros j a b Hj Ha Hb.
  apply list_lookup_total_correct in Ha, Hb. subst a b.
  rewrite lookup_total_fmap_seq by exact Hj.
  apply Hval; [exact Hj|]. apply Nat.ltb_lt. exact Hj.
Qed.

(** ** Recovery *)

(** The powers that [revealsecret] computes by repeated multiplication. *)
Lemma power_loop (x : Z) (n : nat) :
  0 <= x -> x ^ (Z.of_nat n + 1) <= 2147483647 ->
  fold_left (fun '(row, value) (_ : nat) => (row ++ [value], int_mul value x))
            (seq 1 n) ([], x)
  = ((fun t => x ^ (Z.of_nat t + 1)) <$> seq 0 n, x ^ (Z.of_nat n + 1)).
Proof.
  intros Hx. induction n as [|n IH]; intros Hfit.
  - cbn. rewrite Z.pow_1_r. reflexivity.
  - assert (Hmono : x ^ (Z.of_nat n + 1) <= x ^ (Z.of_nat (S n) + 1)).
    { destruct (Z.eq_dec x 0) as [->|Hne].
      - rewrite !Z.pow_0_l by lia. lia.
      - apply Z.pow_le_mono_r; lia. }
    rewrite seq_S, fold_left_app, IH by lia. cbn [fold_left].
    rewrite (seq_S n 0), fmap_app. cbn [fmap list_fmap Nat.add].
    f_equal. unfold int_mul.
    replace (Z.of_nat (S n) + 1) with (Z.succ (Z.of_nat n + 1)) in * by lia.
    rewrite Z.pow_succ_r in * by lia.
    assert (0 <= x ^ (Z.of_nat n + 1)) by (apply Z.pow_nonneg; lia).
    rewrite to_int32_small by nia. ring.
Qed.

Lemma vandermonde_row_powers (sp : Bitmap) (k i : nat) :
  (1 <= k)%nat ->
  0 <= bmp_unused2 (bmpheader sp) ->
  bmp_unused2 (bmpheader sp) ^ Z.of_nat k <= 2147483647 ->
  vandermonde_row sp k i
  = ((fun t => bmp_unused2 (bmpheader sp) ^ Z.of_nat t) <$> seq 0 k) ++ [imgpixels sp !!! i].
Proof.
  intros Hk Hx Hfit. unfold vandermonde_row. cbv zeta.
  set (x := bmp_unused2 (bmpheader sp)) in *.
  rewrite power_loop by (try exact Hx; replace (Z.of_nat (k - 1) + 1) with (Z.of_nat k) by lia;
                         exact Hfit).
  cbn [fst].
  replace k with (S (k - 1)) at 2 by lia.
  cbn [seq fmap list_fmap]. rewrite <- seq_shift.
  change (list_fmap nat Z ?f ?l) with (f <$> l).
  rewrite <- list_fmap_compose. cbn [app].
  f_equal. f_equal. apply list_fmap_ext. intros _ t _. cbn.
  f_equal. lia.
Qed.

Lemma fold_insert_lookup (f : nat -> Z) (a c : nat) (l : list Z) :
  let res := fold_left (fun px j => <[j := f j]> px) (seq a c) l in
  length res = length l /\
  forall idx, res !!! idx =
    if decide ((a <= idx < a + c)%nat /\ (idx < length l)%nat) then f idx else l !!! idx.
Proof.
  cbv zeta. induction c as [|c IH].
  - split; [reflexivity|]. intros idx. destruct (decide _) as [[? _]|]; [lia|reflexivity].
  - rewrite seq_S, fold_left_app. cbn [fold_left]. destruct IH as [IHl IHg].
    split; [rewrite length_insert; exact IHl|].
    intros idx. rewrite list_lookup_total_insert, IHl, IHg.
    destruct (decide ((a + c)%nat = idx /\ _)) as [[<- Hlt]|Hne].
    + destruct (decide _) as [|Hc]; [reflexivity|]. exfalso. apply Hc. lia.
    + decide_cases.
Qed.

Section RevealLoop.
Variable secret : list Z.
Variable k len : nat.
Variable shadows : list Bitmap.
Hypothesis k_pos : (1 <= k)%nat.
Hypothesis secret_bytes : forall idx, 0 <= secret !!! idx < 256.
Hypothesis solved : forall i t, (i < len)%nat -> (t < k)%nat ->
  mget (findcoefficients (map (fun j => vandermonde_row (shadows !!! j) k i) (seq 0 k)) k) t k
  = secret !!! (i * k + t)%nat.

(** The pixel loop of [revealsecret]. *)
Lemma revealsecret_loop (init : list Z) (m : nat) :
  length init = (len * k)%nat -> (m <= len)%nat ->
  let res :=
    fold_left
      (fun px i =>
         let mat := map (fun j => vandermonde_row (shadows !!! j) k i) (seq 0 k) in
         let mat := findcoefficients mat k in
         fold_left
           (fun px j => <[j := to_uint8 (mget mat (j mod k)%nat k)]> px)
           (seq (i * k) k) px)
      (seq 0 m) init in
  length res = length init /\
  forall idx, (idx < m * k)%nat -> res !!! idx = secret !!! idx.
Proof.
  intros Hinit. cbv zeta. induction m as [|m IH]; intros Hm.
  - split; [reflexivity|]. intros idx Hidx. lia.
  - rewrite seq_S, fold_left_app. cbn [fold_left Nat.add].
    destruct (IH ltac:(lia)) as [IHl IHg].
    set (prev := fold_left _ (seq 0 m) init) in *.
    set (mat := findcoefficients _ k).
    destruct (fold_insert_lookup (fun j => to_uint8 (mget mat (j mod k)%nat k))
                (m * k) k prev) as [Fl Fg].
    cbv zeta in Fl, Fg.
    split; [rewrite Fl; exact IHl|].
    intros idx Hidx. rewrite Fg.
    destruct (decide _) as [[Hr _]|Hout].
    + set (t := (idx - m * k)%nat).
      replace idx with (t + m * k)%nat by lia.
      rewrite Nat.Div0.mod_add, Nat.mod_small by lia.
      unfold mat. rewrite solved by lia.
      replace (m * k + t)%nat with (t + m * k)%nat by lia.
      unfold to_uint8. apply Z.mod_small. apply secret_bytes.
    + apply IHg. rewrite IHl, Hinit in Hout.
      assert ((m * k + k <= len * k)%nat) by nia.
      lia.
Qed.

End RevealLoop.

(** The matrix that [revealsecret] fills for pixel [i] holds the powers of
    the shadow numbers, as long as the last power computed fits in an
    [int]. *)
Lemma revealsecret_matrix (shadows : list Bitmap) (k i : nat) :
  (1 <= k)%nat ->
  (forall j, (j < k)%nat ->
     0 <= bmp_unused2 (bmpheader (shadows !!! j)) /\
     bmp_unused2 (bmpheader (shadows !!! j)) ^ Z.of_nat k <= 2147483647) ->
  map (fun j => vandermonde_row (shadows !!! j) k i) (seq 0 k)
  = power_matrix k ((fun j => bmp_unused2 (bmpheader (shadows !!! j))) <$> seq 0 k)
                   ((fun j => imgpixels (shadows !!! j) !!! i) <$> seq 0 k).
Proof.
  intros Hk Hx. unfold power_matrix. change (map ?f ?l) with (f <$> l).
  apply list_fmap_ext. intros j j0 Hj.
  apply lookup_seq in Hj as [-> Hj]. cbn [Nat.add].
  rewrite !lookup_total_fmap_seq by exact Hj.
  apply vandermonde_row_powers; [exact Hk|apply Hx; exact Hj|apply Hx; exact Hj].
Qed.

(** X20: interpolation on the matrix of [revealsecret].  Let [k >= 2] shadows
    have distinct numbers [x_j] in [1, 250] with [250 * x_j^(k-1)] within
    [int], and let pixel [i] of shadow [j] be the value at [x_j] modulo 251
    of a polynomial with coefficients [a_0 .. a_(k-1)] in [0, 250].  Then
    [findcoefficients], run on the matrix that [revealsecret] builds for
    pixel [i], leaves [a_t] in [mat[t][k]]. *)
Theorem findcoefficients_interpolates_shadows
    (shadows : list Bitmap) (k i : nat) (a : nat -> Z) :
  (2 <= k)%nat ->
  (forall j j', (j < k)%nat -> (j' < k)%nat -> j <> j' ->
     bmp_unused2 (bmpheader (shadows !!! j)) <> bmp_unused2 (bmpheader (shadows !!! j'))) ->
  (forall j, (j < k)%nat ->
     1 <= bmp_unused2 (bmpheader (shadows !!! j)) <= 250 /\
     250 * bmp_unused2 (bmpheader (shadows !!! j)) ^ (Z.of_nat k - 1) <= 2147483647) ->
  (forall t, (t < k)%nat -> 0 <= a t <= 250) ->
  (forall j, (j < k)%nat ->
     imgpixels (shadows !!! j) !!! i
     = zsum k (fun t => a t * bmp_unused2 (bmpheader (shadows !!! j)) ^ Z.of_nat t) mod 251) ->
  forall t, (t < k)%nat ->
    mget (findcoefficients (map (fun j => vandermonde_row (shadows !!! j) k i) (seq 0 k)) k) t k
    = a t.
Proof.
  intros Hk Hnd Hx Ha Hy t Ht.
  rewrite revealsecret_matrix.
  - apply findcoefficients_recovers; try assumption.
    + intros j j' Hj Hj' Hne. rewrite !lookup_total_fmap_seq by assumption.
      apply Hnd; assumption.
    + intros j Hj. rewrite lookup_total_fmap_seq by exact Hj. apply Hx. exact Hj.
    + intros j Hj. rewrite !lookup_total_fmap_seq by exact Hj. apply Hy. exact Hj.
  - lia.
  - intros j Hj. destruct (Hx j Hj) as [Hr Hp].
    set (x := bmp_unused2 (bmpheader (shadows !!! j))) in *.
    split; [lia|].
    assert (0 <= x ^ (Z.of_nat k - 1)) by (apply Z.pow_nonneg; lia).
    replace (Z.of_nat k) with (Z.succ (Z.of_nat k - 1)) by lia.
    rewrite Z.pow_succ_r by lia. nia.
Qed.

Lemma findcoefficients_interpolates_shadows_witness :
  mget (findcoefficients
          (map (fun j => vandermonde_row
                           ([set_imgpixels (newshadow 1 1 DEFAULT_SEED 3) [70];
                             set_imgpixels (newshadow 1 1 DEFAULT_SEED 1) [30]] !!! j) 2 0)
               (seq 0 2)) 2) 1 2
  = [10; 20] !!! 1%nat.
Proof.
  apply (findcoefficients_interpolates_shadows
           [set_imgpixels (newshadow 1 1 DEFAULT_SEED 3) [70];
            set_imgpixels (newshadow 1 1 DEFAULT_SEED 1) [30]]
           2 0 (fun t => [10; 20] !!! t)).
  - lia.
  - intros j j' Hj Hj' Hne.
    destruct j as [|[|j]]; destruct j' as [|[|j']]; try lia; cbn; lia.
  - intros j Hj. destruct j as [|[|j]]; [cbn; lia|cbn; lia|lia].
  - intros t Ht. destruct t as [|[|t]]; [cbn; lia|cbn; lia|lia].
  - intros j Hj. destruct j as [|[|j]]; [reflexivity|reflexivity|lia].
  - lia.
Defined.

Lemma lookup_total_bytes (px : list Z) (b : Z) :
  1 <= b -> Forall (fun p => 0 <= p <= b) px -> forall idx, 0 <= px !!! idx <= b.
Proof.
  intros Hb Hpx idx.
  destruct (decide (idx < length px)%nat) as [Hlt|Hge].
  - rewrite Forall_lookup in Hpx. apply (Hpx idx).
    apply list_lookup_lookup_total_lt. exact Hlt.
  - rewrite list_lookup_total_alt, lookup_ge_None_2 by lia. cbn. lia.
Qed.

(** X21: when the secret is made of whole sections of [k] bytes, the
    dimensions found for the shadows hold one byte per section and the
    sums stay below [2^53], [formshadows] returns [n] shadows, numbered
    from 1, and pixel [j] of shadow number [x] is the value at [x] modulo
    251 of the polynomial whose coefficients are the pixels
    [j*k .. j*k + k - 1] of the secret. *)
Theorem formshadows_evaluates_sections
    (bp : Bitmap) (k n seed width0 height0 width height : Z) :
  1 <= k <= 65535 -> 0 <= n <= 65535 ->
  255 * k * n ^ (k - 1) < 2 ^ 53 ->
  Forall (fun p => 0 <= p <= 255) (imgpixels bp) ->
  length (imgpixels bp) = Z.to_nat (bmpimagesize bp) ->
  bmpimagesize bp mod k = 0 ->
  findclosestpair (bmpimagesize bp / k) width0 height0 = (width, height) ->
  to_uint32 (width * height) = bmpimagesize bp / k ->
  formshadows bp k n seed width0 height0
  = Some (section_shadow (imgpixels bp) (Z.to_nat k) width height seed
            (Z.to_nat (bmpimagesize bp / k)) <$> seq 0 (Z.to_nat n)).
Proof.
  intros Hk Hn Hfit Hpx _ Hdiv Hpair Hwh.
  apply formshadows_sections; assumption.
Qed.

Lemma formshadows_evaluates_sections_witness :
  formshadows secret36 2 3 DEFAULT_SEED 0 0
  = Some (section_shadow (imgpixels secret36) 2 3 6 DEFAULT_SEED 18 <$> seq 0 3).
Proof.
  apply (formshadows_evaluates_sections secret36 2 3 DEFAULT_SEED 0 0 3 6).
  - lia.
  - lia.
  - vm_compute. reflexivity.
  - apply Forall_forall. intros p Hp. apply elem_of_replicate in Hp as [-> _]. lia.
  - reflexivity.
  - reflexivity.
  - vm_compute. reflexivity.
  - reflexivity.
Defined.

(** [revealsecret] on [k] bitmaps that carry the shadow numbers and the
    pixels of shadows of the secret. *)
Lemma revealsecret_sections
    (bp : Bitmap) (k n seed w h width height : Z) (chosen : list nat) (T : list Bitmap) :
  2 <= k <= 65535 ->
  Forall (fun p => 0 <= p <= 250) (imgpixels bp) ->
  length (imgpixels bp) = Z.to_nat (bmpimagesize bp) ->
  bmpimagesize bp mod k = 0 ->
  to_uint32 (w * h) = bmpimagesize bp / k ->
  calculatepixelarraysize width height = bmpimagesize bp ->
  length chosen = Z.to_nat k -> NoDup chosen ->
  Forall (fun i => (i < Z.to_nat n)%nat /\ Z.of_nat i + 1 <= 250 /\
                   250 * (Z.of_nat i + 1) ^ (k - 1) <= 2147483647) chosen ->
  (forall j, (j < Z.to_nat k)%nat ->
     T !!! j = section_shadow (imgpixels bp) (Z.to_nat k) w h seed
                 (Z.to_nat (bmpimagesize bp / k)) (chosen !!! j)) ->
  revealsecret T width height (Z.to_nat k)
  = set_imgpixels (newbitmap width height seed) (imgpixels bp).
Proof.
  intros Hk Hpx Hlen Hdiv Hwh Hsize Hcl Hnd Hch HT.
  set (px := imgpixels bp) in *. set (K := Z.to_nat k) in *.
  set (P := bmpimagesize bp) in *.
  set (len := Z.to_nat (P / k)) in *.
  set (N := Z.to_nat n) in *.
  assert (HP : 0 <= P).
  { rewrite <- Hsize. unfold calculatepixelarraysize, to_uint32.
    apply Z.mod_pos_bound. lia. }
  assert (HPk : P = k * (P / k)).
  { pose proof (Z.div_mod P k ltac:(lia)). lia. }
  assert (Hq : 0 <= P / k) by (apply Z.div_pos; lia).
  assert (Hsel : forall j, (j < K)%nat ->
            (chosen !!! j < N)%nat /\ Z.of_nat (chosen !!! j) + 1 <= 250 /\
            250 * (Z.of_nat (chosen !!! j) + 1) ^ (k - 1) <= 2147483647).
  { intros j Hj. rewrite Forall_lookup in Hch. apply (Hch j).
    apply list_lookup_lookup_total_lt. lia. }
  unfold revealsecret. cbv zeta.
  rewrite (HT 0%nat) by (unfold K; lia).
  change (bmp_unused1 (bmpheader (section_shadow px K w h seed len (chosen !!! 0%nat))))
    with seed.
  change (dib_pixelarraysize (dibheader (section_shadow px K w h seed len (chosen !!! 0%nat))))
    with (to_uint32 (w * h)).
  rewrite Hwh. fold len.
  f_equal.
  set (init := imgpixels (newbitmap width height seed)).
  assert (Hinit : length init = (len * K)%nat).
  { unfold init, newbitmap, newbitmaphelper. cbn [imgpixels].
    rewrite length_replicate, Hsize. unfold len, K. lia. }
  assert (Hsolved : forall i t, (i < len)%nat -> (t < K)%nat ->
    mget (findcoefficients (map (fun j => vandermonde_row (T !!! j) K i) (seq 0 K)) K) t K
    = px !!! (i * K + t)%nat).
  { intros i t Hi Ht.
    set (xs := (fun j => Z.of_nat (chosen !!! j) + 1) <$> seq 0 K).
    set (ys := (fun j => section_value px K i (Z.of_nat (chosen !!! j) + 1)) <$> seq 0 K).
    assert (E : map (fun j => vandermonde_row (T !!! j) K i) (seq 0 K)
                = power_matrix K xs ys).
    { unfold power_matrix. change (map ?f ?l) with (f <$> l).
      apply list_fmap_ext. intros j j0 Hj.
      apply lookup_seq in Hj as [-> Hj]. cbn [Nat.add].
      unfold xs, ys. rewrite !lookup_total_fmap_seq by exact Hj.
      destruct (Hsel j Hj) as (_ & Hx & Hxp).
      set (x := Z.of_nat (chosen !!! j) + 1) in *.
      assert (Hx0 : 0 <= x ^ (k - 1)) by (apply Z.pow_nonneg; lia).
      rewrite vandermonde_row_powers.
      - rewrite HT by exact Hj. unfold section_shadow.
        cbn [set_imgpixels bmpheader newshadow newbitmaphelper bmp_unused2 imgpixels].
        fold x. rewrite lookup_total_fmap_seq by exact Hi. reflexivity.
      - unfold K. lia.
      - rewrite HT by exact Hj. unfold section_shadow.
        cbn [set_imgpixels bmpheader newshadow newbitmaphelper bmp_unused2]. lia.
      - rewrite HT by exact Hj. unfold section_shadow.
        cbn [set_imgpixels bmpheader newshadow newbitmaphelper bmp_unused2].
        fold x. replace (Z.of_nat K) with (Z.succ (k - 1)) by (unfold K; lia).
        rewrite Z.pow_succ_r by lia. nia. }
    rewrite E.
    apply (findcoefficients_recovers K xs ys (fun t => px !!! (i * K + t)%nat)).
    - unfold K. lia.
    - intros j j' Hj Hj' Hne. unfold xs. rewrite !lookup_total_fmap_seq by assumption.
      intros Heq. apply Hne.
      apply (NoDup_lookup chosen j j' (chosen !!! j) Hnd).
      + apply list_lookup_lookup_total_lt. lia.
      + replace (chosen !!! j) with (chosen !!! j') by lia.
        apply list_lookup_lookup_total_lt. lia.
    - intros j Hj. unfold xs. rewrite lookup_total_fmap_seq by exact Hj.
      destruct (Hsel j Hj) as (_ & Hx & Hxp).
      replace (Z.of_nat K - 1) with (k - 1) by (unfold K; lia). lia.
    - intros t' _. apply lookup_total_bytes; [lia|exact Hpx].
    - intros j Hj. unfold xs, ys. rewrite !lookup_total_fmap_seq by exact Hj.
      reflexivity.
    - exact Ht. }
  destruct (revealsecret_loop px K len T ltac:(unfold K; lia)
              ltac:(intros idx; pose proof (lookup_total_bytes px 250 ltac:(lia) Hpx idx); lia)
              Hsolved init len Hinit ltac:(lia)) as [Rl Rg].
  cbv zeta in Rl, Rg.
  replace (Z.to_nat (P / k)) with len by reflexivity.
  apply (list_eq_same_length _ _ (len * K)%nat).
  - rewrite Hlen. unfold len, K. lia.
  - rewrite Rl. exact Hinit.
  - intros idx a b Hidx Ha Hb.
    apply list_lookup_total_correct in Ha, Hb. subst a b.
    apply Rg. exact Hidx.
Qed.


(** X22: round trip without overflow.  Let [2 <= k <= 65535] and [n <= 65535];
    let the secret have a pixel array of the size [P] that its header
    gives, a multiple of [k], with pixels of at most 250; let
    [findclosestpair] in [formshadows] find dimensions [w], [h] with
    [w * h = P/k] (it does not for every size); let [255 * k * n^(k-1)] be
    below [2^53]; and let [width], [height] have a pixel array of size [P].
    Then [formshadows] returns [n] shadows, and [revealsecret] run on any
    [k] distinct ones, in any order, returns the bitmap with the key of the
    shadows and the pixels of the secret, provided the numbers [x] of the
    chosen shadows are at most 250 and [250 * x^(k-1)] fits in an [int]. *)
Theorem revealsecret_inverts_formshadows
    (bp : Bitmap) (k n seed width0 height0 w h width height : Z) (chosen : list nat) :
  2 <= k <= 65535 -> 0 <= n <= 65535 ->
  255 * k * n ^ (k - 1) < 2 ^ 53 ->
  Forall (fun p => 0 <= p <= 250) (imgpixels bp) ->
  length (imgpixels bp) = Z.to_nat (bmpimagesize bp) ->
  bmpimagesize bp mod k = 0 ->
  findclosestpair (bmpimagesize bp / k) width0 height0 = (w, h) ->
  to_uint32 (w * h) = bmpimagesize bp / k ->
  calculatepixelarraysize width height = bmpimagesize bp ->
  length chosen = Z.to_nat k -> NoDup chosen ->
  Forall (fun i => (i < Z.to_nat n)%nat /\ Z.of_nat i + 1 <= 250 /\
                   250 * (Z.of_nat i + 1) ^ (k - 1) <= 2147483647) chosen ->
  exists shadows,
    formshadows bp k n seed width0 height0 = Some shadows /\
    revealsecret ((fun i => shadows !!! i) <$> chosen) width height (Z.to_nat k)
    = set_imgpixels (newbitmap width height seed) (imgpixels bp).
Proof.
  intros Hk Hn Hfit Hpx Hlen Hdiv Hpair Hwh Hsize Hcl Hnd Hch.
  eexists. split.
  { apply formshadows_sections; try eassumption; try lia.
    eapply Forall_impl; [exact Hpx|]. cbn. intros p Hp. lia. }
  apply (revealsecret_sections bp k n seed w h width height chosen); try assumption.
  intros j Hj. rewrite (list_lookup_total_fmap _ chosen j) by lia.
  apply lookup_total_fmap_seq.
  rewrite Forall_lookup in Hch. apply (Hch j).
  apply list_lookup_lookup_total_lt. lia.
Qed.

Lemma revealsecret_inverts_formshadows_witness :
  exists shadows,
    formshadows secret36 2 3 DEFAULT_SEED 0 0 = Some shadows /\
    revealsecret ((fun i => shadows !!! i) <$> [2; 0]%nat) 12 3 (Z.to_nat 2)
    = set_imgpixels (newbitmap 12 3 DEFAULT_SEED) (imgpixels secret36).
Proof.
  apply (revealsecret_inverts_formshadows secret36 2 3 DEFAULT_SEED 0 0 3 6 12 3 [2; 0]%nat).
  - lia.
  - lia.
  - vm_compute. reflexivity.
  - apply Forall_forall. intros p Hp. apply elem_of_replicate in Hp as [-> _]. lia.
  - reflexivity.
  - reflexivity.
  - vm_compute. reflexivity.
  - reflexivity.
  - reflexivity.
  - reflexivity.
  - apply (bool_decide_unpack _). vm_compute. exact I.
  - repeat constructor; cbn; lia.
Defined.

(** ** Recovery from hidden shadows *)

(** A shadow that went through [hideshadow] and [retrieveshadow] comes out
    with its key, its number, its dimensions and its pixels. *)
Lemma retrieveshadow_hideshadow_shadow
    (carrier : Bitmap) (w h seed x width height k : Z) (spx : list Z) :
  length spx = Z.to_nat (to_uint32 (w * h)) ->
  Forall is_byte spx ->
  8 * to_uint32 (w * h) <= Z.of_nat (length (imgpixels carrier)) ->
  findclosestpair (calculatepixelarraysize width height / k) width height = (w, h) ->
  retrieveshadow (hideshadow carrier (set_imgpixels (newshadow w h seed x) spx)) width height k
  = set_imgpixels (newshadow w h seed x) spx.
Proof.
  intros Hlen Hbytes Hcar Hpair.
  set (pixels := to_uint32 (w * h)) in *.
  assert (Hp : 0 <= pixels < 2 ^ 32).
  { unfold pixels, to_uint32. apply Z.mod_pos_bound. lia. }
  set (shadow := set_imgpixels (newshadow w h seed x) spx).
  assert (Hsz : bmpimagesize shadow = pixels).
  { change (bmpimagesize shadow) with (bmpimagesize (newshadow w h seed x)).
    unfold newshadow. apply bmpimagesize_newbitmaphelper. exact Hp. }
  unfold retrieveshadow. rewrite Hpair.
  change (bmp_unused1 (bmpheader (hideshadow carrier shadow))) with seed.
  change (bmp_unused2 (bmpheader (hideshadow carrier shadow))) with x.
  change (dib_pixelarraysize (dibheader (newshadow w h seed x))) with pixels.
  change (imgpixels (newshadow w h seed x)) with (replicate (Z.to_nat pixels) 0).
  change (imgpixels (hideshadow carrier shadow))
    with (hide_loop spx (Z.to_nat (bmpimagesize shadow)) (imgpixels carrier)).
  rewrite Hsz.
  unfold shadow, set_imgpixels. cbn [bmpheader dibheader palette]. f_equal.
  assert (Hb : forall i, (i < Z.to_nat pixels)%nat -> is_byte (spx !!! i)).
  { intros i Hi. rewrite Forall_lookup in Hbytes. apply (Hbytes i).
    apply list_lookup_lookup_total_lt. lia. }
  assert (Hc : (8 * Z.to_nat pixels <= length (imgpixels carrier))%nat) by lia.
  pose proof (retrieve_loop_spec (hide_loop spx (Z.to_nat pixels) (imgpixels carrier))
                (Z.to_nat pixels) (replicate (Z.to_nat pixels) 0)) as H.
  cbn zeta in H. destruct H as [Hl Hpx]; [rewrite length_replicate; lia|].
  rewrite length_replicate in Hl.
  apply (list_eq_same_length _ _ (Z.to_nat pixels)); [exact Hlen|exact Hl|].
  intros i a b Hi Ha Hb'.
  apply list_lookup_total_correct in Ha, Hb'. subst a b.
  rewrite Hpx. destruct (decide _); [|lia].
  apply retrieve_hidden_byte; assumption.
Qed.

(** X23: the secret survives the whole chain.  Let [2 <= k <= 65535] and
    [n <= 65535]; let the secret have a pixel array of the size [P] that
    its header gives, a multiple of [k], with pixels of at most 250; let
    [findclosestpair] find dimensions [w], [h] with [w * h = P/k] both in
    [formshadows] and, started from [width] and [height], in
    [retrieveshadow]; let [255 * k * n^(k-1)] be below [2^53]; and let
    [width], [height] have a pixel array of size [P].  If each of [k]
    distinct shadows of [formshadows], with numbers [x] of at most 250 and
    [250 * x^(k-1)] within [int], is hidden by [hideshadow] in a carrier of
    at least [8 * P/k] bytes and taken out again by [retrieveshadow], then
    [revealsecret] on the retrieved shadows, in any order, returns the
    bitmap with the key and the pixels of the secret. *)
Theorem revealsecret_after_hideshadow
    (bp : Bitmap) (k n seed width0 height0 w h width height : Z) (chosen : list nat)
    (carrier : nat -> Bitmap) :
  2 <= k <= 65535 -> 0 <= n <= 65535 ->
  255 * k * n ^ (k - 1) < 2 ^ 53 ->
  Forall (fun p => 0 <= p <= 250) (imgpixels bp) ->
  length (imgpixels bp) = Z.to_nat (bmpimagesize bp) ->
  bmpimagesize bp mod k = 0 ->
  findclosestpair (bmpimagesize bp / k) width0 height0 = (w, h) ->
  findclosestpair (bmpimagesize bp / k) width height = (w, h) ->
  to_uint32 (w * h) = bmpimagesize bp / k ->
  calculatepixelarraysize width height = bmpimagesize bp ->
  length chosen = Z.to_nat k -> NoDup chosen ->
  Forall (fun i => (i < Z.to_nat n)%nat /\ Z.of_nat i + 1 <= 250 /\
                   250 * (Z.of_nat i + 1) ^ (k - 1) <= 2147483647 /\
                   8 * (bmpimagesize bp / k) <= Z.of_nat (length (imgpixels (carrier i))))
         chosen ->
  exists shadows,
    formshadows bp k n seed width0 height0 = Some shadows /\
    revealsecret
      ((fun i => retrieveshadow (hideshadow (carrier i) (shadows !!! i)) width height k)
         <$> chosen)
      width height (Z.to_nat k)
    = set_imgpixels (newbitmap width height seed) (imgpixels bp).
Proof.
  intros Hk Hn Hfit Hpx Hlen Hdiv Hpair Hpair' Hwh Hsize Hcl Hnd Hch.
  eexists. split.
  { apply formshadows_sections; try eassumption; try lia.
    eapply Forall_impl; [exact Hpx|]. cbn. intros p Hp. lia. }
  apply (revealsecret_sections bp k n seed w h width height chosen); try assumption.
  { eapply Forall_impl; [exact Hch|]. cbn. intros i Hi. tauto. }
  intros j Hj. rewrite (list_lookup_total_fmap _ chosen j) by lia.
  rewrite Forall_lookup in Hch.
  destruct (Hch j (chosen !!! j)) as (HjN & _ & _ & Hcar).
  { apply list_lookup_lookup_total_lt. lia. }
  rewrite lookup_total_fmap_seq by exact HjN.
  unfold section_shadow.
  apply retrieveshadow_hideshadow_shadow.
  - rewrite length_fmap, length_seq, Hwh. reflexivity.
  - apply Forall_forall. intros v Hv.
    apply list_elem_of_fmap in Hv as (j' & -> & _).
    unfold section_value, is_byte.
    pose proof (mod_range (zsum (Z.to_nat k)
      (fun t => imgpixels bp !!! (j' * Z.to_nat k + t)%nat * (Z.of_nat (chosen !!! j) + 1) ^ Z.of_nat t))).
    lia.
  - rewrite Hwh. exact Hcar.
  - rewrite Hsize. exact Hpair'.
Qed.

Lemma revealsecret_after_hideshadow_witness :
  exists shadows,
    formshadows secret36 2 3 DEFAULT_SEED 0 0 = Some shadows /\
    revealsecret
      ((fun i => retrieveshadow
                   (hideshadow (set_imgpixels (newbitmap 144 1 0) (replicate 144 (Z.of_nat i)))
                               (shadows !!! i)) 12 3 2)
         <$> [2; 0]%nat)
      12 3 (Z.to_nat 2)
    = set_imgpixels (newbitmap 12 3 DEFAULT_SEED) (imgpixels secret36).
Proof.
  apply (revealsecret_after_hideshadow secret36 2 3 DEFAULT_SEED 0 0 3 6 12 3 [2; 0]%nat
           (fun i => set_imgpixels (newbitmap 144 1 0) (replicate 144 (Z.of_nat i)))).
  - lia.
  - lia.
  - vm_compute. reflexivity.
  - apply Forall_forall. intros p Hp. apply elem_of_replicate in Hp as [-> _]. lia.
  - reflexivity.
  - reflexivity.
  - vm_compute. reflexivity.
  - vm_compute. reflexivity.
  - reflexivity.
  - reflexivity.
  - reflexivity.
  - apply (bool_decide_unpack _). vm_compute. exact I.
  - constructor; [|constructor; [|constructor]];
      (split; [cbn; lia|]); (split; [lia|]); (split; [lia|]);
      vm_compute; discriminate.
Defined.
